(** * Argon2 (RFC 9106) as implemented in noble-hashes' [argon2.ts]

    A shallow embedding of the Argon2 engine: the split 64-bit arithmetic
    ([mul], [mul2], [blamka]), the compression function ([G], [P], [block]),
    the variable-length hash [Hp], the indexing rule [indexAlpha], option
    validation ([initOpts], [argon2Init]), the pass/segment/lane driver in its
    blocking ([argon2]) and cooperative ([argon2Async]) forms, and the
    finalisation ([argon2Output]).

    JavaScript numbers that hold integers are modelled as [Z]; every place
    where the source converts a number to a 32-bit integer (bitwise
    operators, [Math.imul], stores into a [Uint32Array]) is written out with
    [toInt32] / [toUint32]. The numbers of the progress closure are doubles:
    its counter, its total and the fractions it reports are computed with
    the rounding of IEEE 754 ([JS.fmul], [JS.inc], [JS.fdiv]). *)

From Stdlib Require Import ZArith List Lia Bool QArith Qround.
From Stdlib Require Import Strings.Byte.
From Stdlib Require Floats.SpecFloat.
Import ListNotations.

Local Open Scope Z_scope.

(** ** JavaScript 32-bit integer operations *)

Module JS.

Definition two32 : Z := 4294967296.
Definition two31 : Z := 2147483648.

(** [ToUint32]: the value modulo 2^32. *)
Definition toUint32 (x : Z) : Z := x mod two32.

(** [ToInt32]: the value modulo 2^32, read as two's complement. *)
Definition toInt32 (x : Z) : Z := (x + two31) mod two32 - two31.

(** [a & b], [a | b], [a ^ b]: both operands go through [ToInt32]. *)
Definition and (a b : Z) : Z := Z.land (toInt32 a) (toInt32 b).
Definition or (a b : Z) : Z := Z.lor (toInt32 a) (toInt32 b).
Definition xor (a b : Z) : Z := Z.lxor (toInt32 a) (toInt32 b).

(** [a << n]: shift of the [ToInt32] value by [n mod 32], wrapped. *)
Definition shl (a n : Z) : Z := toInt32 (Z.shiftl (toInt32 a) (n mod 32)).

(** [a >>> n]: logical shift of the [ToUint32] value by [n mod 32]. *)
Definition shr (a n : Z) : Z := Z.shiftr (toUint32 a) (n mod 32).

(** [Math.imul(a, b)]: the low 32 bits of the product, signed. *)
Definition imul (a b : Z) : Z := toInt32 (toInt32 a * toInt32 b).

(** [Math.floor(a / b)] for the integers the source divides. *)
Definition floordiv (a b : Z) : Z := a / b.

(** [a % b]: the remainder takes the sign of the dividend. *)
Definition rem (a b : Z) : Z := Z.rem a b.

(** *** Doubles

    A number is an IEEE 754 double, and an arithmetic operation yields the
    double nearest to the exact result, a tie going to the even
    significand. A double that holds an integer is kept as that integer, a
    quotient as the fraction it equals exactly. The operands met here are
    non-negative integers below [2^64] and the divisors are positive, so
    every result is zero or lies in the normal range. *)

(** The integer nearest to [n / d], for [d > 0]; a tie goes to the even
    one. *)
Definition nearest (n d : Z) : Z :=
  let q := n / d in
  let r := n mod d in
  if 2 * r <? d then q
  else if d <? 2 * r then q + 1
  else if Z.even q then q else q + 1.

(** The binary exponent [e] of the fraction [n / d], for [n, d > 0]:
    [2^e <= n / d < 2^(e + 1)]. *)
Definition exponent (n d : Z) : Z :=
  let e := Z.log2 n - Z.log2 d in
  if n * 2 ^ Z.max (- e) 0 <? d * 2 ^ Z.max e 0 then e - 1 else e.

(** The double nearest to the fraction [n / d], for [n >= 0] and [d > 0]:
    the fraction is scaled by a power of two to lie between [2^52] and
    [2^53], rounded to the nearest integer (the 53-bit significand), and
    scaled back. *)
Definition toDouble (n d : Z) : Q :=
  if n <=? 0 then 0%Q
  else
    let e := exponent n d in
    let up := Z.max (52 - e) 0 in
    let down := Z.max (e - 52) 0 in
    let m := nearest (n * 2 ^ up) (d * 2 ^ down) in
    Qred ((m * 2 ^ down) # Z.to_pos (2 ^ up)).

(** The double nearest to the integer [n >= 0]: an integer, and [n] itself
    up to [2^53]. *)
Definition toNumber (n : Z) : Z :=
  let down := Z.max (Z.log2 n - 52) 0 in
  nearest n (2 ^ down) * 2 ^ down.

(** [a * b], [a / b] and [a++] on numbers that hold non-negative integers:
    the operands are doubles themselves, [toNumber] of an integer. *)
Definition fmul (a b : Z) : Z := toNumber (a * b).
Definition fdiv (a b : Z) : Q := toDouble a b.
Definition inc (a : Z) : Z := toNumber (a + 1).

End JS.

(** ** Typed arrays

    A [Uint32Array] is a list of words, each in [0, 2^32). A store converts
    the stored number with [ToUint32]; a store outside the array is ignored
    and a load outside the array reads [undefined], which every use in this
    file would coerce to 0. *)

Definition load (a : list Z) (i : Z) : Z :=
  if i <? 0 then 0 else nth (Z.to_nat i) a 0.

Fixpoint store_nat (a : list Z) (n : nat) (v : Z) : list Z :=
  match a, n with
  | [], _ => []
  | _ :: tl, O => v :: tl
  | hd :: tl, S n' => hd :: store_nat tl n' v
  end.

Definition store (a : list Z) (i v : Z) : list Z :=
  if i <? 0 then a else store_nat a (Z.to_nat i) (JS.toUint32 v).

(** [new Uint32Array(n)] and [a.fill(0)]. *)
Definition zeros (n : Z) : list Z := repeat 0 (Z.to_nat n).
Definition fill0 (a : list Z) : list Z := map (fun _ => 0) a.

(** [for (let i = start; i < start + n; i++) body(i)] over a threaded state. *)
Fixpoint forZ {St : Type} (n : nat) (i : Z) (body : Z -> St -> St) (st : St) : St :=
  match n with
  | O => st
  | S n' => forZ n' (i + 1) body (body i st)
  end.

(** [for (let i = lo; i < hi; i++) body(i)]. *)
Definition forRange {St : Type} (lo hi : Z) (body : Z -> St -> St) (st : St) : St :=
  forZ (Z.to_nat (hi - lo)) lo body st.

(** ** 64-bit helpers of [_u64.ts] *)

Module U64.

(** Modelled from the spec: [_u64.ts] is not among the sources. Section 4.1
    asks for the addition of several operands yielding [(h, l)] and for
    rotations of a 64-bit value held as two 32-bit halves; these are the
    three-operand addition and the right rotations [argon2.ts] imports.
    [add3L] adds the low halves as unsigned numbers without wrapping. *)
Definition add3L (Al Bl Cl : Z) : Z :=
  JS.shr Al 0 + JS.shr Bl 0 + JS.shr Cl 0.

(** Modelled from the spec: the high half of the three-operand sum, the
    carry being the part of [low] above 32 bits; the result is wrapped
    with [| 0]. *)
Definition add3H (low Ah Bh Ch : Z) : Z :=
  JS.toInt32 (Ah + Bh + Ch + JS.toInt32 (Z.quot low JS.two32)).

(** Modelled from the spec: right rotation by exactly 32 swaps the halves. *)
Definition rotr32H (h l : Z) : Z := l.
Definition rotr32L (h l : Z) : Z := h.

(** Modelled from the spec: right rotation by [s] with [0 < s < 32]. *)
Definition rotrSH (h l s : Z) : Z := JS.or (JS.shr h s) (JS.shl l (32 - s)).
Definition rotrSL (h l s : Z) : Z := JS.or (JS.shl h (32 - s)) (JS.shr l s).

(** Modelled from the spec: right rotation by [s] with [32 < s < 64]. *)
Definition rotrBH (h l s : Z) : Z := JS.or (JS.shl h (64 - s)) (JS.shr l (s - 32)).
Definition rotrBL (h l s : Z) : Z := JS.or (JS.shr h (s - 32)) (JS.shl l (64 - s)).

End U64.

(** ** The BlaMka primitive *)

(** The pair [{ h, l }] the arithmetic helpers return. *)
Record HL := mkHL { hi : Z; lo : Z }.

(** [mul]: u32 * u32 = u64, by 16-bit limbs and [Math.imul]. *)
Definition mul (a b : Z) : HL :=
  let aL := JS.and a 65535 in
  let aH := JS.shr a 16 in
  let bL := JS.and b 65535 in
  let bH := JS.shr b 16 in
  let ll := JS.imul aL bL in
  let hl := JS.imul aH bL in
  let lh := JS.imul aL bH in
  let hh := JS.imul aH bH in
  let carry := JS.shr ll 16 + JS.and hl 65535 + lh in
  let high := JS.or (hh + JS.shr hl 16 + JS.shr carry 16) 0 in
  let low := JS.or (JS.shl carry 16) (JS.and ll 65535) in
  mkHL high low.

(** [mul2]: 2 * a * b, by shifting the product left by one. *)
Definition mul2 (a b : Z) : HL :=
  let '(mkHL h l) := mul a b in
  mkHL (JS.and (JS.or (JS.shl h 1) (JS.shr l 31)) 4294967295)
       (JS.and (JS.shl l 1) 4294967295).

(** [blamka]: A + B + (2 * u32(A) * u32(B)). *)
Definition blamka (Ah Al Bh Bl : Z) : HL :=
  let '(mkHL Ch Cl) := mul2 Al Bl in
  let Rll := U64.add3L Al Bl Cl in
  mkHL (U64.add3H Rll Ah Bh Ch) (JS.or Rll 0).

(** ** The compression function *)

(** [G]: the BLAKE2b quarter round with BlaMka in place of the addition,
    on the four 64-bit words [a], [b], [c], [d] of the scratch [A2_BUF]. *)
Definition G (a b c d : Z) (A2_BUF : list Z) : list Z :=
  let Al := load A2_BUF (2 * a) in let Ah := load A2_BUF (2 * a + 1) in
  let Bl := load A2_BUF (2 * b) in let Bh := load A2_BUF (2 * b + 1) in
  let Cl := load A2_BUF (2 * c) in let Ch := load A2_BUF (2 * c + 1) in
  let Dl := load A2_BUF (2 * d) in let Dh := load A2_BUF (2 * d + 1) in

  let '(mkHL Ah Al) := blamka Ah Al Bh Bl in
  let '(Dh, Dl) := (JS.xor Dh Ah, JS.xor Dl Al) in
  let '(Dh, Dl) := (U64.rotr32H Dh Dl, U64.rotr32L Dh Dl) in

  let '(mkHL Ch Cl) := blamka Ch Cl Dh Dl in
  let '(Bh, Bl) := (JS.xor Bh Ch, JS.xor Bl Cl) in
  let '(Bh, Bl) := (U64.rotrSH Bh Bl 24, U64.rotrSL Bh Bl 24) in

  let '(mkHL Ah Al) := blamka Ah Al Bh Bl in
  let '(Dh, Dl) := (JS.xor Dh Ah, JS.xor Dl Al) in
  let '(Dh, Dl) := (U64.rotrSH Dh Dl 16, U64.rotrSL Dh Dl 16) in

  let '(mkHL Ch Cl) := blamka Ch Cl Dh Dl in
  let '(Bh, Bl) := (JS.xor Bh Ch, JS.xor Bl Cl) in
  let '(Bh, Bl) := (U64.rotrBH Bh Bl 63, U64.rotrBL Bh Bl 63) in

  let A2_BUF := store (store A2_BUF (2 * a) Al) (2 * a + 1) Ah in
  let A2_BUF := store (store A2_BUF (2 * b) Bl) (2 * b + 1) Bh in
  let A2_BUF := store (store A2_BUF (2 * c) Cl) (2 * c + 1) Ch in
  let A2_BUF := store (store A2_BUF (2 * d) Dl) (2 * d + 1) Dh in
  A2_BUF.

(** [P]: four column steps, then four diagonal steps. *)
Definition P (v00 v01 v02 v03 v04 v05 v06 v07
              v08 v09 v10 v11 v12 v13 v14 v15 : Z) (A2_BUF : list Z) : list Z :=
  let A2_BUF := G v00 v04 v08 v12 A2_BUF in
  let A2_BUF := G v01 v05 v09 v13 A2_BUF in
  let A2_BUF := G v02 v06 v10 v14 A2_BUF in
  let A2_BUF := G v03 v07 v11 v15 A2_BUF in
  let A2_BUF := G v00 v05 v10 v15 A2_BUF in
  let A2_BUF := G v01 v06 v11 v12 A2_BUF in
  let A2_BUF := G v02 v07 v08 v13 A2_BUF in
  let A2_BUF := G v03 v04 v09 v14 A2_BUF in
  A2_BUF.

(** [for (let i = lo; i < hi; i += step) body(i)], for [step > 0]. *)
Fixpoint forStepN {St : Type} (n : nat) (i step : Z) (body : Z -> St -> St) (st : St) : St :=
  match n with
  | O => st
  | S n' => forStepN n' (i + step) step body (body i st)
  end.

Definition forStep {St : Type} (lo hi step : Z) (body : Z -> St -> St) (st : St) : St :=
  forStepN (Z.to_nat ((hi - lo + step - 1) / step)) lo step body st.

(** [block(x, xPos, yPos, outPos, needXor)]: the block at [outPos] of [x]
    becomes (or is xored with) the compression of the blocks at [xPos] and
    [yPos]. The array [x] is threaded, so a source block that is also the
    output block is read and written as in the source; the module-global
    scratch [A2_BUF] is threaded as well and is zeroed at the end. *)
Definition block (x : list Z) (xPos yPos outPos : Z) (needXor : bool)
    (A2_BUF : list Z) : list Z * list Z :=
  let A2_BUF :=
    forRange 0 256 (fun i buf =>
      store buf i (JS.xor (load x (xPos + i)) (load x (yPos + i)))) A2_BUF in
  (* columns (8) *)
  let A2_BUF :=
    forStep 0 128 16 (fun i buf =>
      P i (i + 1) (i + 2) (i + 3) (i + 4) (i + 5) (i + 6) (i + 7)
        (i + 8) (i + 9) (i + 10) (i + 11) (i + 12) (i + 13) (i + 14) (i + 15) buf)
      A2_BUF in
  (* rows (8) *)
  let A2_BUF :=
    forStep 0 16 2 (fun i buf =>
      P i (i + 1) (i + 16) (i + 17) (i + 32) (i + 33) (i + 48) (i + 49)
        (i + 64) (i + 65) (i + 80) (i + 81) (i + 96) (i + 97) (i + 112) (i + 113) buf)
      A2_BUF in
  let x :=
    if needXor then
      forRange 0 256 (fun i x =>
        store x (outPos + i)
          (JS.xor (load x (outPos + i))
             (JS.xor (JS.xor (load A2_BUF i) (load x (xPos + i))) (load x (yPos + i))))) x
    else
      forRange 0 256 (fun i x =>
        store x (outPos + i)
          (JS.xor (JS.xor (load A2_BUF i) (load x (xPos + i))) (load x (yPos + i)))) x in
  (x, fill0 A2_BUF).

(** ** Bytes and views *)

Definition byte_of_Z (z : Z) : byte :=
  match Byte.of_N (Z.to_N (z mod 256)) with
  | Some b => b
  | None => x00
  end.

Definition byte_to_Z (b : byte) : Z := Z.of_N (Byte.to_N b).

Definition len {A : Type} (l : list A) : Z := Z.of_nat (length l).

(** The four bytes of a word and the word of four bytes, little-endian (the
    byte order of every platform the library supports). *)
Definition word_bytes (w : Z) : list byte :=
  [byte_of_Z w; byte_of_Z (w / 256); byte_of_Z (w / 65536); byte_of_Z (w / 16777216)].

Fixpoint bytes_words (bs : list byte) : list Z :=
  match bs with
  | b0 :: b1 :: b2 :: b3 :: tl =>
      (byte_to_Z b0 + 256 * byte_to_Z b1 + 65536 * byte_to_Z b2
       + 16777216 * byte_to_Z b3) :: bytes_words tl
  | _ => []
  end.

(** What [Hp] hands back: a [Uint8Array] on its fast path, a [Uint32Array]
    otherwise. *)
Inductive TypedArray :=
| Uint8Array (bytes : list byte)
| Uint32Array (words : list Z).

(** Modelled from the spec: [utils.ts] is not among the sources. [u8] is the
    byte view of a typed array over the same buffer: all of its bytes. *)
Definition u8 (arr : TypedArray) : list byte :=
  match arr with
  | Uint8Array bytes => bytes
  | Uint32Array words => flat_map word_bytes words
  end.

(** Modelled from the spec: [utils.ts] is not among the sources. [u32] is the
    32-bit view of a byte array over the same buffer; a [Uint32Array] holds
    whole words only, so the view has [floor(byteLength / 4)] elements. *)
Definition u32 (bytes : list byte) : list Z := bytes_words bytes.

(** The elements [TypedArray.prototype.set] copies from a source array. *)
Definition elements (arr : TypedArray) : list Z :=
  match arr with
  | Uint8Array bytes => map byte_to_Z bytes
  | Uint32Array words => words
  end.

(** [out.set(src, pos)] on a [Uint8Array]. The source throws a [RangeError]
    when the copy would not fit; every call in [Hp] fits ([pos + 32 <= dkLen]
    inside the loop, and the last block ends at [dkLen]), and here such a
    call leaves [out] as it is. *)
Definition set8 (out src : list byte) (pos : Z) : list byte :=
  if (pos <? 0) || (len out <? pos + len src) then out
  else firstn (Z.to_nat pos) out ++ src ++ skipn (Z.to_nat (pos + len src)) out.

(** [B.set(src, pos)] on a [Uint32Array]: element-wise stores. *)
Fixpoint set32 (B src : list Z) (pos : Z) : list Z :=
  match src with
  | [] => B
  | w :: tl => set32 (store B pos w) tl (pos + 1)
  end.

(** Modelled from the spec: [utils.ts] is not among the sources. [toBytes]
    normalises an [Input]; a byte array, the only form of [Input] modelled
    here, is passed through. *)
Definition toBytes (buf : list byte) : list byte := buf.

Definition toBytesOptional (buf : option (list byte)) : list byte :=
  match buf with
  | Some b => toBytes b
  | None => []
  end.

(** ** BLAKE2b, an external collaborator *)

(** Modelled from the spec: [blake2b.ts] is not among the sources. Section 2
    describes it as an incremental hasher with a configurable digest length of
    at most 64 bytes; [blake2b dkLen msg] is the digest of the concatenation of
    everything passed to [update], and it has [dkLen] bytes. *)
Class Blake2b := {
  blake2b : Z -> list byte -> list byte;
  blake2b_length : forall dkLen msg,
    1 <= dkLen <= 64 -> len (blake2b dkLen msg) = dkLen
}.

(** ** Errors and effects *)

(** The errors the source throws, named after the error kinds of the
    specification; each stands for one [throw new Error(...)]. *)
Inductive ArgonError :=
| InvalidDkLen            (* 'Argon2: dkLen should be at least 4 bytes' *)
| InvalidParallelism      (* 'Argon2: p (parallelism) should be at least 1 and less than 2^24' *)
| InvalidMemoryRange      (* 'Argon2: m should be 0 <= m < 2^32' *)
| InvalidIterations       (* 'Argon2: t (iterations) should be at least 1 and less than 2^32' *)
| InvalidProgressCallback (* 'progressCb should be function' *)
| InvalidMemory           (* 'Argon2: memory should be at least 8*p bytes' *)
| InvalidVersion          (* 'Argon2: unknown version=' + version *)
| InputTooLarge           (* 'Argon2: password should be less than 4 GB' *)
| InvalidSalt             (* 'Argon2: salt should be at least 8 bytes and less than 4 GB' *)
| InvalidType             (* 'invalid argon2 type' *)
| MemoryBudgetExceeded.   (* 'Argon2: mem should be less than 2**32, got: maxmem=...' *)

Inductive Result (A : Type) :=
| Ok (a : A)
| Throw (e : ArgonError).
Arguments Ok {A} a.
Arguments Throw {A} e.

(** What a call does that its caller can observe besides the value: the
    allocation of the matrix, in the order of the source. *)
Inductive Event :=
| AllocMatrix (words : Z).   (* new Uint32Array(memUsed) *)

(** A computation that may throw, with the events that happened before it
    returned or threw. *)
Definition Eff (A : Type) : Type := list Event * Result A.

Definition ret {A : Type} (a : A) : Eff A := ([], Ok a).
Definition throw {A : Type} (e : ArgonError) : Eff A := ([], Throw e).
Definition emit (ev : Event) : Eff unit := ([ev], Ok tt).

Definition bind {A B : Type} (m : Eff A) (f : A -> Eff B) : Eff B :=
  match m with
  | (evs, Ok a) => let '(evs', r) := f a in (evs ++ evs', r)
  | (evs, Throw e) => (evs, Throw e)
  end.

Notation "x <- m ;; k" := (bind m (fun x => k))
  (at level 61, m at next level, right associativity).
Notation "m ;;; k" := (bind m (fun _ => k))
  (at level 61, right associativity).

(** [if (cond) throw new Error(...)]. *)
Definition throw_if (cond : bool) (e : ArgonError) : Eff unit :=
  if cond then throw e else ret tt.

(** ** Options *)

Definition AT_Argond2d : Z := 0.
Definition AT_Argon2i : Z := 1.
Definition AT_Argon2id : Z := 2.
Definition AT_values : list Z := [AT_Argond2d; AT_Argon2i; AT_Argon2id].

Definition ARGON2_SYNC_POINTS : Z := 4.

(** What [opts.onProgress] holds: nothing ([undefined], or [null], which
    [initOpts] does not merge), a function, or a value that is not a
    function. The function itself is a sink: what it is called with is
    recorded (see [Progress]). *)
Inductive OnProgress :=
| NoCallback
| Callback
| NotAFunction.

(** [onProgress !== undefined] and [typeof onProgress === 'function']. *)
Definition is_defined (f : OnProgress) : bool :=
  match f with NoCallback => false | _ => true end.
Definition is_function (f : OnProgress) : bool :=
  match f with Callback => true | _ => false end.

(** [ArgonOpts]: [t], [m], [p] are required; an absent option is [None].
    The numeric options are integers: a number that is not an integer
    fails [Number.isSafeInteger] in [isUint32] like an integer out of
    range. *)
Record ArgonOpts := mkOpts {
  opt_t : Z;
  opt_m : Z;
  opt_p : Z;
  opt_version : option Z;
  opt_key : option (list byte);
  opt_personalization : option (list byte);
  opt_dkLen : option Z;
  opt_asyncTick : option Z;
  opt_maxmem : option Z;
  opt_onProgress : OnProgress
}.

(** The options after the defaults were merged in. *)
Record Merged := mkMerged {
  mg_t : Z;
  mg_m : Z;
  mg_p : Z;
  mg_version : Z;
  mg_key : option (list byte);
  mg_personalization : option (list byte);
  mg_dkLen : Z;
  mg_asyncTick : Z;
  mg_maxmem : Z;
  mg_onProgress : OnProgress
}.

Definition maxUint32 : Z := 2 ^ 32.

(** [Number.isSafeInteger(num) && num >= 0 && num < maxUint32]; every
    integer in the range is a safe integer. *)
Definition isUint32 (num : Z) : bool := (0 <=? num) && (num <? maxUint32).

(** [merged[k] = v] for the options that are given, over the defaults. *)
Definition or_default (v : option Z) (d : Z) : Z :=
  match v with Some x => x | None => d end.

(** The [merged] object of [initOpts]: the defaults, overwritten by every
    option that is given. *)
Definition merge_defaults (opts : ArgonOpts) : Merged :=
  mkMerged (opt_t opts) (opt_m opts) (opt_p opts)
    (or_default (opt_version opts) 19)
    (opt_key opts) (opt_personalization opts)
    (or_default (opt_dkLen opts) 32)
    (or_default (opt_asyncTick opts) 10)
    (or_default (opt_maxmem opts) (2 ^ 32 - 1))
    (opt_onProgress opts).

Definition initOpts (opts : ArgonOpts) : Eff Merged :=
  let merged := merge_defaults opts in
  let dkLen := mg_dkLen merged in
  let p := mg_p merged in
  let m := mg_m merged in
  let t := mg_t merged in
  let version := mg_version merged in
  let onProgress := mg_onProgress merged in
  throw_if (negb (isUint32 dkLen) || (dkLen <? 4)) InvalidDkLen ;;;
  throw_if (negb (isUint32 p) || (p <? 1) || (2 ^ 24 <=? p)) InvalidParallelism ;;;
  throw_if (negb (isUint32 m)) InvalidMemoryRange ;;;
  throw_if (negb (isUint32 t) || (t <? 1)) InvalidIterations ;;;
  throw_if (is_defined onProgress && negb (is_function onProgress))
    InvalidProgressCallback ;;;
  throw_if (negb (isUint32 m) || (m <? 8 * p)) InvalidMemory ;;;
  throw_if (negb (version =? 16) && negb (version =? 19)) InvalidVersion ;;;
  ret merged.

(** ** Progress reporting *)

(** The state of the [perBlock] closure: its counter, and the numbers
    [onProgress] was called with, oldest first. *)
Record Progress := mkProgress {
  blockCnt : Z;
  calls : list Q
}.

(** What [perBlock] was built with; [None] is the empty closure [() => {}]. *)
Record PerBlock := mkPerBlock {
  totalBlock : Z;
  callbackPer : Z
}.

Definition perBlock (cfg : option PerBlock) (pg : Progress) : Progress :=
  match cfg with
  | None => pg
  | Some c =>
      let cnt := JS.inc (blockCnt pg) in
      if (JS.rem cnt (callbackPer c) =? 0) || (cnt =? totalBlock c)
      then mkProgress cnt (calls pg ++ [JS.fdiv cnt (totalBlock c)])
      else mkProgress cnt (calls pg)
  end.

(** ** The indexing rule *)

Definition indexAlpha (r s laneLen segmentLen index randL : Z) (sameLane : bool) : Z :=
  let area :=
    if r =? 0 then
      if s =? 0 then index - 1
      else if sameLane then s * segmentLen + index - 1
      else s * segmentLen + (if index =? 0 then -1 else 0)
    else if sameLane then laneLen - segmentLen + index - 1
    else laneLen - segmentLen + (if index =? 0 then -1 else 0) in
  let startPos :=
    if negb (r =? 0) && negb (s =? ARGON2_SYNC_POINTS - 1)
    then (s + 1) * segmentLen else 0 in
  let rel := area - 1 - hi (mul area (hi (mul randL randL))) in
  JS.rem (startPos + rel) laneLen.

(** The previous block of [processBlock]: [if (offset % laneLen) prev = offset - 1]. *)
Definition prevOf (offset laneLen prev : Z) : Z :=
  if JS.rem offset laneLen =? 0 then prev else offset - 1.

(** The reference lane and block of [processBlock], from the pseudo-random
    pair [(randL, randH)]. *)
Definition refLaneOf (l r s lanes randH : Z) : Z :=
  if (r =? 0) && (s =? 0) then l else JS.rem randH lanes.

Definition refBlockOf (l r s index laneLen segmentLen lanes randL randH : Z) : Z :=
  let refLane := refLaneOf l r s lanes randH in
  let refPos := indexAlpha r s laneLen segmentLen index randL (refLane =? l) in
  laneLen * refLane + refPos.

Section Engine.

Context {Hasher : Blake2b}.

(** ** Variable-length hash H' *)

(** The "rest blocks" loop of [Hp]:
    [for (; dkLen - pos > 64; pos += 32) { V = H(V); out.set(V[0..32], pos) }].
    [fuel] bounds the number of turns; [Z.to_nat dkLen] turns are enough
    (lemma [Hp_rest_spec]). *)
Fixpoint Hp_rest (fuel : nat) (dkLen : Z) (V : list byte) (pos : Z) (out : list byte)
    : list byte * Z * list byte :=
  match fuel with
  | O => (V, pos, out)
  | S fuel' =>
      if 64 <? dkLen - pos then
        let V := blake2b 64 V in
        let out := set8 out (firstn 32 V) pos in
        Hp_rest fuel' dkLen V (pos + 32) out
      else (V, pos, out)
  end.

Definition Hp (A : list Z) (dkLen : Z) : TypedArray :=
  let A8 := u8 (Uint32Array A) in
  let T := store (zeros 1) 0 dkLen in
  let T8 := u8 (Uint32Array T) in
  (* Fast path *)
  if dkLen <=? 64 then Uint8Array (blake2b dkLen (T8 ++ A8))
  else
    let out := repeat x00 (Z.to_nat dkLen) in
    let V := blake2b 64 (T8 ++ A8) in
    let pos := 0 in
    (* First block *)
    let out := set8 out (firstn 32 V) 0 in
    let pos := pos + 32 in
    (* Rest blocks *)
    let '(V, pos, out) := Hp_rest (Z.to_nat dkLen) dkLen V pos out in
    (* Last block *)
    let out := set8 out (blake2b (dkLen - pos) V) pos in
    Uint32Array (u32 out).

(** ** Initialisation *)

(** What [argon2Init] returns, and with it the final contents of its two
    local buffers [BUF] and [H0]. *)
Record Init := mkInit {
  in_type : Z;
  in_mP : Z;
  in_p : Z;
  in_t : Z;
  in_version : Z;
  in_B : list Z;
  in_laneLen : Z;
  in_lanes : Z;
  in_segmentLen : Z;
  in_dkLen : Z;
  in_perBlock : option PerBlock;
  in_asyncTick : Z;
  in_BUF : list Z;
  in_H0 : list Z
}.

(** [BUF[0] = item; h.update(BUF8)] for each of the six parameters; the
    hasher [h] is the message accumulated so far. *)
Definition absorb_params (items : list Z) (st : list Z * list byte) : list Z * list byte :=
  fold_left (fun '(BUF, h) item =>
               let BUF := store BUF 0 item in
               (BUF, h ++ u8 (Uint32Array BUF)))
            items st.

(** [BUF[0] = i.length; h.update(BUF8).update(i)] for each byte input. *)
Definition absorb_inputs (items : list (list byte)) (st : list Z * list byte)
    : list Z * list byte :=
  fold_left (fun '(BUF, h) i =>
               let BUF := store BUF 0 (len i) in
               (BUF, (h ++ u8 (Uint32Array BUF)) ++ i))
            items st.

(** The first two blocks of every lane. *)
Definition fill_first_blocks (p laneLen : Z) (st : list Z * list Z) : list Z * list Z :=
  forRange 0 p (fun l '(B, H0) =>
    let i := 256 * laneLen * l in
    let H0 := store H0 17 l in
    let H0 := store H0 16 0 in
    let B := set32 B (elements (Hp H0 1024)) i in
    let H0 := store H0 16 1 in
    let B := set32 B (elements (Hp H0 1024)) (i + 256) in
    (B, H0)) st.

(** The initial hash [H_0] into the 18-word buffer [H0]; yields [BUF] and
    [H0]. *)
Definition initial_hash (password salt key personalization : list byte)
    (p dkLen m t version type : Z) : list Z * list Z :=
  let BUF := zeros 1 in
  let '(BUF, h) := absorb_params [p; dkLen; m; t; version; type] (BUF, []) in
  let '(BUF, h) := absorb_inputs [password; salt; key; personalization] (BUF, h) in
  let H0 := zeros 18 in
  let H0 := u32 (set8 (u8 (Uint32Array H0)) (blake2b 64 h) 0) in
  (BUF, H0).

(** The [perBlock] closure [argon2Init] builds. Past [initOpts],
    [onProgress] is undefined or a function, and [if (onProgress)] tells
    which. *)
Definition progress_closure (onProgress : OnProgress) (t p segmentLen : Z)
    : option PerBlock :=
  if is_function onProgress then
    let totalBlock := JS.fmul (JS.fmul (JS.fmul t ARGON2_SYNC_POINTS) p) segmentLen in
    (* Invoke callback if progress changes from 10.01 to 10.02 *)
    let callbackPer := Z.max (Qfloor (JS.fdiv totalBlock 10000)) 1 in
    Some (mkPerBlock totalBlock callbackPer)
  else None.

Definition argon2Init (password salt : list byte) (type : Z) (opts : ArgonOpts)
    : Eff Init :=
  let password := toBytes password in
  let salt := toBytes salt in
  throw_if (negb (isUint32 (len password))) InputTooLarge ;;;
  throw_if (negb (isUint32 (len salt)) || (len salt <? 8)) InvalidSalt ;;;
  throw_if (negb (existsb (Z.eqb type) AT_values)) InvalidType ;;;
  merged <- initOpts opts ;;
  let p := mg_p merged in
  let dkLen := mg_dkLen merged in
  let m := mg_m merged in
  let t := mg_t merged in
  let version := mg_version merged in
  let maxmem := mg_maxmem merged in
  let onProgress := mg_onProgress merged in
  let asyncTick := mg_asyncTick merged in
  (* Validation *)
  let key := toBytesOptional (mg_key merged) in
  let personalization := toBytesOptional (mg_personalization merged) in
  let '(BUF, H0) :=
    initial_hash password salt key personalization p dkLen m t version type in
  (* Params *)
  let lanes := p in
  let mP := 4 * p * JS.floordiv m (ARGON2_SYNC_POINTS * p) in
  let laneLen := JS.floordiv mP p in
  let segmentLen := JS.floordiv laneLen ARGON2_SYNC_POINTS in
  let memUsed := mP * 256 in
  throw_if (negb (isUint32 maxmem) || (maxmem <? memUsed)) MemoryBudgetExceeded ;;;
  emit (AllocMatrix memUsed) ;;;
  let B := zeros memUsed in
  (* Fill first blocks *)
  let '(B, H0) := fill_first_blocks p laneLen (B, H0) in
  let perBlock := progress_closure onProgress t p segmentLen in
  let BUF := fill0 BUF in
  let H0 := fill0 H0 in
  ret (mkInit type mP p t version B laneLen lanes segmentLen dkLen perBlock asyncTick
         BUF H0).

(** ** Finalisation *)

(** The tag, and the final contents of the accumulator [B_final]. *)
Definition argon2Output (B : list Z) (p laneLen dkLen : Z) : list byte * list Z :=
  let B_final := zeros 256 in
  let B_final :=
    forRange 0 p (fun l B_final =>
      forRange 0 256 (fun j B_final =>
        store B_final j
          (JS.xor (load B_final j) (load B (256 * (laneLen * l + laneLen - 1) + j))))
        B_final) B_final in
  let res := u8 (Hp B_final dkLen) in
  let B_final := fill0 B_final in
  (res, B_final).

(** ** One block of the fill *)

(** The arrays a fill step works on: the matrix, the address triple
    [[address, input, zero_block]] and the scratch. *)
Record Mem := mkMem {
  mem_B : list Z;
  mem_address : list Z;
  mem_A2_BUF : list Z
}.

(** [address[256 + 12]++; block(address, 256, 2 * 256, 0, false);
    block(address, 0, 2 * 256, 0, false)]. *)
Definition next_addresses (address A2_BUF : list Z) : list Z * list Z :=
  let address := store address (256 + 12) (load address (256 + 12) + 1) in
  let '(address, A2_BUF) := block address 256 (2 * 256) 0 false A2_BUF in
  block address 0 (2 * 256) 0 false A2_BUF.

Definition processBlock (mem : Mem)
    (l r s index laneLen segmentLen lanes offset prev : Z)
    (dataIndependent needXor : bool) : Mem :=
  let '(mkMem B address A2_BUF) := mem in
  let prev := prevOf offset laneLen prev in
  let '(address, A2_BUF, randL, randH) :=
    if dataIndependent then
      let i128 := JS.rem index 128 in
      let '(address, A2_BUF) :=
        if i128 =? 0 then next_addresses address A2_BUF else (address, A2_BUF) in
      (address, A2_BUF, load address (2 * i128), load address (2 * i128 + 1))
    else
      let T := 256 * prev in
      (address, A2_BUF, load B T, load B (T + 1)) in
  (* address block *)
  let refBlock := refBlockOf l r s index laneLen segmentLen lanes randL randH in
  (* B[i][j] = G(B[i][j-1], B[l][z]) *)
  let '(B, A2_BUF) := block B (256 * prev) (256 * refBlock) (offset * 256) needXor A2_BUF in
  mkMem B address A2_BUF.

(** ** The pass / segment / lane driver *)

(** The state of the fill: the arrays and the [perBlock] closure. *)
Record Fill := mkFill {
  fill_mem : Mem;
  fill_progress : Progress
}.

(** What a top-level call leaves behind when it returns: the tag, the
    fractions reported to [onProgress], and the final contents of every
    buffer the call wrote. *)
Record Returned := mkReturned {
  output : list byte;
  reported : list Q;
  final_A2_BUF : list Z;
  final_BUF : list Z;
  final_H0 : list Z;
  final_address : list Z;
  final_B_final : list Z;
  final_B : list Z
}.

(** The head of the lane loop, the same text in [argon2] and [argon2Async]:
    the lane and the counter go into the input block, and in the first
    segment of the first pass the first address block is computed. It
    yields the arrays and [startPos]. *)
Definition lane_start (mem : Mem) (r s l : Z) (dataIndependent : bool) : Mem * Z :=
  let '(mkMem B address A2_BUF) := mem in
  let address := store address (256 + 2) l in
  let address := store address (256 + 12) 0 in
  if (r =? 0) && (s =? 0) then
    if dataIndependent then
      let '(address, A2_BUF) := next_addresses address A2_BUF in
      (mkMem B address A2_BUF, 2)
    else (mkMem B address A2_BUF, 2)
  else (mkMem B address A2_BUF, 0).

(** [type == AT.Argon2i || (type == AT.Argon2id && r === 0 && s < 2)]. *)
Definition dataIndependentAt (type r s : Z) : bool :=
  (type =? AT_Argon2i) || ((type =? AT_Argon2id) && (r =? 0) && (s <? 2)).

(** [r !== 0 && version === 0x13]. *)
Definition needXorAt (r version : Z) : bool := negb (r =? 0) && (version =? 19).

(** [offset % laneLen ? offset - 1 : offset + laneLen - 1]. *)
Definition prevStart (offset laneLen : Z) : Z :=
  if JS.rem offset laneLen =? 0 then offset + laneLen - 1 else offset - 1.

Definition set_address (st : Fill) (i v : Z) : Fill :=
  let '(mkFill (mkMem B address A2_BUF) pg) := st in
  mkFill (mkMem B (store address i v) A2_BUF) pg.

(** The body of the lane loop of [argon2]. *)
Definition argon2_lane (ini : Init) (r s : Z) (l : Z) (st : Fill) : Fill :=
  let dataIndependent := dataIndependentAt (in_type ini) r s in
  let needXor := needXorAt r (in_version ini) in
  let laneLen := in_laneLen ini in
  let segmentLen := in_segmentLen ini in
  let '(mem, startPos) := lane_start (fill_mem st) r s l dataIndependent in
  let st := mkFill mem (fill_progress st) in
  (* current block postion *)
  let offset := l * laneLen + s * segmentLen + startPos in
  (* previous block position *)
  let prev := prevStart offset laneLen in
  let '(st, _, _) :=
    forRange startPos segmentLen (fun index '(st, offset, prev) =>
      let pg := perBlock (in_perBlock ini) (fill_progress st) in
      let mem :=
        processBlock (fill_mem st) l r s index laneLen segmentLen (in_lanes ini)
          offset prev dataIndependent needXor in
      (mkFill mem pg, offset + 1, prev + 1))
      (st, offset, prev) in
  st.

Definition argon2_segment (ini : Init) (r : Z) (s : Z) (st : Fill) : Fill :=
  let st := set_address st (256 + 4) s in
  forRange 0 (in_p ini) (argon2_lane ini r s) st.

Definition argon2_pass (ini : Init) (r : Z) (st : Fill) : Fill :=
  let st := set_address st (256 + 0) r in
  forRange 0 ARGON2_SYNC_POINTS (argon2_segment ini r) st.

(** The address triple before the first pass. *)
Definition address_init (ini : Init) : list Z :=
  let address := zeros (3 * 256) in
  let address := store address (256 + 6) (in_mP ini) in
  let address := store address (256 + 8) (in_t ini) in
  let address := store address (256 + 10) (in_type ini) in
  address.

(** [argon2]: the blocking entry point. [A2_BUF] is the module-global
    scratch as the call finds it. *)
Definition argon2 (type : Z) (password salt : list byte) (opts : ArgonOpts)
    (A2_BUF : list Z) : Eff Returned :=
  ini <- argon2Init password salt type opts ;;
  (* Pre-loop setup *)
  let address := address_init ini in
  let st := mkFill (mkMem (in_B ini) address A2_BUF) (mkProgress 0 []) in
  let st := forRange 0 (in_t ini) (argon2_pass ini) st in
  let '(mkFill (mkMem B address A2_BUF) pg) := st in
  let address := fill0 address in
  let '(res, B_final) := argon2Output B (in_p ini) (in_laneLen ini) (in_dkLen ini) in
  ret (mkReturned res (calls pg) A2_BUF (in_BUF ini) (in_H0 ini) address B_final B).

Definition argon2d (password salt : list byte) (opts : ArgonOpts) :=
  argon2 AT_Argond2d password salt opts.
Definition argon2i (password salt : list byte) (opts : ArgonOpts) :=
  argon2 AT_Argon2i password salt opts.
Definition argon2id (password salt : list byte) (opts : ArgonOpts) :=
  argon2 AT_Argon2id password salt opts.

(** ** The cooperative entry point *)

(** The host of a cooperative call: what the [k]-th reading of [Date.now()]
    returns, and what the tasks that ran during the [k]-th [await
    nextTick()] left in the module-global scratch [A2_BUF], the only array
    of a call that other code can reach. *)
Record Host := mkHost {
  host_now : nat -> Z;
  host_scratch : nat -> list Z
}.

(** The state of the cooperative fill: the fill itself, the clock baseline
    [ts], and how often the clock was read and control was given up. *)
Record FillAsync := mkFillAsync {
  async_fill : Fill;
  async_ts : Z;
  async_reads : nat;
  async_yields : nat
}.

(** [const diff = Date.now() - ts;
     if (!(diff >= 0 && diff < asyncTick)) { await nextTick(); ts += diff; }] *)
Definition tick (host : Host) (asyncTick : Z) (st : FillAsync) : FillAsync :=
  let '(mkFillAsync fl ts reads yields) := st in
  let diff := host_now host reads - ts in
  let reads := S reads in
  if negb ((0 <=? diff) && (diff <? asyncTick)) then
    let '(mkFill (mkMem B address _) pg) := fl in
    mkFillAsync (mkFill (mkMem B address (host_scratch host yields)) pg)
      (ts + diff) reads (S yields)
  else mkFillAsync fl ts reads yields.

Definition set_address_async (st : FillAsync) (i v : Z) : FillAsync :=
  let '(mkFillAsync fl ts reads yields) := st in
  mkFillAsync (set_address fl i v) ts reads yields.

Definition argon2Async_lane (host : Host) (ini : Init) (r s : Z) (l : Z)
    (st : FillAsync) : FillAsync :=
  let dataIndependent := dataIndependentAt (in_type ini) r s in
  let needXor := needXorAt r (in_version ini) in
  let laneLen := in_laneLen ini in
  let segmentLen := in_segmentLen ini in
  let '(mkFillAsync fl ts reads yields) := st in
  let '(mem, startPos) := lane_start (fill_mem fl) r s l dataIndependent in
  let st := mkFillAsync (mkFill mem (fill_progress fl)) ts reads yields in
  (* current block postion *)
  let offset := l * laneLen + s * segmentLen + startPos in
  (* previous block position *)
  let prev := prevStart offset laneLen in
  let '(st, _, _) :=
    forRange startPos segmentLen (fun index '(st, offset, prev) =>
      let '(mkFillAsync fl ts reads yields) := st in
      let pg := perBlock (in_perBlock ini) (fill_progress fl) in
      let mem :=
        processBlock (fill_mem fl) l r s index laneLen segmentLen (in_lanes ini)
          offset prev dataIndependent needXor in
      let st := mkFillAsync (mkFill mem pg) ts reads yields in
      (tick host (in_asyncTick ini) st, offset + 1, prev + 1))
      (st, offset, prev) in
  st.

Definition argon2Async_segment (host : Host) (ini : Init) (r : Z) (s : Z)
    (st : FillAsync) : FillAsync :=
  let st := set_address_async st (256 + 4) s in
  forRange 0 (in_p ini) (argon2Async_lane host ini r s) st.

Definition argon2Async_pass (host : Host) (ini : Init) (r : Z) (st : FillAsync)
    : FillAsync :=
  let st := set_address_async st (256 + 0) r in
  forRange 0 ARGON2_SYNC_POINTS (argon2Async_segment host ini r) st.

(** [argon2Async]: the cooperative entry point, run to completion under
    [host]. *)
Definition argon2Async (host : Host) (type : Z) (password salt : list byte)
    (opts : ArgonOpts) (A2_BUF : list Z) : Eff Returned :=
  ini <- argon2Init password salt type opts ;;
  (* Pre-loop setup *)
  let address := address_init ini in
  let ts := host_now host 0%nat in
  let st :=
    mkFillAsync (mkFill (mkMem (in_B ini) address A2_BUF) (mkProgress 0 []))
      ts 1%nat 0%nat in
  let st := forRange 0 (in_t ini) (argon2Async_pass host ini) st in
  let '(mkFill (mkMem B address A2_BUF) pg) := async_fill st in
  let address := fill0 address in
  let '(res, B_final) := argon2Output B (in_p ini) (in_laneLen ini) (in_dkLen ini) in
  ret (mkReturned res (calls pg) A2_BUF (in_BUF ini) (in_H0 ini) address B_final B).

Definition argon2dAsync (host : Host) (password salt : list byte) (opts : ArgonOpts) :=
  argon2Async host AT_Argond2d password salt opts.
Definition argon2iAsync (host : Host) (password salt : list byte) (opts : ArgonOpts) :=
  argon2Async host AT_Argon2i password salt opts.
Definition argon2idAsync (host : Host) (password salt : list byte) (opts : ArgonOpts) :=
  argon2Async host AT_Argon2id password salt opts.

End Engine.

(** * The vocabulary of the statements *)

(** ** BlaMka as the specification writes it *)

(** [BlaMka(A, B) = A + B + 2 * (A mod 2^32) * (B mod 2^32) mod 2^64]. *)
Definition BlaMka (A B : Z) : Z :=
  (A + B + 2 * (A mod 2 ^ 32) * (B mod 2 ^ 32)) mod 2 ^ 64.

(** The halves of a 64-bit value as unsigned numbers, and as the signed
    32-bit integers [x | 0] yields. *)
Definition unsigned_halves (R : Z) : HL := mkHL (R / 2 ^ 32) (R mod 2 ^ 32).

Definition signed_halves (R : Z) : HL :=
  mkHL (JS.toInt32 (R / 2 ^ 32)) (JS.toInt32 (R mod 2 ^ 32)).

(** ** The traversal order *)

(** The place of the step [(r, s, l, index)] in the order in which the
    driver runs its four loops: passes, then segments, then lanes, then the
    blocks of the segment. *)
Definition stepNo (lanes segmentLen r s l index : Z) : Z :=
  ((r * ARGON2_SYNC_POINTS + s) * lanes + l) * segmentLen + index.

(** Where the content of the block at column [refPos] of lane [refLane]
    comes from when the block at [(r, l, s, index)] is produced: a segment
    the current pass has not reached (so the prior pass wrote it), a segment
    the current pass has completed, or an earlier block of the current
    segment of the current lane. *)
Inductive WrittenEarlier (r s l index segmentLen refLane refPos : Z) : Prop :=
| PriorPass :
    1 <= r -> s < refPos / segmentLen ->
    WrittenEarlier r s l index segmentLen refLane refPos
| PriorSegment :
    refPos / segmentLen < s ->
    WrittenEarlier r s l index segmentLen refLane refPos
| EarlierBlock :
    refLane = l -> refPos / segmentLen = s -> refPos mod segmentLen < index ->
    WrittenEarlier r s l index segmentLen refLane refPos.

(** [startPos] of the lane loop. *)
Definition startPosOf (r s : Z) : Z := if (r =? 0) && (s =? 0) then 2 else 0.

(** What holds of the reference block chosen at step [(r, s, l, index)] from
    the pair [(randL, randH)]; [offset] and [prev] are the loop variables of
    the driver as [processBlock] receives and adjusts them. *)
Definition reference_block_ok
    (lanes laneLen segmentLen r s l index randL randH : Z) : Prop :=
  let offset0 := l * laneLen + s * segmentLen + startPosOf r s in
  let offset := offset0 + (index - startPosOf r s) in
  let prev := prevOf offset laneLen (prevStart offset0 laneLen + (index - startPosOf r s)) in
  let refLane := refLaneOf l r s lanes randH in
  let refBlock := refBlockOf l r s index laneLen segmentLen lanes randL randH in
  let refPos := refBlock - laneLen * refLane in
  0 <= refLane < lanes /\ 0 <= refPos < laneLen /\
  WrittenEarlier r s l index segmentLen refLane refPos /\
  (exists r', 0 <= r' <= r /\
     stepNo lanes segmentLen r' (refPos / segmentLen) refLane (refPos mod segmentLen)
     < stepNo lanes segmentLen r s l index) /\
  refBlock <> prev /\ refBlock <> offset.

(** ** Validation, read off the source *)

(** The first check of [initOpts] that fails, in the order of the source. *)
Definition option_error (mg : Merged) : option ArgonError :=
  let dkLen := mg_dkLen mg in
  let p := mg_p mg in
  let m := mg_m mg in
  let t := mg_t mg in
  let version := mg_version mg in
  let onProgress := mg_onProgress mg in
  if negb (isUint32 dkLen) || (dkLen <? 4) then Some InvalidDkLen
  else if negb (isUint32 p) || (p <? 1) || (2 ^ 24 <=? p) then Some InvalidParallelism
  else if negb (isUint32 m) then Some InvalidMemoryRange
  else if negb (isUint32 t) || (t <? 1) then Some InvalidIterations
  else if is_defined onProgress && negb (is_function onProgress)
  then Some InvalidProgressCallback
  else if negb (isUint32 m) || (m <? 8 * p) then Some InvalidMemory
  else if negb (version =? 16) && negb (version =? 19) then Some InvalidVersion
  else None.

(** The number of blocks [m'] and of 32-bit words of the matrix. *)
Definition mP_of (mg : Merged) : Z :=
  4 * mg_p mg * JS.floordiv (mg_m mg) (ARGON2_SYNC_POINTS * mg_p mg).

Definition memUsed_of (mg : Merged) : Z := mP_of mg * 256.

(** The first check of [argon2Init] before the memory budget that fails, in
    the order of the source. *)
Definition precheck_error (password salt : list byte) (type : Z) (mg : Merged)
    : option ArgonError :=
  if negb (isUint32 (len password)) then Some InputTooLarge
  else if negb (isUint32 (len salt)) || (len salt <? 8) then Some InvalidSalt
  else if negb (existsb (Z.eqb type) AT_values) then Some InvalidType
  else option_error mg.

(** The first check of [argon2Init] that fails. *)
Definition init_error (password salt : list byte) (type : Z) (mg : Merged)
    : option ArgonError :=
  match precheck_error password salt type mg with
  | Some e => Some e
  | None =>
      if negb (isUint32 (mg_maxmem mg)) || (mg_maxmem mg <? memUsed_of mg)
      then Some MemoryBudgetExceeded
      else None
  end.

(** Options with another key and personalization. *)
Definition with_key (opts : ArgonOpts) (key personalization : option (list byte))
    : ArgonOpts :=
  mkOpts (opt_t opts) (opt_m opts) (opt_p opts) (opt_version opts) key personalization
    (opt_dkLen opts) (opt_asyncTick opts) (opt_maxmem opts) (opt_onProgress opts).

(** Options with another yield budget, and with a progress callback (a
    function) or without one. *)
Definition with_async (opts : ArgonOpts) (asyncTick : option Z) (onProgress : bool)
    : ArgonOpts :=
  mkOpts (opt_t opts) (opt_m opts) (opt_p opts) (opt_version opts) (opt_key opts)
    (opt_personalization opts) (opt_dkLen opts) asyncTick (opt_maxmem opts)
    (if onProgress then Callback else NoCallback).

(** ** What a call returns *)

(** The state the fill of [argon2] ends in. *)
Definition fill_result (ini : Init) (A2_BUF : list Z) : Fill :=
  forRange 0 (in_t ini) (argon2_pass ini)
    (mkFill (mkMem (in_B ini) (address_init ini) A2_BUF) (mkProgress 0 [])).

(** The state the fill of [argon2Async] ends in. *)
Definition fill_result_async (host : Host) (ini : Init) (A2_BUF : list Z) : FillAsync :=
  forRange 0 (in_t ini) (argon2Async_pass host ini)
    (mkFillAsync (mkFill (mkMem (in_B ini) (address_init ini) A2_BUF) (mkProgress 0 []))
       (host_now host 0%nat) 1%nat 0%nat).

(** What a caller gets from a call: the tag, or the error. *)
Definition tag_of (r : Eff Returned) : Result (list byte) :=
  match snd r with
  | Ok ret => Ok (output ret)
  | Throw e => Throw e
  end.

(** A host whose other tasks reach the scratch only through this module:
    [A2_BUF] is private to it, and [block], the one function that writes
    it, leaves it zeroed whenever it returns, so that is how a task that
    ran during a yield leaves it. *)
Definition module_host (host : Host) : Prop :=
  forall k, host_scratch host k = repeat 0 256.

(** The auxiliary buffers of a returned call hold zeros: [H0] (18 words),
    [BUF] (1 word), the address triple (768 words), the scratch (as long as
    the call found it) and [B_final] (256 words). *)
Definition buffers_zeroed (A2_BUF : list Z) (ret : Returned) : Prop :=
  final_H0 ret = repeat 0 18 /\
  final_BUF ret = repeat 0 1 /\
  final_address ret = repeat 0 768 /\
  final_A2_BUF ret = repeat 0 (length A2_BUF) /\
  final_B_final ret = repeat 0 256.

Section Outcomes.

Context {Hasher : Blake2b}.

(** What [argon2Init] returns when no check fails. *)
Definition init_value (password salt : list byte) (type : Z) (mg : Merged) : Init :=
  let p := mg_p mg in
  let mP := mP_of mg in
  let laneLen := JS.floordiv mP p in
  let segmentLen := JS.floordiv laneLen ARGON2_SYNC_POINTS in
  let hashed :=
    initial_hash password salt (toBytesOptional (mg_key mg))
      (toBytesOptional (mg_personalization mg))
      p (mg_dkLen mg) (mg_m mg) (mg_t mg) (mg_version mg) type in
  let seeded := fill_first_blocks p laneLen (zeros (mP * 256), snd hashed) in
  mkInit type mP p (mg_t mg) (mg_version mg) (fst seeded) laneLen p segmentLen
    (mg_dkLen mg) (progress_closure (mg_onProgress mg) (mg_t mg) p segmentLen)
    (mg_asyncTick mg) (fill0 (fst hashed)) (fill0 (snd seeded)).

(** What [argon2] returns when no check fails. *)
Definition argon2_value (ini : Init) (A2_BUF : list Z) : Returned :=
  let st := fill_result ini A2_BUF in
  let out := argon2Output (mem_B (fill_mem st)) (in_p ini) (in_laneLen ini) (in_dkLen ini) in
  mkReturned (fst out) (calls (fill_progress st)) (mem_A2_BUF (fill_mem st))
    (in_BUF ini) (in_H0 ini) (fill0 (mem_address (fill_mem st))) (snd out)
    (mem_B (fill_mem st)).

(** What [argon2Async] returns under [host] when no check fails. *)
Definition argon2Async_value (host : Host) (ini : Init) (A2_BUF : list Z) : Returned :=
  let st := async_fill (fill_result_async host ini A2_BUF) in
  let out := argon2Output (mem_B (fill_mem st)) (in_p ini) (in_laneLen ini) (in_dkLen ini) in
  mkReturned (fst out) (calls (fill_progress st)) (mem_A2_BUF (fill_mem st))
    (in_BUF ini) (in_H0 ini) (fill0 (mem_address (fill_mem st))) (snd out)
    (mem_B (fill_mem st)).

(** The rule of the memory budget: the call throws the memory-budget error,
    with nothing allocated, exactly when [maxmem] is not an unsigned 32-bit
    integer or is less than [m' * 256]; otherwise it allocates the [m' * 256]
    words of the matrix and returns. *)
Definition memory_budget_rule (password salt : list byte) (type : Z) (opts : ArgonOpts)
    : Prop :=
  let maxmem := or_default (opt_maxmem opts) (2 ^ 32 - 1) in
  let m' := 4 * opt_p opts * (opt_m opts / (4 * opt_p opts)) in
  (argon2Init password salt type opts = ([], Throw MemoryBudgetExceeded)
   <-> (~ 0 <= maxmem < 2 ^ 32 \/ maxmem < m' * 256)) /\
  (0 <= maxmem < 2 ^ 32 -> m' * 256 <= maxmem ->
   exists ini,
     argon2Init password salt type opts = ([AllocMatrix (m' * 256)], Ok ini) /\
     len (in_B ini) = m' * 256).

End Outcomes.

(** ** Counting the produced blocks *)

(** The number of blocks the driver has produced when it enters lane [l] of
    segment [s] of pass [r]: every lane skips its two seeded blocks in the first
    segment of the first pass. *)
Definition produced_before (p segmentLen r s l : Z) : Z :=
  ((r * ARGON2_SYNC_POINTS + s) * p + l) * segmentLen
  - 2 * (if (r =? 0) && (s =? 0) then l else p).

(** A fraction strictly between 0 and 1. *)
Definition proper_fraction (q : Q) : Prop := (0 < q)%Q /\ (q < 1)%Q.

(** The closure after [k] calls: its counter is [k], or [2^53] where the
    counter stops, every fraction it has reported is proper, and it has
    reported once [k] reached [callbackPer]. *)
Definition progress_at (c : PerBlock) (k : Z) (pg : Progress) : Prop :=
  blockCnt pg = Z.min k (2 ^ 53) /\ Forall proper_fraction (calls pg) /\
  (callbackPer c <= k -> calls pg <> []).

(** ** Shapes and relations of the fill state *)

(** The lengths of the three arrays. *)
Definition mem_shape (mem : Mem) : nat * nat * nat :=
  (length (mem_B mem), length (mem_address mem), length (mem_A2_BUF mem)).

(** The scratch is zero. *)
Definition scratch_zero (mem : Mem) : Prop :=
  mem_A2_BUF mem = repeat 0 (length (mem_A2_BUF mem)).

Definition fill_shape (st : Fill) : nat * nat * nat := mem_shape (fill_mem st).

Definition fill_scratch_zero (st : Fill) : Prop := scratch_zero (fill_mem st).

(** Two memories with the same matrix and address triple, whose scratch
    arrays may differ in content. *)
Definition same_data (m1 m2 : Mem) : Prop :=
  mem_B m1 = mem_B m2 /\ mem_address m1 = mem_address m2 /\
  length (mem_A2_BUF m1) = 256%nat /\ length (mem_A2_BUF m2) = 256%nat.

(** Two results of [argon2Init] that differ at most in the progress closure
    and the yield budget. *)
Definition same_engine (i1 i2 : Init) : Prop :=
  in_type i1 = in_type i2 /\ in_mP i1 = in_mP i2 /\ in_p i1 = in_p i2 /\
  in_t i1 = in_t i2 /\ in_version i1 = in_version i2 /\ in_B i1 = in_B i2 /\
  in_laneLen i1 = in_laneLen i2 /\ in_lanes i1 = in_lanes i2 /\
  in_segmentLen i1 = in_segmentLen i2 /\ in_dkLen i1 = in_dkLen i2.

(** ** The three loops of [block], one by one *)

Definition block_scratch_load (x : list Z) (xPos yPos : Z) (A2_BUF : list Z) : list Z :=
  forRange 0 256 (fun i buf =>
    store buf i (JS.xor (load x (xPos + i)) (load x (yPos + i)))) A2_BUF.

Definition block_permute (A2_BUF : list Z) : list Z :=
  let A2_BUF :=
    forStep 0 128 16 (fun i buf =>
      P i (i + 1) (i + 2) (i + 3) (i + 4) (i + 5) (i + 6) (i + 7)
        (i + 8) (i + 9) (i + 10) (i + 11) (i + 12) (i + 13) (i + 14) (i + 15) buf)
      A2_BUF in
  forStep 0 16 2 (fun i buf =>
      P i (i + 1) (i + 16) (i + 17) (i + 32) (i + 33) (i + 48) (i + 49)
        (i + 64) (i + 65) (i + 80) (i + 81) (i + 96) (i + 97) (i + 112) (i + 113) buf)
      A2_BUF.

Definition block_output (x : list Z) (xPos yPos outPos : Z) (needXor : bool)
    (A2_BUF : list Z) : list Z :=
  if needXor then
    forRange 0 256 (fun i x =>
      store x (outPos + i)
        (JS.xor (load x (outPos + i))
           (JS.xor (JS.xor (load A2_BUF i) (load x (xPos + i))) (load x (yPos + i))))) x
  else
    forRange 0 256 (fun i x =>
      store x (outPos + i)
        (JS.xor (JS.xor (load A2_BUF i) (load x (xPos + i))) (load x (yPos + i)))) x.

(** ** The quarter round on 64-bit words, as the specification writes it *)

(** The 64-bit word a pair of 32-bit halves stands for, whatever form
    (signed or unsigned) the halves are in. *)
Definition word64 (h l : Z) : Z := JS.toUint32 h * 2 ^ 32 + JS.toUint32 l.

(** The 64-bit word number [i] of an array of 32-bit words, low half first. *)
Definition word64_at (buf : list Z) (i : Z) : Z :=
  word64 (load buf (2 * i + 1)) (load buf (2 * i)).

(** Right rotation of a 64-bit word by [n] bits, [0 < n < 64]. *)
Definition rotr64 (x n : Z) : Z := x / 2 ^ n + (x mod 2 ^ n) * 2 ^ (64 - n).

(** [Ga(a, b, c, d)]:
    [a = BlaMka(a, b); d = rotr64(d xor a, 32);
     c = BlaMka(c, d); b = rotr64(b xor c, 24);
     a = BlaMka(a, b); d = rotr64(d xor a, 16);
     c = BlaMka(c, d); b = rotr64(b xor c, 63)]. *)
Definition Ga (a b c d : Z) : Z * Z * Z * Z :=
  let a := BlaMka a b in let d := rotr64 (Z.lxor d a) 32 in
  let c := BlaMka c d in let b := rotr64 (Z.lxor b c) 24 in
  let a := BlaMka a b in let d := rotr64 (Z.lxor d a) 16 in
  let c := BlaMka c d in let b := rotr64 (Z.lxor b c) 63 in
  (a, b, c, d).

(** ** What [block] computes *)

(** The xor of the blocks at [xPos] and [yPos], after the permutation. *)
Definition permuted (x : list Z) (xPos yPos : Z) : list Z :=
  block_permute
    (map (fun k => JS.toUint32 (JS.xor (load x (xPos + Z.of_nat k)) (load x (yPos + Z.of_nat k))))
       (seq 0 256)).

(** The word [block] writes at offset [i] of the output block. *)
Definition block_word (x : list Z) (xPos yPos outPos : Z) (needXor : bool) (i : Z) : Z :=
  let w :=
    JS.xor (JS.xor (load (permuted x xPos yPos) i) (load x (xPos + i))) (load x (yPos + i)) in
  JS.toUint32 (if needXor then JS.xor (load x (outPos + i)) w else w).

(** ** The variable-length hash, as the specification writes it *)

Section HPrime.

Context {Hasher : Blake2b}.

(** [V_i = BLAKE2b(V_(i-1), 64)], its first 32 bytes emitted, until
    [dkLen - pos <= 64]; then the tail [BLAKE2b(V_last, dkLen - pos)]. *)
Fixpoint H_prime_rest (fuel : nat) (V : list byte) (pos dkLen : Z) : list byte :=
  match fuel with
  | O => []
  | S fuel' =>
      if dkLen - pos <=? 64 then blake2b (dkLen - pos) V
      else
        let V := blake2b 64 V in
        firstn 32 V ++ H_prime_rest fuel' V (pos + 32) dkLen
  end.

(** [H'(input, dkLen)], with [T = LE32(dkLen)]. *)
Definition H_prime (input : list byte) (dkLen : Z) : list byte :=
  let T := word_bytes (JS.toUint32 dkLen) in
  if dkLen <=? 64 then blake2b dkLen (T ++ input)
  else
    let V1 := blake2b 64 (T ++ input) in
    firstn 32 V1 ++ H_prime_rest (Z.to_nat dkLen) V1 32 dkLen.

End HPrime.

(** ** The reference position, as the specification writes it *)

(** The size of the reference set. *)
Definition reference_area (r s laneLen segmentLen index : Z) (sameLane : bool) : Z :=
  if (r =? 0) && (s =? 0) then index - 1
  else if r =? 0 then
    if sameLane then s * segmentLen + index - 1
    else s * segmentLen + (if index =? 0 then -1 else 0)
  else
    if sameLane then laneLen - segmentLen + index - 1
    else laneLen - segmentLen + (if index =? 0 then -1 else 0).

(** [rel = area - 1 - floor(area * floor(J1^2 / 2^32) / 2^32)], from the
    start of the set, modulo the lane length. *)
Definition reference_position (r s laneLen segmentLen index J1 : Z) (sameLane : bool) : Z :=
  let area := reference_area r s laneLen segmentLen index sameLane in
  let rel := area - 1 - area * (J1 * J1 / 2 ^ 32) / 2 ^ 32 in
  let startPos := if negb (r =? 0) && negb (s =? 3) then (s + 1) * segmentLen else 0 in
  (startPos + rel) mod laneLen.

(** ** Acceptance *)


(** ** Seeding and finalisation, as the specification writes them *)

(** [LE32(n)]: the four bytes of [n], little-endian. *)
Definition LE32 (n : Z) : list byte := word_bytes (JS.toUint32 n).

(** The message whose 64-byte BLAKE2b digest is [H_0]. *)
Definition H0_preimage (password salt key personalization : list byte)
    (p dkLen m t version type : Z) : list byte :=
  LE32 p ++ LE32 dkLen ++ LE32 m ++ LE32 t ++ LE32 version ++ LE32 type
  ++ LE32 (len password) ++ password ++ LE32 (len salt) ++ salt
  ++ LE32 (len key) ++ key ++ LE32 (len personalization) ++ personalization.

(** A byte field of the message as it stands there: its length, then its
    bytes; a field that is not given stands as a zero length and no
    bytes. *)
Definition encoded_field (field : option (list byte)) : list byte :=
  match field with
  | Some b => LE32 (len b) ++ b
  | None => LE32 0
  end.

Section Seeding.

Context {Hasher : Blake2b}.

(** [H'(H_0 || LE32(c) || LE32(l), 1024)] as 256 words: the block seeded at
    column [c] of lane [l]. *)
Definition seed_block (H0 : list byte) (c l : Z) : list Z :=
  u32 (H_prime (H0 ++ LE32 c ++ LE32 l) 1024).

End Seeding.

(** [C = B[q - 1] xor B[2q - 1] xor ... xor B[p q - 1]], word by word. *)
Definition last_column_xor (B : list Z) (p laneLen : Z) : list Z :=
  map (fun j =>
         fold_left
           (fun acc l =>
              Z.lxor acc
                (JS.toUint32 (load B (256 * (laneLen * Z.of_nat l + laneLen - 1) + Z.of_nat j))))
           (seq 0 (Z.to_nat p)) 0)
      (seq 0 256).

(** ** The produced blocks, the reports and the clock *)

(** The number of blocks the fill produces: all of them but the two seeded
    blocks of each lane. *)
Definition produced_blocks (ini : Init) : Z :=
  in_t ini * ARGON2_SYNC_POINTS * in_p ini * in_segmentLen ini - 2 * in_p ini.

(** The clock part of [tick]: the baseline [ts], the number of readings of
    the clock and the number of yields. *)
Definition tick_clock (host : Host) (asyncTick : Z) (c : Z * nat * nat) : Z * nat * nat :=
  let '(ts, reads, yields) := c in
  let diff := host_now host reads - ts in
  if negb ((0 <=? diff) && (diff <? asyncTick))
  then (ts + diff, S reads, S yields)
  else (ts, S reads, yields).

Definition async_clock (st : FillAsync) : Z * nat * nat :=
  (async_ts st, async_reads st, async_yields st).

(** The fraction of the [j]-th report. *)
Definition report (c : PerBlock) (j : nat) : Q :=
  JS.fdiv (Z.of_nat j * callbackPer c) (totalBlock c).

(** ** The permutation on 64-bit words, as the specification writes it *)

(** The quarter round on the words [a], [b], [c], [d] of a family of 64-bit
    words. *)
Definition G64 (a b c d : Z) (v : Z -> Z) : Z -> Z :=
  let '(x, y, z, w) := Ga (v a) (v b) (v c) (v d) in
  fun j => if j =? a then x else if j =? b then y
           else if j =? c then z else if j =? d then w else v j.

(** The round on sixteen words [v 0 .. v 15]: the quarter round on the four
    columns [(0,4,8,12) .. (3,7,11,15)], then on the four diagonals
    [(0,5,10,15) .. (3,4,9,14)]. *)
Definition round64 (v : Z -> Z) : Z -> Z :=
  G64 3 4 9 14 (G64 2 7 8 13 (G64 1 6 11 12 (G64 0 5 10 15
    (G64 3 7 11 15 (G64 2 6 10 14 (G64 1 5 9 13 (G64 0 4 8 12 v))))))).

(** The round on each run of sixteen consecutive words: word [j] belongs to
    the run [j / 16] and is its word number [j mod 16]. *)
Definition permute_runs (W : Z -> Z) (j : Z) : Z :=
  round64 (fun n => W (16 * (j / 16) + n)) (j mod 16).

(** The round on each of the eight strided groups: the group of word [j] is
    made of the pairs of words [2 * g, 2 * g + 1] (with [g = j mod 16 / 2])
    of the eight runs, and [j] is its word number [2 * (j / 16) + j mod 2]. *)
Definition permute_strided (W : Z -> Z) (j : Z) : Z :=
  round64 (fun n => W (16 * (n / 2) + 2 * (j mod 16 / 2) + n mod 2))
    (2 * (j / 16) + j mod 2).

(** The 64-bit word number [J] of the block that starts at offset [pos] of
    the matrix, low half first. *)
Definition word64_of_block (x : list Z) (pos J : Z) : Z :=
  word64 (load x (pos + (2 * J + 1))) (load x (pos + 2 * J)).

(** The compression of two blocks [X] and [Y] of 128 words: with
    [R = X xor Y], the permutation of [R] xored with [R]. *)
Definition compress64 (X Y : Z -> Z) (J : Z) : Z :=
  Z.lxor (permute_strided (permute_runs (fun j => Z.lxor (X j) (Y j))) J)
    (Z.lxor (X J) (Y J)).

(** [F] and [F'] hold the same sixteen words, [F] at the places [sigma k]. *)
Definition renamed (sigma : Z -> Z) (F F' : Z -> Z) : Prop :=
  forall k, 0 <= k < 16 -> F (sigma k) = F' k.

(** The array [buf] is as long as [buf0] and holds the 64-bit words [F]. *)
Definition holds_words (buf0 : list Z) (F : Z -> Z) (buf : list Z) : Prop :=
  length buf = length buf0 /\ forall j, word64_at buf j = F j.

(** ** Doubles, as the Standard Library specifies them *)

(** The double of IEEE 754 binary64 nearest to an integer, and the value of
    a non-negative finite double. *)
Definition double_of_Z (n : Z) : SpecFloat.spec_float :=
  SpecFloat.binary_normalize 53 1024 n 0 false.

Definition double_value (x : SpecFloat.spec_float) : Q :=
  match x with
  | SpecFloat.S754_finite false m e =>
      Qred ((Zpos m * 2 ^ Z.max e 0) # Z.to_pos (2 ^ Z.max (- e) 0))
  | _ => 0%Q
  end.

(** Pairs of operands and integers the operations are compared on: the
    small ones, and some around [2^53] and far above it. An integer stands
    for the double nearest to it. *)
Definition sample_operands : list (Z * Z) :=
  flat_map (fun a => map (fun b => (Z.of_nat a, Z.of_nat b)) (seq 1 12)) (seq 1 12)
  ++ [(9007199254740991, 9007199254740992); (9007199254740992, 9007199254740994);
      (6004799503160661, 10000); (9007199254740992, 10000);
      (4611686018427387904, 10000); (123456789012345678, 987654321098765432);
      (1, 72057594037927936); (18127092927089, 4000);
      (22800137409591870, 927537078322); (9007199254740993, 3);
      (18014398509481987, 4294967295); (4294967295, 4294967295)].

Definition sample_integers : list Z :=
  [0; 1; 4503599627370497; 9007199254740991; 9007199254740992; 9007199254740993;
   9007199254740994; 9007199254740995; 18014398509481985; 18014398509481987;
   72057594037927935; 1152921504606846977].

(** ** Concrete inputs

    A stand-in hasher (not BLAKE2b: any function with digests of the
    requested length fits the interface) lets the engine run on concrete
    inputs; the inputs are the smallest the validation accepts. *)

Definition toy_digest (dkLen : Z) (msg : list byte) : list byte :=
  let seed := fold_left (fun acc b => (acc * 31 + byte_to_Z b + 7) mod 65521) msg (len msg) in
  map (fun i => byte_of_Z (seed + 131 * Z.of_nat i + (seed / 256) * Z.of_nat i))
      (seq 0 (Z.to_nat dkLen)).

Lemma toy_digest_length dkLen msg :
  1 <= dkLen <= 64 -> len (toy_digest dkLen msg) = dkLen.
Proof.
  intros Hd. unfold toy_digest, len.
  rewrite length_map, length_seq. lia.
Qed.

Definition ToyHasher : Blake2b :=
  {| blake2b := toy_digest; blake2b_length := toy_digest_length |}.

(** An eight-byte salt and the options [{ t: 1, m: 8, p: 1 }], alone and
    with [dkLen], [maxmem] or [onProgress] given. *)
Definition salt8 : list byte := [x06; x07; x08; x09; x0a; x06; x07; x08].

Definition opts_min : ArgonOpts :=
  mkOpts 1 8 1 None None None None None None NoCallback.

Definition opts_dkLen (dkLen : Z) : ArgonOpts :=
  mkOpts 1 8 1 None None None (Some dkLen) None None NoCallback.

Definition opts_maxmem (maxmem : Z) : ArgonOpts :=
  mkOpts 1 8 1 None None None None None (Some maxmem) NoCallback.

Definition opts_progress : ArgonOpts :=
  mkOpts 1 8 1 None None None None None None Callback.

(** [{ t: 1, m: 12, p: 1, onProgress }]: twelve blocks, ten of them
    produced. *)
Definition opts_twelve : ArgonOpts :=
  mkOpts 1 12 1 None None None None None None Callback.

(** A host whose clock jumps by 7 ms between readings and whose other tasks
    leave ones in the scratch. *)
Definition host7 : Host :=
  mkHost (fun k => 7 * Z.of_nat k) (fun _ => repeat 1 256).

(** The same clock, with tasks that use the scratch through [block]. *)
Definition host_quiet : Host :=
  mkHost (fun k => 7 * Z.of_nat k) (fun _ => repeat 0 256).

(** Options with [asyncTick: 0], and a host whose clock stands still. *)
Definition opts_eager : ArgonOpts :=
  mkOpts 1 8 1 None None None None (Some 0) None NoCallback.

Definition host_frozen : Host :=
  mkHost (fun _ => 1000) (fun _ => repeat 1 256).

(** * Proofs *)

Ltac dlia := Z.to_euclidean_division_equations; lia.

(** ** The split 64-bit arithmetic *)

Lemma toUint32_range x : 0 <= JS.toUint32 x < 4294967296.
Proof. unfold JS.toUint32, JS.two32. dlia. Qed.

Lemma toInt32_range x : -2147483648 <= JS.toInt32 x < 2147483648.
Proof. unfold JS.toInt32, JS.two32, JS.two31. dlia. Qed.

Lemma toUint32_toInt32 x : JS.toUint32 (JS.toInt32 x) = JS.toUint32 x.
Proof. unfold JS.toUint32, JS.toInt32, JS.two32, JS.two31. dlia. Qed.

Lemma toInt32_small x : -2147483648 <= x < 2147483648 -> JS.toInt32 x = x.
Proof. unfold JS.toInt32, JS.two32, JS.two31. dlia. Qed.

Lemma toUint32_small x : 0 <= x < 4294967296 -> JS.toUint32 x = x.
Proof. unfold JS.toUint32, JS.two32. dlia. Qed.

Lemma and_65535 x : JS.and x 65535 = x mod 65536.
Proof.
  unfold JS.and. rewrite (toInt32_small 65535) by lia.
  change 65535 with (Z.ones 16). rewrite Z.land_ones by lia.
  change (2 ^ 16) with 65536.
  unfold JS.toInt32, JS.two32, JS.two31. dlia.
Qed.

Lemma shr_spec x n : 0 <= n < 32 -> JS.shr x n = JS.toUint32 x / 2 ^ n.
Proof.
  intros Hn. unfold JS.shr. rewrite Z.mod_small by lia.
  apply Z.shiftr_div_pow2. lia.
Qed.

Lemma or_0 x : JS.or x 0 = JS.toInt32 x.
Proof. unfold JS.or. rewrite (toInt32_small 0) by lia. apply Z.lor_0_r. Qed.

Lemma shl_spec x n : 0 <= n < 32 -> JS.shl x n = JS.toInt32 (JS.toInt32 x * 2 ^ n).
Proof.
  intros Hn. unfold JS.shl. rewrite Z.mod_small by lia.
  rewrite Z.shiftl_mul_pow2 by lia. reflexivity.
Qed.

Lemma and_all_ones x : JS.and x 4294967295 = JS.toInt32 x.
Proof.
  unfold JS.and. replace (JS.toInt32 4294967295) with (-1) by reflexivity.
  apply Z.land_m1_r.
Qed.

(** Bits that do not overlap add up. *)
Lemma lor_disjoint x y n :
  0 <= n -> 0 <= y < 2 ^ n -> Z.lor (x * 2 ^ n) y = x * 2 ^ n + y.
Proof.
  intros Hn Hy.
  rewrite <- Z.add_lor_land.
  assert (Z.land (x * 2 ^ n) y = 0) as ->; [|lia].
  apply Z.bits_inj'. intros k Hk.
  rewrite Z.land_spec, Z.bits_0.
  destruct (Z.lt_ge_cases k n) as [Hlt|Hge].
  - rewrite Z.mul_pow2_bits_low by lia. reflexivity.
  - destruct (Z.eq_dec y 0) as [->|Hy0].
    + rewrite Z.bits_0. apply andb_false_r.
    + rewrite (Z.bits_above_log2 y k); [apply andb_false_r|lia|].
      apply Z.log2_lt_pow2; [lia|].
      pose proof (Z.pow_le_mono_r 2 n k); lia.
Qed.

Lemma toUint32_lor x y :
  JS.toUint32 (Z.lor x y) = Z.lor (JS.toUint32 x) (JS.toUint32 y).
Proof.
  unfold JS.toUint32, JS.two32. change 4294967296 with (2 ^ 32).
  rewrite <- !Z.land_ones by lia. apply Z.land_lor_distr_l.
Qed.

Lemma mul_spec a b :
  JS.toUint32 (hi (mul a b)) * 4294967296 + JS.toUint32 (lo (mul a b))
  = JS.toUint32 a * JS.toUint32 b.
Proof.
  unfold mul. cbn [hi lo].
  rewrite !or_0, !and_65535.
  rewrite !shr_spec by lia. rewrite !shl_spec by lia.
  unfold JS.or. rewrite toUint32_lor, !toUint32_toInt32.
  unfold JS.imul.
  pose proof (toUint32_range a) as Ha. pose proof (toUint32_range b) as Hb.
  assert (HaL : a mod 65536 = JS.toUint32 a mod 65536)
    by (unfold JS.toUint32, JS.two32; dlia).
  assert (HbL : b mod 65536 = JS.toUint32 b mod 65536)
    by (unfold JS.toUint32, JS.two32; dlia).
  rewrite HaL, HbL.
  set (au := JS.toUint32 a) in *. set (bu := JS.toUint32 b) in *.
  change (2 ^ 16) with 65536.
  set (aL := au mod 65536). set (aH := au / 65536).
  set (bL := bu mod 65536). set (bH := bu / 65536).
  assert (0 <= aL < 65536) by (unfold aL; dlia).
  assert (0 <= bL < 65536) by (unfold bL; dlia).
  assert (0 <= aH < 65536) by (unfold aH; dlia).
  assert (0 <= bH < 65536) by (unfold bH; dlia).
  rewrite !(toInt32_small aL), !(toInt32_small aH), !(toInt32_small bL),
    !(toInt32_small bH) by lia.
  assert (Hprod : au * bu = aH * bH * 4294967296 + (aH * bL + aL * bH) * 65536 + aL * bL).
  { assert (Ea : au = aH * 65536 + aL) by (unfold aH, aL; dlia).
    assert (Eb : bu = bH * 65536 + bL) by (unfold bH, bL; dlia).
    rewrite Ea at 1. rewrite Eb at 1. ring. }
  rewrite Hprod.
  assert (0 <= aL * bL <= 65535 * 65535) by nia.
  assert (0 <= aH * bL <= 65535 * 65535) by nia.
  assert (0 <= aL * bH <= 65535 * 65535) by nia.
  assert (0 <= aH * bH <= 65535 * 65535) by nia.
  set (ll := aL * bL) in *. set (hl := aH * bL) in *.
  set (lh := aL * bH) in *. set (hh := aH * bH) in *.
  rewrite (toUint32_small (JS.toInt32 ll mod 65536)) by dlia.
  set (carry := JS.toUint32 (JS.toInt32 ll) / 65536 + JS.toInt32 hl mod 65536 + JS.toInt32 lh).
  assert (Hc : JS.toUint32 carry = ll / 65536 + hl mod 65536 + lh).
  { subst carry. unfold JS.toUint32, JS.toInt32, JS.two32, JS.two31. dlia. }
  replace (JS.toUint32 (JS.toInt32 carry * 65536))
    with ((JS.toUint32 carry mod 65536) * 2 ^ 16)
    by (unfold JS.toUint32, JS.toInt32, JS.two32, JS.two31; dlia).
  rewrite lor_disjoint by dlia.
  rewrite Hc.
  unfold JS.toUint32, JS.toInt32, JS.two32, JS.two31. dlia.
Qed.

Lemma mul_hi_range a b : -2147483648 <= hi (mul a b) < 2147483648.
Proof. unfold mul. cbn [hi]. rewrite or_0. apply toInt32_range. Qed.

Lemma toInt32_toUint32 x : JS.toInt32 (JS.toUint32 x) = JS.toInt32 x.
Proof. unfold JS.toUint32, JS.toInt32, JS.two32, JS.two31. dlia. Qed.

Lemma toInt32_eq x y : JS.toUint32 x = JS.toUint32 y -> JS.toInt32 x = JS.toInt32 y.
Proof. intros E. rewrite <- (toInt32_toUint32 x), E. apply toInt32_toUint32. Qed.

Lemma mul2_arith h l :
  0 <= h < 4294967296 -> 0 <= l < 4294967296 ->
  ((2 * h) mod 4294967296 / 2 * 2 + l / 2147483648) * 4294967296
  + (2 * l) mod 4294967296
  = (2 * (h * 4294967296 + l)) mod 18446744073709551616.
Proof.
  intros Hh Hl.
  pose proof (Z.div_mod (2 * h) 4294967296 ltac:(lia)) as E1.
  pose proof (Z.mod_pos_bound (2 * h) 4294967296 ltac:(lia)) as B1.
  remember ((2 * h) mod 4294967296) as r1 eqn:Er1.
  remember ((2 * h) / 4294967296) as q1 eqn:Eq1.
  pose proof (Z.div_mod r1 2 ltac:(lia)) as E1'.
  pose proof (Z.mod_pos_bound r1 2 ltac:(lia)) as B1'.
  remember (r1 mod 2) as r1' eqn:Er1'.
  remember (r1 / 2) as q1' eqn:Eq1'.
  pose proof (Z.div_mod (2 * l) 4294967296 ltac:(lia)) as E2.
  pose proof (Z.mod_pos_bound (2 * l) 4294967296 ltac:(lia)) as B2.
  remember ((2 * l) mod 4294967296) as r2 eqn:Er2.
  remember ((2 * l) / 4294967296) as q2 eqn:Eq2.
  pose proof (Z.div_mod l 2147483648 ltac:(lia)) as E3.
  pose proof (Z.mod_pos_bound l 2147483648 ltac:(lia)) as B3.
  remember (l mod 2147483648) as r3 eqn:Er3.
  remember (l / 2147483648) as q3 eqn:Eq3.
  apply Z.mod_unique_pos with (q := q1); lia.
Qed.

Lemma mul2_eq a b :
  mul2 a b =
  mkHL (JS.and (JS.or (JS.shl (hi (mul a b)) 1) (JS.shr (lo (mul a b)) 31)) 4294967295)
       (JS.and (JS.shl (lo (mul a b)) 1) 4294967295).
Proof. unfold mul2. destruct (mul a b). reflexivity. Qed.

Lemma mul2_hi a b :
  hi (mul2 a b) = JS.and (JS.or (JS.shl (hi (mul a b)) 1) (JS.shr (lo (mul a b)) 31)) 4294967295.
Proof. rewrite mul2_eq. reflexivity. Qed.

Lemma mul2_lo a b :
  lo (mul2 a b) = JS.and (JS.shl (lo (mul a b)) 1) 4294967295.
Proof. rewrite mul2_eq. reflexivity. Qed.

(** [mul2] doubles the product, modulo 2^64. *)
Lemma mul2_spec a b :
  JS.toUint32 (hi (mul2 a b)) * 4294967296 + JS.toUint32 (lo (mul2 a b))
  = (2 * (JS.toUint32 a * JS.toUint32 b)) mod 18446744073709551616.
Proof.
  rewrite mul2_hi, mul2_lo.
  rewrite <- (mul_spec a b).
  generalize (hi (mul a b)) (lo (mul a b)). intros h l.
  rewrite !and_all_ones, !toUint32_toInt32.
  unfold JS.or. rewrite toUint32_lor, !toUint32_toInt32.
  rewrite !shl_spec, shr_spec by lia. rewrite !toUint32_toInt32.
  pose proof (toUint32_range h) as Hh. pose proof (toUint32_range l) as Hl.
  replace (2 ^ 1) with 2 by reflexivity.
  replace (2 ^ 31) with 2147483648 by reflexivity.
  assert (E1 : JS.toUint32 (JS.toInt32 h * 2)
               = ((2 * JS.toUint32 h) mod 4294967296 / 2) * 2 ^ 1).
  { replace (2 ^ 1) with 2 by reflexivity.
    unfold JS.toUint32, JS.toInt32, JS.two32, JS.two31; dlia. }
  rewrite E1.
  rewrite (toUint32_small (JS.toUint32 l / 2147483648)) by dlia.
  rewrite lor_disjoint by dlia.
  replace (2 ^ 1) with 2 by reflexivity.
  assert (E2 : JS.toUint32 (JS.toInt32 l * 2) = (2 * JS.toUint32 l) mod 4294967296).
  { unfold JS.toUint32, JS.toInt32, JS.two32, JS.two31; dlia. }
  rewrite E2.
  apply mul2_arith; assumption.
Qed.

Lemma blamka_arith ah al bh bl ch cl ab :
  0 <= al + bl + cl ->
  ch * 4294967296 + cl = (2 * ab) mod 18446744073709551616 ->
  ((ah + bh + ch + (al + bl + cl) / 4294967296) mod 4294967296) * 4294967296
  + (al + bl + cl) mod 4294967296
  = (ah * 4294967296 + al + (bh * 4294967296 + bl) + 2 * ab) mod 18446744073709551616.
Proof.
  intros HS Hm.
  rewrite <- (Zplus_mod_idemp_r (2 * ab)), <- Hm.
  pose proof (Z.div_mod (al + bl + cl) 4294967296 ltac:(lia)) as E1.
  pose proof (Z.mod_pos_bound (al + bl + cl) 4294967296 ltac:(lia)) as B1.
  remember ((al + bl + cl) / 4294967296) as q1 eqn:Eq1.
  remember ((al + bl + cl) mod 4294967296) as r1 eqn:Er1.
  pose proof (Z.div_mod (ah + bh + ch + q1) 4294967296 ltac:(lia)) as E2.
  pose proof (Z.mod_pos_bound (ah + bh + ch + q1) 4294967296 ltac:(lia)) as B2.
  remember ((ah + bh + ch + q1) mod 4294967296) as r2 eqn:Er2.
  remember ((ah + bh + ch + q1) / 4294967296) as q2 eqn:Eq2.
  apply Z.mod_unique_pos with (q := q2); lia.
Qed.

Lemma blamka_eq Ah Al Bh Bl :
  blamka Ah Al Bh Bl =
  mkHL (U64.add3H (U64.add3L Al Bl (lo (mul2 Al Bl))) Ah Bh (hi (mul2 Al Bl)))
       (JS.or (U64.add3L Al Bl (lo (mul2 Al Bl))) 0).
Proof. unfold blamka. destruct (mul2 Al Bl). reflexivity. Qed.

Lemma blamka_hi Ah Al Bh Bl :
  hi (blamka Ah Al Bh Bl)
  = U64.add3H (U64.add3L Al Bl (lo (mul2 Al Bl))) Ah Bh (hi (mul2 Al Bl)).
Proof. rewrite blamka_eq. reflexivity. Qed.

Lemma blamka_lo Ah Al Bh Bl :
  lo (blamka Ah Al Bh Bl) = JS.or (U64.add3L Al Bl (lo (mul2 Al Bl))) 0.
Proof. rewrite blamka_eq. reflexivity. Qed.

(** [blamka], for halves given in any 32-bit form. *)
Lemma blamka_spec Ah Al Bh Bl :
  JS.toUint32 (hi (blamka Ah Al Bh Bl)) * 4294967296 + JS.toUint32 (lo (blamka Ah Al Bh Bl)) =
  ((JS.toUint32 Ah * 4294967296 + JS.toUint32 Al)
   + (JS.toUint32 Bh * 4294967296 + JS.toUint32 Bl)
   + 2 * (JS.toUint32 Al * JS.toUint32 Bl)) mod 18446744073709551616.
Proof.
  rewrite blamka_hi, blamka_lo.
  pose proof (mul2_spec Al Bl) as Hm. revert Hm.
  generalize (hi (mul2 Al Bl)) (lo (mul2 Al Bl)). intros Ch Cl Hm.
  unfold U64.add3H, U64.add3L. rewrite or_0, !toUint32_toInt32.
  rewrite !shr_spec by lia. rewrite !Z.pow_0_r, !Z.div_1_r.
  pose proof (toUint32_range Al). pose proof (toUint32_range Bl).
  pose proof (toUint32_range Cl).
  remember (JS.toUint32 Al + JS.toUint32 Bl + JS.toUint32 Cl) as R eqn:ER.
  assert (Hq : Z.quot R JS.two32 = R / 4294967296).
  { unfold JS.two32. rewrite Z.quot_div_nonneg by lia. reflexivity. }
  rewrite Hq.
  rewrite (toInt32_small (R / 4294967296)) by dlia.
  assert (Hh : JS.toUint32 (Ah + Bh + Ch + R / 4294967296)
               = (JS.toUint32 Ah + JS.toUint32 Bh + JS.toUint32 Ch + R / 4294967296)
                   mod 4294967296).
  { unfold JS.toUint32, JS.two32.
    rewrite (Z.add_mod (Ah + Bh + Ch)), (Z.add_mod (Ah + Bh)), (Z.add_mod Ah) by lia.
    rewrite (Z.add_mod (Ah mod 4294967296 + Bh mod 4294967296 + Ch mod 4294967296)),
      (Z.add_mod (Ah mod 4294967296 + Bh mod 4294967296)) by lia.
    rewrite !Z.mod_mod by lia. reflexivity. }
  rewrite Hh. subst R.
  rewrite <- blamka_arith with (ch := JS.toUint32 Ch) (cl := JS.toUint32 Cl); [|lia|exact Hm].
  reflexivity.
Qed.

(** The high half of a product, as a number. *)
Lemma mul_hi_spec a b :
  hi (mul a b) = JS.toInt32 ((JS.toUint32 a * JS.toUint32 b) / 4294967296).
Proof.
  pose proof (mul_spec a b) as Hm.
  assert (Hhi : hi (mul a b) = JS.toInt32 (hi (mul a b))).
  { unfold mul. cbn [hi]. rewrite or_0.
    symmetry. apply toInt32_small. apply toInt32_range. }
  rewrite Hhi. apply toInt32_eq.
  pose proof (toUint32_range (hi (mul a b))) as Hh.
  pose proof (toUint32_range (lo (mul a b))) as Hl.
  revert Hm Hh Hl. generalize (JS.toUint32 (hi (mul a b))) (JS.toUint32 (lo (mul a b))).
  intros h l Hm Hh Hl. rewrite <- Hm.
  rewrite (toUint32_small (_ / _)); dlia.
Qed.

Lemma mul_hi_small a b :
  0 <= a < 2147483648 ->
  hi (mul a b) = (a * JS.toUint32 b) / 4294967296.
Proof.
  intros Ha. rewrite mul_hi_spec. rewrite (toUint32_small a) by lia.
  pose proof (toUint32_range b) as Hb.
  apply toInt32_small.
  assert (0 <= a * JS.toUint32 b < a * 4294967296 + 1) by nia.
  dlia.
Qed.

(** [rel] of [indexAlpha] stays inside the reference area. *)
Lemma rel_range area randL :
  1 <= area < 2147483648 ->
  0 <= area - 1 - hi (mul area (hi (mul randL randL))) <= area - 1.
Proof.
  intros Ha. rewrite (mul_hi_small area) by lia.
  pose proof (toUint32_range (hi (mul randL randL))) as Hx.
  set (x := JS.toUint32 (hi (mul randL randL))) in *. clearbody x.
  assert (0 <= area * x <= area * 4294967296 - area) by nia.
  dlia.
Qed.

Lemma toInt32_idem x : JS.toInt32 (JS.toInt32 x) = JS.toInt32 x.
Proof. apply toInt32_small, toInt32_range. Qed.

Lemma blamka_is_int32 Ah Al Bh Bl :
  hi (blamka Ah Al Bh Bl) = JS.toInt32 (JS.toUint32 (hi (blamka Ah Al Bh Bl))) /\
  lo (blamka Ah Al Bh Bl) = JS.toInt32 (JS.toUint32 (lo (blamka Ah Al Bh Bl))).
Proof.
  rewrite !toInt32_toUint32. rewrite blamka_hi, blamka_lo.
  unfold U64.add3H. rewrite or_0, !toInt32_idem. split; reflexivity.
Qed.

(** C6 (as amended): for all 64-bit operands A and B given as (high, low)
    unsigned 32-bit halves, [blamka] returns the halves of exactly
    (A + B + 2 * (A mod 2^32) * (B mod 2^32)) mod 2^64, each as the signed
    32-bit integer that [x | 0] yields (the half itself modulo 2^32). *)
Theorem C6_blamka_signed_halves (Ah Al Bh Bl : Z) :
  0 <= Ah < 2 ^ 32 -> 0 <= Al < 2 ^ 32 -> 0 <= Bh < 2 ^ 32 -> 0 <= Bl < 2 ^ 32 ->
  blamka Ah Al Bh Bl = signed_halves (BlaMka (Ah * 2 ^ 32 + Al) (Bh * 2 ^ 32 + Bl)).
Proof.
  replace (2 ^ 32) with 4294967296 by reflexivity.
  intros HAh HAl HBh HBl.
  pose proof (blamka_spec Ah Al Bh Bl) as Hs.
  pose proof (blamka_is_int32 Ah Al Bh Bl) as [Hh Hl].
  pose proof (toUint32_range (hi (blamka Ah Al Bh Bl))) as Rh.
  pose proof (toUint32_range (lo (blamka Ah Al Bh Bl))) as Rl.
  rewrite (toUint32_small Ah), (toUint32_small Al), (toUint32_small Bh),
    (toUint32_small Bl) in Hs by lia.
  assert (HR : BlaMka (Ah * 4294967296 + Al) (Bh * 4294967296 + Bl)
               = JS.toUint32 (hi (blamka Ah Al Bh Bl)) * 4294967296
                 + JS.toUint32 (lo (blamka Ah Al Bh Bl))).
  { rewrite Hs. unfold BlaMka.
    replace (2 ^ 32) with 4294967296 by reflexivity.
    replace (2 ^ 64) with 18446744073709551616 by reflexivity.
    replace ((Ah * 4294967296 + Al) mod 4294967296) with Al
      by (apply Z.mod_unique_pos with (q := Ah); lia).
    replace ((Bh * 4294967296 + Bl) mod 4294967296) with Bl
      by (apply Z.mod_unique_pos with (q := Bh); lia).
    f_equal. ring. }
  unfold signed_halves. replace (2 ^ 32) with 4294967296 by reflexivity.
  rewrite HR.
  destruct (blamka Ah Al Bh Bl) as [h l]. cbn [hi lo] in *.
  revert Hh Hl Rh Rl. generalize (JS.toUint32 h) (JS.toUint32 l). intros hu lu Hh Hl Rh Rl.
  replace ((hu * 4294967296 + lu) / 4294967296) with hu
    by (apply Z.div_unique_pos with (r := lu); lia).
  replace ((hu * 4294967296 + lu) mod 4294967296) with lu
    by (apply Z.mod_unique_pos with (q := hu); lia).
  rewrite <- Hh, <- Hl. reflexivity.
Qed.

(** ** The indexing rule *)

Lemma mod_once x L : L <= x < 2 * L -> x mod L = x - L.
Proof. intros H. symmetry. apply Z.mod_unique_pos with (q := 1); lia. Qed.

Section Indexing.

Variables lanes laneLen segmentLen : Z.
Hypothesis Hseg : 2 <= segmentLen.
Hypothesis HlaneLen : laneLen = ARGON2_SYNC_POINTS * segmentLen.
Hypothesis Hsmall : laneLen < 2147483648.

Variables r s index randL : Z.
Hypothesis Hr : 0 <= r.
Hypothesis Hs : 0 <= s < ARGON2_SYNC_POINTS.
Hypothesis Hindex : startPosOf r s <= index < segmentLen.

Lemma indexAlpha_position (sameLane : bool) :
  (r = 0 /\ s = 0 -> sameLane = true) ->
  let pos := indexAlpha r s laneLen segmentLen index randL sameLane in
  0 <= pos < laneLen /\
  (if sameLane
   then pos + 2 <= s * segmentLen + index \/
        (1 <= r /\ (s + 1) * segmentLen <= pos /\ pos + 2 <= laneLen + s * segmentLen + index)
   else pos + 1 <= s * segmentLen \/ (1 <= r /\ (s + 1) * segmentLen <= pos)).
Proof.
  intros Hfirst.
  unfold ARGON2_SYNC_POINTS in *. unfold startPosOf in Hindex.
  cbv zeta. unfold indexAlpha, ARGON2_SYNC_POINTS.
  replace (4 - 1) with 3 by reflexivity.
  set (area := if r =? 0 then _ else _).
  set (startPos := if negb (r =? 0) && negb (s =? 3) then _ else _).
  assert (Hs4 : s = 0 \/ s = 1 \/ s = 2 \/ s = 3) by lia.
  assert (Harea : 1 <= area < 2147483648).
  { unfold area.
    destruct (Z.eqb_spec r 0) as [Hr0|Hr0], (Z.eqb_spec s 0) as [Hs0|Hs0], sameLane,
      (Z.eqb_spec index 0) as [Hi0|Hi0]; cbn [andb] in Hindex;
      try (specialize (Hfirst (conj Hr0 Hs0)); discriminate);
      destruct Hs4 as [->|[->|[->| ->]]]; lia. }
  pose proof (rel_range area randL Harea) as Hrel.
  set (rel := area - 1 - hi (mul area (hi (mul randL randL)))) in *.
  clearbody rel.
  assert (Hx : 0 <= startPos + rel < 2 * laneLen /\
               (startPos + rel < laneLen \/ 1 <= r)).
  { unfold startPos, area in *.
    destruct (Z.eqb_spec r 0) as [Hr0|Hr0], (Z.eqb_spec s 0) as [Hs0|Hs0], sameLane,
      (Z.eqb_spec index 0) as [Hi0|Hi0], (Z.eqb_spec s 3) as [Hs3|Hs3];
      cbn [andb negb] in *;
      try (specialize (Hfirst (conj Hr0 Hs0)); discriminate);
      destruct Hs4 as [->|[->|[->| ->]]]; lia. }
  unfold JS.rem. rewrite Z.rem_mod_nonneg by lia.
  split; [apply Z.mod_pos_bound; lia|].
  destruct Hx as [Hx Hx'].
  destruct (Z.lt_ge_cases (startPos + rel) laneLen) as [Hlt|Hge].
  - rewrite Z.mod_small by lia.
    unfold startPos, area in *.
    destruct (Z.eqb_spec r 0) as [Hr0|Hr0], (Z.eqb_spec s 0) as [Hs0|Hs0], sameLane,
      (Z.eqb_spec index 0) as [Hi0|Hi0], (Z.eqb_spec s 3) as [Hs3|Hs3];
      cbn [andb negb] in *;
      try (specialize (Hfirst (conj Hr0 Hs0)); discriminate);
      destruct Hs4 as [->|[->|[->| ->]]]; lia.
  - rewrite mod_once by lia.
    unfold startPos, area in *.
    destruct (Z.eqb_spec r 0) as [Hr0|Hr0], (Z.eqb_spec s 0) as [Hs0|Hs0], sameLane,
      (Z.eqb_spec index 0) as [Hi0|Hi0], (Z.eqb_spec s 3) as [Hs3|Hs3];
      cbn [andb negb] in *;
      try (specialize (Hfirst (conj Hr0 Hs0)); discriminate);
      destruct Hs4 as [->|[->|[->| ->]]]; lia.
Qed.

End Indexing.

Lemma classify_position seg r s l index lane pos :
  0 < seg -> 0 <= pos -> 0 <= index <= seg ->
  (1 <= r /\ (s + 1) * seg <= pos) \/
  pos + 1 <= s * seg \/
  (lane = l /\ s * seg <= pos < s * seg + index) ->
  WrittenEarlier r s l index seg lane pos.
Proof.
  intros Hseg Hpos Hindex [[Hr Hp]|[Hp|[Hl Hp]]].
  - apply PriorPass; [exact Hr|].
    assert (s + 1 <= pos / seg) by (apply Z.div_le_lower_bound; lia). lia.
  - apply PriorSegment. apply Z.div_lt_upper_bound; lia.
  - assert (Hq : pos / seg = s).
    { symmetry. apply Z.div_unique_pos with (r := pos - s * seg); lia. }
    apply EarlierBlock; [exact Hl|exact Hq|].
    rewrite Z.mod_eq by lia. rewrite Hq. lia.
Qed.

Lemma stepNo_lt lanes seg r1 s1 l1 i1 r2 s2 l2 i2 :
  0 <= l1 < lanes -> 0 <= l2 -> 0 <= i1 < seg -> 0 <= i2 ->
  r1 * ARGON2_SYNC_POINTS + s1 < r2 * ARGON2_SYNC_POINTS + s2 ->
  stepNo lanes seg r1 s1 l1 i1 < stepNo lanes seg r2 s2 l2 i2.
Proof.
  unfold stepNo. generalize (r1 * ARGON2_SYNC_POINTS + s1) (r2 * ARGON2_SYNC_POINTS + s2).
  intros a b Hl1 Hl2 Hi1 Hi2 Hab.
  assert (a * lanes + l1 + 1 <= b * lanes + l2) by nia.
  nia.
Qed.

(** C3: for every produced block at coordinates (pass r, lane l, segment s,
    index) of an accepted geometry, and whatever pseudo-random pair the
    addressing supplies, the reference block that [processBlock] selects
    through [indexAlpha] lies in the matrix, was written earlier in the
    traversal order (in a prior pass, in a prior segment of this pass, or as
    an earlier block of the current segment of the same lane), and is neither
    the previous block [prev] nor the block being produced. *)
Theorem C3_reference_block_written_earlier
    (lanes laneLen segmentLen r s l index randL randH : Z) :
  1 <= lanes -> 2 <= segmentLen ->
  laneLen = ARGON2_SYNC_POINTS * segmentLen ->
  lanes * laneLen * 256 < maxUint32 ->
  0 <= r -> 0 <= s < ARGON2_SYNC_POINTS -> 0 <= l < lanes ->
  startPosOf r s <= index < segmentLen ->
  0 <= randH < maxUint32 ->
  reference_block_ok lanes laneLen segmentLen r s l index randL randH.
Proof.
  intros Hlanes Hseg HlaneLen Hmem Hr Hs Hl Hindex HrandH.
  unfold reference_block_ok.
  assert (Hsmall : laneLen < 2147483648).
  { unfold maxUint32 in Hmem. replace (2 ^ 32) with 4294967296 in Hmem by reflexivity. nia. }
  cbv zeta.
  assert (HrefLane : 0 <= refLaneOf l r s lanes randH < lanes).
  { unfold refLaneOf. destruct ((r =? 0) && (s =? 0)); [lia|].
    unfold JS.rem. rewrite Z.rem_mod_nonneg by lia. apply Z.mod_pos_bound. lia. }
  assert (Hfirst : r = 0 /\ s = 0 -> (refLaneOf l r s lanes randH =? l) = true).
  { intros [-> ->]. unfold refLaneOf. cbn [Z.eqb andb]. apply Z.eqb_refl. }
  unfold refBlockOf.
  set (refLane := refLaneOf l r s lanes randH) in *.
  pose proof (indexAlpha_position laneLen segmentLen Hseg HlaneLen Hsmall
                r s index randL Hr Hs Hindex (refLane =? l) Hfirst) as Hpos.
  cbv zeta in Hpos.
  set (pos := indexAlpha r s laneLen segmentLen index randL (refLane =? l)) in *.
  destruct Hpos as [Hrange Hpos].
  replace (laneLen * refLane + pos - laneLen * refLane) with pos by ring.
  assert (Hstart : 0 <= startPosOf r s <= 2)
    by (unfold startPosOf; destruct ((r =? 0) && (s =? 0)); lia).
  assert (Hw : WrittenEarlier r s l index segmentLen refLane pos).
  { apply classify_position; try lia.
    destruct (Z.eqb_spec refLane l) as [El|El].
    - destruct Hpos as [Hp|[Hr1 [Hp1 Hp2]]].
      + destruct (Z.lt_ge_cases pos (s * segmentLen)); [right; left; lia|].
        right. right. split; [exact El|lia].
      + left. split; assumption.
    - destruct Hpos as [Hp|[Hr1 Hp1]]; [right; left; lia|left; split; assumption]. }
  split; [exact HrefLane|]. split; [exact Hrange|]. split; [exact Hw|].
  assert (Hq : 0 <= pos / segmentLen) by (apply Z.div_pos; lia).
  assert (Hm : 0 <= pos mod segmentLen < segmentLen) by (apply Z.mod_pos_bound; lia).
  split.
  { destruct Hw as [Hr1 Hp|Hp|El Hp Hi].
    - exists (r - 1). split; [lia|].
      assert (pos / segmentLen < 4).
      { apply Z.div_lt_upper_bound; unfold ARGON2_SYNC_POINTS in HlaneLen; lia. }
      apply stepNo_lt; unfold ARGON2_SYNC_POINTS in *; lia.
    - exists r. split; [lia|].
      apply stepNo_lt; unfold ARGON2_SYNC_POINTS in *; lia.
    - exists r. split; [lia|]. rewrite El, Hp. unfold stepNo. lia. }
  unfold ARGON2_SYNC_POINTS in *.
  replace (l * laneLen + s * segmentLen + startPosOf r s + (index - startPosOf r s))
    with (l * laneLen + (s * segmentLen + index)) by ring.
  assert (Hin : 0 <= s * segmentLen + index < laneLen) by nia.
  assert (Hprev : exists pp, 0 <= pp < laneLen /\
             prevOf (l * laneLen + (s * segmentLen + index)) laneLen
               (prevStart (l * laneLen + s * segmentLen + startPosOf r s) laneLen
                + (index - startPosOf r s)) = l * laneLen + pp /\
             (refLane = l -> pp <> pos)).
  { unfold prevOf, prevStart, JS.rem.
    assert (Hoff : 0 <= l * laneLen + (s * segmentLen + index)) by nia.
    rewrite (Z.rem_mod_nonneg (l * laneLen + (s * segmentLen + index))) by lia.
    replace (l * laneLen + (s * segmentLen + index))
      with ((s * segmentLen + index) + l * laneLen) by ring.
    rewrite Z.mod_add by lia. rewrite (Z.mod_small (s * segmentLen + index)) by lia.
    destruct (Z.eqb_spec (s * segmentLen + index) 0) as [E0|E0].
    - (* the first block of a lane: the previous block is the last one *)
      assert (s = 0 /\ index = 0) as [-> ->] by nia.
      assert (Hr1 : startPosOf r 0 = 0).
      { unfold startPosOf in *. destruct (Z.eqb_spec r 0); cbn [andb Z.eqb] in *; lia. }
      rewrite Hr1.
      assert (Hoff0 : 0 <= l * laneLen + 0 * segmentLen + 0) by nia.
      rewrite Z.rem_mod_nonneg by lia.
      replace (l * laneLen + 0 * segmentLen + 0) with (0 + l * laneLen) by ring.
      rewrite Z.mod_add by lia. rewrite Z.mod_0_l by lia. cbn [Z.eqb].
      exists (laneLen - 1).
      split; [lia|]. split; [lia|].
      intros El. subst refLane. rewrite El, Z.eqb_refl in Hpos.
      destruct Hpos as [Hp|[_ [_ Hp]]]; lia.
    - exists (s * segmentLen + index - 1).
      split; [lia|]. split; [lia|].
      intros El. subst refLane. rewrite El, Z.eqb_refl in Hpos.
      destruct Hpos as [Hp|[_ [Hp _]]]; lia. }
  destruct Hprev as [pp [Hpp [-> Hne]]].
  split.
  - destruct (Z.eq_dec refLane l) as [El|El].
    + specialize (Hne El). rewrite El. lia.
    + nia.
  - destruct (Z.eq_dec refLane l) as [El|El].
    + rewrite El. subst refLane. rewrite El, Z.eqb_refl in Hpos.
      destruct Hpos as [Hp|[_ [Hp _]]]; lia.
    + nia.
Qed.

(** ** Loops *)

Lemma forZ_invariant {St : Type} (P : St -> Prop) n i (body : Z -> St -> St) st :
  P st -> (forall j st', i <= j < i + Z.of_nat n -> P st' -> P (body j st')) ->
  P (forZ n i body st).
Proof.
  revert i st. induction n as [|n IH]; intros i st H0 Hstep; cbn [forZ]; [exact H0|].
  apply IH.
  - apply Hstep; [lia|exact H0].
  - intros j st' Hj. apply Hstep. lia.
Qed.

Lemma forRange_invariant {St : Type} (P : St -> Prop) lo hi (body : Z -> St -> St) st :
  P st -> (forall j st', lo <= j < hi -> P st' -> P (body j st')) ->
  P (forRange lo hi body st).
Proof.
  intros H0 Hstep. unfold forRange. apply forZ_invariant; [exact H0|].
  intros j st' Hj. apply Hstep. lia.
Qed.

(** An invariant that follows the loop index. *)
Lemma forZ_invariant_ix {St : Type} (P : Z -> St -> Prop) n i (body : Z -> St -> St) st :
  P i st ->
  (forall j st', i <= j < i + Z.of_nat n -> P j st' -> P (j + 1) (body j st')) ->
  P (i + Z.of_nat n) (forZ n i body st).
Proof.
  revert i st. induction n as [|n IH]; intros i st H0 Hstep; cbn [forZ].
  - replace (i + Z.of_nat 0) with i by lia. exact H0.
  - replace (i + Z.of_nat (S n)) with (i + 1 + Z.of_nat n) by lia.
    apply IH.
    + apply Hstep; [lia|exact H0].
    + intros j st' Hj. apply Hstep. lia.
Qed.

Lemma forRange_invariant_ix {St : Type} (P : Z -> St -> Prop) lo hi
    (body : Z -> St -> St) st :
  lo <= hi ->
  P lo st ->
  (forall j st', lo <= j < hi -> P j st' -> P (j + 1) (body j st')) ->
  P hi (forRange lo hi body st).
Proof.
  intros Hle H0 Hstep. unfold forRange.
  replace hi with (lo + Z.of_nat (Z.to_nat (hi - lo))) at 1 by lia.
  apply forZ_invariant_ix; [exact H0|].
  intros j st' Hj. apply Hstep. lia.
Qed.

(** A property [P] that one turn establishes and every turn keeps holds at
    the end; [Q] is what every turn can rely on. *)
Lemma forZ_established {St : Type} (Q P : St -> Prop) n i (body : Z -> St -> St) st k :
  i <= k < i + Z.of_nat n ->
  Q st ->
  (forall j st', i <= j < i + Z.of_nat n -> Q st' -> Q (body j st')) ->
  (forall st', Q st' -> P (body k st')) ->
  (forall j st', i <= j < i + Z.of_nat n -> Q st' -> P st' -> P (body j st')) ->
  P (forZ n i body st).
Proof.
  revert i st. induction n as [|n IH]; intros i st Hk HQ HQstep Hest Hstep; cbn [forZ]; [lia|].
  destruct (Z.eq_dec k i) as [->|Hne].
  - assert (HQP : Q (body i st) /\ P (body i st)).
    { split; [apply HQstep; [lia|exact HQ]|apply Hest; exact HQ]. }
    apply (forZ_invariant (fun s => Q s /\ P s)); [exact HQP|].
    intros j st' Hj [HQ' HP']. split; [apply HQstep|apply Hstep]; try assumption; lia.
  - apply IH; [lia| | | |].
    + apply HQstep; [lia|exact HQ].
    + intros j st' Hj. apply HQstep. lia.
    + exact Hest.
    + intros j st' Hj. apply Hstep. lia.
Qed.

Lemma forRange_established {St : Type} (Q P : St -> Prop) lo hi (body : Z -> St -> St) st k :
  lo <= k < hi ->
  Q st ->
  (forall j st', lo <= j < hi -> Q st' -> Q (body j st')) ->
  (forall st', Q st' -> P (body k st')) ->
  (forall j st', lo <= j < hi -> Q st' -> P st' -> P (body j st')) ->
  P (forRange lo hi body st).
Proof.
  intros Hk HQ HQstep Hest Hstep. unfold forRange.
  apply forZ_established with (Q := Q) (k := k); try assumption.
  - lia.
  - intros j st' Hj. apply HQstep. lia.
  - intros j st' Hj. apply Hstep. lia.
Qed.

(** Two loops whose bodies keep a relation between their states. *)
Lemma forZ_related {A B : Type} (R : A -> B -> Prop) n i
    (f : Z -> A -> A) (g : Z -> B -> B) a b :
  R a b ->
  (forall j a' b', i <= j < i + Z.of_nat n -> R a' b' -> R (f j a') (g j b')) ->
  R (forZ n i f a) (forZ n i g b).
Proof.
  revert i a b. induction n as [|n IH]; intros i a b H0 Hstep; cbn [forZ]; [exact H0|].
  apply IH.
  - apply Hstep; [lia|exact H0].
  - intros j a' b' Hj. apply Hstep. lia.
Qed.

Lemma forRange_related {A B : Type} (R : A -> B -> Prop) lo hi
    (f : Z -> A -> A) (g : Z -> B -> B) a b :
  R a b ->
  (forall j a' b', lo <= j < hi -> R a' b' -> R (f j a') (g j b')) ->
  R (forRange lo hi f a) (forRange lo hi g b).
Proof.
  intros H0 Hstep. unfold forRange. apply forZ_related; [exact H0|].
  intros j a' b' Hj. apply Hstep. lia.
Qed.

Lemma forStepN_invariant {St : Type} (P : St -> Prop) n i step (body : Z -> St -> St) st :
  P st -> (forall j st', P st' -> P (body j st')) -> P (forStepN n i step body st).
Proof.
  revert i st. induction n as [|n IH]; intros i st H0 Hstep; cbn [forStepN]; [exact H0|].
  apply IH; [apply Hstep; exact H0|exact Hstep].
Qed.

Lemma forStep_invariant {St : Type} (P : St -> Prop) lo hi step (body : Z -> St -> St) st :
  P st -> (forall j st', P st' -> P (body j st')) -> P (forStep lo hi step body st).
Proof. intros. unfold forStep. apply forStepN_invariant; assumption. Qed.

(** ** Typed arrays *)

Lemma store_nat_length a n v : length (store_nat a n v) = length a.
Proof.
  revert n. induction a as [|x a IH]; intros n; [reflexivity|].
  destruct n; cbn [store_nat length]; [reflexivity|]. rewrite IH. reflexivity.
Qed.

Lemma store_length a i v : length (store a i v) = length a.
Proof. unfold store. destruct (i <? 0); [reflexivity|apply store_nat_length]. Qed.

Lemma set32_length B src pos : length (set32 B src pos) = length B.
Proof.
  revert B pos. induction src as [|w src IH]; intros B pos; cbn [set32]; [reflexivity|].
  rewrite IH. apply store_length.
Qed.

Lemma fill0_length a : length (fill0 a) = length a.
Proof. apply length_map. Qed.

Lemma fill0_repeat a : fill0 a = repeat 0 (length a).
Proof. induction a as [|x a IH]; [reflexivity|]. cbn. rewrite <- IH. reflexivity. Qed.

Lemma zeros_length n : length (zeros n) = Z.to_nat n.
Proof. apply repeat_length. Qed.

(** ** The compression function *)

Lemma G_length a b c d buf : length (G a b c d buf) = length buf.
Proof.
  unfold G. cbv zeta.
  repeat match goal with
         | |- context [match blamka ?x ?y ?z ?w with _ => _ end] =>
             destruct (blamka x y z w)
         end.
  unfold U64.rotr32H, U64.rotr32L.
  rewrite !store_length. reflexivity.
Qed.

Lemma P_length v00 v01 v02 v03 v04 v05 v06 v07 v08 v09 v10 v11 v12 v13 v14 v15 buf :
  length (P v00 v01 v02 v03 v04 v05 v06 v07 v08 v09 v10 v11 v12 v13 v14 v15 buf)
  = length buf.
Proof. unfold P. cbv zeta. rewrite !G_length. reflexivity. Qed.

Lemma block_eq x xPos yPos outPos needXor A2_BUF :
  block x xPos yPos outPos needXor A2_BUF =
  let scratch := block_permute (block_scratch_load x xPos yPos A2_BUF) in
  (block_output x xPos yPos outPos needXor scratch, fill0 scratch).
Proof.
  unfold block, block_scratch_load, block_permute, block_output.
  cbv zeta. destruct needXor; reflexivity.
Qed.

Lemma block_scratch_load_length x xPos yPos A2_BUF :
  length (block_scratch_load x xPos yPos A2_BUF) = length A2_BUF.
Proof.
  unfold block_scratch_load.
  apply (forRange_invariant (fun buf => length buf = length A2_BUF)); [reflexivity|].
  intros j buf _ Hb. rewrite store_length. exact Hb.
Qed.

Lemma block_permute_length A2_BUF : length (block_permute A2_BUF) = length A2_BUF.
Proof.
  unfold block_permute. cbv zeta.
  apply (forStep_invariant (fun buf => length buf = length A2_BUF)).
  - apply (forStep_invariant (fun buf => length buf = length A2_BUF)); [reflexivity|].
    intros j buf Hb. rewrite P_length. exact Hb.
  - intros j buf Hb. rewrite P_length. exact Hb.
Qed.

Lemma block_output_length x xPos yPos outPos needXor scratch :
  length (block_output x xPos yPos outPos needXor scratch) = length x.
Proof.
  unfold block_output. destruct needXor;
    (apply (forRange_invariant (fun y => length y = length x)); [reflexivity|]);
    intros j y _ Hy; rewrite store_length; exact Hy.
Qed.

(** [block] keeps the length of [x] and leaves the scratch zeroed. *)
Lemma block_length x xPos yPos outPos needXor A2_BUF :
  length (fst (block x xPos yPos outPos needXor A2_BUF)) = length x.
Proof. rewrite block_eq. cbv zeta. cbn [fst]. apply block_output_length. Qed.

Lemma block_scratch x xPos yPos outPos needXor A2_BUF :
  snd (block x xPos yPos outPos needXor A2_BUF) = repeat 0 (length A2_BUF).
Proof.
  rewrite block_eq. cbv zeta. cbn [snd]. rewrite fill0_repeat.
  rewrite block_permute_length, block_scratch_load_length. reflexivity.
Qed.

(** ** Overwriting a whole array *)

Lemma store_nat_app pre x rest v :
  store_nat (pre ++ x :: rest) (length pre) v = pre ++ v :: rest.
Proof. induction pre as [|y pre IH]; cbn; [reflexivity|]. rewrite IH. reflexivity. Qed.

Lemma store_app pre x rest v :
  store (pre ++ x :: rest) (len pre) v = pre ++ JS.toUint32 v :: rest.
Proof.
  unfold store, len. destruct (Z.ltb_spec (Z.of_nat (length pre)) 0) as [H|H]; [lia|].
  rewrite Nat2Z.id. apply store_nat_app.
Qed.

Lemma overwrite_from (f : Z -> Z) n pre rest :
  (n <= length rest)%nat ->
  forZ n (len pre) (fun i buf => store buf i (f i)) (pre ++ rest)
  = pre ++ map (fun k => JS.toUint32 (f (Z.of_nat k))) (seq (length pre) n) ++ skipn n rest.
Proof.
  revert pre rest. induction n as [|n IH]; intros pre rest Hn; cbn [forZ seq map skipn app].
  - reflexivity.
  - destruct rest as [|x rest]; [cbn in Hn; lia|].
    rewrite store_app.
    replace (len pre + 1) with (len (pre ++ [JS.toUint32 (f (len pre))]))
      by (unfold len; rewrite length_app; cbn [length]; lia).
    replace (pre ++ JS.toUint32 (f (len pre)) :: rest)
      with ((pre ++ [JS.toUint32 (f (len pre))]) ++ rest)
      by (rewrite <- app_assoc; reflexivity).
    rewrite IH by (cbn in Hn; lia).
    rewrite <- app_assoc. cbn [app skipn].
    rewrite length_app. cbn [length]. rewrite Nat.add_1_r. reflexivity.
Qed.

(** Writing every element: the result does not depend on what was there. *)
Lemma overwrite_all (f : Z -> Z) a :
  forZ (length a) 0 (fun i buf => store buf i (f i)) a
  = map (fun k => JS.toUint32 (f (Z.of_nat k))) (seq 0 (length a)).
Proof.
  pose proof (overwrite_from f (length a) [] a (Nat.le_refl _)) as H.
  cbn [app length len] in H. unfold len in H. cbn [length Z.of_nat] in H.
  rewrite H. rewrite skipn_all. apply app_nil_r.
Qed.

Lemma block_scratch_load_indep x xPos yPos A2_BUF A2_BUF' :
  length A2_BUF = 256%nat -> length A2_BUF' = 256%nat ->
  block_scratch_load x xPos yPos A2_BUF = block_scratch_load x xPos yPos A2_BUF'.
Proof.
  intros H1 H2. unfold block_scratch_load, forRange.
  replace (Z.to_nat (256 - 0)) with (length A2_BUF) at 1 by (rewrite H1; reflexivity).
  replace (Z.to_nat (256 - 0)) with (length A2_BUF') by (rewrite H2; reflexivity).
  rewrite !overwrite_all. rewrite H1, H2. reflexivity.
Qed.

(** [block] does not depend on what the scratch held. *)
Lemma block_indep x xPos yPos outPos needXor A2_BUF A2_BUF' :
  length A2_BUF = 256%nat -> length A2_BUF' = 256%nat ->
  block x xPos yPos outPos needXor A2_BUF = block x xPos yPos outPos needXor A2_BUF'.
Proof.
  intros H1 H2. rewrite !block_eq.
  rewrite (block_scratch_load_indep x xPos yPos A2_BUF A2_BUF' H1 H2). reflexivity.
Qed.

(** ** Views *)

Lemma word_bytes_length w : length (word_bytes w) = 4%nat.
Proof. reflexivity. Qed.

Lemma flat_map_word_bytes_length ws :
  length (flat_map word_bytes ws) = (4 * length ws)%nat.
Proof.
  induction ws as [|w ws IH]; [reflexivity|].
  cbn [flat_map]. rewrite length_app, IH, word_bytes_length. cbn [length]. lia.
Qed.

Lemma bytes_words_length_aux n : forall bs,
  (length bs < n)%nat -> length (bytes_words bs) = (length bs / 4)%nat.
Proof.
  induction n as [|n IH]; intros bs Hn; [lia|].
  destruct bs as [|b0 [|b1 [|b2 [|b3 tl]]]]; try reflexivity.
  cbn [bytes_words length]. rewrite IH by (cbn [length] in Hn; lia).
  replace (S (S (S (S (length tl))))) with (length tl + 1 * 4)%nat by lia.
  rewrite Nat.div_add by lia. lia.
Qed.

Lemma bytes_words_length bs : length (bytes_words bs) = (length bs / 4)%nat.
Proof. apply (bytes_words_length_aux (S (length bs))). lia. Qed.

(** The bytes of a 32-bit view of [bs]: whole words only. *)
Lemma u8_u32_length bs : len (u8 (Uint32Array (u32 bs))) = 4 * (len bs / 4).
Proof.
  unfold len, u8, u32. rewrite flat_map_word_bytes_length, bytes_words_length.
  rewrite Nat2Z.inj_mul, Nat2Z.inj_div. reflexivity.
Qed.

Lemma set8_length out src pos : length (set8 out src pos) = length out.
Proof.
  unfold set8, len.
  destruct (Z.ltb_spec pos 0) as [Hp|Hp]; cbn [orb]; [reflexivity|].
  destruct (Z.ltb_spec (Z.of_nat (length out)) (pos + Z.of_nat (length src))) as [Hl|Hl];
    [reflexivity|].
  rewrite !length_app, length_firstn, length_skipn. lia.
Qed.

Section HpFacts.

Context {Hasher : Blake2b}.

(** The loop of [Hp] keeps the length of [out] and, given enough fuel, ends
    with its condition false and a last block of 33 to 64 bytes to go. *)
Lemma Hp_rest_spec fuel dkLen V pos out :
  32 < dkLen - pos -> (Z.to_nat (dkLen - pos) <= fuel)%nat ->
  length (snd (Hp_rest fuel dkLen V pos out)) = length out /\
  32 < dkLen - snd (fst (Hp_rest fuel dkLen V pos out)) <= 64.
Proof.
  revert V pos out. induction fuel as [|fuel IH]; intros V pos out Hpos Hfuel.
  - lia.
  - cbn [Hp_rest]. destruct (Z.ltb_spec 64 (dkLen - pos)) as [Hgt|Hle].
    + specialize (IH (blake2b 64 V) (pos + 32)
                    (set8 out (firstn 32 (blake2b 64 V)) pos) ltac:(lia) ltac:(lia)).
      rewrite set8_length in IH. exact IH.
    + cbn [fst snd]. split; [reflexivity|lia].
Qed.

(** The number of bytes [Hp] hands back. *)
Lemma Hp_byte_length A dkLen :
  1 <= dkLen ->
  len (u8 (Hp A dkLen)) = if dkLen <=? 64 then dkLen else 4 * (dkLen / 4).
Proof.
  intros Hd. unfold Hp. cbv zeta.
  destruct (Z.leb_spec dkLen 64) as [Hle|Hgt].
  - cbn [u8]. apply blake2b_length. lia.
  - set (V := blake2b 64 _).
    set (out := set8 _ (firstn 32 V) 0).
    pose proof (Hp_rest_spec (Z.to_nat dkLen) dkLen V (0 + 32) out ltac:(lia) ltac:(lia))
      as [Hlen Hpos].
    destruct (Hp_rest (Z.to_nat dkLen) dkLen V (0 + 32) out) as [[V' pos'] out'].
    cbn [fst snd] in *.
    rewrite u8_u32_length. unfold len. rewrite set8_length, Hlen.
    unfold out. rewrite set8_length, repeat_length. rewrite Z2Nat.id by lia. reflexivity.
Qed.

End HpFacts.

(** ** The arrays of the fill keep their lengths *)

Lemma next_addresses_length address A2_BUF :
  length (fst (next_addresses address A2_BUF)) = length address.
Proof.
  unfold next_addresses. cbv zeta.
  pose proof (block_length (store address (256 + 12) (load address (256 + 12) + 1))
                256 (2 * 256) 0 false A2_BUF) as H1.
  destruct (block _ 256 (2 * 256) 0 false A2_BUF) as [address' A2']. cbn [fst] in H1.
  rewrite block_length, H1. apply store_length.
Qed.

Lemma next_addresses_scratch address A2_BUF :
  snd (next_addresses address A2_BUF) = repeat 0 (length A2_BUF).
Proof.
  unfold next_addresses. cbv zeta.
  pose proof (block_scratch (store address (256 + 12) (load address (256 + 12) + 1))
                256 (2 * 256) 0 false A2_BUF) as H1.
  destruct (block _ 256 (2 * 256) 0 false A2_BUF) as [address' A2']. cbn [snd] in H1.
  rewrite block_scratch, H1. rewrite repeat_length. reflexivity.
Qed.

Lemma processBlock_shape mem l r s index laneLen segmentLen lanes offset prev di nx :
  mem_shape (processBlock mem l r s index laneLen segmentLen lanes offset prev di nx)
  = mem_shape mem.
Proof.
  unfold processBlock, mem_shape. destruct mem as [B address A2]. cbv zeta.
  destruct di.
  - destruct (JS.rem index 128 =? 0).
    + pose proof (next_addresses_length address A2) as Ha.
      pose proof (next_addresses_scratch address A2) as Hs.
      destruct (next_addresses address A2) as [address' A2']. cbn [fst snd] in Ha, Hs.
      match goal with
      | |- context [block ?x ?a ?b ?c ?d ?e] =>
          pose proof (block_length x a b c d e) as Hl;
          pose proof (block_scratch x a b c d e) as Hz;
          destruct (block x a b c d e) as [B' A2'']
      end.
      cbn [fst snd mem_B mem_address mem_A2_BUF] in *.
      rewrite Hl, Ha, Hz, Hs. rewrite !repeat_length. reflexivity.
    + match goal with
      | |- context [block ?x ?a ?b ?c ?d ?e] =>
          pose proof (block_length x a b c d e) as Hl;
          pose proof (block_scratch x a b c d e) as Hz;
          destruct (block x a b c d e) as [B' A2'']
      end.
      cbn [fst snd mem_B mem_address mem_A2_BUF] in *.
      rewrite Hl, Hz. rewrite !repeat_length. reflexivity.
  - match goal with
    | |- context [block ?x ?a ?b ?c ?d ?e] =>
        pose proof (block_length x a b c d e) as Hl;
        pose proof (block_scratch x a b c d e) as Hz;
        destruct (block x a b c d e) as [B' A2'']
    end.
    cbn [fst snd mem_B mem_address mem_A2_BUF] in *.
    rewrite Hl, Hz. rewrite !repeat_length. reflexivity.
Qed.

(** [processBlock] leaves the scratch zeroed, whatever it held. *)
Lemma processBlock_scratch mem l r s index laneLen segmentLen lanes offset prev di nx :
  scratch_zero (processBlock mem l r s index laneLen segmentLen lanes offset prev di nx).
Proof.
  unfold processBlock, scratch_zero. destruct mem as [B address A2]. cbv zeta.
  destruct (if di then _ else _) as [[[address' A2'] randL] randH].
  match goal with
  | |- context [block ?x ?a ?b ?c ?d ?e] =>
      pose proof (block_scratch x a b c d e) as Hz;
      destruct (block x a b c d e) as [B' A2'']
  end.
  cbn [snd mem_A2_BUF] in *. rewrite Hz at 1. rewrite Hz, repeat_length. reflexivity.
Qed.

Lemma lane_start_shape mem r s l di :
  mem_shape (fst (lane_start mem r s l di)) = mem_shape mem.
Proof.
  unfold lane_start, mem_shape. destruct mem as [B address A2]. cbv zeta.
  destruct ((r =? 0) && (s =? 0)); [destruct di|];
    cbn [fst mem_B mem_address mem_A2_BUF]; rewrite ?store_length; try reflexivity.
  pose proof (next_addresses_length (store (store address (256 + 2) l) (256 + 12) 0) A2) as Ha.
  pose proof (next_addresses_scratch (store (store address (256 + 2) l) (256 + 12) 0) A2) as Hs.
  destruct (next_addresses _ A2) as [address' A2']. cbn [fst snd] in *.
  cbn [fst mem_B mem_address mem_A2_BUF].
  rewrite Ha, Hs, !store_length, repeat_length. reflexivity.
Qed.

Lemma lane_start_scratch mem r s l di :
  scratch_zero mem -> scratch_zero (fst (lane_start mem r s l di)).
Proof.
  unfold lane_start, scratch_zero. destruct mem as [B address A2]. cbv zeta.
  cbn [mem_A2_BUF]. intros Hz.
  destruct ((r =? 0) && (s =? 0)); [destruct di|];
    cbn [fst mem_B mem_address mem_A2_BUF]; try exact Hz.
  pose proof (next_addresses_scratch (store (store address (256 + 2) l) (256 + 12) 0) A2) as Hs.
  destruct (next_addresses _ A2) as [address' A2']. cbn [fst snd] in *.
  cbn [fst mem_A2_BUF]. rewrite Hs at 1. rewrite Hs, repeat_length. reflexivity.
Qed.

Lemma lane_start_startPos mem r s l di :
  snd (lane_start mem r s l di) = if (r =? 0) && (s =? 0) then 2 else 0.
Proof.
  unfold lane_start. destruct mem as [B address A2]. cbv zeta.
  destruct ((r =? 0) && (s =? 0)); [destruct di|]; try reflexivity.
Qed.

Lemma set_address_shape st i v : fill_shape (set_address st i v) = fill_shape st.
Proof.
  unfold set_address, fill_shape, mem_shape. destruct st as [[B address A2] pg].
  cbn [fill_mem mem_B mem_address mem_A2_BUF]. rewrite store_length. reflexivity.
Qed.

Lemma set_address_scratch st i v :
  fill_scratch_zero st -> fill_scratch_zero (set_address st i v).
Proof.
  unfold set_address, fill_scratch_zero, scratch_zero. destruct st as [[B address A2] pg].
  cbn [fill_mem mem_A2_BUF]. trivial.
Qed.

Lemma argon2_lane_shape ini r s l st :
  fill_shape (argon2_lane ini r s l st) = fill_shape st.
Proof.
  unfold argon2_lane. cbv zeta.
  pose proof (lane_start_shape (fill_mem st) r s l (dataIndependentAt (in_type ini) r s)) as Hs.
  destruct (lane_start (fill_mem st) r s l _) as [mem startPos]. cbn [fst] in Hs.
  match goal with
  | |- context [forRange ?lo ?hi ?body ?init] =>
      pose proof (forRange_invariant
                    (fun tr : Fill * Z * Z => fill_shape (fst (fst tr)) = fill_shape st)
                    lo hi body init) as Hinv
  end.
  destruct (forRange _ _ _ _) as [[st' o] pv]. cbn [fst] in Hinv. apply Hinv.
  - exact Hs.
  - intros j [[st1 o1] p1] _ H1. cbn [fst] in *.
    unfold fill_shape in *. cbn [fill_mem]. rewrite processBlock_shape. exact H1.
Qed.

Lemma argon2_lane_scratch_kept ini r s l st :
  fill_scratch_zero st -> fill_scratch_zero (argon2_lane ini r s l st).
Proof.
  intros Hz. unfold argon2_lane. cbv zeta.
  pose proof (lane_start_scratch (fill_mem st) r s l
                (dataIndependentAt (in_type ini) r s) Hz) as Hs.
  destruct (lane_start (fill_mem st) r s l _) as [mem startPos]. cbn [fst] in Hs.
  match goal with
  | |- context [forRange ?lo ?hi ?body ?init] =>
      pose proof (forRange_invariant
                    (fun tr : Fill * Z * Z => fill_scratch_zero (fst (fst tr)))
                    lo hi body init) as Hinv
  end.
  destruct (forRange _ _ _ _) as [[st' o] pv]. cbn [fst] in Hinv. apply Hinv.
  - exact Hs.
  - intros j [[st1 o1] p1] _ H1. cbn [fst] in *.
    unfold fill_scratch_zero. cbn [fill_mem]. apply processBlock_scratch.
Qed.

(** A lane with at least one block to produce leaves the scratch zeroed. *)
Lemma argon2_lane_scratch ini r s l st :
  (if (r =? 0) && (s =? 0) then 2 else 0) < in_segmentLen ini ->
  fill_scratch_zero (argon2_lane ini r s l st).
Proof.
  intros Hne. unfold argon2_lane. cbv zeta.
  pose proof (lane_start_startPos (fill_mem st) r s l
                (dataIndependentAt (in_type ini) r s)) as Hsp.
  destruct (lane_start (fill_mem st) r s l _) as [mem startPos]. cbn [snd] in Hsp.
  subst startPos.
  match goal with
  | |- context [forRange ?lo ?hi ?body ?init] =>
      pose proof (forRange_established
                    (fun _ : Fill * Z * Z => True)
                    (fun tr : Fill * Z * Z => fill_scratch_zero (fst (fst tr)))
                    lo hi body init lo) as Hinv
  end.
  destruct (forRange _ _ _ _) as [[st' o] pv]. cbn [fst] in Hinv. apply Hinv.
  - lia.
  - exact I.
  - trivial.
  - intros [[st1 o1] p1] _. cbn [fst].
    unfold fill_scratch_zero. cbn [fill_mem]. apply processBlock_scratch.
  - intros j [[st1 o1] p1] _ _ _. cbn [fst].
    unfold fill_scratch_zero. cbn [fill_mem]. apply processBlock_scratch.
Qed.

Lemma argon2_segment_shape ini r s st :
  fill_shape (argon2_segment ini r s st) = fill_shape st.
Proof.
  unfold argon2_segment. cbv zeta.
  apply (forRange_invariant (fun st' => fill_shape st' = fill_shape st)).
  - apply set_address_shape.
  - intros l st' _ H. rewrite argon2_lane_shape. exact H.
Qed.

Lemma argon2_segment_scratch_kept ini r s st :
  fill_scratch_zero st -> fill_scratch_zero (argon2_segment ini r s st).
Proof.
  intros Hz. unfold argon2_segment. cbv zeta.
  apply (forRange_invariant fill_scratch_zero).
  - apply set_address_scratch. exact Hz.
  - intros l st' _ H. apply argon2_lane_scratch_kept. exact H.
Qed.

Lemma argon2_segment_scratch ini r s st :
  1 <= in_p ini ->
  (if (r =? 0) && (s =? 0) then 2 else 0) < in_segmentLen ini ->
  fill_scratch_zero (argon2_segment ini r s st).
Proof.
  intros Hp Hne. unfold argon2_segment. cbv zeta.
  apply (forRange_established (fun _ => True) fill_scratch_zero) with (k := 0).
  - lia.
  - exact I.
  - trivial.
  - intros st' _. apply argon2_lane_scratch. exact Hne.
  - intros l st' _ _ H. apply argon2_lane_scratch_kept. exact H.
Qed.

Lemma argon2_pass_shape ini r st :
  fill_shape (argon2_pass ini r st) = fill_shape st.
Proof.
  unfold argon2_pass. cbv zeta.
  apply (forRange_invariant (fun st' => fill_shape st' = fill_shape st)).
  - apply set_address_shape.
  - intros s st' _ H. rewrite argon2_segment_shape. exact H.
Qed.

Lemma argon2_pass_scratch_kept ini r st :
  fill_scratch_zero st -> fill_scratch_zero (argon2_pass ini r st).
Proof.
  intros Hz. unfold argon2_pass. cbv zeta.
  apply (forRange_invariant fill_scratch_zero).
  - apply set_address_scratch. exact Hz.
  - intros s st' _ H. apply argon2_segment_scratch_kept. exact H.
Qed.

(** Every pass produces blocks (in its segment 1 at the latest), so it
    leaves the scratch zeroed. *)
Lemma argon2_pass_scratch ini r st :
  1 <= in_p ini -> 1 <= in_segmentLen ini ->
  fill_scratch_zero (argon2_pass ini r st).
Proof.
  intros Hp Hseg. unfold argon2_pass. cbv zeta.
  apply (forRange_established (fun _ => True) fill_scratch_zero) with (k := 1).
  - unfold ARGON2_SYNC_POINTS. lia.
  - exact I.
  - trivial.
  - intros st' _. apply argon2_segment_scratch; [exact Hp|].
    rewrite andb_false_r. lia.
  - intros s st' _ _ H. apply argon2_segment_scratch_kept. exact H.
Qed.

(** The whole fill. *)
Lemma argon2_fill_shape ini st :
  fill_shape (forRange 0 (in_t ini) (argon2_pass ini) st) = fill_shape st.
Proof.
  apply (forRange_invariant (fun st' => fill_shape st' = fill_shape st)); [reflexivity|].
  intros r st' _ H. rewrite argon2_pass_shape. exact H.
Qed.

Lemma argon2_fill_scratch ini st :
  1 <= in_t ini -> 1 <= in_p ini -> 1 <= in_segmentLen ini ->
  fill_scratch_zero (forRange 0 (in_t ini) (argon2_pass ini) st).
Proof.
  intros Ht Hp Hseg.
  apply (forRange_established (fun _ => True) fill_scratch_zero) with (k := 0).
  - lia.
  - exact I.
  - trivial.
  - intros st' _. apply argon2_pass_scratch; assumption.
  - intros r st' _ _ H. apply argon2_pass_scratch_kept. exact H.
Qed.

(** ** Doubles *)

(** ** Rounding to the nearest integer *)

Lemma nearest_bounds n d :
  0 < d -> 2 * n - d <= 2 * d * JS.nearest n d <= 2 * n + d.
Proof.
  intros Hd. unfold JS.nearest. cbv zeta.
  pose proof (Z.div_mod n d ltac:(lia)) as E.
  pose proof (Z.mod_pos_bound n d Hd) as Hr.
  destruct (Z.ltb_spec (2 * (n mod d)) d); [nia|].
  destruct (Z.ltb_spec d (2 * (n mod d))); [nia|].
  destruct (Z.even (n / d)); nia.
Qed.

Lemma nearest_ge n d i : 0 < d -> i * d <= n -> i <= JS.nearest n d.
Proof.
  intros Hd H. pose proof (nearest_bounds n d Hd) as [Hlo _]. nia.
Qed.

Lemma nearest_le n d i : 0 < d -> n <= i * d -> JS.nearest n d <= i.
Proof.
  intros Hd H. pose proof (nearest_bounds n d Hd) as [_ Hhi]. nia.
Qed.

Lemma nearest_exact q d : 0 < d -> JS.nearest (q * d) d = q.
Proof.
  intros Hd. apply Z.le_antisymm; [apply nearest_le|apply nearest_ge]; lia.
Qed.

(** ** The binary exponent of a fraction *)

Lemma pow2_pos k : 0 < 2 ^ k \/ 2 ^ k = 0.
Proof.
  destruct (Z.le_gt_cases 0 k) as [H|H].
  - left. apply Z.pow_pos_nonneg; lia.
  - right. apply Z.pow_neg_r. exact H.
Qed.

Lemma pow2_split a b : 0 <= a -> 0 <= b -> 2 ^ (a + b) = 2 ^ a * 2 ^ b.
Proof. intros. apply Z.pow_add_r; assumption. Qed.

Lemma exponent_spec n d :
  0 < n -> 0 < d ->
  d * 2 ^ Z.max (JS.exponent n d) 0 <= n * 2 ^ Z.max (- JS.exponent n d) 0
  < 2 * (d * 2 ^ Z.max (JS.exponent n d) 0).
Proof.
  intros Hn Hd. unfold JS.exponent. cbv zeta.
  pose proof (Z.log2_spec n Hn) as Ln. pose proof (Z.log2_spec d Hd) as Ld.
  pose proof (Z.log2_nonneg n) as Ln0. pose proof (Z.log2_nonneg d) as Ld0.
  rewrite <- Z.add_1_r in Ln, Ld.
  rewrite pow2_split in Ln, Ld by lia. change (2 ^ 1) with 2 in Ln, Ld.
  set (a := Z.log2 n) in *. set (b := Z.log2 d) in *.
  assert (Ha : 0 < 2 ^ a) by (apply Z.pow_pos_nonneg; lia).
  assert (Hb : 0 < 2 ^ b) by (apply Z.pow_pos_nonneg; lia).
  destruct (Z.le_gt_cases b a) as [Hab|Hab].
  - (* a - b >= 0 *)
    assert (Ea : 2 ^ a = 2 ^ b * 2 ^ (a - b)).
    { rewrite <- pow2_split by lia. f_equal. ring. }
    assert (Hp : 0 < 2 ^ (a - b)) by (apply Z.pow_pos_nonneg; lia).
    replace (Z.max (- (a - b)) 0) with 0 by lia.
    replace (Z.max (a - b) 0) with (a - b) by lia.
    change (2 ^ 0) with 1. rewrite !Z.mul_1_r.
    destruct (Z.ltb_spec n (d * 2 ^ (a - b))) as [Hlt|Hge].
    + destruct (Z.eq_dec a b) as [E|E].
      * replace (a - b - 1) with (-1) by lia.
        replace (a - b) with 0 in * by lia.
        change (Z.max (-1) 0) with 0. change (Z.max (- -1) 0) with 1.
        change (2 ^ 1) with 2. change (2 ^ 0) with 1 in *. lia.
      * replace (Z.max (- (a - b - 1)) 0) with 0 by lia.
        replace (Z.max (a - b - 1) 0) with (a - b - 1) by lia.
        change (2 ^ 0) with 1. rewrite ?Z.mul_1_r.
        assert (E2 : 2 ^ (a - b) = 2 * 2 ^ (a - b - 1)).
        { replace (a - b) with (1 + (a - b - 1)) at 1 by ring.
          rewrite pow2_split by lia. reflexivity. }
        assert (Hq : 0 < 2 ^ (a - b - 1)) by (apply Z.pow_pos_nonneg; lia).
        set (X := 2 ^ b) in *. set (Y := 2 ^ (a - b - 1)) in *.
        set (W := 2 ^ (a - b)) in *. set (V := 2 ^ a) in *.
        clearbody X Y W V.
        assert (d * Y < 2 * X * Y) by nia.
        split; nia.
    + replace (Z.max (- (a - b)) 0) with 0 by lia.
      replace (Z.max (a - b) 0) with (a - b) by lia.
      change (2 ^ 0) with 1. rewrite ?Z.mul_1_r.
      set (X := 2 ^ b) in *. set (W := 2 ^ (a - b)) in *. set (V := 2 ^ a) in *.
      clearbody X W V.
      assert (X * W <= d * W) by nia.
      split; lia.
  - (* a - b < 0 *)
    assert (Eb : 2 ^ b = 2 ^ a * 2 ^ (b - a)).
    { rewrite <- pow2_split by lia. f_equal. ring. }
    assert (Hp : 0 < 2 ^ (b - a)) by (apply Z.pow_pos_nonneg; lia).
    replace (Z.max (- (a - b)) 0) with (b - a) by lia.
    replace (Z.max (a - b) 0) with 0 by lia.
    change (2 ^ 0) with 1. rewrite !Z.mul_1_r.
    destruct (Z.ltb_spec (n * 2 ^ (b - a)) d) as [Hlt|Hge].
    + replace (Z.max (- (a - b - 1)) 0) with (1 + (b - a)) by lia.
      replace (Z.max (a - b - 1) 0) with 0 by lia.
      rewrite pow2_split by lia. change (2 ^ 1) with 2. change (2 ^ 0) with 1.
      rewrite ?Z.mul_1_r.
      set (X := 2 ^ a) in *. set (W := 2 ^ (b - a)) in *. set (V := 2 ^ b) in *.
      clearbody X W V.
      assert (X * W <= n * W) by nia.
      split; lia.
    + replace (Z.max (- (a - b)) 0) with (b - a) by lia.
      replace (Z.max (a - b) 0) with 0 by lia.
      change (2 ^ 0) with 1. rewrite ?Z.mul_1_r.
      set (X := 2 ^ a) in *. set (W := 2 ^ (b - a)) in *. set (V := 2 ^ b) in *.
      clearbody X W V.
      assert (n * W < 2 * X * W) by nia.
      split; lia.
Qed.

(** The scaled fraction lies between [2^52] and [2^53]. *)
Lemma scaled_range n d :
  0 < n -> 0 < d ->
  let e := JS.exponent n d in
  let up := Z.max (52 - e) 0 in
  let down := Z.max (e - 52) 0 in
  0 < 2 ^ up /\ 0 < 2 ^ down /\
  2 ^ 52 * (d * 2 ^ down) <= n * 2 ^ up < 2 ^ 53 * (d * 2 ^ down).
Proof.
  intros Hn Hd. cbv zeta.
  pose proof (exponent_spec n d Hn Hd) as H.
  set (e := JS.exponent n d) in *.
  assert (Hup : 0 < 2 ^ Z.max (52 - e) 0) by (apply Z.pow_pos_nonneg; lia).
  assert (Hdn : 0 < 2 ^ Z.max (e - 52) 0) by (apply Z.pow_pos_nonneg; lia).
  split; [exact Hup|]. split; [exact Hdn|].
  change (2 ^ 53) with (2 * 2 ^ 52).
  destruct (Z.le_gt_cases 52 e) as [He|He].
  - replace (Z.max (52 - e) 0) with 0 by lia.
    replace (Z.max (e - 52) 0) with (e - 52) in * by lia.
    replace (Z.max e 0) with (52 + (e - 52)) in H by lia.
    replace (Z.max (- e) 0) with 0 in H by lia.
    rewrite pow2_split in H by lia. change (2 ^ 0) with 1 in *. nia.
  - destruct (Z.le_gt_cases 0 e) as [H0|H0].
    + replace (Z.max (52 - e) 0) with (52 - e) in * by lia.
      replace (Z.max (e - 52) 0) with 0 in * by lia.
      replace (Z.max e 0) with e in H by lia.
      replace (Z.max (- e) 0) with 0 in H by lia.
      assert (E : 2 ^ 52 = 2 ^ e * 2 ^ (52 - e)).
      { rewrite <- pow2_split by lia. f_equal. ring. }
      assert (0 < 2 ^ e) by (apply Z.pow_pos_nonneg; lia).
      change (2 ^ 0) with 1 in *. rewrite E. nia.
    + replace (Z.max (52 - e) 0) with (52 + (- e)) in * by lia.
      replace (Z.max (e - 52) 0) with 0 in * by lia.
      replace (Z.max e 0) with 0 in H by lia.
      replace (Z.max (- e) 0) with (- e) in H by lia.
      rewrite pow2_split in * by lia. change (2 ^ 0) with 1 in *. nia.
Qed.

(** ** Quotients *)

Lemma toDouble_zero d : JS.toDouble 0 d = 0%Q.
Proof. reflexivity. Qed.

(** A quotient of [n] by a larger [d] that is not within [2^-53] of one is
    rounded to a double below one. *)
Lemma toDouble_below_one n d :
  0 < n -> 0 < d -> d <= 2 ^ 53 * (d - n) ->
  (0 < JS.toDouble n d)%Q /\ (JS.toDouble n d < 1)%Q.
Proof.
  intros Hn Hd Hroom. unfold JS.toDouble.
  destruct (Z.leb_spec n 0) as [H|_]; [lia|]. cbv zeta.
  pose proof (exponent_spec n d Hn Hd) as He.
  pose proof (scaled_range n d Hn Hd) as Hs. cbv zeta in Hs.
  set (e := JS.exponent n d) in *.
  assert (Hneg : e <= -1).
  { destruct (Z.le_gt_cases 0 e) as [H0|H0]; [|lia]. exfalso.
    replace (Z.max e 0) with e in He by lia.
    replace (Z.max (- e) 0) with 0 in He by lia. change (2 ^ 0) with 1 in He.
    assert (0 < 2 ^ e) by (apply Z.pow_pos_nonneg; lia). nia. }
  replace (Z.max (e - 52) 0) with 0 in * by lia.
  replace (Z.max (52 - e) 0) with (53 + (- e - 1)) in * by lia.
  change (2 ^ 0) with 1 in *. rewrite !Z.mul_1_r in *.
  destruct Hs as [Hup [_ Hs]].
  set (U := 2 ^ (53 + (- e - 1))) in *.
  set (m := JS.nearest (n * U) d).
  assert (Hm1 : 2 ^ 52 <= m) by (apply nearest_ge; lia).
  assert (Hm2 : m < U).
  { destruct (Z.eq_dec e (-1)) as [E|E].
    - assert (EU : U = 2 ^ 53) by (unfold U; rewrite E; reflexivity).
      assert (m <= 2 ^ 53 - 1); [|lia].
      apply nearest_le; [lia|]. rewrite EU. lia.
    - assert (m <= 2 ^ 53) by (apply nearest_le; lia).
      assert (2 * 2 ^ 53 <= U); [|lia].
      unfold U. rewrite pow2_split by lia.
      assert (2 ^ 1 <= 2 ^ (- e - 1)) by (apply Z.pow_le_mono_r; lia).
      change (2 ^ 1) with 2 in *. lia. }
  rewrite Qred_correct. unfold Qlt. cbn [Qnum Qden].
  rewrite Z2Pos.id by lia. lia.
Qed.

(** A quotient is rounded to at most twice its exact value. *)
Lemma floor_toDouble_upper n d :
  0 <= n -> 0 < d -> Qfloor (JS.toDouble n d) <= 2 * n / d.
Proof.
  intros Hn Hd. unfold JS.toDouble.
  destruct (Z.leb_spec n 0) as [H|H].
  - change (Qfloor 0%Q) with 0. apply Z.div_pos; lia.
  - cbv zeta. pose proof (scaled_range n d H Hd) as Hs. cbv zeta in Hs.
    set (e := JS.exponent n d) in *.
    set (U := 2 ^ Z.max (52 - e) 0) in *. set (D := 2 ^ Z.max (e - 52) 0) in *.
    destruct Hs as [HU [HD Hs]].
    set (m := JS.nearest (n * U) (d * D)).
    assert (Hm : m <= 2 ^ 53) by (apply nearest_le; lia).
    assert (Hm0 : 0 <= m) by (apply nearest_ge; lia).
    rewrite Qred_correct. unfold Qfloor. rewrite Z2Pos.id by lia.
    apply Z.div_le_lower_bound; [lia|].
    pose proof (Z.mul_div_le (m * D) U HU) as Hq.
    assert (m * (d * D) <= 2 * (n * U)) by nia.
    assert (0 <= m * D / U) by (apply Z.div_pos; nia).
    nia.
Qed.

Lemma floor_toDouble_nonneg n d : 0 <= n -> 0 < d -> 0 <= Qfloor (JS.toDouble n d).
Proof.
  intros Hn Hd. unfold JS.toDouble.
  destruct (Z.leb_spec n 0) as [H|H]; [cbn; lia|].
  cbv zeta. pose proof (scaled_range n d H Hd) as Hs. cbv zeta in Hs.
  set (e := JS.exponent n d) in *.
  set (U := 2 ^ Z.max (52 - e) 0) in *. set (D := 2 ^ Z.max (e - 52) 0) in *.
  destruct Hs as [HU [HD Hs]].
  assert (Hm0 : 0 <= JS.nearest (n * U) (d * D)) by (apply nearest_ge; lia).
  rewrite Qred_correct. unfold Qfloor. rewrite Z2Pos.id by lia.
  apply Z.div_pos; nia.
Qed.

(** [Math.floor(T / 10000)] is the integer quotient for every [T] up to
    [2^53]. *)
Lemma floor_fdiv_10000 T :
  0 <= T <= 2 ^ 53 -> Qfloor (JS.fdiv T 10000) = T / 10000.
Proof.
  intros HT. unfold JS.fdiv, JS.toDouble.
  destruct (Z.leb_spec T 0) as [H|H].
  - replace T with 0 by lia. reflexivity.
  - cbv zeta.
    pose proof (exponent_spec T 10000 H ltac:(lia)) as He.
    pose proof (scaled_range T 10000 H ltac:(lia)) as Hs. cbv zeta in Hs.
    set (e := JS.exponent T 10000) in *.
    assert (He39 : e <= 39).
    { destruct (Z.le_gt_cases e 39) as [H0|H0]; [exact H0|exfalso].
      replace (Z.max e 0) with e in He by lia.
      replace (Z.max (- e) 0) with 0 in He by lia. change (2 ^ 0) with 1 in He.
      assert (2 ^ 40 <= 2 ^ e) by (apply Z.pow_le_mono_r; lia).
      change (2 ^ 40) with 1099511627776 in *.
      change (2 ^ 53) with 9007199254740992 in *. lia. }
    replace (Z.max (e - 52) 0) with 0 in * by lia.
    replace (Z.max (52 - e) 0) with (13 + (39 - e)) in * by lia.
    change (2 ^ 0) with 1 in *. rewrite !Z.mul_1_r in *.
    set (U := 2 ^ (13 + (39 - e))) in *.
    assert (HU : 8192 <= U).
    { unfold U. rewrite pow2_split by lia.
      assert (2 ^ 0 <= 2 ^ (39 - e)) by (apply Z.pow_le_mono_r; lia).
      change (2 ^ 0) with 1 in *. change (2 ^ 13) with 8192. lia. }
    set (m := JS.nearest (T * U) 10000).
    pose proof (Z.div_mod T 10000 ltac:(lia)) as Ek.
    pose proof (Z.mod_pos_bound T 10000 ltac:(lia)) as Hr.
    set (k := T / 10000) in *.
    assert (Hlo : k * U <= m) by (apply nearest_ge; nia).
    assert (Hhi : m < (k + 1) * U).
    { pose proof (nearest_bounds (T * U) 10000 ltac:(lia)) as [_ Hb]. fold m in Hb. nia. }
    rewrite Qred_correct. unfold Qfloor. rewrite Z2Pos.id by lia.
    symmetry. apply Z.div_unique_pos with (r := m - k * U); lia.
Qed.

(** ** Integers *)

Lemma toNumber_exact n : 0 <= n <= 2 ^ 53 -> JS.toNumber n = n.
Proof.
  intros Hn. destruct (Z.eq_dec n (2 ^ 53)) as [->|Hne]; [reflexivity|].
  unfold JS.toNumber. cbv zeta.
  assert (Hl : Z.log2 n <= 52).
  { destruct (Z.eq_dec n 0) as [->|H0]; [cbn; lia|].
    assert (Z.log2 n < 53); [|lia]. apply Z.log2_lt_pow2; lia. }
  replace (Z.max (Z.log2 n - 52) 0) with 0 by lia. change (2 ^ 0) with 1.
  rewrite Z.mul_1_r. rewrite <- (Z.mul_1_r n) at 1. apply nearest_exact. lia.
Qed.

Lemma toNumber_large n :
  2 ^ 53 <= n ->
  2 ^ 53 <= JS.toNumber n /\ (2 ^ 53 + 2 <= n -> 2 ^ 53 + 2 <= JS.toNumber n).
Proof.
  intros Hn. unfold JS.toNumber. cbv zeta.
  assert (Hpos : 0 < n) by (change (2 ^ 53) with 9007199254740992 in Hn; lia).
  pose proof (Z.log2_spec n Hpos) as [Hl _].
  assert (HL : 53 <= Z.log2 n) by (apply Z.log2_le_pow2; lia).
  replace (Z.max (Z.log2 n - 52) 0) with (Z.log2 n - 52) by lia.
  set (D := 2 ^ (Z.log2 n - 52)).
  assert (HD : 0 < D) by (apply Z.pow_pos_nonneg; lia).
  assert (EL : 2 ^ Z.log2 n = 2 ^ 52 * D).
  { unfold D. rewrite <- pow2_split by lia. f_equal. ring. }
  assert (Hm : 2 ^ 52 <= JS.nearest n D) by (apply nearest_ge; lia).
  assert (H2 : 2 <= D).
  { unfold D. assert (2 ^ 1 <= 2 ^ (Z.log2 n - 52)) by (apply Z.pow_le_mono_r; lia).
    change (2 ^ 1) with 2 in *. lia. }
  change (2 ^ 53) with (2 ^ 52 * 2) in *.
  split; [nia|]. intros Hn2.
  destruct (Z.eq_dec D 2) as [E|E].
  - rewrite E in *. assert (2 ^ 52 + 1 <= JS.nearest n 2) by (apply nearest_ge; lia). lia.
  - assert (4 <= D).
    { unfold D in *. destruct (Z.eq_dec (Z.log2 n - 52) 1) as [E1|E1];
        [rewrite E1 in E; exfalso; apply E; reflexivity|].
      assert (2 ^ 2 <= 2 ^ (Z.log2 n - 52)) by (apply Z.pow_le_mono_r; lia).
      change (2 ^ 2) with 4 in *. lia. }
    change (2 ^ 52) with 4503599627370496 in *. nia.
Qed.

Lemma toNumber_bounds n : 0 <= n -> 0 <= JS.toNumber n <= 2 * n.
Proof.
  intros Hn. destruct (Z.le_gt_cases n (2 ^ 53)) as [H|H].
  - rewrite toNumber_exact by lia. lia.
  - unfold JS.toNumber. cbv zeta.
    assert (Hpos : 0 < n) by lia.
    pose proof (Z.log2_spec n Hpos) as [Hl _].
    assert (HL : 53 <= Z.log2 n) by (apply Z.log2_le_pow2; lia).
    replace (Z.max (Z.log2 n - 52) 0) with (Z.log2 n - 52) by lia.
    set (D := 2 ^ (Z.log2 n - 52)).
    assert (HD : 0 < D) by (apply Z.pow_pos_nonneg; lia).
    assert (EL : 2 ^ Z.log2 n = 2 ^ 52 * D).
    { unfold D. rewrite <- pow2_split by lia. f_equal. ring. }
    pose proof (nearest_bounds n D HD) as [Hlo Hhi].
    assert (0 <= JS.nearest n D) by (apply nearest_ge; lia).
    change (2 ^ 52) with 4503599627370496 in *. nia.
Qed.

(** [blockCnt++] counts up to [2^53] and stays there. *)
Lemma inc_saturates k : 0 <= k -> JS.inc (Z.min k (2 ^ 53)) = Z.min (k + 1) (2 ^ 53).
Proof.
  intros Hk. unfold JS.inc.
  destruct (Z.lt_ge_cases k (2 ^ 53)) as [H|H].
  - rewrite Z.min_l by lia. rewrite Z.min_l by lia. apply toNumber_exact. lia.
  - rewrite Z.min_r by lia. rewrite Z.min_r by lia. reflexivity.
Qed.

(** ** [totalBlock = t * 4 * p * segmentLen] *)

Lemma totalBlock_facts t p s :
  1 <= t < 2 ^ 32 -> 1 <= p -> 2 <= s ->
  let T := t * 4 * p * s in
  let T' := JS.fmul (JS.fmul (JS.fmul t 4) p) s in
  (T <= 2 ^ 53 -> T' = T) /\ (2 ^ 53 < T -> 2 ^ 53 + 2 <= T') /\ 0 < T' <= 4 * T.
Proof.
  intros Ht Hp Hs. cbv zeta. unfold JS.fmul.
  change (2 ^ 32) with 4294967296 in Ht.
  assert (E1 : JS.toNumber (t * 4) = t * 4).
  { apply toNumber_exact. change (2 ^ 53) with 9007199254740992. lia. }
  rewrite E1.
  assert (Hx1 : 0 <= t * 4 * p) by nia.
  pose proof (toNumber_bounds (t * 4 * p) Hx1) as [B2lo B2hi].
  set (x2 := JS.toNumber (t * 4 * p)) in *.
  assert (Hx2 : 0 <= x2 * s) by nia.
  pose proof (toNumber_bounds (x2 * s) Hx2) as [B3lo B3hi].
  assert (Hexact : t * 4 * p <= 2 ^ 53 -> x2 = t * 4 * p).
  { intros H. unfold x2. apply toNumber_exact. lia. }
  split; [|split].
  - intros HT. assert (H : t * 4 * p <= 2 ^ 53) by nia.
    rewrite (Hexact H). apply toNumber_exact. nia.
  - intros HT.
    destruct (Z.le_gt_cases (t * 4 * p) (2 ^ 53)) as [H|H].
    + rewrite (Hexact H). apply toNumber_large; lia.
    + pose proof (toNumber_large (t * 4 * p) ltac:(lia)) as [Hl _]. fold x2 in Hl.
      apply toNumber_large; change (2 ^ 53) with 9007199254740992 in *; nia.
  - split; [|nia].
    destruct (Z.le_gt_cases (t * 4 * p) (2 ^ 53)) as [H|H].
    + rewrite (Hexact H).
      destruct (Z.le_gt_cases (t * 4 * p * s) (2 ^ 53)) as [H'|H'].
      * rewrite toNumber_exact by nia. nia.
      * pose proof (toNumber_large (t * 4 * p * s) ltac:(lia)) as [Hl _].
        change (2 ^ 53) with 9007199254740992 in *. lia.
    + pose proof (toNumber_large (t * 4 * p) ltac:(lia)) as [Hl _]. fold x2 in Hl.
      pose proof (toNumber_large (x2 * s)
                    ltac:(change (2 ^ 53) with 9007199254740992 in *; nia)) as [Hl' _].
      change (2 ^ 53) with 9007199254740992 in *. lia.
Qed.

(** ** The operations agree with IEEE 754 binary64 on the samples *)

Lemma fdiv_is_the_IEEE_quotient :
  forallb (fun '(a, b) =>
             Qeq_bool (JS.fdiv (JS.toNumber a) (JS.toNumber b))
               (double_value
                  (SpecFloat.SFdiv 53 1024 (double_of_Z a) (double_of_Z b))))
    sample_operands = true.
Proof. vm_compute. reflexivity. Qed.

Lemma fmul_is_the_IEEE_product :
  forallb (fun '(a, b) =>
             Qeq_bool (inject_Z (JS.fmul (JS.toNumber a) (JS.toNumber b)))
               (double_value
                  (SpecFloat.SFmul 53 1024 (double_of_Z a) (double_of_Z b))))
    sample_operands = true.
Proof. vm_compute. reflexivity. Qed.

Lemma toNumber_is_the_IEEE_double :
  forallb (fun n => Qeq_bool (inject_Z (JS.toNumber n)) (double_value (double_of_Z n)))
    sample_integers = true.
Proof. vm_compute. reflexivity. Qed.

Lemma inc_is_the_IEEE_sum :
  forallb (fun n =>
             Qeq_bool (inject_Z (JS.inc (JS.toNumber n)))
               (double_value
                  (SpecFloat.SFadd 53 1024 (double_of_Z n) (double_of_Z 1))))
    sample_integers = true.
Proof. vm_compute. reflexivity. Qed.

(** ** Counting the produced blocks *)

Lemma perBlock_step c k pg :
  1 <= callbackPer c <= 2 ^ 53 -> 0 <= k -> 0 < totalBlock c ->
  totalBlock c <= 2 ^ 53 * (totalBlock c - Z.min (k + 1) (2 ^ 53)) ->
  progress_at c k pg -> progress_at c (k + 1) (perBlock (Some c) pg).
Proof.
  intros Hper Hk Hpos Hroom [Hcnt [Hall Hne]]. unfold perBlock, progress_at. cbv zeta.
  rewrite Hcnt, inc_saturates by exact Hk.
  change (2 ^ 53) with 9007199254740992 in *.
  set (cnt := Z.min (k + 1) 9007199254740992) in *.
  assert (Hcnt1 : 1 <= cnt) by (unfold cnt; lia).
  assert (Hlt : cnt < totalBlock c) by lia.
  destruct (Z.eqb_spec cnt (totalBlock c)) as [E|_]; [lia|].
  rewrite orb_false_r.
  destruct (Z.eqb_spec (JS.rem cnt (callbackPer c)) 0) as [E0|E0]; cbn [blockCnt calls].
  - split; [reflexivity|]. split.
    + apply Forall_app. split; [exact Hall|].
      constructor; [|constructor]. unfold proper_fraction, JS.fdiv.
      apply toDouble_below_one; change (2 ^ 53) with 9007199254740992; lia.
    + intros _ Hnil. apply app_eq_nil in Hnil. destruct Hnil as [_ Hnil]. discriminate.
  - split; [reflexivity|]. split; [exact Hall|].
    intros Hge. apply Hne.
    destruct (Z.eq_dec (k + 1) (callbackPer c)) as [E|E]; [|lia].
    exfalso. apply E0. unfold JS.rem.
    replace cnt with (callbackPer c) by (unfold cnt; lia).
    apply Z.rem_same. lia.
Qed.

Section Counting.

Variable ini : Init.
Variable c : PerBlock.
Hypothesis Hcfg : in_perBlock ini = Some c.
Hypothesis Hper : 1 <= callbackPer c <= 2 ^ 53.
Hypothesis Hpos : 0 < totalBlock c.
Hypothesis Hroom :
  totalBlock c
  <= 2 ^ 53 * (totalBlock c
               - Z.min (in_t ini * ARGON2_SYNC_POINTS * in_p ini * in_segmentLen ini
                        - 2 * in_p ini) (2 ^ 53)).
Hypothesis Ht : 1 <= in_t ini.
Hypothesis Hp : 1 <= in_p ini.
Hypothesis Hseg : 2 <= in_segmentLen ini.

Let p := in_p ini.
Let seg := in_segmentLen ini.

Lemma produced_bound r s l j :
  0 <= r < in_t ini -> 0 <= s < ARGON2_SYNC_POINTS -> 0 <= l < p ->
  (if (r =? 0) && (s =? 0) then 2 else 0) <= j < seg ->
  0 <= produced_before p seg r s l + (j - (if (r =? 0) && (s =? 0) then 2 else 0)) /\
  produced_before p seg r s l + (j - (if (r =? 0) && (s =? 0) then 2 else 0)) + 1
  <= in_t ini * ARGON2_SYNC_POINTS * in_p ini * in_segmentLen ini - 2 * in_p ini.
Proof.
  intros Hr Hs Hl Hj. unfold produced_before, ARGON2_SYNC_POINTS in *.
  fold p seg. subst p seg.
  set (P := in_p ini) in *. set (S := in_segmentLen ini) in *. set (T := in_t ini) in *.
  clearbody P S T.
  destruct (Z.eqb_spec r 0) as [Hr0|Hr0], (Z.eqb_spec s 0) as [Hs0|Hs0];
    cbn [andb] in *.
  - subst r s. split; [nia|].
    assert ((l + 1) * (S - 2) <= P * (S - 2)) by nia.
    assert (P * S <= T * 4 * P * S) by nia. nia.
  - assert ((r * 4 + s) * P + l + 1 <= T * 4 * P) by nia.
    assert (((r * 4 + s) * P + l + 1) * S <= T * 4 * P * S) by nia.
    assert (1 * P <= (r * 4 + s) * P) by nia.
    assert (0 <= ((r * 4 + s) * P + l) * S - 2 * P) by nia.
    split; nia.
  - assert ((r * 4 + s) * P + l + 1 <= T * 4 * P) by nia.
    assert (((r * 4 + s) * P + l + 1) * S <= T * 4 * P * S) by nia.
    assert (1 * P <= (r * 4 + s) * P) by nia.
    assert (0 <= ((r * 4 + s) * P + l) * S - 2 * P) by nia.
    split; nia.
  - assert ((r * 4 + s) * P + l + 1 <= T * 4 * P) by nia.
    assert (((r * 4 + s) * P + l + 1) * S <= T * 4 * P * S) by nia.
    assert (1 * P <= (r * 4 + s) * P) by nia.
    assert (0 <= ((r * 4 + s) * P + l) * S - 2 * P) by nia.
    split; nia.
Qed.

Lemma argon2_lane_progress r s l st :
  0 <= r < in_t ini -> 0 <= s < ARGON2_SYNC_POINTS -> 0 <= l < p ->
  progress_at c (produced_before p seg r s l) (fill_progress st) ->
  progress_at c (produced_before p seg r s (l + 1))
    (fill_progress (argon2_lane ini r s l st)).
Proof.
  intros Hr Hs Hl H0. unfold argon2_lane. cbv zeta.
  pose proof (lane_start_startPos (fill_mem st) r s l
                (dataIndependentAt (in_type ini) r s)) as Hsp.
  destruct (lane_start (fill_mem st) r s l _) as [mem startPos]. cbn [snd] in Hsp.
  match goal with
  | |- context [forRange ?lo ?hi ?body ?init] =>
      pose proof (forRange_invariant_ix
                    (fun j (tr : Fill * Z * Z) =>
                       progress_at c (produced_before p seg r s l + (j - startPos))
                         (fill_progress (fst (fst tr))))
                    lo hi body init) as Hinv
  end.
  destruct (forRange _ _ _ _) as [[st' o] pv]. cbn [fst] in Hinv.
  replace (produced_before p seg r s (l + 1))
    with (produced_before p seg r s l + (in_segmentLen ini - startPos)).
  2:{ subst startPos. unfold produced_before. fold seg.
      destruct ((r =? 0) && (s =? 0)); ring. }
  apply Hinv.
  - subst startPos. fold seg. destruct ((r =? 0) && (s =? 0)); lia.
  - cbn [fst fill_progress]. replace (startPos - startPos) with 0 by ring.
    rewrite Z.add_0_r. exact H0.
  - intros j [[st1 o1] p1] Hj H1. cbn [fst fill_progress] in *.
    rewrite Hcfg.
    replace (produced_before p seg r s l + (j + 1 - startPos))
      with (produced_before p seg r s l + (j - startPos) + 1) by ring.
    subst startPos.
    pose proof (produced_bound r s l j Hr Hs Hl Hj) as [Hlo Hhi].
    apply perBlock_step; try assumption.
    change (2 ^ 53) with 9007199254740992 in *. lia.
Qed.

Lemma set_address_progress st i v : fill_progress (set_address st i v) = fill_progress st.
Proof. unfold set_address. destruct st as [[B address A2] pg]. reflexivity. Qed.

Lemma argon2_segment_progress r s st :
  0 <= r < in_t ini -> 0 <= s < ARGON2_SYNC_POINTS ->
  progress_at c (produced_before p seg r s 0) (fill_progress st) ->
  progress_at c (produced_before p seg r (s + 1) 0)
    (fill_progress (argon2_segment ini r s st)).
Proof.
  intros Hr Hs H0. unfold argon2_segment. cbv zeta.
  replace (produced_before p seg r (s + 1) 0) with (produced_before p seg r s p).
  2:{ unfold produced_before, ARGON2_SYNC_POINTS in *.
      destruct (Z.eqb_spec r 0), (Z.eqb_spec s 0), (Z.eqb_spec (s + 1) 0);
        cbn [andb]; try lia; ring. }
  apply (forRange_invariant_ix
           (fun l st' => progress_at c (produced_before p seg r s l) (fill_progress st'))).
  - subst p. lia.
  - rewrite set_address_progress. exact H0.
  - intros l st' Hl H1. apply argon2_lane_progress; assumption.
Qed.

Lemma argon2_pass_progress r st :
  0 <= r < in_t ini ->
  progress_at c (produced_before p seg r 0 0) (fill_progress st) ->
  progress_at c (produced_before p seg (r + 1) 0 0)
    (fill_progress (argon2_pass ini r st)).
Proof.
  intros Hr H0. unfold argon2_pass. cbv zeta.
  replace (produced_before p seg (r + 1) 0 0)
    with (produced_before p seg r ARGON2_SYNC_POINTS 0).
  2:{ unfold produced_before, ARGON2_SYNC_POINTS in *.
      destruct (Z.eqb_spec r 0), (Z.eqb_spec (r + 1) 0); cbn [andb Z.eqb]; try lia; ring. }
  apply (forRange_invariant_ix
           (fun s st' => progress_at c (produced_before p seg r s 0) (fill_progress st'))).
  - unfold ARGON2_SYNC_POINTS. lia.
  - rewrite set_address_progress. exact H0.
  - intros s st' Hs H1. apply argon2_segment_progress; assumption.
Qed.

(** After the fill the closure has been called [4 t p q - 2 p] times. *)
Lemma argon2_fill_progress st :
  fill_progress st = mkProgress 0 [] ->
  progress_at c (in_t ini * ARGON2_SYNC_POINTS * p * seg - 2 * p)
    (fill_progress (forRange 0 (in_t ini) (argon2_pass ini) st)).
Proof.
  intros H0.
  replace (in_t ini * ARGON2_SYNC_POINTS * p * seg - 2 * p)
    with (produced_before p seg (in_t ini) 0 0).
  2:{ unfold produced_before, ARGON2_SYNC_POINTS. fold p seg.
      destruct (Z.eqb_spec (in_t ini) 0); cbn [andb Z.eqb]; try lia; ring. }
  apply (forRange_invariant_ix
           (fun r st' => progress_at c (produced_before p seg r 0 0) (fill_progress st'))).
  - lia.
  - rewrite H0. unfold progress_at, produced_before. cbn [blockCnt calls Z.eqb andb].
    split; [reflexivity|]. split; [constructor|]. intros Hge. lia.
  - intros r st' Hr H1. apply argon2_pass_progress; assumption.
Qed.

End Counting.

(** ** Validation *)

Section InitFacts.

Context {Hasher : Blake2b}.

Lemma initOpts_result opts :
  initOpts opts =
  match option_error (merge_defaults opts) with
  | Some e => ([], Throw e)
  | None => ([], Ok (merge_defaults opts))
  end.
Proof.
  unfold initOpts, option_error. cbv zeta.
  generalize (merge_defaults opts). intros mg.
  repeat match goal with
         | |- context [throw_if ?c _] =>
             destruct c; cbn [throw_if bind throw ret app]; try reflexivity
         end.
Qed.

Lemma argon2Init_result password salt type opts :
  argon2Init password salt type opts =
  match init_error password salt type (merge_defaults opts) with
  | Some e => ([], Throw e)
  | None =>
      ([AllocMatrix (memUsed_of (merge_defaults opts))],
       Ok (init_value password salt type (merge_defaults opts)))
  end.
Proof.
  unfold argon2Init, init_error, precheck_error, toBytes. cbv zeta.
  destruct (negb (isUint32 (len password))); cbn [throw_if bind throw ret app];
    [reflexivity|].
  destruct (negb (isUint32 (len salt)) || (len salt <? 8));
    cbn [throw_if bind throw ret app]; [reflexivity|].
  destruct (negb (existsb (Z.eqb type) AT_values));
    cbn [throw_if bind throw ret app]; [reflexivity|].
  rewrite initOpts_result.
  generalize (merge_defaults opts). intros mg.
  destruct (option_error mg) as [e|]; cbn [bind]; [reflexivity|].
  unfold init_value, memUsed_of, mP_of. cbv zeta.
  destruct (initial_hash _ _ _ _ _ _ _ _ _ _) as [BUF H0]. cbn [fst snd].
  destruct (negb (isUint32 (mg_maxmem mg)) || _);
    cbn [throw_if bind throw ret app emit]; [reflexivity|].
  destruct (fill_first_blocks _ _ _) as [B H0']. cbn [fst snd bind ret app].
  reflexivity.
Qed.

End InitFacts.

(** ** What the accepted parameters satisfy *)

Lemma isUint32_true x : isUint32 x = true <-> 0 <= x < 4294967296.
Proof.
  unfold isUint32, maxUint32. replace (2 ^ 32) with 4294967296 by reflexivity.
  rewrite andb_true_iff, Z.leb_le, Z.ltb_lt. reflexivity.
Qed.

Lemma option_error_none mg :
  option_error mg = None ->
  4 <= mg_dkLen mg < 4294967296 /\ 1 <= mg_p mg < 16777216 /\
  0 <= mg_m mg < 4294967296 /\ 1 <= mg_t mg < 4294967296 /\
  8 * mg_p mg <= mg_m mg /\ (mg_version mg = 16 \/ mg_version mg = 19).
Proof.
  unfold option_error. cbv zeta.
  replace (2 ^ 24) with 16777216 by reflexivity.
  destruct (isUint32 (mg_dkLen mg)) eqn:E1; cbn [negb orb]; [|discriminate].
  destruct (Z.ltb_spec (mg_dkLen mg) 4) as [|H1]; [discriminate|].
  destruct (isUint32 (mg_p mg)) eqn:E2; cbn [negb orb]; [|discriminate].
  destruct (Z.ltb_spec (mg_p mg) 1) as [|H2]; [discriminate|]. cbn [orb].
  destruct (Z.leb_spec 16777216 (mg_p mg)) as [|H3]; [discriminate|].
  destruct (isUint32 (mg_m mg)) eqn:E3; cbn [negb orb]; [|discriminate].
  destruct (isUint32 (mg_t mg)) eqn:E4; cbn [negb orb]; [|discriminate].
  destruct (Z.ltb_spec (mg_t mg) 1) as [|H4]; [discriminate|].
  destruct (is_defined (mg_onProgress mg) && negb (is_function (mg_onProgress mg)));
    [discriminate|].
  destruct (Z.ltb_spec (mg_m mg) (8 * mg_p mg)) as [|H5]; [discriminate|].
  apply isUint32_true in E1, E2, E3, E4.
  destruct (Z.eqb_spec (mg_version mg) 16) as [Hv|Hv]; cbn [negb andb].
  - intros _. repeat split; lia.
  - destruct (Z.eqb_spec (mg_version mg) 19) as [Hv'|Hv']; cbn [negb]; [|discriminate].
    intros _. repeat split; lia.
Qed.


Lemma init_error_none password salt type mg :
  init_error password salt type mg = None ->
  0 <= len password < 4294967296 /\ 8 <= len salt < 4294967296 /\
  In type AT_values /\ option_error mg = None /\
  0 <= mg_maxmem mg < 4294967296 /\ memUsed_of mg <= mg_maxmem mg.
Proof.
  unfold init_error, precheck_error.
  destruct (isUint32 (len password)) eqn:E1; cbn [negb]; [|discriminate].
  destruct (isUint32 (len salt)) eqn:E2; cbn [negb orb]; [|discriminate].
  destruct (Z.ltb_spec (len salt) 8) as [|H1]; [discriminate|].
  destruct (existsb (Z.eqb type) AT_values) eqn:E3; cbn [negb]; [|discriminate].
  destruct (option_error mg) as [e|]; [discriminate|].
  destruct (isUint32 (mg_maxmem mg)) eqn:E4; cbn [negb orb]; [|discriminate].
  destruct (Z.ltb_spec (mg_maxmem mg) (memUsed_of mg)) as [|H2]; [discriminate|].
  intros _. apply isUint32_true in E1, E2, E4.
  apply existsb_exists in E3. destruct E3 as [x [Hin Hx]]. apply Z.eqb_eq in Hx. subst x.
  repeat split; try lia; try assumption.
Qed.

(** The geometry of the matrix: [m' = 4 p q], lanes of [4 q] blocks and
    segments of [q] blocks, with [q = floor(m / 4p) >= 2]. *)
Lemma geometry p m :
  1 <= p -> 8 * p <= m ->
  let q := m / (ARGON2_SYNC_POINTS * p) in
  let mP := 4 * p * JS.floordiv m (ARGON2_SYNC_POINTS * p) in
  2 <= q /\ mP = 4 * p * q /\ JS.floordiv mP p = 4 * q /\
  JS.floordiv (JS.floordiv mP p) ARGON2_SYNC_POINTS = q.
Proof.
  intros Hp Hm. cbv zeta. unfold JS.floordiv, ARGON2_SYNC_POINTS.
  set (q := m / (4 * p)).
  assert (Hq : 2 <= q) by (apply Z.div_le_lower_bound; lia).
  split; [exact Hq|]. split; [reflexivity|].
  assert (E1 : 4 * p * q / p = 4 * q).
  { replace (4 * p * q) with (4 * q * p) by ring. apply Z.div_mul. lia. }
  rewrite E1. split; [reflexivity|].
  replace (4 * q) with (q * 4) by ring. apply Z.div_mul. lia.
Qed.

Section TopLevel.

Context {Hasher : Blake2b}.

Lemma argon2_result type password salt opts A2_BUF :
  argon2 type password salt opts A2_BUF =
  match init_error password salt type (merge_defaults opts) with
  | Some e => ([], Throw e)
  | None =>
      ([AllocMatrix (memUsed_of (merge_defaults opts))],
       Ok (argon2_value (init_value password salt type (merge_defaults opts)) A2_BUF))
  end.
Proof.
  unfold argon2. rewrite argon2Init_result.
  destruct (init_error password salt type (merge_defaults opts)) as [e|];
    cbn [bind]; [reflexivity|].
  unfold argon2_value, fill_result. cbv zeta.
  set (ini := init_value password salt type (merge_defaults opts)).
  destruct (forRange 0 (in_t ini) (argon2_pass ini) _) as [[B address A2'] pg].
  cbn [fill_mem fill_progress mem_B mem_address mem_A2_BUF].
  destruct (argon2Output B (in_p ini) (in_laneLen ini) (in_dkLen ini)) as [res B_final].
  reflexivity.
Qed.

Lemma address_init_length ini : length (address_init ini) = 768%nat.
Proof. unfold address_init. cbv zeta. rewrite !store_length. reflexivity. Qed.

Lemma absorb_params_length items BUF h :
  length (fst (absorb_params items (BUF, h))) = length BUF.
Proof.
  unfold absorb_params. revert BUF h.
  induction items as [|x items IH]; intros BUF h; cbn [fold_left fst]; [reflexivity|].
  rewrite IH. apply store_length.
Qed.

Lemma absorb_inputs_length items BUF h :
  length (fst (absorb_inputs items (BUF, h))) = length BUF.
Proof.
  unfold absorb_inputs. revert BUF h.
  induction items as [|x items IH]; intros BUF h; cbn [fold_left fst]; [reflexivity|].
  rewrite IH. apply store_length.
Qed.

Lemma initial_hash_lengths password salt key personalization p dkLen m t version type :
  length (fst (initial_hash password salt key personalization p dkLen m t version type)) = 1%nat
  /\
  length (snd (initial_hash password salt key personalization p dkLen m t version type)) = 18%nat.
Proof.
  unfold initial_hash. cbv zeta.
  pose proof (absorb_params_length [p; dkLen; m; t; version; type] (zeros 1) []) as H1.
  destruct (absorb_params _ _) as [BUF h]. cbn [fst] in H1.
  pose proof (absorb_inputs_length [password; salt; key; personalization] BUF h) as H2.
  destruct (absorb_inputs _ _) as [BUF' h']. cbn [fst snd] in *.
  split; [rewrite H2, H1; reflexivity|].
  unfold u32. rewrite bytes_words_length, set8_length. reflexivity.
Qed.

Lemma fill_first_blocks_lengths p laneLen B H0 :
  length (fst (fill_first_blocks p laneLen (B, H0))) = length B /\
  length (snd (fill_first_blocks p laneLen (B, H0))) = length H0.
Proof.
  unfold fill_first_blocks.
  apply (forRange_invariant
           (fun st : list Z * list Z =>
              length (fst st) = length B /\ length (snd st) = length H0)).
  - split; reflexivity.
  - intros l [B' H0'] _ [HB HH]. cbn [fst snd] in *.
    rewrite !set32_length, !store_length. split; assumption.
Qed.

Lemma argon2Output_B_final B p laneLen dkLen :
  snd (argon2Output B p laneLen dkLen) = repeat 0 256.
Proof.
  unfold argon2Output. cbv zeta. cbn [snd]. rewrite fill0_repeat. f_equal.
  apply (forRange_invariant (fun buf => length buf = 256%nat)); [reflexivity|].
  intros l buf _ Hb.
  apply (forRange_invariant (fun buf => length buf = 256%nat)); [exact Hb|].
  intros j buf' _ Hb'. rewrite store_length. exact Hb'.
Qed.

Lemma argon2Output_tag_length B p laneLen dkLen :
  1 <= dkLen ->
  len (fst (argon2Output B p laneLen dkLen))
  = if dkLen <=? 64 then dkLen else 4 * (dkLen / 4).
Proof. intros Hd. unfold argon2Output. cbv zeta. cbn [fst]. apply Hp_byte_length. exact Hd. Qed.

End TopLevel.

(** ** Properties of a whole call *)

Section WholeCall.

Context {Hasher : Blake2b}.

Lemma argon2_success type password salt opts A2_BUF evs ret :
  argon2 type password salt opts A2_BUF = (evs, Ok ret) ->
  init_error password salt type (merge_defaults opts) = None /\
  ret = argon2_value (init_value password salt type (merge_defaults opts)) A2_BUF.
Proof.
  rewrite argon2_result.
  destruct (init_error password salt type (merge_defaults opts)) as [e|]; intros H;
    inversion H. split; reflexivity.
Qed.

(** The geometry of an accepted call. *)
Lemma init_value_geometry password salt type mg :
  init_error password salt type mg = None ->
  let ini := init_value password salt type mg in
  in_p ini = mg_p mg /\ in_t ini = mg_t mg /\ in_dkLen ini = mg_dkLen mg /\
  1 <= in_p ini /\ 1 <= in_t ini /\ 2 <= in_segmentLen ini /\
  in_laneLen ini = ARGON2_SYNC_POINTS * in_segmentLen ini /\
  in_mP ini = in_p ini * in_laneLen ini /\ in_lanes ini = in_p ini /\
  in_mP ini * 256 < maxUint32.
Proof.
  intros Herr. apply init_error_none in Herr.
  destruct Herr as [_ [_ [_ [Hopt [Hmax Hmem]]]]].
  apply option_error_none in Hopt. destruct Hopt as [_ [Hp [_ [Ht [Hm _]]]]].
  cbv zeta. unfold init_value. cbv zeta.
  cbn [in_p in_t in_dkLen in_segmentLen in_laneLen in_mP in_lanes].
  pose proof (geometry (mg_p mg) (mg_m mg) ltac:(lia) Hm) as Hg. cbv zeta in Hg.
  destruct Hg as [Hq [HmP [Hlane Hseg]]].
  unfold mP_of. unfold memUsed_of, mP_of in Hmem. rewrite Hseg, Hlane.
  unfold maxUint32. replace (2 ^ 32) with 4294967296 by reflexivity.
  unfold ARGON2_SYNC_POINTS in *. unfold JS.floordiv in *.
  repeat split; (lia || nia).
Qed.

(** The blocking entry point leaves every auxiliary buffer zeroed, whatever
    the scratch held when the call began. *)
Lemma argon2_buffers_zeroed
    (type : Z) (password salt : list byte) (opts : ArgonOpts) (A2_BUF : list Z)
    (evs : list Event) (ret : Returned) :
  argon2 type password salt opts A2_BUF = (evs, Ok ret) ->
  buffers_zeroed A2_BUF ret.
Proof.
  intros Hrun. unfold buffers_zeroed. apply argon2_success in Hrun. destruct Hrun as [Herr ->].
  pose proof (init_value_geometry password salt type (merge_defaults opts) Herr) as Hg.
  cbv zeta in Hg. destruct Hg as [_ [_ [_ [Hp [Ht [Hseg _]]]]]].
  set (ini := init_value password salt type (merge_defaults opts)) in *.
  unfold argon2_value. cbv zeta.
  cbn [final_H0 final_BUF final_address final_A2_BUF final_B_final].
  split.
  { unfold ini, init_value. cbv zeta. cbn [in_H0]. rewrite fill0_repeat. f_equal.
    rewrite (proj2 (fill_first_blocks_lengths _ _ _ _)).
    apply initial_hash_lengths. }
  split.
  { unfold ini, init_value. cbv zeta. cbn [in_BUF]. rewrite fill0_repeat.
    rewrite (proj1 (initial_hash_lengths _ _ _ _ _ _ _ _ _ _)). reflexivity. }
  pose proof (argon2_fill_shape ini
                (mkFill (mkMem (in_B ini) (address_init ini) A2_BUF) (mkProgress 0 [])))
    as Hshape.
  pose proof (argon2_fill_scratch ini
                (mkFill (mkMem (in_B ini) (address_init ini) A2_BUF) (mkProgress 0 []))
                Ht Hp ltac:(lia)) as Hzero.
  fold (fill_result ini A2_BUF) in Hshape, Hzero.
  unfold fill_shape, mem_shape in Hshape. cbn [fill_mem mem_B mem_address mem_A2_BUF] in Hshape.
  pose proof (f_equal (fun x : nat * nat * nat => snd (fst x)) Hshape) as Haddr.
  pose proof (f_equal (fun x : nat * nat * nat => snd x) Hshape) as HA2.
  cbn [fst snd] in Haddr, HA2. clear Hshape.
  split.
  { rewrite fill0_repeat, Haddr, address_init_length. reflexivity. }
  split.
  { unfold fill_scratch_zero, scratch_zero in Hzero. rewrite Hzero, HA2. reflexivity. }
  apply argon2Output_B_final.
Qed.

(** C2 (what the code does): the tag a successful call returns has [dkLen]
    bytes when [dkLen <= 64] and [4 * floor(dkLen / 4)] bytes otherwise, so a
    [dkLen] above 64 that is not a multiple of 4 yields a shorter tag. *)
Theorem C2_tag_length
    (type : Z) (password salt : list byte) (opts : ArgonOpts) (A2_BUF : list Z)
    (evs : list Event) (ret : Returned) :
  argon2 type password salt opts A2_BUF = (evs, Ok ret) ->
  let dkLen := or_default (opt_dkLen opts) 32 in
  len (output ret) = if dkLen <=? 64 then dkLen else 4 * (dkLen / 4).
Proof.
  intros Hrun. apply argon2_success in Hrun. destruct Hrun as [Herr ->].
  apply init_error_none in Herr. destruct Herr as [_ [_ [_ [Hopt _]]]].
  apply option_error_none in Hopt. destruct Hopt as [Hd _].
  cbv zeta. unfold argon2_value. cbv zeta. cbn [output].
  rewrite argon2Output_tag_length by (unfold init_value; cbn [in_dkLen]; lia).
  reflexivity.
Qed.

(** The closure of an accepted call with a callback: its [totalBlock] is
    the double of [T = 4 t p q], equal to [T] up to [2^53] and above [2^53]
    otherwise, and its [callbackPer] is at most the number [T - 2 p] of
    produced blocks. *)
Lemma accepted_closure t p q :
  1 <= t < 2 ^ 32 -> 1 <= p -> 2 <= q -> 4 * p * q < 2 ^ 24 ->
  let T := t * 4 * p * q in
  let T' := JS.fmul (JS.fmul (JS.fmul t 4) p) q in
  let cp := Z.max (Qfloor (JS.fdiv T' 10000)) 1 in
  0 < T' /\ (T <= 2 ^ 53 -> T' = T) /\
  1 <= cp <= 2 ^ 53 /\ cp <= T - 2 * p /\
  T' <= 2 ^ 53 * (T' - Z.min (T - 2 * p) (2 ^ 53)).
Proof.
  intros Ht Hp Hq Hm. cbv zeta.
  pose proof (totalBlock_facts t p q Ht Hp Hq) as HT. cbv zeta in HT.
  destruct HT as [Hexact [Hlarge [Hpos Hup]]].
  set (T := t * 4 * p * q) in *.
  set (T' := JS.fmul (JS.fmul (JS.fmul t 4) p) q) in *.
  assert (HT8 : 8 * p <= T).
  { unfold T. assert (2 <= t * q) by nia.
    replace (t * 4 * p * q) with (4 * p * (t * q)) by ring. nia. }
  assert (HT56 : T < 2 ^ 56).
  { unfold T. change (2 ^ 56) with (2 ^ 32 * 2 ^ 24).
    replace (t * 4 * p * q) with (t * (4 * p * q)) by ring.
    change (2 ^ 32) with 4294967296 in *. change (2 ^ 24) with 16777216 in *. nia. }
  pose proof (floor_toDouble_upper T' 10000 ltac:(lia) ltac:(lia)) as HF.
  pose proof (floor_toDouble_nonneg T' 10000 ltac:(lia) ltac:(lia)) as HF0.
  pose proof (Z.mul_div_le (2 * T') 10000 ltac:(lia)) as Hd.
  unfold JS.fdiv. set (F := Qfloor (JS.toDouble T' 10000)) in *.
  change (2 ^ 53) with 9007199254740992 in *.
  change (2 ^ 56) with 72057594037927936 in *.
  clearbody T T' F.
  split; [exact Hpos|]. split; [exact Hexact|].
  split; [lia|]. split; [lia|].
  destruct (Z.le_gt_cases T 9007199254740992) as [H|H].
  - rewrite (Hexact H). lia.
  - specialize (Hlarge H). lia.
Qed.

(** C9 (what the code does): when an [onProgress] callback is supplied, a
    successful call invokes it at least once and every fraction it passes,
    the last one included, lies strictly between 0 and 1: the closure counts
    [totalBlock - 2 * p] produced blocks and never reaches [totalBlock]. *)
Theorem C9_progress_never_reaches_one
    (type : Z) (password salt : list byte) (opts : ArgonOpts) (A2_BUF : list Z)
    (evs : list Event) (ret : Returned) :
  argon2 type password salt opts A2_BUF = (evs, Ok ret) ->
  opt_onProgress opts = Callback ->
  reported ret <> [] /\
  Forall (fun q => (0 < q)%Q /\ (q < 1)%Q) (reported ret).
Proof.
  intros Hrun Hon. apply argon2_success in Hrun. destruct Hrun as [Herr ->].
  pose proof (init_value_geometry password salt type (merge_defaults opts) Herr) as Hg.
  cbv zeta in Hg.
  destruct Hg as [Ep [Et [_ [Hp [Ht [Hseg [Hlane [HmP [_ Hmem]]]]]]]]].
  assert (Ht32 : mg_t (merge_defaults opts) < 2 ^ 32).
  { apply init_error_none in Herr. destruct Herr as [_ [_ [_ [Hopt _]]]].
    apply option_error_none in Hopt. change (2 ^ 32) with 4294967296. lia. }
  set (ini := init_value password salt type (merge_defaults opts)) in *.
  rewrite <- Et in Ht32.
  assert (Hm24 : 4 * in_p ini * in_segmentLen ini < 2 ^ 24).
  { unfold maxUint32, ARGON2_SYNC_POINTS in *.
    change (2 ^ 32) with 4294967296 in Hmem. change (2 ^ 24) with 16777216. nia. }
  pose proof (accepted_closure (in_t ini) (in_p ini) (in_segmentLen ini)
                ltac:(lia) Hp Hseg Hm24) as Hc.
  cbv zeta in Hc. destruct Hc as [Hpos [_ [Hper [Hreach Hroom]]]].
  set (c := mkPerBlock
              (JS.fmul (JS.fmul (JS.fmul (in_t ini) 4) (in_p ini)) (in_segmentLen ini))
              (Z.max (Qfloor (JS.fdiv
                                (JS.fmul (JS.fmul (JS.fmul (in_t ini) 4) (in_p ini))
                                   (in_segmentLen ini)) 10000)) 1)).
  assert (Hcfg : in_perBlock ini = Some c).
  { unfold ini, init_value. cbv zeta. cbn [in_perBlock].
    unfold progress_closure. cbn [merge_defaults mg_onProgress]. rewrite Hon. reflexivity. }
  pose proof (argon2_fill_progress ini c Hcfg Hper Hpos Hroom Ht Hp Hseg
                (mkFill (mkMem (in_B ini) (address_init ini) A2_BUF) (mkProgress 0 []))
                eq_refl) as [Hcnt [Hall Hne]].
  fold (fill_result ini A2_BUF) in Hcnt, Hall, Hne.
  unfold argon2_value. cbv zeta. cbn [reported].
  split; [|exact Hall].
  apply Hne. exact Hreach.
Qed.

Lemma init_error_with_key password salt type opts key personalization :
  init_error password salt type (merge_defaults (with_key opts key personalization))
  = init_error password salt type (merge_defaults opts).
Proof. destruct opts. reflexivity. Qed.

Lemma memUsed_with_key opts key personalization :
  memUsed_of (merge_defaults (with_key opts key personalization))
  = memUsed_of (merge_defaults opts).
Proof. destruct opts. reflexivity. Qed.

(** C8 (what the code does): whether a call is accepted does not depend on
    the key or the personalization; a call that returns also returns, after
    the same allocation, with a key or a personalization of any length, 2^32
    bytes or more included. *)
Theorem C8_key_length_unchecked
    (type : Z) (password salt : list byte) (opts : ArgonOpts)
    (key personalization : option (list byte)) (A2_BUF : list Z)
    (evs : list Event) (ret : Returned) :
  argon2 type password salt opts A2_BUF = (evs, Ok ret) ->
  exists ret',
    argon2 type password salt (with_key opts key personalization) A2_BUF = (evs, Ok ret').
Proof.
  rewrite !argon2_result. rewrite init_error_with_key, memUsed_with_key.
  destruct (init_error password salt type (merge_defaults opts)) as [e|]; intros H;
    [discriminate|].
  apply (f_equal fst) in H. cbn [fst] in H. subst evs.
  eexists. reflexivity.
Qed.

Lemma argon2Init_absent_key password salt type opts personalization :
  argon2Init password salt type (with_key opts None personalization)
  = argon2Init password salt type (with_key opts (Some []) personalization).
Proof.
  rewrite !argon2Init_result, !init_error_with_key, !memUsed_with_key.
  destruct opts. reflexivity.
Qed.

Lemma argon2Init_absent_personalization password salt type opts key :
  argon2Init password salt type (with_key opts key None)
  = argon2Init password salt type (with_key opts key (Some [])).
Proof.
  rewrite !argon2Init_result, !init_error_with_key, !memUsed_with_key.
  destruct opts. reflexivity.
Qed.

(** An entry point called with the key undefined returns what it returns
    with the key set to the empty byte string, and likewise for the
    personalization. *)
Lemma absent_field_same_call
    (host : Host) (type : Z) (password salt : list byte) (opts : ArgonOpts)
    (A2_BUF : list Z) (key personalization : option (list byte)) :
  argon2 type password salt (with_key opts None personalization) A2_BUF
  = argon2 type password salt (with_key opts (Some []) personalization) A2_BUF /\
  argon2 type password salt (with_key opts key None) A2_BUF
  = argon2 type password salt (with_key opts key (Some [])) A2_BUF /\
  argon2Async host type password salt (with_key opts None personalization) A2_BUF
  = argon2Async host type password salt (with_key opts (Some []) personalization) A2_BUF /\
  argon2Async host type password salt (with_key opts key None) A2_BUF
  = argon2Async host type password salt (with_key opts key (Some [])) A2_BUF.
Proof.
  unfold argon2, argon2Async.
  rewrite argon2Init_absent_key, argon2Init_absent_personalization.
  repeat split; reflexivity.
Qed.

(** C4 (as amended): for every otherwise-valid parameter set, the call fails
    with the memory-budget error exactly when [maxmem] (2^32 - 1 by default) is
    not an unsigned 32-bit integer or is exceeded by [m' * 256], the number of
    32-bit words of the matrix; the failure comes before the matrix is
    allocated, and otherwise the matrix is allocated with [m' * 256] words. *)
Theorem C4_memory_budget_in_words
    (password salt : list byte) (type : Z) (opts : ArgonOpts) :
  precheck_error password salt type (merge_defaults opts) = None ->
  memory_budget_rule password salt type opts.
Proof.
  intros Hpre. unfold memory_budget_rule. cbv zeta.
  rewrite argon2Init_result. unfold init_error. rewrite Hpre.
  assert (Hmax : mg_maxmem (merge_defaults opts) = or_default (opt_maxmem opts) (2 ^ 32 - 1))
    by reflexivity.
  assert (Hmem : memUsed_of (merge_defaults opts)
                 = 4 * opt_p opts * (opt_m opts / (4 * opt_p opts)) * 256)
    by reflexivity.
  rewrite Hmax, Hmem.
  set (maxmem := or_default (opt_maxmem opts) (2 ^ 32 - 1)).
  set (words := 4 * opt_p opts * (opt_m opts / (4 * opt_p opts)) * 256).
  assert (Hu : isUint32 maxmem = true <-> 0 <= maxmem < 2 ^ 32).
  { rewrite isUint32_true. replace (2 ^ 32) with 4294967296 by reflexivity. reflexivity. }
  destruct (isUint32 maxmem) eqn:Eu; cbn [negb orb].
  - destruct (Z.ltb_spec maxmem words) as [Hlt|Hge].
    + split.
      * split; [intros _; right; exact Hlt|reflexivity].
      * intros _ Hle. lia.
    + split.
      * split; [intros H; inversion H|].
        intros [Hn|Hlt]; [exfalso; apply Hn; apply Hu; reflexivity|lia].
      * intros _ _. eexists. split; [reflexivity|].
        unfold init_value. cbv zeta. cbn [in_B].
        unfold len. rewrite (proj1 (fill_first_blocks_lengths _ _ _ _)).
        rewrite zeros_length. fold (memUsed_of (merge_defaults opts)). rewrite Hmem.
        fold words. apply Z2Nat.id.
        unfold words.
        unfold precheck_error in Hpre.
        destruct (negb (isUint32 (len password))); [discriminate|].
        destruct (negb (isUint32 (len salt)) || (len salt <? 8)); [discriminate|].
        destruct (negb (existsb (Z.eqb type) AT_values)); [discriminate|].
        apply option_error_none in Hpre. cbn [merge_defaults mg_p mg_m] in Hpre.
        destruct Hpre as [_ [Hp [Hm _]]].
        assert (0 <= opt_m opts / (4 * opt_p opts)) by (apply Z.div_pos; lia).
        nia.
  - split.
    + split; [intros _; left; intros Hr; apply Hu in Hr; discriminate|reflexivity].
    + intros Hr _. apply Hu in Hr. discriminate.
Qed.

End WholeCall.

(** ** The cooperative driver computes what the blocking driver computes *)

Lemma next_addresses_indep address A2 A2' :
  length A2 = 256%nat -> length A2' = 256%nat ->
  next_addresses address A2 = next_addresses address A2'.
Proof.
  intros H1 H2. unfold next_addresses. cbv zeta.
  rewrite (block_indep _ 256 (2 * 256) 0 false A2 A2' H1 H2). reflexivity.
Qed.

Lemma processBlock_indep m1 m2 l r s index laneLen segmentLen lanes offset prev di nx :
  same_data m1 m2 ->
  processBlock m1 l r s index laneLen segmentLen lanes offset prev di nx
  = processBlock m2 l r s index laneLen segmentLen lanes offset prev di nx.
Proof.
  destruct m1 as [B1 a1 A1], m2 as [B2 a2 A2]. unfold same_data.
  cbn [mem_B mem_address mem_A2_BUF]. intros [-> [-> [H1 H2]]].
  unfold processBlock. cbv zeta.
  destruct di.
  - destruct (JS.rem index 128 =? 0).
    + rewrite (next_addresses_indep a2 A1 A2 H1 H2). reflexivity.
    + rewrite (block_indep B2 _ _ _ nx A1 A2 H1 H2). reflexivity.
  - rewrite (block_indep B2 _ _ _ nx A1 A2 H1 H2). reflexivity.
Qed.

Lemma processBlock_same_data m l r s index laneLen segmentLen lanes offset prev di nx :
  length (mem_A2_BUF m) = 256%nat ->
  same_data (processBlock m l r s index laneLen segmentLen lanes offset prev di nx)
            (processBlock m l r s index laneLen segmentLen lanes offset prev di nx).
Proof.
  intros H.
  pose proof (processBlock_shape m l r s index laneLen segmentLen lanes offset prev di nx)
    as Hs.
  pose proof (f_equal (fun x : nat * nat * nat => snd x) Hs) as HA. cbn [snd] in HA.
  unfold mem_shape in HA. cbn [snd] in HA.
  unfold same_data. repeat split; try reflexivity; rewrite HA; exact H.
Qed.

Lemma lane_start_related m1 m2 r s l di :
  same_data m1 m2 ->
  same_data (fst (lane_start m1 r s l di)) (fst (lane_start m2 r s l di)) /\
  snd (lane_start m1 r s l di) = snd (lane_start m2 r s l di).
Proof.
  intros Hd. split; [|rewrite !lane_start_startPos; reflexivity].
  destruct m1 as [B1 a1 A1], m2 as [B2 a2 A2]. unfold same_data in *.
  cbn [mem_B mem_address mem_A2_BUF] in Hd. destruct Hd as [-> [-> [H1 H2]]].
  unfold lane_start. cbv zeta.
  destruct ((r =? 0) && (s =? 0)); [destruct di|].
  - rewrite (next_addresses_indep _ A1 A2 H1 H2).
    pose proof (next_addresses_scratch (store (store a2 (256 + 2) l) (256 + 12) 0) A2) as Hz.
    destruct (next_addresses _ A2) as [a' A']. cbn [snd] in Hz.
    cbn [fst mem_B mem_address mem_A2_BUF].
    repeat split; rewrite Hz, repeat_length; exact H2.
  - cbn [fst mem_B mem_address mem_A2_BUF]. repeat split; assumption.
  - cbn [fst mem_B mem_address mem_A2_BUF]. repeat split; assumption.
Qed.

Section Simulation.

Variables (host : Host) (ia : Init) (ib : Init).
Hypothesis Hhost : forall k, length (host_scratch host k) = 256%nat.
Hypothesis Heng : same_engine ia ib.

(** The cooperative state and the blocking state hold the same data. *)
Definition sim (sa : FillAsync) (sb : Fill) : Prop :=
  same_data (fill_mem (async_fill sa)) (fill_mem sb).

Lemma tick_sim sa sb asyncTick : sim sa sb -> sim (tick host asyncTick sa) sb.
Proof.
  unfold sim, tick. destruct sa as [[[B a A] pg] ts reads yields].
  cbn [async_fill fill_mem]. intros [HB [Ha [H1 H2]]].
  destruct (negb _); cbn [async_fill fill_mem]; unfold same_data;
    cbn [mem_B mem_address mem_A2_BUF] in *; repeat split; try assumption.
  apply Hhost.
Qed.

Lemma set_address_sim sa sb i v :
  sim sa sb -> sim (set_address_async sa i v) (set_address sb i v).
Proof.
  unfold sim, set_address_async, set_address.
  destruct sa as [[[B a A] pg] ts reads yields], sb as [[B' a' A'] pg'].
  cbn [async_fill fill_mem]. unfold same_data. cbn [mem_B mem_address mem_A2_BUF].
  intros [-> [-> [H1 H2]]]. repeat split; assumption.
Qed.

Lemma lane_sim r s l sa sb :
  sim sa sb -> sim (argon2Async_lane host ia r s l sa) (argon2_lane ib r s l sb).
Proof.
  intros Hsim. destruct Heng as [Ety [_ [_ [_ [Ever [_ [Elane [Elanes [Eseg _]]]]]]]]].
  unfold argon2Async_lane, argon2_lane. cbv zeta.
  destruct sa as [fl ts reads yields]. unfold sim in Hsim. cbn [async_fill] in Hsim.
  rewrite Ety, Ever, Elane, Elanes, Eseg.
  pose proof (lane_start_related (fill_mem fl) (fill_mem sb) r s l
                (dataIndependentAt (in_type ib) r s) Hsim) as [Hd Hsp].
  destruct (lane_start (fill_mem fl) r s l _) as [m1 sp1].
  destruct (lane_start (fill_mem sb) r s l _) as [m2 sp2].
  cbn [fst snd] in Hd, Hsp. subst sp2.
  match goal with
  | |- context [forRange ?lo ?hi ?f ?a] =>
      match goal with
      | |- context [forRange lo hi ?g (mkFill m2 ?pg, ?o, ?pv)] =>
          pose proof (forRange_related
                        (fun (x : FillAsync * Z * Z) (y : Fill * Z * Z) =>
                           sim (fst (fst x)) (fst (fst y)) /\
                           snd (fst x) = snd (fst y) /\ snd x = snd y)
                        lo hi f g a (mkFill m2 pg, o, pv)) as Hrel
      end
  end.
  destruct (forRange _ _ _ (mkFillAsync _ _ _ _, _, _)) as [[sa' oa] pa].
  destruct (forRange _ _ _ (mkFill m2 _, _, _)) as [[sb' ob] pb].
  cbn [fst snd] in Hrel. apply Hrel.
  - split; [exact Hd|split; reflexivity].
  - intros j [[xa xo] xp] [[ya yo] yp] _ [Hs [Eo Ep]]. cbn [fst snd] in *. subst yo yp.
    destruct xa as [xfl xts xreads xyields]. unfold sim in Hs. cbn [async_fill] in Hs.
    cbn [fst snd]. split; [|split; reflexivity].
    apply tick_sim. unfold sim. cbn [async_fill fill_mem].
    rewrite (processBlock_indep _ _ _ _ _ _ _ _ _ _ _ _ _ Hs).
    apply processBlock_same_data. destruct Hs as [_ [_ [_ H2]]]. exact H2.
Qed.

Lemma segment_sim r s sa sb :
  sim sa sb -> sim (argon2Async_segment host ia r s sa) (argon2_segment ib r s sb).
Proof.
  intros Hsim. unfold argon2Async_segment, argon2_segment. cbv zeta.
  destruct Heng as [_ [_ [Ep _]]]. rewrite Ep.
  apply (forRange_related sim).
  - apply set_address_sim. exact Hsim.
  - intros l sa' sb' _ H. apply lane_sim. exact H.
Qed.

Lemma pass_sim r sa sb :
  sim sa sb -> sim (argon2Async_pass host ia r sa) (argon2_pass ib r sb).
Proof.
  intros Hsim. unfold argon2Async_pass, argon2_pass. cbv zeta.
  apply (forRange_related sim).
  - apply set_address_sim. exact Hsim.
  - intros s sa' sb' _ H. apply segment_sim. exact H.
Qed.

Lemma fill_sim sa sb :
  sim sa sb ->
  sim (forRange 0 (in_t ia) (argon2Async_pass host ia) sa)
      (forRange 0 (in_t ib) (argon2_pass ib) sb).
Proof.
  intros Hsim. destruct Heng as [_ [_ [_ [Et _]]]]. rewrite Et.
  apply (forRange_related sim); [exact Hsim|].
  intros r sa' sb' _ H. apply pass_sim. exact H.
Qed.

End Simulation.

(** ** The scratch of a cooperative call *)

Section Tracking.

Variables (host : Host) (ia : Init) (ib : Init).
Hypothesis Hhost : forall k, length (host_scratch host k) = 256%nat.
Hypothesis Heng : same_engine ia ib.

(** The scratch is the one of the blocking state, unless another task wrote
    it last. *)
Definition scratch_from (A A' : list Z) : Prop :=
  A = A' \/ exists k, A = host_scratch host k.

(** The cooperative state holds the data of the blocking state, and its
    scratch comes from there or from another task. *)
Definition tracked (sa : FillAsync) (sb : Fill) : Prop :=
  sim sa sb /\
  scratch_from (mem_A2_BUF (fill_mem (async_fill sa))) (mem_A2_BUF (fill_mem sb)).

Lemma tick_tracked sa sb asyncTick : tracked sa sb -> tracked (tick host asyncTick sa) sb.
Proof.
  intros [Hs Ht]. split; [apply (tick_sim host Hhost); exact Hs|].
  unfold tick. destruct sa as [[[B a A] pg] ts reads yields].
  cbn [async_fill fill_mem mem_A2_BUF] in *.
  destruct (negb _); cbn [async_fill fill_mem mem_A2_BUF];
    [right; eexists; reflexivity|exact Ht].
Qed.

Lemma set_address_tracked sa sb i v :
  tracked sa sb -> tracked (set_address_async sa i v) (set_address sb i v).
Proof.
  intros [Hs Ht]. split; [apply set_address_sim; exact Hs|].
  destruct sa as [[[B a A] pg] ts reads yields], sb as [[B' a' A'] pg'].
  cbn [set_address_async set_address async_fill fill_mem mem_A2_BUF] in *. exact Ht.
Qed.

Lemma lane_start_tracked m1 m2 r s l di :
  same_data m1 m2 -> scratch_from (mem_A2_BUF m1) (mem_A2_BUF m2) ->
  scratch_from (mem_A2_BUF (fst (lane_start m1 r s l di)))
    (mem_A2_BUF (fst (lane_start m2 r s l di))).
Proof.
  destruct m1 as [B1 a1 A1], m2 as [B2 a2 A2]. unfold same_data.
  cbn [mem_B mem_address mem_A2_BUF]. intros [-> [-> [H1 H2]]] Hfrom.
  unfold lane_start. cbv zeta.
  destruct ((r =? 0) && (s =? 0)); [destruct di|];
    cbn [fst mem_A2_BUF]; try exact Hfrom.
  rewrite (next_addresses_indep _ A1 A2 H1 H2).
  destruct (next_addresses _ A2) as [a' A']. cbn [fst mem_A2_BUF]. left. reflexivity.
Qed.

Lemma lane_tracked r s l sa sb :
  tracked sa sb -> tracked (argon2Async_lane host ia r s l sa) (argon2_lane ib r s l sb).
Proof.
  intros [Hsim Hfrom]. destruct Heng as [Ety [_ [_ [_ [Ever [_ [Elane [Elanes [Eseg _]]]]]]]]].
  unfold argon2Async_lane, argon2_lane. cbv zeta.
  destruct sa as [fl ts reads yields]. unfold sim in Hsim. cbn [async_fill] in Hsim, Hfrom.
  rewrite Ety, Ever, Elane, Elanes, Eseg.
  pose proof (lane_start_related (fill_mem fl) (fill_mem sb) r s l
                (dataIndependentAt (in_type ib) r s) Hsim) as [Hd Hsp].
  pose proof (lane_start_tracked (fill_mem fl) (fill_mem sb) r s l
                (dataIndependentAt (in_type ib) r s) Hsim Hfrom) as Hf.
  destruct (lane_start (fill_mem fl) r s l _) as [m1 sp1].
  destruct (lane_start (fill_mem sb) r s l _) as [m2 sp2].
  cbn [fst snd] in Hd, Hsp, Hf. subst sp2.
  match goal with
  | |- context [forRange ?lo ?hi ?f ?a] =>
      match goal with
      | |- context [forRange lo hi ?g (mkFill m2 ?pg, ?o, ?pv)] =>
          pose proof (forRange_related
                        (fun (x : FillAsync * Z * Z) (y : Fill * Z * Z) =>
                           tracked (fst (fst x)) (fst (fst y)) /\
                           snd (fst x) = snd (fst y) /\ snd x = snd y)
                        lo hi f g a (mkFill m2 pg, o, pv)) as Hrel
      end
  end.
  destruct (forRange _ _ _ (mkFillAsync _ _ _ _, _, _)) as [[sa' oa] pa].
  destruct (forRange _ _ _ (mkFill m2 _, _, _)) as [[sb' ob] pb].
  cbn [fst snd] in Hrel. apply Hrel.
  - split; [|split; reflexivity]. split; [exact Hd|exact Hf].
  - intros j [[xa xo] xp] [[ya yo] yp] _ [[Hs _] [Eo Ep]]. cbn [fst snd] in *. subst yo yp.
    destruct xa as [xfl xts xreads xyields]. unfold sim in Hs. cbn [async_fill] in Hs.
    cbn [fst snd]. split; [|split; reflexivity].
    apply tick_tracked. unfold tracked, sim. cbn [async_fill fill_mem].
    rewrite (processBlock_indep _ _ _ _ _ _ _ _ _ _ _ _ _ Hs).
    split; [|left; reflexivity].
    apply processBlock_same_data. destruct Hs as [_ [_ [_ H2]]]. exact H2.
Qed.

Lemma segment_tracked r s sa sb :
  tracked sa sb -> tracked (argon2Async_segment host ia r s sa) (argon2_segment ib r s sb).
Proof.
  intros Htr. unfold argon2Async_segment, argon2_segment. cbv zeta.
  destruct Heng as [_ [_ [Ep _]]]. rewrite Ep.
  apply (forRange_related tracked).
  - apply set_address_tracked. exact Htr.
  - intros l sa' sb' _ H. apply lane_tracked. exact H.
Qed.

Lemma pass_tracked r sa sb :
  tracked sa sb -> tracked (argon2Async_pass host ia r sa) (argon2_pass ib r sb).
Proof.
  intros Htr. unfold argon2Async_pass, argon2_pass. cbv zeta.
  apply (forRange_related tracked).
  - apply set_address_tracked. exact Htr.
  - intros s sa' sb' _ H. apply segment_tracked. exact H.
Qed.

Lemma fill_tracked sa sb :
  tracked sa sb ->
  tracked (forRange 0 (in_t ia) (argon2Async_pass host ia) sa)
          (forRange 0 (in_t ib) (argon2_pass ib) sb).
Proof.
  intros Htr. destruct Heng as [_ [_ [_ [Et _]]]]. rewrite Et.
  apply (forRange_related tracked); [exact Htr|].
  intros r sa' sb' _ H. apply pass_tracked. exact H.
Qed.

End Tracking.

Section Equivalence.

Context {Hasher : Blake2b}.

Lemma argon2Async_tag host type password salt opts A2_BUF :
  tag_of (argon2Async host type password salt opts A2_BUF) =
  match init_error password salt type (merge_defaults opts) with
  | Some e => Throw e
  | None =>
      let ini := init_value password salt type (merge_defaults opts) in
      Ok (fst (argon2Output
                 (mem_B (fill_mem (async_fill (fill_result_async host ini A2_BUF))))
                 (in_p ini) (in_laneLen ini) (in_dkLen ini)))
  end.
Proof.
  unfold argon2Async. rewrite argon2Init_result.
  destruct (init_error password salt type (merge_defaults opts)) as [e|];
    cbn [bind]; [reflexivity|].
  unfold fill_result_async. cbv zeta.
  set (ini := init_value password salt type (merge_defaults opts)).
  destruct (forRange 0 (in_t ini) (argon2Async_pass host ini) _)
    as [[[B address A2'] pg] ts reads yields].
  cbn [async_fill fill_mem mem_B].
  destruct (argon2Output B (in_p ini) (in_laneLen ini) (in_dkLen ini)) as [res B_final].
  reflexivity.
Qed.

Lemma argon2_tag type password salt opts A2_BUF :
  tag_of (argon2 type password salt opts A2_BUF) =
  match init_error password salt type (merge_defaults opts) with
  | Some e => Throw e
  | None =>
      let ini := init_value password salt type (merge_defaults opts) in
      Ok (fst (argon2Output (mem_B (fill_mem (fill_result ini A2_BUF)))
                 (in_p ini) (in_laneLen ini) (in_dkLen ini)))
  end.
Proof.
  rewrite argon2_result.
  destruct (init_error password salt type (merge_defaults opts)) as [e|]; reflexivity.
Qed.

Lemma init_error_with_async password salt type opts asyncTick asyncTick'
    (onProgress onProgress' : bool) :
  init_error password salt type (merge_defaults (with_async opts asyncTick onProgress))
  = init_error password salt type (merge_defaults (with_async opts asyncTick' onProgress')).
Proof. destruct opts, onProgress, onProgress'; reflexivity. Qed.

Lemma init_value_with_async password salt type opts asyncTick onProgress :
  same_engine
    (init_value password salt type (merge_defaults (with_async opts asyncTick onProgress)))
    (init_value password salt type (merge_defaults opts)).
Proof. destruct opts. unfold same_engine. repeat split; reflexivity. Qed.

Lemma same_engine_refl ini : same_engine ini ini.
Proof. unfold same_engine. repeat split; reflexivity. Qed.

Lemma same_engine_sym i1 i2 : same_engine i1 i2 -> same_engine i2 i1.
Proof. unfold same_engine. intuition congruence. Qed.

Lemma same_engine_trans i1 i2 i3 :
  same_engine i1 i2 -> same_engine i2 i3 -> same_engine i1 i3.
Proof. unfold same_engine. intuition congruence. Qed.

(** C5: for identical password, salt, variant and options, the blocking and
    the cooperative entry point return the same tag (or fail with the same
    error), whatever [asyncTick] is, whether or not [onProgress] is supplied,
    whatever the clock reads and whatever other tasks leave in the scratch
    while the cooperative call is suspended. *)
Theorem C5_blocking_and_cooperative_agree
    (host : Host) (type : Z) (password salt : list byte) (opts : ArgonOpts)
    (A2_BUF A2_BUF' : list Z)
    (asyncTick asyncTick' : option Z) (onProgress onProgress' : bool) :
  (forall k, length (host_scratch host k) = 256%nat) ->
  length A2_BUF = 256%nat -> length A2_BUF' = 256%nat ->
  tag_of (argon2Async host type password salt (with_async opts asyncTick onProgress) A2_BUF)
  = tag_of (argon2 type password salt (with_async opts asyncTick' onProgress') A2_BUF').
Proof.
  intros Hhost HA HA'.
  rewrite argon2Async_tag, argon2_tag.
  rewrite (init_error_with_async password salt type opts asyncTick asyncTick'
             onProgress onProgress').
  destruct (init_error password salt type
              (merge_defaults (with_async opts asyncTick' onProgress'))) as [e|];
    [reflexivity|].
  cbv zeta.
  set (ia := init_value password salt type
               (merge_defaults (with_async opts asyncTick onProgress))).
  set (ib := init_value password salt type
               (merge_defaults (with_async opts asyncTick' onProgress'))).
  assert (Heng : same_engine ia ib).
  { apply same_engine_trans with (i2 := init_value password salt type (merge_defaults opts)).
    - apply init_value_with_async.
    - apply same_engine_sym, init_value_with_async. }
  pose proof (fill_sim host ia ib Hhost Heng
                (mkFillAsync
                   (mkFill (mkMem (in_B ia) (address_init ia) A2_BUF) (mkProgress 0 []))
                   (host_now host 0%nat) 1%nat 0%nat)
                (mkFill (mkMem (in_B ib) (address_init ib) A2_BUF') (mkProgress 0 [])))
    as Hsim.
  fold (fill_result_async host ia A2_BUF) in Hsim. fold (fill_result ib A2_BUF') in Hsim.
  destruct Heng as [Ety [EmP [Ep [Et [Ever [EB [Elane [Elanes [Eseg Edk]]]]]]]]].
  assert (H0 : sim (mkFillAsync
                      (mkFill (mkMem (in_B ia) (address_init ia) A2_BUF) (mkProgress 0 []))
                      (host_now host 0%nat) 1%nat 0%nat)
                   (mkFill (mkMem (in_B ib) (address_init ib) A2_BUF') (mkProgress 0 []))).
  { unfold sim, same_data. cbn [async_fill fill_mem mem_B mem_address mem_A2_BUF].
    split; [exact EB|]. split; [|split; assumption].
    unfold address_init. rewrite EmP, Et, Ety. reflexivity. }
  specialize (Hsim H0). destruct Hsim as [HB _].
  rewrite HB, Ep, Elane, Edk. reflexivity.
Qed.

Lemma argon2Async_result host type password salt opts A2_BUF :
  argon2Async host type password salt opts A2_BUF =
  match init_error password salt type (merge_defaults opts) with
  | Some e => ([], Throw e)
  | None =>
      ([AllocMatrix (memUsed_of (merge_defaults opts))],
       Ok (argon2Async_value host
             (init_value password salt type (merge_defaults opts)) A2_BUF))
  end.
Proof.
  unfold argon2Async. rewrite argon2Init_result.
  destruct (init_error password salt type (merge_defaults opts)) as [e|];
    cbn [bind]; [reflexivity|].
  unfold argon2Async_value, fill_result_async. cbv zeta.
  set (ini := init_value password salt type (merge_defaults opts)).
  destruct (forRange 0 (in_t ini) (argon2Async_pass host ini) _)
    as [[[B address A2'] pg] ts reads yields].
  cbn [async_fill fill_mem fill_progress mem_B mem_address mem_A2_BUF].
  destruct (argon2Output B (in_p ini) (in_laneLen ini) (in_dkLen ini)) as [res B_final].
  reflexivity.
Qed.

(** The cooperative entry point leaves [H0], [BUF], the address triple and
    [B_final] zeroed, and the scratch as its last call of [block] zeroed it
    unless another task wrote it since. *)
Lemma argon2Async_buffers
    (host : Host) (type : Z) (password salt : list byte) (opts : ArgonOpts)
    (A2_BUF : list Z) (evs : list Event) (ret : Returned) :
  length A2_BUF = 256%nat ->
  (forall k, length (host_scratch host k) = 256%nat) ->
  argon2Async host type password salt opts A2_BUF = (evs, Ok ret) ->
  final_H0 ret = repeat 0 18 /\ final_BUF ret = repeat 0 1 /\
  final_address ret = repeat 0 768 /\ final_B_final ret = repeat 0 256 /\
  (final_A2_BUF ret = repeat 0 256 \/ exists k, final_A2_BUF ret = host_scratch host k).
Proof.
  intros HA Hhost. rewrite argon2Async_result.
  destruct (init_error password salt type (merge_defaults opts)) as [e|] eqn:Herr;
    [discriminate|].
  intros Hrun. injection Hrun as _ <-.
  pose proof (argon2_buffers_zeroed type password salt opts A2_BUF
                [AllocMatrix (memUsed_of (merge_defaults opts))]
                (argon2_value (init_value password salt type (merge_defaults opts)) A2_BUF))
    as Hz.
  rewrite argon2_result, Herr in Hz. specialize (Hz eq_refl).
  destruct Hz as [HH0 [HBUF [Haddr [HA2 _]]]].
  set (ini := init_value password salt type (merge_defaults opts)) in *.
  assert (Htr : tracked host (fill_result_async host ini A2_BUF) (fill_result ini A2_BUF)).
  { unfold fill_result_async, fill_result.
    apply (fill_tracked host ini ini Hhost (same_engine_refl ini)).
    split; [|left; reflexivity].
    unfold sim, same_data. cbn [async_fill fill_mem mem_B mem_address mem_A2_BUF].
    repeat split; try reflexivity; assumption. }
  destruct Htr as [[_ [Ea _]] Hfrom].
  unfold argon2_value in HH0, HBUF, Haddr, HA2. cbv zeta in HH0, HBUF, Haddr, HA2.
  cbn [final_H0 final_BUF final_address final_A2_BUF] in HH0, HBUF, Haddr, HA2.
  unfold argon2Async_value. cbv zeta.
  cbn [final_H0 final_BUF final_address final_A2_BUF final_B_final].
  split; [exact HH0|]. split; [exact HBUF|].
  split; [rewrite Ea; exact Haddr|].
  split; [apply argon2Output_B_final|].
  rewrite HA in HA2. destruct Hfrom as [E|[k E]].
  - left. rewrite E. exact HA2.
  - right. exists k. exact E.
Qed.

(** C7: after every successful top-level call returns, blocking or
    cooperative, the auxiliary buffers (H0 and the length-encoding BUF, the
    address triple, the per-block scratch A2_BUF and the finalisation
    accumulator B_final) hold zeros in every word. For the blocking entry
    point that holds whatever the scratch held when the call began. For the
    cooperative entry point it holds under every clock; the scratch, being
    shared, is zero unless a task that ran during a yield wrote it after the
    call's last block, and is zero when those tasks use it through [block]
    as this module does. *)
Theorem C7_auxiliary_buffers_zeroed
    (type : Z) (password salt : list byte) (opts : ArgonOpts) (A2_BUF : list Z) :
  (forall evs ret,
     argon2 type password salt opts A2_BUF = (evs, Ok ret) ->
     buffers_zeroed A2_BUF ret) /\
  (forall host evs ret,
     length A2_BUF = 256%nat ->
     (forall k, length (host_scratch host k) = 256%nat) ->
     argon2Async host type password salt opts A2_BUF = (evs, Ok ret) ->
     final_H0 ret = repeat 0 18 /\ final_BUF ret = repeat 0 1 /\
     final_address ret = repeat 0 768 /\ final_B_final ret = repeat 0 256 /\
     (final_A2_BUF ret = repeat 0 256
      \/ exists k, final_A2_BUF ret = host_scratch host k) /\
     (module_host host -> buffers_zeroed A2_BUF ret)).
Proof.
  split.
  - intros evs ret Hrun. exact (argon2_buffers_zeroed _ _ _ _ _ _ _ Hrun).
  - intros host evs ret HA Hhost Hrun.
    destruct (argon2Async_buffers host _ _ _ _ _ _ _ HA Hhost Hrun)
      as [HH0 [HBUF [Haddr [HBf Hscr]]]].
    do 5 (split; [assumption|]).
    intros Hmod. unfold buffers_zeroed. rewrite HA.
    do 3 (split; [assumption|]). split; [|exact HBf].
    destruct Hscr as [E|[k E]]; [exact E|]. rewrite E. apply Hmod.
Qed.

End Equivalence.

(** * The theorems at concrete inputs *)

Lemma C6_blamka_signed_halves_witness :
  blamka 4294967295 4294967295 1 2147483648
  = signed_halves (BlaMka (4294967295 * 2 ^ 32 + 4294967295) (1 * 2 ^ 32 + 2147483648)).
Proof. apply C6_blamka_signed_halves; lia. Defined.

(** C6 as stated fails: for A = 2^31 and B = 0 the low half of the result is
    2^31, and [blamka] returns -2^31 for it. *)
Lemma C6_unsigned_halves_counterexample :
  blamka 0 2147483648 0 0
  <> unsigned_halves (BlaMka (0 * 2 ^ 32 + 2147483648) (0 * 2 ^ 32 + 0)).
Proof. vm_compute. discriminate. Qed.

Lemma C3_reference_block_witness :
  reference_block_ok 1 8 2 0 1 0 0 5 7.
Proof.
  apply C3_reference_block_written_earlier;
    unfold ARGON2_SYNC_POINTS, maxUint32, startPosOf; cbn; lia.
Defined.

(** The smallest accepted call, [argon2id('', salt8, { t: 1, m: 8, p: 1 })],
    over the stand-in hasher: the matrix has [8 * 256 = 2048] words. *)

Lemma C2_tag_length_witness :
  @argon2 ToyHasher AT_Argon2id [] salt8 (opts_dkLen 65) (zeros 256)
  = ([AllocMatrix 2048],
     Ok (@argon2_value ToyHasher
           (@init_value ToyHasher [] salt8 AT_Argon2id (merge_defaults (opts_dkLen 65)))
           (zeros 256))) /\
  len (output
         (@argon2_value ToyHasher
            (@init_value ToyHasher [] salt8 AT_Argon2id (merge_defaults (opts_dkLen 65)))
            (zeros 256))) = 64.
Proof.
  assert (Hrun :
    @argon2 ToyHasher AT_Argon2id [] salt8 (opts_dkLen 65) (zeros 256)
    = ([AllocMatrix 2048],
       Ok (@argon2_value ToyHasher
             (@init_value ToyHasher [] salt8 AT_Argon2id (merge_defaults (opts_dkLen 65)))
             (zeros 256))))
    by (rewrite argon2_result; reflexivity).
  split; [exact Hrun|].
  exact (@C2_tag_length ToyHasher _ _ _ _ _ _ _ Hrun).
Defined.

Lemma C7_auxiliary_buffers_witness :
  (@argon2 ToyHasher AT_Argon2id [] salt8 opts_min (repeat 5 256)
   = ([AllocMatrix 2048],
      Ok (@argon2_value ToyHasher
            (@init_value ToyHasher [] salt8 AT_Argon2id (merge_defaults opts_min))
            (repeat 5 256))) /\
   buffers_zeroed (repeat 5 256)
     (@argon2_value ToyHasher
        (@init_value ToyHasher [] salt8 AT_Argon2id (merge_defaults opts_min))
        (repeat 5 256))) /\
  (@argon2Async ToyHasher host_quiet AT_Argon2id [] salt8 opts_min (repeat 5 256)
   = ([AllocMatrix 2048],
      Ok (@argon2Async_value ToyHasher host_quiet
            (@init_value ToyHasher [] salt8 AT_Argon2id (merge_defaults opts_min))
            (repeat 5 256))) /\
   buffers_zeroed (repeat 5 256)
     (@argon2Async_value ToyHasher host_quiet
        (@init_value ToyHasher [] salt8 AT_Argon2id (merge_defaults opts_min))
        (repeat 5 256))).
Proof.
  assert (Hrun :
    @argon2 ToyHasher AT_Argon2id [] salt8 opts_min (repeat 5 256)
    = ([AllocMatrix 2048],
       Ok (@argon2_value ToyHasher
             (@init_value ToyHasher [] salt8 AT_Argon2id (merge_defaults opts_min))
             (repeat 5 256))))
    by (rewrite argon2_result; reflexivity).
  assert (Hrun' :
    @argon2Async ToyHasher host_quiet AT_Argon2id [] salt8 opts_min (repeat 5 256)
    = ([AllocMatrix 2048],
       Ok (@argon2Async_value ToyHasher host_quiet
             (@init_value ToyHasher [] salt8 AT_Argon2id (merge_defaults opts_min))
             (repeat 5 256))))
    by (rewrite argon2Async_result; reflexivity).
  split; (split; [assumption|]).
  - exact (proj1 (@C7_auxiliary_buffers_zeroed ToyHasher AT_Argon2id [] salt8 opts_min
                    (repeat 5 256)) _ _ Hrun).
  - apply (proj2 (@C7_auxiliary_buffers_zeroed ToyHasher AT_Argon2id [] salt8 opts_min
                    (repeat 5 256)) host_quiet _ _ eq_refl (fun k => eq_refl) Hrun').
    intros k. reflexivity.
Defined.

Lemma C9_progress_witness :
  @argon2 ToyHasher AT_Argon2id [] salt8 opts_progress (zeros 256)
  = ([AllocMatrix 2048],
     Ok (@argon2_value ToyHasher
           (@init_value ToyHasher [] salt8 AT_Argon2id (merge_defaults opts_progress))
           (zeros 256))) /\
  reported
    (@argon2_value ToyHasher
       (@init_value ToyHasher [] salt8 AT_Argon2id (merge_defaults opts_progress))
       (zeros 256)) <> [] /\
  Forall (fun q => (0 < q)%Q /\ (q < 1)%Q)
    (reported
       (@argon2_value ToyHasher
          (@init_value ToyHasher [] salt8 AT_Argon2id (merge_defaults opts_progress))
          (zeros 256))).
Proof.
  assert (Hrun :
    @argon2 ToyHasher AT_Argon2id [] salt8 opts_progress (zeros 256)
    = ([AllocMatrix 2048],
       Ok (@argon2_value ToyHasher
             (@init_value ToyHasher [] salt8 AT_Argon2id (merge_defaults opts_progress))
             (zeros 256))))
    by (rewrite argon2_result; reflexivity).
  split; [exact Hrun|].
  exact (@C9_progress_never_reaches_one ToyHasher _ _ _ _ _ _ _ Hrun eq_refl).
Defined.

(** The fractions the callback receives in that call: six of them, the last
    one 6/8. *)
Example progress_of_minimal_call :
  map Qred
    (reported
       (@argon2_value ToyHasher
          (@init_value ToyHasher [] salt8 AT_Argon2id (merge_defaults opts_progress))
          (zeros 256)))
  = [1 # 8; 1 # 4; 3 # 8; 1 # 2; 5 # 8; 3 # 4]%Q.
Proof. vm_compute. reflexivity. Qed.

Lemma C8_key_length_witness :
  @argon2 ToyHasher AT_Argon2id [] salt8 opts_min (zeros 256)
  = ([AllocMatrix 2048],
     Ok (@argon2_value ToyHasher
           (@init_value ToyHasher [] salt8 AT_Argon2id (merge_defaults opts_min))
           (zeros 256))) /\
  exists ret',
    @argon2 ToyHasher AT_Argon2id [] salt8
      (with_key opts_min (Some (repeat x00 (Z.to_nat 4294967296))) None) (zeros 256)
    = ([AllocMatrix 2048], Ok ret').
Proof.
  assert (Hrun :
    @argon2 ToyHasher AT_Argon2id [] salt8 opts_min (zeros 256)
    = ([AllocMatrix 2048],
       Ok (@argon2_value ToyHasher
             (@init_value ToyHasher [] salt8 AT_Argon2id (merge_defaults opts_min))
             (zeros 256))))
    by (rewrite argon2_result; reflexivity).
  split; [exact Hrun|].
  exact (@C8_key_length_unchecked ToyHasher _ _ _ _
           (Some (repeat x00 (Z.to_nat 4294967296))) None _ _ _ Hrun).
Defined.

Lemma C4_memory_budget_witness :
  precheck_error [] salt8 AT_Argon2id (merge_defaults (opts_maxmem 4096)) = None /\
  @memory_budget_rule ToyHasher [] salt8 AT_Argon2id (opts_maxmem 4096).
Proof.
  split; [reflexivity|].
  apply C4_memory_budget_in_words. reflexivity.
Defined.

(** C4 as stated fails in both directions. With [m = 8] and [p = 1] the
    matrix takes [8 * 1024 = 8192] bytes: under [maxmem = 4096] the call is
    accepted and the matrix allocated although 8192 exceeds 4096, and under
    [maxmem = 2^32] the call fails with the memory-budget error although 8192
    does not exceed 2^32. *)
Lemma C4_budget_in_bytes_counterexample :
  (mP_of (merge_defaults (opts_maxmem 4096)) * 1024 > 4096 /\
   forall Hasher : Blake2b, exists ini,
     @argon2Init Hasher [] salt8 AT_Argon2id (opts_maxmem 4096)
     = ([AllocMatrix 2048], Ok ini)) /\
  (mP_of (merge_defaults (opts_maxmem 4294967296)) * 1024 <= 4294967296 /\
   forall Hasher : Blake2b,
     @argon2Init Hasher [] salt8 AT_Argon2id (opts_maxmem 4294967296)
     = ([], Throw MemoryBudgetExceeded)).
Proof.
  split; split.
  - vm_compute. reflexivity.
  - intros Hasher. rewrite argon2Init_result. eexists. reflexivity.
  - vm_compute. discriminate.
  - intros Hasher. rewrite argon2Init_result. reflexivity.
Qed.

Lemma C5_blocking_and_cooperative_witness :
  tag_of (@argon2Async ToyHasher host7 AT_Argon2id [] salt8
            (with_async opts_min (Some 1) true) (repeat 0 256))
  = tag_of (@argon2 ToyHasher AT_Argon2id [] salt8
              (with_async opts_min None false) (repeat 3 256)).
Proof.
  apply C5_blocking_and_cooperative_agree; [intros k; reflexivity| |]; reflexivity.
Defined.

(** * Further properties of the engine *)

(** ** The split multiplication *)

(** X1: [mul(a, b)] is the full 64-bit product of its operands read as
    unsigned 32-bit numbers: its high and low halves, read as unsigned, make
    up [a * b] exactly, with no wrap-around. *)
Theorem mul_full_product (a b : Z) :
  JS.toUint32 (hi (mul a b)) * 2 ^ 32 + JS.toUint32 (lo (mul a b))
  = JS.toUint32 a * JS.toUint32 b.
Proof. replace (2 ^ 32) with 4294967296 by reflexivity. apply mul_spec. Qed.

(** X2: [mul2(a, b)] is twice that product, wrapped to 64 bits. *)
Theorem mul2_doubled_product (a b : Z) :
  JS.toUint32 (hi (mul2 a b)) * 2 ^ 32 + JS.toUint32 (lo (mul2 a b))
  = (2 * (JS.toUint32 a * JS.toUint32 b)) mod 2 ^ 64.
Proof.
  replace (2 ^ 32) with 4294967296 by reflexivity.
  replace (2 ^ 64) with 18446744073709551616 by reflexivity.
  apply mul2_spec.
Qed.

(** ** Validation *)

Section ValidationFacts.

Context {Hasher : Blake2b}.



(** X4: the matrix is allocated only once every check has passed: a call
    that fails has allocated nothing, and a call that returns has allocated
    the matrix once, with [m' * 256] words. *)
Theorem errors_never_allocate
    (type : Z) (password salt : list byte) (opts : ArgonOpts) (A2_BUF : list Z) :
  fst (argon2 type password salt opts A2_BUF)
  = match snd (argon2 type password salt opts A2_BUF) with
    | Throw _ => []
    | Ok _ =>
        [AllocMatrix (4 * opt_p opts * (opt_m opts / (4 * opt_p opts)) * 256)]
    end.
Proof.
  rewrite argon2_result.
  destruct (init_error password salt type (merge_defaults opts)) as [e|]; reflexivity.
Qed.

(** X5: a password of 2^32 bytes or more is refused with the
    input-too-large error, whatever the salt and the options are, by both
    entry points. *)
Theorem oversized_password_rejected
    (host : Host) (type : Z) (password salt : list byte) (opts : ArgonOpts)
    (A2_BUF : list Z) :
  2 ^ 32 <= len password ->
  argon2 type password salt opts A2_BUF = ([], Throw InputTooLarge) /\
  argon2Async host type password salt opts A2_BUF = ([], Throw InputTooLarge).
Proof.
  intros Hlen. unfold argon2, argon2Async. rewrite argon2Init_result.
  unfold init_error, precheck_error, isUint32, maxUint32.
  replace (len password <? 2 ^ 32) with false by (symmetry; apply Z.ltb_ge; lia).
  rewrite andb_false_r. split; reflexivity.
Qed.

(** X6: a salt shorter than 8 bytes is refused with the salt error, whatever
    the options are, by both entry points. *)
Theorem short_salt_rejected
    (host : Host) (type : Z) (password salt : list byte) (opts : ArgonOpts)
    (A2_BUF : list Z) :
  len password < 2 ^ 32 -> len salt < 8 ->
  argon2 type password salt opts A2_BUF = ([], Throw InvalidSalt) /\
  argon2Async host type password salt opts A2_BUF = ([], Throw InvalidSalt).
Proof.
  intros Hpw Hsalt. unfold argon2, argon2Async. rewrite argon2Init_result.
  unfold init_error, precheck_error, isUint32, maxUint32.
  assert (H0 : 0 <= len password) by (unfold len; lia).
  replace (0 <=? len password) with true by (symmetry; apply Z.leb_le; lia).
  replace (len password <? 2 ^ 32) with true by (symmetry; apply Z.ltb_lt; lia).
  replace (len salt <? 8) with true by (symmetry; apply Z.ltb_lt; lia).
  cbn [andb negb]. rewrite orb_true_r. split; reflexivity.
Qed.

(** X7: the geometry of an accepted call: the number of blocks [m'] is [m]
    rounded down to a multiple of [4 p] (so [m - 4 p < m' <= m]), every lane
    has [m' / p] blocks in four segments of at least two blocks, and the
    matrix holds 256 words per block. *)
Theorem accepted_geometry
    (type : Z) (password salt : list byte) (opts : ArgonOpts)
    (evs : list Event) (ini : Init) :
  argon2Init password salt type opts = (evs, Ok ini) ->
  in_p ini = opt_p opts /\ in_lanes ini = opt_p opts /\
  opt_m opts - 4 * opt_p opts < in_mP ini <= opt_m opts /\
  in_mP ini mod (4 * opt_p opts) = 0 /\
  in_mP ini = in_p ini * in_laneLen ini /\
  in_laneLen ini = 4 * in_segmentLen ini /\
  2 <= in_segmentLen ini /\
  len (in_B ini) = 256 * in_mP ini.
Proof.
  rewrite argon2Init_result.
  destruct (init_error password salt type (merge_defaults opts)) as [e|] eqn:Herr;
    [discriminate|].
  intros H. assert (Hini : ini = init_value password salt type (merge_defaults opts)).
  { apply (f_equal snd) in H. cbn [snd] in H. injection H as H. symmetry. exact H. }
  clear H. subst ini.
  pose proof (init_value_geometry password salt type (merge_defaults opts) Herr) as Hg.
  cbv zeta in Hg. destruct Hg as [Ep [Et [Ed [Hp [Ht [Hseg [Hlane [HmP [Hlanes Hmem]]]]]]]]].
  apply init_error_none in Herr. destruct Herr as [_ [_ [_ [Hopt _]]]].
  apply option_error_none in Hopt. destruct Hopt as [_ [Hpp [Hm [_ [Hmp _]]]]].
  assert (HB : length (in_B (init_value password salt type (merge_defaults opts)))
               = Z.to_nat (memUsed_of (merge_defaults opts))).
  { unfold init_value. cbv zeta. cbn [in_B].
    rewrite (proj1 (fill_first_blocks_lengths _ _ _ _)). apply zeros_length. }
  assert (Hmem' : memUsed_of (merge_defaults opts)
                  = 4 * opt_p opts * (opt_m opts / (4 * opt_p opts)) * 256)
    by reflexivity.
  assert (EmP : in_mP (init_value password salt type (merge_defaults opts))
                = 4 * opt_p opts * (opt_m opts / (4 * opt_p opts))) by reflexivity.
  assert (Epp : mg_p (merge_defaults opts) = opt_p opts) by reflexivity.
  assert (Emm : mg_m (merge_defaults opts) = opt_m opts) by reflexivity.
  rewrite Epp, Emm in *.
  unfold ARGON2_SYNC_POINTS in *.
  repeat split; try lia.
  - rewrite EmP. Z.to_euclidean_division_equations; nia.
  - rewrite EmP. Z.to_euclidean_division_equations; nia.
  - rewrite EmP. rewrite Z.mul_comm. apply Z.mod_mul. lia.
  - unfold len. rewrite HB, Hmem', EmP.
    assert (0 <= opt_m opts / (4 * opt_p opts)) by (apply Z.div_pos; lia).
    rewrite Z2Nat.id by nia. ring.
Qed.

End ValidationFacts.

(** ** Loads and stores *)

Lemma load_store_nat a n v k :
  nth k (store_nat a n v) 0 = if (k =? n)%nat && (n <? length a)%nat then v else nth k a 0.
Proof.
  revert n k. induction a as [|h a IH]; intros n k.
  - cbn [store_nat length]. destruct n; cbn; rewrite andb_false_r; reflexivity.
  - destruct n as [|n]; destruct k as [|k]; cbn [store_nat nth length]; try reflexivity.
    rewrite IH. reflexivity.
Qed.

Lemma load_store a i v j :
  load (store a i v) j = if (j =? i) && (0 <=? i) && (i <? len a) then JS.toUint32 v else load a j.
Proof.
  unfold load, store, len.
  destruct (Z.ltb_spec i 0) as [Hi|Hi].
  - replace (0 <=? i) with false by (symmetry; apply Z.leb_gt; lia).
    rewrite andb_false_r. reflexivity.
  - replace (0 <=? i) with true by (symmetry; apply Z.leb_le; lia). rewrite andb_true_r.
    destruct (Z.ltb_spec j 0) as [Hj|Hj].
    + replace (j =? i) with false by (symmetry; apply Z.eqb_neq; lia). reflexivity.
    + rewrite load_store_nat.
      destruct (Z.eqb_spec j i) as [->|Hne].
      * rewrite Nat.eqb_refl. cbn [andb].
        destruct (Nat.ltb_spec (Z.to_nat i) (length a)), (Z.ltb_spec i (Z.of_nat (length a)));
          try reflexivity; lia.
      * replace (Z.to_nat j =? Z.to_nat i)%nat with false
          by (symmetry; apply Nat.eqb_neq; lia).
        reflexivity.
Qed.

Lemma list_eq_load a b :
  length a = length b -> (forall j, 0 <= j < len a -> load a j = load b j) -> a = b.
Proof.
  intros Hlen H. apply (nth_ext a b 0 0 Hlen). intros n Hn.
  specialize (H (Z.of_nat n)). unfold load, len in H.
  destruct (Z.ltb_spec (Z.of_nat n) 0); [lia|]. rewrite Nat2Z.id in H. apply H. lia.
Qed.

Lemma load_map_seq (f : nat -> Z) n i :
  0 <= i < Z.of_nat n -> load (map f (seq 0 n)) i = f (Z.to_nat i).
Proof.
  intros Hi. unfold load. destruct (Z.ltb_spec i 0); [lia|].
  rewrite nth_indep with (d' := f 0%nat) by (rewrite length_map, length_seq; lia).
  rewrite map_nth. rewrite seq_nth by lia. reflexivity.
Qed.

(** ** What [block] writes *)

Lemma block_scratch_load_value x xPos yPos A2_BUF :
  length A2_BUF = 256%nat ->
  block_scratch_load x xPos yPos A2_BUF
  = map (fun k => JS.toUint32 (JS.xor (load x (xPos + Z.of_nat k)) (load x (yPos + Z.of_nat k))))
      (seq 0 256).
Proof.
  intros H. unfold block_scratch_load, forRange.
  replace (Z.to_nat (256 - 0)) with (length A2_BUF) by (rewrite H; reflexivity).
  rewrite overwrite_all. rewrite H. reflexivity.
Qed.

Lemma block_output_value x xPos yPos outPos (needXor : bool) scratch :
  0 <= outPos -> outPos + 256 <= len x ->
  outPos <= xPos \/ xPos + 256 <= outPos ->
  outPos <= yPos \/ yPos + 256 <= outPos ->
  length (block_output x xPos yPos outPos needXor scratch) = length x /\
  forall j, load (block_output x xPos yPos outPos needXor scratch) j
            = if (outPos <=? j) && (j <? outPos + 256)
              then JS.toUint32
                     (if needXor
                      then JS.xor (load x (outPos + (j - outPos)))
                             (JS.xor (JS.xor (load scratch (j - outPos))
                                        (load x (xPos + (j - outPos))))
                                (load x (yPos + (j - outPos))))
                      else JS.xor (JS.xor (load scratch (j - outPos))
                                     (load x (xPos + (j - outPos))))
                             (load x (yPos + (j - outPos))))
              else load x j.
Proof.
  intros Hout Hfit Hx Hy.
  change (length (block_output x xPos yPos outPos needXor scratch) = length x /\
          forall j, load (block_output x xPos yPos outPos needXor scratch) j
            = if (outPos <=? j) && (j <? outPos + 256)
              then (fun i => JS.toUint32
                     (if needXor
                      then JS.xor (load x (outPos + i))
                             (JS.xor (JS.xor (load scratch i) (load x (xPos + i)))
                                (load x (yPos + i)))
                      else JS.xor (JS.xor (load scratch i) (load x (xPos + i)))
                             (load x (yPos + i)))) (j - outPos)
              else load x j).
  set (word := fun i =>
    JS.toUint32
      (if needXor
       then JS.xor (load x (outPos + i))
              (JS.xor (JS.xor (load scratch i) (load x (xPos + i))) (load x (yPos + i)))
       else JS.xor (JS.xor (load scratch i) (load x (xPos + i))) (load x (yPos + i)))).
  assert (Hinv : forall body,
    (forall i x', 0 <= i < 256 ->
       load x' (outPos + i) = load x (outPos + i) ->
       load x' (xPos + i) = load x (xPos + i) ->
       load x' (yPos + i) = load x (yPos + i) ->
       body i x' = store x' (outPos + i)
                     (if needXor
                      then JS.xor (load x (outPos + i))
                             (JS.xor (JS.xor (load scratch i) (load x (xPos + i)))
                                (load x (yPos + i)))
                      else JS.xor (JS.xor (load scratch i) (load x (xPos + i)))
                             (load x (yPos + i)))) ->
    let x' := forRange 0 256 body x in
    length x' = length x /\
    forall j, load x' j
              = if (outPos <=? j) && (j <? outPos + 256) then word (j - outPos)
                else load x j).
  { intros body Hbody. cbv zeta.
    pose proof (forRange_invariant_ix
                  (fun i x' =>
                     length x' = length x /\
                     forall j, load x' j
                               = if (outPos <=? j) && (j <? outPos + i)
                                 then word (j - outPos) else load x j)
                  0 256 body x ltac:(lia)) as H.
    cbv beta in H. replace (outPos + 256) with (outPos + 256) by ring. apply H.
    - split; [reflexivity|]. intros j.
      destruct (Z.leb_spec outPos j), (Z.ltb_spec j (outPos + 0)); cbn [andb];
        try reflexivity; lia.
    - intros i x' Hi [Hlen Hload].
      assert (Hfresh : forall k, ~ (outPos <= k < outPos + i) -> load x' k = load x k).
      { intros k Hk. rewrite Hload.
        destruct (Z.leb_spec outPos k), (Z.ltb_spec k (outPos + i)); cbn [andb];
          try reflexivity; lia. }
      rewrite Hbody; [|exact Hi|apply Hfresh; lia|apply Hfresh; lia|apply Hfresh; lia].
      split; [rewrite store_length; exact Hlen|].
      intros j. rewrite load_store. unfold len. rewrite Hlen. fold (len x).
      destruct (Z.eqb_spec j (outPos + i)) as [->|Hne].
      + replace (0 <=? outPos + i) with true by (symmetry; apply Z.leb_le; lia).
        replace (outPos + i <? len x) with true by (symmetry; apply Z.ltb_lt; lia).
        replace (outPos <=? outPos + i) with true by (symmetry; apply Z.leb_le; lia).
        replace (outPos + i <? outPos + (i + 1)) with true
          by (symmetry; apply Z.ltb_lt; lia).
        cbn [andb]. unfold word. replace (outPos + i - outPos) with i by ring.
        reflexivity.
      + cbn [andb]. rewrite Hload.
        destruct (Z.leb_spec outPos j), (Z.ltb_spec j (outPos + i)),
          (Z.ltb_spec j (outPos + (i + 1))); cbn [andb]; try reflexivity; lia. }
  unfold block_output. destruct needXor.
  - apply Hinv. intros i x' Hi E1 E2 E3. rewrite E1, E2, E3. reflexivity.
  - apply Hinv. intros i x' Hi E1 E2 E3. rewrite E2, E3. reflexivity.
Qed.

(** X8: [block] replaces the 256 words of the output block, and nothing
    else of the array, by the permuted xor of the two source blocks, xored
    once more with both sources (and, when [needXor] is set, with the old
    contents of the output block). The source blocks may coincide with the
    output block or lie apart from it. *)
Theorem block_writes_one_block
    (x : list Z) (xPos yPos outPos : Z) (needXor : bool) (A2_BUF : list Z) :
  length A2_BUF = 256%nat ->
  0 <= outPos -> outPos + 256 <= len x ->
  outPos <= xPos \/ xPos + 256 <= outPos ->
  outPos <= yPos \/ yPos + 256 <= outPos ->
  let x' := fst (block x xPos yPos outPos needXor A2_BUF) in
  length x' = length x /\
  forall j, load x' j
            = if (outPos <=? j) && (j <? outPos + 256)
              then block_word x xPos yPos outPos needXor (j - outPos)
              else load x j.
Proof.
  intros HA Hout Hfit Hx Hy. cbv zeta. rewrite block_eq. cbv zeta. cbn [fst].
  rewrite (block_scratch_load_value x xPos yPos A2_BUF HA).
  unfold block_word, permuted. cbv zeta.
  pose proof (block_output_value x xPos yPos outPos needXor
                (block_permute
                   (map (fun k => JS.toUint32
                                    (JS.xor (load x (xPos + Z.of_nat k))
                                       (load x (yPos + Z.of_nat k))))
                      (seq 0 256)))
                Hout Hfit Hx Hy) as [Hlen Hload].
  split; [exact Hlen|]. intros j. rewrite Hload.
  destruct ((outPos <=? j) && (j <? outPos + 256)); [|reflexivity].
  destruct needXor; reflexivity.
Qed.

(** ** Bits of the halves *)

Lemma word64_range h l : 0 <= word64 h l < 2 ^ 64.
Proof.
  unfold word64. pose proof (toUint32_range h). pose proof (toUint32_range l).
  change (2 ^ 32) with 4294967296. change (2 ^ 64) with 18446744073709551616. lia.
Qed.

Lemma lxor_range a b n :
  0 <= n -> 0 <= a < 2 ^ n -> 0 <= b < 2 ^ n -> 0 <= Z.lxor a b < 2 ^ n.
Proof.
  intros Hn Ha Hb.
  assert (H0 : 0 <= Z.lxor a b) by (apply Z.lxor_nonneg; lia).
  split; [exact H0|].
  destruct (Z.eq_dec (Z.lxor a b) 0) as [->|Hne]; [lia|].
  apply Z.log2_lt_pow2; [lia|].
  pose proof (Z.log2_lxor a b ltac:(lia) ltac:(lia)) as Hl.
  assert (Hla : a = 0 \/ Z.log2 a < n).
  { destruct (Z.eq_dec a 0); [left; assumption|right; apply Z.log2_lt_pow2; lia]. }
  assert (Hlb : b = 0 \/ Z.log2 b < n).
  { destruct (Z.eq_dec b 0); [left; assumption|right; apply Z.log2_lt_pow2; lia]. }
  assert (Z.log2 a < n \/ (a = 0 /\ n = 0)).
  { destruct Hla as [->|]; [|left; assumption]. cbn. lia. }
  assert (Z.log2 b < n \/ (b = 0 /\ n = 0)).
  { destruct Hlb as [->|]; [|left; assumption]. cbn. lia. }
  destruct (Z.eq_dec n 0) as [->|Hn0].
  - exfalso. apply Hne. assert (a = 0) by (change (2 ^ 0) with 1 in Ha; lia).
    assert (b = 0) by (change (2 ^ 0) with 1 in Hb; lia). subst. reflexivity.
  - lia.
Qed.

Lemma testbit_concat h l k :
  0 <= l < 2 ^ 32 -> 0 <= k ->
  Z.testbit (h * 2 ^ 32 + l) k = if k <? 32 then Z.testbit l k else Z.testbit h (k - 32).
Proof.
  intros Hl Hk. rewrite <- lor_disjoint by lia. rewrite Z.lor_spec.
  destruct (Z.ltb_spec k 32) as [Hlt|Hge].
  - rewrite Z.mul_pow2_bits_low by lia. reflexivity.
  - rewrite Z.mul_pow2_bits by lia.
    destruct (Z.eq_dec l 0) as [->|Hl0].
    + rewrite Z.bits_0. apply orb_false_r.
    + rewrite (Z.bits_above_log2 l k); [apply orb_false_r|lia|].
      assert (Z.log2 l < 32) by (apply Z.log2_lt_pow2; lia). lia.
Qed.

Lemma lxor_concat h1 l1 h2 l2 :
  0 <= l1 < 2 ^ 32 -> 0 <= l2 < 2 ^ 32 ->
  Z.lxor (h1 * 2 ^ 32 + l1) (h2 * 2 ^ 32 + l2) = Z.lxor h1 h2 * 2 ^ 32 + Z.lxor l1 l2.
Proof.
  intros H1 H2. apply Z.bits_inj'. intros k Hk.
  rewrite Z.lxor_spec, !testbit_concat by (try apply lxor_range; lia).
  destruct (k <? 32); rewrite Z.lxor_spec; reflexivity.
Qed.

Lemma toUint32_lxor x y :
  JS.toUint32 (Z.lxor x y) = Z.lxor (JS.toUint32 x) (JS.toUint32 y).
Proof.
  unfold JS.toUint32, JS.two32. change 4294967296 with (2 ^ 32).
  rewrite <- !Z.land_ones by lia.
  apply Z.bits_inj'. intros k Hk.
  rewrite !Z.land_spec, !Z.lxor_spec, !Z.land_spec.
  destruct (Z.testbit (Z.ones 32) k); rewrite ?andb_true_r, ?andb_false_r; reflexivity.
Qed.

Lemma toUint32_xor a b :
  JS.toUint32 (JS.xor a b) = Z.lxor (JS.toUint32 a) (JS.toUint32 b).
Proof. unfold JS.xor. rewrite toUint32_lxor, !toUint32_toInt32. reflexivity. Qed.

Lemma word64_xor h1 l1 h2 l2 :
  word64 (JS.xor h1 h2) (JS.xor l1 l2) = Z.lxor (word64 h1 l1) (word64 h2 l2).
Proof.
  unfold word64. rewrite !toUint32_xor. symmetry. apply lxor_concat.
  - pose proof (toUint32_range l1). change (2 ^ 32) with 4294967296. lia.
  - pose proof (toUint32_range l2). change (2 ^ 32) with 4294967296. lia.
Qed.

(** ** Shifts and rotations of the halves *)

Lemma toInt32_mod_pow2 l n :
  0 <= n <= 32 -> JS.toInt32 l mod 2 ^ n = JS.toUint32 l mod 2 ^ n.
Proof.
  intros Hn.
  assert (Hc : JS.toInt32 l = JS.toUint32 l \/ JS.toInt32 l = JS.toUint32 l - 4294967296).
  { unfold JS.toInt32, JS.toUint32, JS.two32, JS.two31.
    Z.to_euclidean_division_equations; lia. }
  destruct Hc as [->| ->]; [reflexivity|].
  replace 4294967296 with (2 ^ (32 - n) * 2 ^ n)
    by (rewrite <- Z.pow_add_r by lia; replace (32 - n + n) with 32 by ring; reflexivity).
  replace (JS.toUint32 l - 2 ^ (32 - n) * 2 ^ n)
    with (JS.toUint32 l + (- 2 ^ (32 - n)) * 2 ^ n) by ring.
  apply Z_mod_plus_full.
Qed.

Lemma shl_value l k :
  0 <= k < 32 -> JS.toUint32 (JS.shl l k) = (JS.toUint32 l mod 2 ^ (32 - k)) * 2 ^ k.
Proof.
  intros Hk. rewrite shl_spec by lia. rewrite toUint32_toInt32.
  unfold JS.toUint32 at 1. unfold JS.two32.
  replace 4294967296 with (2 ^ (32 - k) * 2 ^ k)
    by (rewrite <- Z.pow_add_r by lia; replace (32 - k + k) with 32 by ring; reflexivity).
  assert (H1 : 0 < 2 ^ (32 - k)) by (apply Z.pow_pos_nonneg; lia).
  assert (H2 : 0 < 2 ^ k) by (apply Z.pow_pos_nonneg; lia).
  rewrite Z.mul_mod_distr_r by lia.
  rewrite toInt32_mod_pow2 by lia. reflexivity.
Qed.

Lemma shr_value h s : 0 <= s < 32 -> JS.toUint32 (JS.shr h s) = JS.toUint32 h / 2 ^ s.
Proof.
  intros Hs. rewrite shr_spec by lia. apply toUint32_small.
  pose proof (toUint32_range h) as Hh.
  assert (H2 : 0 < 2 ^ s) by (apply Z.pow_pos_nonneg; lia).
  split; [apply Z.div_pos; lia|].
  apply Z.div_lt_upper_bound; [lia|]. nia.
Qed.

(** [(h >>> s) | (l << (32 - s))], as an unsigned number. *)
Lemma or_shr_shl h l s :
  0 < s < 32 ->
  JS.toUint32 (JS.or (JS.shr h s) (JS.shl l (32 - s)))
  = JS.toUint32 h / 2 ^ s + (JS.toUint32 l mod 2 ^ s) * 2 ^ (32 - s).
Proof.
  intros Hs. unfold JS.or. rewrite toUint32_lor, !toUint32_toInt32.
  rewrite shr_value, shl_value by lia.
  replace (32 - (32 - s)) with s by ring.
  rewrite Z.lor_comm. rewrite lor_disjoint; [lia|lia|].
  pose proof (toUint32_range h) as Hh.
  assert (H2 : 0 < 2 ^ s) by (apply Z.pow_pos_nonneg; lia).
  split; [apply Z.div_pos; lia|].
  apply Z.div_lt_upper_bound; [lia|].
  rewrite <- Z.pow_add_r by lia. replace (s + (32 - s)) with 32 by ring.
  change (2 ^ 32) with 4294967296. lia.
Qed.

Lemma or_shl_shr h l s :
  0 < s < 32 ->
  JS.toUint32 (JS.or (JS.shl h (32 - s)) (JS.shr l s))
  = JS.toUint32 l / 2 ^ s + (JS.toUint32 h mod 2 ^ s) * 2 ^ (32 - s).
Proof.
  intros Hs. rewrite <- (or_shr_shl l h s Hs). unfold JS.or.
  rewrite Z.lor_comm. reflexivity.
Qed.

(** The rotation of [H * 2^32 + L] by less than 32 bits, in halves. *)
Lemma rotr64_small H L s :
  0 < s < 32 -> 0 <= H < 2 ^ 32 -> 0 <= L < 2 ^ 32 ->
  (H / 2 ^ s + (L mod 2 ^ s) * 2 ^ (32 - s)) * 2 ^ 32
  + (L / 2 ^ s + (H mod 2 ^ s) * 2 ^ (32 - s))
  = rotr64 (H * 2 ^ 32 + L) s.
Proof.
  intros Hs HH HL. unfold rotr64.
  set (p := 2 ^ s). set (q := 2 ^ (32 - s)).
  assert (Hp : 0 < p) by (apply Z.pow_pos_nonneg; lia).
  assert (Hq : 0 < q) by (apply Z.pow_pos_nonneg; lia).
  assert (Hpq : 2 ^ 32 = q * p).
  { unfold p, q. rewrite <- Z.pow_add_r by lia. f_equal. ring. }
  assert (H64 : 2 ^ (64 - s) = q * 2 ^ 32).
  { unfold q. rewrite <- Z.pow_add_r by lia. f_equal. ring. }
  rewrite H64.
  pose proof (Z.div_mod H p ltac:(lia)) as EH.
  pose proof (Z.div_mod L p ltac:(lia)) as EL.
  pose proof (Z.mod_pos_bound H p Hp) as BH.
  pose proof (Z.mod_pos_bound L p Hp) as BL.
  assert (Ex : H * 2 ^ 32 + L = (H * q + L / p) * p + L mod p) by (rewrite Hpq; nia).
  assert (Ediv : (H * 2 ^ 32 + L) / p = H * q + L / p).
  { symmetry. apply (Z.div_unique_pos _ _ _ (L mod p)); [lia|]. rewrite Ex. ring. }
  assert (Emod : (H * 2 ^ 32 + L) mod p = L mod p).
  { symmetry. apply (Z.mod_unique_pos _ _ (H * q + L / p)); [lia|]. rewrite Ex. ring. }
  rewrite Ediv, Emod. generalize dependent (2 ^ 32). intros T. intros. subst T. nia.
Qed.

(** The rotation of [H * 2^32 + L] by more than 32 bits, in halves. *)
Lemma rotr64_big H L s :
  0 < s < 32 -> 0 <= H < 2 ^ 32 -> 0 <= L < 2 ^ 32 ->
  (L / 2 ^ s + (H mod 2 ^ s) * 2 ^ (32 - s)) * 2 ^ 32
  + (H / 2 ^ s + (L mod 2 ^ s) * 2 ^ (32 - s))
  = rotr64 (H * 2 ^ 32 + L) (32 + s).
Proof.
  intros Hs HH HL. unfold rotr64.
  set (p := 2 ^ s). set (q := 2 ^ (32 - s)).
  assert (Hp : 0 < p) by (apply Z.pow_pos_nonneg; lia).
  assert (Hq : 0 < q) by (apply Z.pow_pos_nonneg; lia).
  assert (Hpq : 2 ^ 32 = q * p).
  { unfold p, q. rewrite <- Z.pow_add_r by lia. f_equal. ring. }
  assert (H64 : 2 ^ (64 - (32 + s)) = q) by (unfold q; f_equal; ring).
  assert (Hs32 : 2 ^ (32 + s) = 2 ^ 32 * p) by (unfold p; apply Z.pow_add_r; lia).
  rewrite H64, Hs32.
  pose proof (Z.div_mod H p ltac:(lia)) as EH.
  pose proof (Z.div_mod L p ltac:(lia)) as EL.
  pose proof (Z.mod_pos_bound H p Hp) as BH.
  pose proof (Z.mod_pos_bound L p Hp) as BL.
  assert (H32 : 0 < 2 ^ 32) by (apply Z.pow_pos_nonneg; lia).
  assert (Ex : H * 2 ^ 32 + L = (H / p) * (2 ^ 32 * p) + ((H mod p) * 2 ^ 32 + L)) by nia.
  assert (Ediv : (H * 2 ^ 32 + L) / (2 ^ 32 * p) = H / p).
  { symmetry. apply (Z.div_unique_pos _ _ _ ((H mod p) * 2 ^ 32 + L)); [nia|].
    rewrite Ex. ring. }
  assert (Emod : (H * 2 ^ 32 + L) mod (2 ^ 32 * p) = (H mod p) * 2 ^ 32 + L).
  { symmetry. apply (Z.mod_unique_pos _ _ (H / p)); [nia|]. rewrite Ex. ring. }
  rewrite Ediv, Emod. generalize dependent (2 ^ 32). intros T. intros. subst T. nia.
Qed.

Lemma word64_rotr32 h l :
  word64 (U64.rotr32H h l) (U64.rotr32L h l) = rotr64 (word64 h l) 32.
Proof.
  unfold U64.rotr32H, U64.rotr32L, word64, rotr64.
  pose proof (toUint32_range h). pose proof (toUint32_range l).
  change (2 ^ (64 - 32)) with 4294967296. change (2 ^ 32) with 4294967296.
  Z.to_euclidean_division_equations; lia.
Qed.

Lemma word64_rotrS h l s :
  0 < s < 32 ->
  word64 (U64.rotrSH h l s) (U64.rotrSL h l s) = rotr64 (word64 h l) s.
Proof.
  intros Hs. unfold U64.rotrSH, U64.rotrSL, word64.
  rewrite or_shr_shl, or_shl_shr by exact Hs.
  pose proof (toUint32_range h). pose proof (toUint32_range l).
  apply rotr64_small; [exact Hs| |]; change (2 ^ 32) with 4294967296; lia.
Qed.

Lemma word64_rotrB h l s :
  32 < s < 64 ->
  word64 (U64.rotrBH h l s) (U64.rotrBL h l s) = rotr64 (word64 h l) s.
Proof.
  intros Hs. unfold U64.rotrBH, U64.rotrBL, word64.
  replace (64 - s) with (32 - (s - 32)) by ring.
  rewrite or_shr_shl, or_shl_shr by lia.
  pose proof (toUint32_range h). pose proof (toUint32_range l).
  pose proof (rotr64_big (JS.toUint32 h) (JS.toUint32 l) (s - 32)) as Hr.
  replace (32 + (s - 32)) with s in Hr by ring.
  apply Hr; [lia| |]; change (2 ^ 32) with 4294967296; lia.
Qed.

Lemma word64_blamka Ah Al Bh Bl :
  word64 (hi (blamka Ah Al Bh Bl)) (lo (blamka Ah Al Bh Bl))
  = BlaMka (word64 Ah Al) (word64 Bh Bl).
Proof.
  unfold word64, BlaMka. change (2 ^ 32) with 4294967296.
  change (2 ^ 64) with 18446744073709551616.
  rewrite blamka_spec.
  pose proof (toUint32_range Ah). pose proof (toUint32_range Al).
  pose proof (toUint32_range Bh). pose proof (toUint32_range Bl).
  replace ((JS.toUint32 Ah * 4294967296 + JS.toUint32 Al) mod 4294967296)
    with (JS.toUint32 Al) by (Z.to_euclidean_division_equations; lia).
  replace ((JS.toUint32 Bh * 4294967296 + JS.toUint32 Bl) mod 4294967296)
    with (JS.toUint32 Bl) by (Z.to_euclidean_division_equations; lia).
  f_equal. ring.
Qed.

(** ** [G] on the scratch *)

Lemma len_store a i v : len (store a i v) = len a.
Proof. unfold len. rewrite store_length. reflexivity. Qed.

Lemma load_store_eq a i v :
  0 <= i < len a -> load (store a i v) i = JS.toUint32 v.
Proof.
  intros Hi. rewrite load_store. rewrite Z.eqb_refl.
  replace (0 <=? i) with true by (symmetry; apply Z.leb_le; lia).
  replace (i <? len a) with true by (symmetry; apply Z.ltb_lt; lia).
  reflexivity.
Qed.

Lemma load_store_neq a i v j : j <> i -> load (store a i v) j = load a j.
Proof.
  intros Hne. rewrite load_store.
  replace (j =? i) with false by (symmetry; apply Z.eqb_neq; lia). reflexivity.
Qed.

Lemma word64_toUint32 h l : word64 (JS.toUint32 h) (JS.toUint32 l) = word64 h l.
Proof.
  unfold word64. rewrite !(toUint32_small (JS.toUint32 _)) by apply toUint32_range.
  reflexivity.
Qed.

Ltac read_back :=
  repeat first [ rewrite load_store_eq by (rewrite ?len_store; lia)
               | rewrite load_store_neq by lia ].

(** X9: [G] is the quarter round of the specification on 64-bit words: the
    four words [a], [b], [c], [d] of the scratch, each held as two 32-bit
    halves, become what [Ga] computes from them with BlaMka, xor and right
    rotations by 32, 24, 16 and 63 bits; no other word of the scratch
    changes. *)
Theorem G_is_the_quarter_round (a b c d : Z) (buf : list Z) :
  0 <= a -> 0 <= b -> 0 <= c -> 0 <= d ->
  2 * a + 1 < len buf -> 2 * b + 1 < len buf ->
  2 * c + 1 < len buf -> 2 * d + 1 < len buf ->
  a <> b -> a <> c -> a <> d -> b <> c -> b <> d -> c <> d ->
  (word64_at (G a b c d buf) a, word64_at (G a b c d buf) b,
   word64_at (G a b c d buf) c, word64_at (G a b c d buf) d)
  = Ga (word64_at buf a) (word64_at buf b) (word64_at buf c) (word64_at buf d) /\
  length (G a b c d buf) = length buf /\
  forall j, j / 2 <> a -> j / 2 <> b -> j / 2 <> c -> j / 2 <> d ->
            load (G a b c d buf) j = load buf j.
Proof.
  intros Ha Hb Hc Hd La Lb Lc Ld Nab Nac Nad Nbc Nbd Ncd.
  split; [|split; [apply G_length|]].
  - unfold word64_at, G. cbv zeta.
    repeat match goal with
           | |- context [match blamka ?x ?y ?z ?w with _ => _ end] =>
               let h := fresh "h" in
               let l := fresh "l" in
               let E := fresh "E" in
               pose proof (word64_blamka x y z w) as E;
               destruct (blamka x y z w) as [h l];
               cbn [hi lo] in E; cbv beta iota zeta
           end.
    read_back. rewrite !word64_toUint32.
    repeat first [ rewrite word64_rotr32 | rewrite word64_rotrS by lia
                 | rewrite word64_rotrB by lia | rewrite word64_xor ].
    repeat first [ rewrite word64_rotr32 in E0 | rewrite word64_xor in E0 ].
    repeat first [ rewrite word64_rotr32 in E1 | rewrite word64_rotrS in E1 by lia
                 | rewrite word64_xor in E1 ].
    repeat first [ rewrite word64_rotr32 in E2 | rewrite word64_rotrS in E2 by lia
                 | rewrite word64_xor in E2 ].
    rewrite E in E0. rewrite E, E0 in E1. rewrite E, E0, E1 in E2.
    rewrite E2, E1, E0, E.
    unfold Ga. cbv zeta. reflexivity.
  - intros j Ja Jb Jc Jd. unfold G. cbv zeta.
    repeat match goal with
           | |- context [match blamka ?x ?y ?z ?w with _ => _ end] =>
               destruct (blamka x y z w); cbv beta iota zeta
           end.
    repeat rewrite load_store_neq by (Z.to_euclidean_division_equations; lia).
    reflexivity.
Qed.

(** ** Byte views *)

Lemma byte_to_Z_range b : 0 <= byte_to_Z b < 256.
Proof.
  unfold byte_to_Z. pose proof (Byte.to_N_bounded b) as H. lia.
Qed.

Lemma byte_of_to_Z b : byte_of_Z (byte_to_Z b) = b.
Proof.
  unfold byte_of_Z. pose proof (byte_to_Z_range b) as H.
  rewrite Z.mod_small by lia. unfold byte_to_Z. rewrite N2Z.id.
  rewrite Byte.of_to_N. reflexivity.
Qed.

Lemma byte_of_Z_mod z : byte_of_Z (z mod 256) = byte_of_Z z.
Proof. unfold byte_of_Z. rewrite Z.mod_mod by lia. reflexivity. Qed.

Lemma word_bytes_of_bytes b0 b1 b2 b3 :
  word_bytes (byte_to_Z b0 + 256 * byte_to_Z b1 + 65536 * byte_to_Z b2
              + 16777216 * byte_to_Z b3)
  = [b0; b1; b2; b3].
Proof.
  pose proof (byte_to_Z_range b0). pose proof (byte_to_Z_range b1).
  pose proof (byte_to_Z_range b2). pose proof (byte_to_Z_range b3).
  unfold word_bytes.
  set (w := byte_to_Z b0 + 256 * byte_to_Z b1 + 65536 * byte_to_Z b2
            + 16777216 * byte_to_Z b3).
  assert (E0 : w mod 256 = byte_to_Z b0) by (subst w; Z.to_euclidean_division_equations; lia).
  assert (E1 : (w / 256) mod 256 = byte_to_Z b1)
    by (subst w; Z.to_euclidean_division_equations; lia).
  assert (E2 : (w / 65536) mod 256 = byte_to_Z b2)
    by (subst w; Z.to_euclidean_division_equations; lia).
  assert (E3 : (w / 16777216) mod 256 = byte_to_Z b3)
    by (subst w; Z.to_euclidean_division_equations; lia).
  rewrite <- (byte_of_Z_mod w), <- (byte_of_Z_mod (w / 256)),
    <- (byte_of_Z_mod (w / 65536)), <- (byte_of_Z_mod (w / 16777216)).
  rewrite E0, E1, E2, E3. rewrite !byte_of_to_Z. reflexivity.
Qed.

Lemma u8_u32_aux n : forall bs,
  (length bs < n)%nat ->
  flat_map word_bytes (bytes_words bs) = firstn (4 * (length bs / 4)) bs.
Proof.
  induction n as [|n IH]; intros bs Hn; [lia|].
  destruct bs as [|b0 [|b1 [|b2 [|b3 tl]]]]; try reflexivity.
  cbn [bytes_words flat_map]. rewrite word_bytes_of_bytes.
  rewrite IH by (cbn [length] in Hn; lia).
  cbn [length].
  replace (S (S (S (S (length tl))))) with (length tl + 1 * 4)%nat by lia.
  rewrite Nat.div_add by lia.
  replace (4 * (length tl / 4 + 1))%nat with (S (S (S (S (4 * (length tl / 4)))))) by lia.
  reflexivity.
Qed.

(** The bytes of the 32-bit view of a byte array: its whole words. *)
Lemma u8_u32 bs : u8 (Uint32Array (u32 bs)) = firstn (4 * (length bs / 4)) bs.
Proof. apply (u8_u32_aux (S (length bs))). lia. Qed.

Section HpRefinement.

Context {Hasher : Blake2b}.

Lemma set8_at (out src : list byte) pos :
  0 <= pos -> pos + len src <= len out ->
  set8 out src pos
  = firstn (Z.to_nat pos) out ++ src ++ skipn (Z.to_nat (pos + len src)) out.
Proof.
  intros Hpos Hfit. unfold set8.
  destruct (Z.ltb_spec pos 0); [lia|]. cbn [orb].
  destruct (Z.ltb_spec (len out) (pos + len src)); [lia|]. reflexivity.
Qed.

Lemma firstn_exact {A : Type} (l1 l2 : list A) n :
  n = length l1 -> firstn n (l1 ++ l2) = l1.
Proof.
  intros ->. rewrite firstn_app, firstn_all, Nat.sub_diag. cbn [firstn].
  apply app_nil_r.
Qed.

Lemma firstn_32_length (V : list byte) : len V = 64 -> len (firstn 32 V) = 32.
Proof. unfold len. intros H. rewrite length_firstn. lia. Qed.

Lemma Hp_rest_emits fuel dkLen (V : list byte) pos (out : list byte) :
  0 <= pos -> 32 < dkLen - pos -> (Z.to_nat (dkLen - pos) <= fuel)%nat ->
  len out = dkLen ->
  let '(V', pos', out') := Hp_rest fuel dkLen V pos out in
  0 <= pos' /\ 32 < dkLen - pos' <= 64 /\ len out' = dkLen /\
  firstn (Z.to_nat pos') out' ++ blake2b (dkLen - pos') V'
  = firstn (Z.to_nat pos) out ++ H_prime_rest fuel V pos dkLen.
Proof.
  revert V pos out. induction fuel as [|fuel IH]; intros V pos out Hpos Hgt Hfuel Hlen.
  - lia.
  - cbn [Hp_rest H_prime_rest].
    destruct (Z.ltb_spec 64 (dkLen - pos)) as [Hmore|Hlast].
    + replace (dkLen - pos <=? 64) with false by (symmetry; apply Z.leb_gt; lia).
      cbv zeta. set (V1 := blake2b 64 V).
      assert (HV1 : len V1 = 64) by (apply blake2b_length; lia).
      pose proof (firstn_32_length V1 HV1) as H32.
      assert (Hset : set8 out (firstn 32 V1) pos
                     = firstn (Z.to_nat pos) out ++ firstn 32 V1
                       ++ skipn (Z.to_nat (pos + 32)) out).
      { rewrite set8_at by lia. rewrite H32. reflexivity. }
      specialize (IH V1 (pos + 32) (set8 out (firstn 32 V1) pos)
                    ltac:(lia) ltac:(lia) ltac:(lia)).
      assert (Hlen1 : len (set8 out (firstn 32 V1) pos) = dkLen)
        by (unfold len; rewrite set8_length; exact Hlen).
      specialize (IH Hlen1).
      destruct (Hp_rest fuel dkLen V1 (pos + 32) (set8 out (firstn 32 V1) pos))
        as [[V' pos'] out'].
      destruct IH as [Hp' [Hb [Hl' Heq]]].
      repeat split; try lia. rewrite Heq. rewrite Hset.
      rewrite app_assoc.
      rewrite firstn_exact.
      * rewrite <- app_assoc. reflexivity.
      * rewrite length_app, !length_firstn. unfold len in *. lia.
    + replace (dkLen - pos <=? 64) with true by (symmetry; apply Z.leb_le; lia).
      repeat split; try lia.
Qed.

Lemma H_prime_rest_length fuel (V : list byte) pos dkLen :
  32 < dkLen - pos -> (Z.to_nat (dkLen - pos) <= fuel)%nat ->
  len (H_prime_rest fuel V pos dkLen) = dkLen - pos.
Proof.
  revert V pos. induction fuel as [|fuel IH]; intros V pos Hgt Hfuel; [lia|].
  cbn [H_prime_rest]. destruct (Z.leb_spec (dkLen - pos) 64) as [Hle|Hmore].
  - apply blake2b_length. lia.
  - cbv zeta. unfold len. rewrite length_app.
    pose proof (blake2b_length 64 V ltac:(lia)) as HV.
    pose proof (firstn_32_length _ HV) as H32. unfold len in H32.
    specialize (IH (blake2b 64 V) (pos + 32) ltac:(lia) ltac:(lia)). unfold len in IH.
    lia.
Qed.

(** H' has [dkLen] bytes. *)
Lemma H_prime_length (input : list byte) dkLen :
  1 <= dkLen -> len (H_prime input dkLen) = dkLen.
Proof.
  intros Hd. unfold H_prime. cbv zeta.
  destruct (Z.leb_spec dkLen 64) as [Hle|Hgt].
  - apply blake2b_length. lia.
  - unfold len. rewrite length_app.
    pose proof (blake2b_length 64 (word_bytes (JS.toUint32 dkLen) ++ input) ltac:(lia))
      as HV.
    pose proof (firstn_32_length _ HV) as H32. unfold len in H32.
    pose proof (H_prime_rest_length (Z.to_nat dkLen)
                  (blake2b 64 (word_bytes (JS.toUint32 dkLen) ++ input)) 32 dkLen
                  ltac:(lia) ltac:(lia)) as Hr.
    unfold len in Hr. lia.
Qed.

(** What [Hp] returns: the bytes of H' on its fast path, the 32-bit view of
    them otherwise. *)
Lemma Hp_value (A : list Z) (dkLen : Z) :
  1 <= dkLen ->
  len (H_prime (u8 (Uint32Array A)) dkLen) = dkLen /\
  Hp A dkLen
  = if dkLen <=? 64 then Uint8Array (H_prime (u8 (Uint32Array A)) dkLen)
    else Uint32Array (u32 (H_prime (u8 (Uint32Array A)) dkLen)).
Proof.
  intros Hd. unfold Hp, H_prime. cbv zeta.
  change (store (zeros 1) 0 dkLen) with [JS.toUint32 dkLen].
  change (u8 (Uint32Array [JS.toUint32 dkLen]))
    with (word_bytes (JS.toUint32 dkLen) ++ []).
  rewrite app_nil_r.
  set (A8 := u8 (Uint32Array A)).
  set (T8 := word_bytes (JS.toUint32 dkLen)).
  destruct (Z.leb_spec dkLen 64) as [Hle|Hgt].
  - split; [apply blake2b_length; lia|reflexivity].
  - set (V := blake2b 64 (T8 ++ A8)).
    assert (HV : len V = 64) by (apply blake2b_length; lia).
    pose proof (firstn_32_length V HV) as H32.
    set (out0 := repeat x00 (Z.to_nat dkLen)).
    assert (Hlen0 : len out0 = dkLen)
      by (unfold len, out0; rewrite repeat_length; lia).
    assert (Hset : set8 out0 (firstn 32 V) 0 = firstn 32 V ++ skipn 32 out0).
    { rewrite set8_at by lia. rewrite H32. reflexivity. }
    assert (Hlen1 : len (set8 out0 (firstn 32 V) 0) = dkLen)
      by (unfold len; rewrite set8_length; exact Hlen0).
    pose proof (Hp_rest_emits (Z.to_nat dkLen) dkLen V (0 + 32)
                  (set8 out0 (firstn 32 V) 0) ltac:(lia) ltac:(lia) ltac:(lia) Hlen1)
      as Hrest.
    destruct (Hp_rest (Z.to_nat dkLen) dkLen V (0 + 32) (set8 out0 (firstn 32 V) 0))
      as [[V' pos'] out'].
    destruct Hrest as [Hp' [Hb [Hl' Heq]]].
    assert (Htail : len (blake2b (dkLen - pos') V') = dkLen - pos')
      by (apply blake2b_length; lia).
    assert (Hout : set8 out' (blake2b (dkLen - pos') V') pos'
                   = firstn 32 V ++ H_prime_rest (Z.to_nat dkLen) V 32 dkLen).
    { rewrite set8_at by lia. rewrite Htail.
      replace (pos' + (dkLen - pos')) with dkLen by ring.
      rewrite skipn_all2 by (unfold len in Hl'; lia).
      rewrite app_nil_r. rewrite Heq. rewrite Hset.
      change (Z.to_nat (0 + 32)) with 32%nat.
      rewrite firstn_exact; [reflexivity|].
      rewrite length_firstn. unfold len in HV. lia. }
    rewrite Hout. split; [|reflexivity].
    rewrite <- Hout. unfold len. rewrite set8_length. exact Hl'.
Qed.

(** The bytes of what [Hp] returns. *)
Lemma Hp_bytes (A : list Z) (dkLen : Z) :
  1 <= dkLen ->
  u8 (Hp A dkLen)
  = if dkLen <=? 64 then H_prime (u8 (Uint32Array A)) dkLen
    else firstn (Z.to_nat (4 * (dkLen / 4))) (H_prime (u8 (Uint32Array A)) dkLen).
Proof.
  intros Hd. destruct (Hp_value A dkLen Hd) as [Hlen Hval].
  rewrite Hval. destruct (dkLen <=? 64); [reflexivity|].
  rewrite u8_u32. f_equal. unfold len in Hlen.
  apply Nat2Z.inj. rewrite Z2Nat.id by (Z.to_euclidean_division_equations; lia).
  rewrite Nat2Z.inj_mul, Nat2Z.inj_div. rewrite Hlen. reflexivity.
Qed.

(** X10: [Hp] computes the variable-length hash H' of the specification:
    for [dkLen <= 64] it returns the [dkLen] bytes of H' itself, and for
    [dkLen > 64] the 32-bit view of them, which holds the whole words only,
    that is the first [4 * floor(dkLen / 4)] bytes of H'. *)
Theorem Hp_refines_H_prime (A : list Z) (dkLen : Z) :
  1 <= dkLen ->
  len (H_prime (u8 (Uint32Array A)) dkLen) = dkLen /\
  Hp A dkLen
  = (if dkLen <=? 64 then Uint8Array (H_prime (u8 (Uint32Array A)) dkLen)
     else Uint32Array (u32 (H_prime (u8 (Uint32Array A)) dkLen))) /\
  u8 (Hp A dkLen)
  = if dkLen <=? 64 then H_prime (u8 (Uint32Array A)) dkLen
    else firstn (Z.to_nat (4 * (dkLen / 4))) (H_prime (u8 (Uint32Array A)) dkLen).
Proof.
  intros Hd. destruct (Hp_value A dkLen Hd) as [Hlen Hval].
  split; [exact Hlen|]. split; [exact Hval|]. apply Hp_bytes. exact Hd.
Qed.

End HpRefinement.

(** X11: [indexAlpha] computes the reference position of the specification
    in exact integer arithmetic: the two 16-bit-limb multiplications and
    their signed high halves lose nothing, for every step of the driver
    over an accepted geometry and every 32-bit [J1]. *)
Theorem indexAlpha_is_exact
    (r s laneLen segmentLen index randL : Z) (sameLane : bool) :
  2 <= segmentLen -> laneLen = 4 * segmentLen -> laneLen < 2 ^ 31 ->
  0 <= r -> 0 <= s < 4 ->
  (if (r =? 0) && (s =? 0) then 2 else 0) <= index < segmentLen ->
  0 <= randL < 2 ^ 32 ->
  indexAlpha r s laneLen segmentLen index randL sameLane
  = reference_position r s laneLen segmentLen index randL sameLane.
Proof.
  intros Hseg Hlane Hsmall Hr Hs Hindex Hrand.
  change (2 ^ 31) with 2147483648 in Hsmall. change (2 ^ 32) with 4294967296 in Hrand.
  unfold indexAlpha, reference_position, reference_area, ARGON2_SYNC_POINTS.
  cbv zeta. replace (4 - 1) with 3 by reflexivity. change (2 ^ 32) with 4294967296.
  set (area := if r =? 0 then _ else _).
  assert (Earea : (if (r =? 0) && (s =? 0) then index - 1
                   else if r =? 0
                        then if sameLane then s * segmentLen + index - 1
                             else s * segmentLen + (if index =? 0 then -1 else 0)
                        else if sameLane then laneLen - segmentLen + index - 1
                             else laneLen - segmentLen + (if index =? 0 then -1 else 0))
                  = area).
  { unfold area. destruct (r =? 0), (s =? 0); reflexivity. }
  rewrite Earea.
  set (startPos := if negb (r =? 0) && negb (s =? 3) then _ else _).
  assert (Hs4 : s = 0 \/ s = 1 \/ s = 2 \/ s = 3) by lia.
  assert (Harea : 1 <= area < 2147483648).
  { unfold area.
    destruct (Z.eqb_spec r 0) as [Hr0|Hr0], (Z.eqb_spec s 0) as [Hs0|Hs0], sameLane,
      (Z.eqb_spec index 0) as [Hi0|Hi0]; cbn [andb] in Hindex;
      destruct Hs4 as [->|[->|[->| ->]]]; lia. }
  pose proof (rel_range area randL Harea) as Hrel.
  assert (Hhigh : hi (mul area (hi (mul randL randL)))
                  = area * (randL * randL / 4294967296) / 4294967296).
  { rewrite (mul_hi_small area) by lia. f_equal. f_equal.
    rewrite mul_hi_spec, toUint32_toInt32. rewrite (toUint32_small randL) by lia.
    apply toUint32_small.
    assert (0 <= randL * randL < 4294967296 * 4294967296) by nia.
    Z.to_euclidean_division_equations; lia. }
  rewrite Hhigh in *.
  assert (Hstart : 0 <= startPos).
  { unfold startPos. destruct (negb (r =? 0) && negb (s =? 3)); nia. }
  unfold JS.rem. apply Z.rem_mod_nonneg; lia.
Qed.

(** ** Words of bytes *)

Lemma bytes_words_app a b n :
  length a = (4 * n)%nat -> bytes_words (a ++ b) = bytes_words a ++ bytes_words b.
Proof.
  revert a. induction n as [|n IH]; intros a Ha.
  - destruct a; [reflexivity|cbn in Ha; lia].
  - destruct a as [|b0 [|b1 [|b2 [|b3 tl]]]]; try (cbn [length] in Ha; lia).
    cbn [app bytes_words]. rewrite IH by (cbn [length] in Ha; lia). reflexivity.
Qed.

Lemma u8_u32_exact bs n :
  length bs = (4 * n)%nat -> flat_map word_bytes (bytes_words bs) = bs.
Proof.
  intros Hlen. pose proof (u8_u32 bs) as H. unfold u8, u32 in H. rewrite H.
  rewrite Hlen.
  replace (4 * n / 4)%nat with n by (symmetry; rewrite Nat.mul_comm; apply Nat.div_mul; lia).
  rewrite <- Hlen. apply firstn_all.
Qed.

Lemma bytes_words_range_aux n : forall bs,
  (length bs < n)%nat -> Forall (fun w => 0 <= w < 4294967296) (bytes_words bs).
Proof.
  induction n as [|n IH]; intros bs Hn; [lia|].
  destruct bs as [|b0 [|b1 [|b2 [|b3 tl]]]]; try constructor.
  - pose proof (byte_to_Z_range b0). pose proof (byte_to_Z_range b1).
    pose proof (byte_to_Z_range b2). pose proof (byte_to_Z_range b3). lia.
  - apply IH. cbn [length] in Hn. lia.
Qed.

Lemma bytes_words_range bs : Forall (fun w => 0 <= w < 4294967296) (bytes_words bs).
Proof. apply (bytes_words_range_aux (S (length bs))). lia. Qed.

Lemma load_in_range (ws : list Z) k :
  Forall (fun w => 0 <= w < 4294967296) ws -> 0 <= load ws k < 4294967296.
Proof.
  intros H. unfold load. destruct (k <? 0); [lia|].
  destruct (Nat.lt_ge_cases (Z.to_nat k) (length ws)) as [Hlt|Hge].
  - rewrite Forall_forall in H. apply H. apply nth_In. exact Hlt.
  - rewrite nth_overflow by lia. lia.
Qed.

(** ** [B.set(src, pos)] *)

Lemma len_set32 B src pos : len (set32 B src pos) = len B.
Proof. unfold len. rewrite set32_length. reflexivity. Qed.

Lemma load_cons w ws k : 0 < k -> load (w :: ws) k = load ws (k - 1).
Proof.
  intros Hk. unfold load.
  destruct (Z.ltb_spec k 0); [lia|]. destruct (Z.ltb_spec (k - 1) 0); [lia|].
  replace (Z.to_nat k) with (S (Z.to_nat (k - 1))) by lia. reflexivity.
Qed.

Lemma load_set32 src : forall B pos j,
  0 <= pos -> pos + len src <= len B ->
  load (set32 B src pos) j
  = if (pos <=? j) && (j <? pos + len src) then JS.toUint32 (load src (j - pos))
    else load B j.
Proof.
  induction src as [|w src IH]; intros B pos j Hpos Hfit.
  - cbn [set32]. unfold len. cbn [length].
    destruct (Z.leb_spec pos j), (Z.ltb_spec j (pos + Z.of_nat 0)); cbn [andb];
      try reflexivity; lia.
  - cbn [set32]. unfold len in *. cbn [length] in *.
    rewrite IH by (rewrite ?store_length; lia).
    rewrite load_store. fold (len B).
    destruct (Z.eqb_spec j pos) as [->|Hne].
    + replace (pos + 1 <=? pos) with false by (symmetry; apply Z.leb_gt; lia).
      replace (pos <=? pos) with true by (symmetry; apply Z.leb_le; lia).
      replace (pos <? pos + Z.of_nat (S (length src))) with true
        by (symmetry; apply Z.ltb_lt; lia).
      replace (0 <=? pos) with true by (symmetry; apply Z.leb_le; lia).
      replace (pos <? len B) with true by (symmetry; apply Z.ltb_lt; unfold len; lia).
      cbn [andb]. replace (pos - pos) with 0 by ring. reflexivity.
    + cbn [andb].
      destruct (Z.leb_spec (pos + 1) j), (Z.ltb_spec j (pos + 1 + Z.of_nat (length src))),
        (Z.leb_spec pos j), (Z.ltb_spec j (pos + Z.of_nat (S (length src))));
        cbn [andb]; try reflexivity; try lia.
      rewrite load_cons by lia. f_equal. f_equal. ring.
Qed.

(** ** The initial hash *)

Section SeedingFacts.

Context {Hasher : Blake2b}.

Lemma store_singleton x v : store [x] 0 v = [JS.toUint32 v].
Proof. reflexivity. Qed.

Lemma initial_hash_message password salt key personalization p dkLen m t version type :
  snd (initial_hash password salt key personalization p dkLen m t version type)
  = u32 (set8 (u8 (Uint32Array (zeros 18)))
           (blake2b 64 (H0_preimage password salt key personalization
                          p dkLen m t version type)) 0).
Proof.
  unfold initial_hash, absorb_params, absorb_inputs. cbn [fold_left].
  change (zeros 1) with [0]. rewrite !store_singleton.
  cbn [u8 flat_map snd]. rewrite !app_nil_r. cbn [app].
  unfold H0_preimage, LE32. rewrite <- !app_assoc. reflexivity.
Qed.

Lemma H0_array (digest : list byte) :
  len digest = 64 ->
  u32 (set8 (u8 (Uint32Array (zeros 18))) digest 0) = u32 digest ++ [0; 0].
Proof.
  intros Hlen.
  change (u8 (Uint32Array (zeros 18))) with (repeat x00 72).
  rewrite set8_at by (unfold len in *; rewrite ?repeat_length; lia).
  rewrite Hlen. change (Z.to_nat 0) with 0%nat. change (Z.to_nat (0 + 64)) with 64%nat.
  cbn [firstn app]. unfold u32.
  rewrite (bytes_words_app digest _ 16) by (unfold len in Hlen; lia).
  reflexivity.
Qed.

(** The bytes [Hp] hashes for the block at column [c] of lane [l]. *)
Lemma seed_input (digest : list byte) x y c l :
  len digest = 64 ->
  let H0 := store (store (u32 digest ++ [x; y]) 17 l) 16 c in
  H0 = u32 digest ++ [JS.toUint32 c; JS.toUint32 l] /\
  u8 (Uint32Array H0) = digest ++ LE32 c ++ LE32 l.
Proof.
  intros Hlen. cbv zeta.
  assert (HD : length (u32 digest) = 16%nat).
  { unfold u32. rewrite bytes_words_length. unfold len in Hlen.
    replace (length digest) with 64%nat by lia. reflexivity. }
  assert (E : store (store (u32 digest ++ [x; y]) 17 l) 16 c
              = u32 digest ++ [JS.toUint32 c; JS.toUint32 l]).
  { replace 17 with (len (u32 digest ++ [x])) at 1
      by (unfold len; rewrite length_app, HD; reflexivity).
    replace (u32 digest ++ [x; y]) with ((u32 digest ++ [x]) ++ [y])
      by (rewrite <- app_assoc; reflexivity).
    rewrite store_app. rewrite <- app_assoc. cbn [app].
    replace 16 with (len (u32 digest)) at 1 by (unfold len; rewrite HD; reflexivity).
    rewrite store_app. reflexivity. }
  rewrite E. split; [reflexivity|].
  cbn [u8]. rewrite flat_map_app. cbn [flat_map]. rewrite app_nil_r.
  unfold u32. rewrite (u8_u32_exact digest 16) by (unfold len in Hlen; lia).
  reflexivity.
Qed.

Lemma seed_block_length (H0 : list byte) c l : length (seed_block H0 c l) = 256%nat.
Proof.
  unfold seed_block, u32. rewrite bytes_words_length.
  pose proof (H_prime_length (H0 ++ LE32 c ++ LE32 l) 1024 ltac:(lia)) as Hlen.
  unfold len in Hlen.
  replace (length (H_prime (H0 ++ LE32 c ++ LE32 l) 1024)) with 1024%nat by lia.
  reflexivity.
Qed.

Lemma seed_store_16 (D : list Z) x y c :
  length D = 16%nat -> store (D ++ [x; y]) 16 c = D ++ [JS.toUint32 c; y].
Proof.
  intros HD. replace 16 with (len D) at 1 by (unfold len; rewrite HD; reflexivity).
  apply store_app.
Qed.

Lemma seed_store_17 (D : list Z) x y l :
  length D = 16%nat -> store (D ++ [x; y]) 17 l = D ++ [x; JS.toUint32 l].
Proof.
  intros HD.
  replace 17 with (len (D ++ [x])) at 1
    by (unfold len; rewrite length_app, HD; reflexivity).
  replace (D ++ [x; y]) with ((D ++ [x]) ++ [y]) by (rewrite <- app_assoc; reflexivity).
  rewrite store_app. rewrite <- app_assoc. reflexivity.
Qed.

Lemma seed_bytes (digest : list byte) c l :
  len digest = 64 ->
  u8 (Uint32Array (u32 digest ++ [JS.toUint32 c; JS.toUint32 l]))
  = digest ++ LE32 c ++ LE32 l.
Proof.
  intros Hlen. cbn [u8]. rewrite flat_map_app. cbn [flat_map]. rewrite app_nil_r.
  unfold u32. rewrite (u8_u32_exact digest 16) by (unfold len in Hlen; lia).
  reflexivity.
Qed.

Lemma seed_elements (digest : list byte) c l :
  len digest = 64 ->
  elements (Hp (u32 digest ++ [JS.toUint32 c; JS.toUint32 l]) 1024)
  = seed_block digest c l.
Proof.
  intros Hlen.
  destruct (Hp_value (u32 digest ++ [JS.toUint32 c; JS.toUint32 l]) 1024 ltac:(lia))
    as [_ Hv].
  rewrite Hv. replace (1024 <=? 64) with false by reflexivity.
  cbn [elements]. rewrite seed_bytes by exact Hlen. reflexivity.
Qed.

Lemma load_zeros n j : load (zeros n) j = 0.
Proof.
  unfold load, zeros. destruct (j <? 0); [reflexivity|].
  destruct (Nat.lt_ge_cases (Z.to_nat j) (Z.to_nat n)) as [Hlt|Hge].
  - apply nth_repeat_lt. exact Hlt.
  - apply nth_overflow. rewrite repeat_length. exact Hge.
Qed.

Lemma seed_word_range (H0 : list byte) c l k :
  JS.toUint32 (load (seed_block H0 c l) k) = load (seed_block H0 c l) k.
Proof.
  apply toUint32_small. apply load_in_range. unfold seed_block, u32.
  apply bytes_words_range.
Qed.

(** The lane loop of [argon2Init]: after [l] lanes, the first two blocks of
    the lanes below [l] are seeded and every other word is still zero. *)
Lemma fill_first_blocks_seeds (digest : list byte) p laneLen x y :
  len digest = 64 -> 0 <= p -> 2 <= laneLen ->
  let st := fill_first_blocks p laneLen (zeros (256 * (p * laneLen)), u32 digest ++ [x; y]) in
  forall l c k, 0 <= l < p -> 0 <= c < laneLen -> 0 <= k < 256 ->
    load (fst st) (256 * (laneLen * l + c) + k)
    = if c <? 2 then load (seed_block digest c l) k else 0.
Proof.
  intros Hlen Hp Hlane. cbv zeta.
  assert (HD : length (u32 digest) = 16%nat).
  { unfold u32. rewrite bytes_words_length. unfold len in Hlen.
    replace (length digest) with 64%nat by lia. reflexivity. }
  set (n := 256 * (p * laneLen)).
  set (Inv := fun lim (st : list Z * list Z) =>
       (exists x' y', snd st = u32 digest ++ [x'; y']) /\
       len (fst st) = n /\
       forall l c k, 0 <= l < p -> 0 <= c < laneLen -> 0 <= k < 256 ->
         load (fst st) (256 * (laneLen * l + c) + k)
         = if (l <? lim) && (c <? 2) then load (seed_block digest c l) k else 0).
  assert (Hinv : Inv p (fill_first_blocks p laneLen (zeros n, u32 digest ++ [x; y]))).
  { unfold fill_first_blocks. apply (forRange_invariant_ix Inv); [lia| |]; unfold Inv.
    - cbn [fst snd]. split; [exists x, y; reflexivity|].
      split.
      + unfold len, n. rewrite zeros_length. rewrite Z2Nat.id by nia. reflexivity.
      + intros l c k Hl Hc Hk. rewrite load_zeros.
        replace (l <? 0) with false by (symmetry; apply Z.ltb_ge; lia). reflexivity.
    - intros lane [B H0] Hlane_rng [[x' [y' HH0]] [HB Hload]]. cbn [fst snd] in *.
      subst H0. cbv zeta.
      rewrite seed_store_17, seed_store_16 by exact HD.
      rewrite seed_store_16 by exact HD.
      rewrite !seed_elements by exact Hlen.
      cbn [fst snd]. split; [eexists; eexists; reflexivity|].
      split; [rewrite !len_set32; exact HB|].
      intros l c k Hl Hc Hk.
      assert (Hlens : forall c' l', len (seed_block digest c' l') = 256)
        by (intros; unfold len; rewrite seed_block_length; reflexivity).
      assert (Hfit : 256 * laneLen * lane + 512 <= n) by (unfold n; nia).
      rewrite load_set32 by (rewrite ?len_set32, ?Hlens; nia).
      rewrite load_set32 by (rewrite ?Hlens; nia).
      rewrite !Hlens. rewrite (Hload l c k Hl Hc Hk).
      rewrite !seed_word_range.
      destruct (Z.lt_trichotomy l lane) as [Hlt|[Heq|Hgt]].
      + assert (laneLen * l + c + 1 <= laneLen * lane) by nia.
        replace (256 * laneLen * lane + 256 <=? 256 * (laneLen * l + c) + k) with false
          by (symmetry; apply Z.leb_gt; nia).
        replace (256 * laneLen * lane <=? 256 * (laneLen * l + c) + k) with false
          by (symmetry; apply Z.leb_gt; nia).
        cbn [andb].
        replace (l <? lane) with true by (symmetry; apply Z.ltb_lt; lia).
        replace (l <? lane + 1) with true by (symmetry; apply Z.ltb_lt; lia).
        reflexivity.
      + subst l.
        replace (lane <? lane) with false by (symmetry; apply Z.ltb_ge; lia).
        replace (lane <? lane + 1) with true by (symmetry; apply Z.ltb_lt; lia).
        cbn [andb].
        destruct (Z.eq_dec c 0) as [->|Hc0]; [|destruct (Z.eq_dec c 1) as [->|Hc1]].
        * replace (256 * laneLen * lane + 256 <=? 256 * (laneLen * lane + 0) + k)
            with false by (symmetry; apply Z.leb_gt; nia).
          replace (256 * laneLen * lane <=? 256 * (laneLen * lane + 0) + k)
            with true by (symmetry; apply Z.leb_le; nia).
          replace (256 * (laneLen * lane + 0) + k <? 256 * laneLen * lane + 256)
            with true by (symmetry; apply Z.ltb_lt; nia).
          cbn [andb]. replace (0 <? 2) with true by reflexivity.
          replace (256 * (laneLen * lane + 0) + k - 256 * laneLen * lane) with k by ring.
          reflexivity.
        * replace (256 * laneLen * lane + 256 <=? 256 * (laneLen * lane + 1) + k)
            with true by (symmetry; apply Z.leb_le; nia).
          replace (256 * (laneLen * lane + 1) + k <? 256 * laneLen * lane + 256 + 256)
            with true by (symmetry; apply Z.ltb_lt; nia).
          cbn [andb]. replace (1 <? 2) with true by reflexivity.
          replace (256 * (laneLen * lane + 1) + k - (256 * laneLen * lane + 256))
            with k by ring.
          reflexivity.
        * replace (256 * laneLen * lane + 256 <=? 256 * (laneLen * lane + c) + k)
            with true by (symmetry; apply Z.leb_le; nia).
          replace (256 * (laneLen * lane + c) + k <? 256 * laneLen * lane + 256 + 256)
            with false by (symmetry; apply Z.ltb_ge; nia).
          replace (256 * laneLen * lane <=? 256 * (laneLen * lane + c) + k)
            with true by (symmetry; apply Z.leb_le; nia).
          replace (256 * (laneLen * lane + c) + k <? 256 * laneLen * lane + 256)
            with false by (symmetry; apply Z.ltb_ge; nia).
          cbn [andb].
          replace (c <? 2) with false by (symmetry; apply Z.ltb_ge; lia). reflexivity.
      + assert (laneLen * lane + laneLen <= laneLen * l) by nia.
        replace (256 * (laneLen * l + c) + k <? 256 * laneLen * lane + 256 + 256)
          with false by (symmetry; apply Z.ltb_ge; nia).
        replace (256 * (laneLen * l + c) + k <? 256 * laneLen * lane + 256)
          with false by (symmetry; apply Z.ltb_ge; nia).
        rewrite !andb_false_r.
        replace (l <? lane) with false by (symmetry; apply Z.ltb_ge; lia).
        replace (l <? lane + 1) with false by (symmetry; apply Z.ltb_ge; lia).
        reflexivity. }
  unfold Inv in Hinv. destruct Hinv as [_ [_ Hload]].
  intros l c k Hl Hc Hk. rewrite (Hload l c k Hl Hc Hk).
  replace (l <? p) with true by (symmetry; apply Z.ltb_lt; lia). reflexivity.
Qed.

(** X12: the matrix an accepted call starts from is seeded as the
    specification says: with [H_0] the 64-byte BLAKE2b digest of the
    parameters and inputs, each preceded by its length where it is a byte
    string, the first two blocks of every lane [l] hold
    [H'(H_0 || LE32(0) || LE32(l), 1024)] and
    [H'(H_0 || LE32(1) || LE32(l), 1024)], and every other block is zero. *)
Theorem matrix_is_seeded
    (type : Z) (password salt : list byte) (opts : ArgonOpts)
    (evs : list Event) (ini : Init) :
  argon2Init password salt type opts = (evs, Ok ini) ->
  let H0 :=
    blake2b 64
      (H0_preimage password salt
         (toBytesOptional (opt_key opts)) (toBytesOptional (opt_personalization opts))
         (opt_p opts) (or_default (opt_dkLen opts) 32) (opt_m opts) (opt_t opts)
         (or_default (opt_version opts) 19) type) in
  forall l c k, 0 <= l < in_p ini -> 0 <= c < in_laneLen ini -> 0 <= k < 256 ->
    load (in_B ini) (256 * (in_laneLen ini * l + c) + k)
    = if c <? 2 then load (seed_block H0 c l) k else 0.
Proof.
  rewrite argon2Init_result.
  destruct (init_error password salt type (merge_defaults opts)) as [e|] eqn:Herr;
    [discriminate|].
  intros H. assert (Hini : ini = init_value password salt type (merge_defaults opts)).
  { apply (f_equal snd) in H. cbn [snd] in H. injection H as H. symmetry. exact H. }
  clear H. subst ini. cbv zeta.
  pose proof (init_value_geometry password salt type (merge_defaults opts) Herr) as Hg.
  cbv zeta in Hg. destruct Hg as [Ep [_ [_ [Hp [_ [Hseg [Hlane [HmP _]]]]]]]].
  unfold ARGON2_SYNC_POINTS in Hlane.
  set (digest := blake2b 64 _).
  assert (Hd : len digest = 64) by (apply blake2b_length; lia).
  assert (HB : in_B (init_value password salt type (merge_defaults opts))
               = fst (fill_first_blocks
                        (in_p (init_value password salt type (merge_defaults opts)))
                        (in_laneLen (init_value password salt type (merge_defaults opts)))
                        (zeros (256 * (in_p (init_value password salt type (merge_defaults opts))
                                       * in_laneLen (init_value password salt type (merge_defaults opts)))),
                         u32 digest ++ [0; 0]))).
  { rewrite <- HmP. unfold init_value at 1. cbv zeta. cbn [in_B].
    rewrite initial_hash_message.
    cbn [merge_defaults mg_key mg_personalization mg_p mg_dkLen mg_m mg_t mg_version].
    fold digest. rewrite (H0_array digest Hd).
    replace (mP_of (merge_defaults opts) * 256)
      with (256 * in_mP (init_value password salt type (merge_defaults opts)))
      by (unfold init_value; cbv zeta; cbn [in_mP]; ring).
    reflexivity. }
  rewrite HB.
  apply (fill_first_blocks_seeds digest); [exact Hd|lia|lia].
Qed.

Lemma init_value_seeded password salt type mg :
  init_error password salt type mg = None ->
  let ini := init_value password salt type mg in
  let H0 :=
    blake2b 64
      (H0_preimage password salt
         (toBytesOptional (mg_key mg)) (toBytesOptional (mg_personalization mg))
         (mg_p mg) (mg_dkLen mg) (mg_m mg) (mg_t mg) (mg_version mg) type) in
  forall l c k, 0 <= l < in_p ini -> 0 <= c < in_laneLen ini -> 0 <= k < 256 ->
    load (in_B ini) (256 * (in_laneLen ini * l + c) + k)
    = if c <? 2 then load (seed_block H0 c l) k else 0.
Proof.
  intros Herr. cbv zeta.
  pose proof (init_value_geometry password salt type mg Herr) as Hg.
  cbv zeta in Hg. destruct Hg as [Ep [_ [_ [Hp [_ [Hseg [Hlane [HmP _]]]]]]]].
  unfold ARGON2_SYNC_POINTS in Hlane.
  set (digest := blake2b 64 _).
  assert (Hd : len digest = 64) by (apply blake2b_length; lia).
  assert (HB : in_B (init_value password salt type mg)
               = fst (fill_first_blocks
                        (in_p (init_value password salt type mg))
                        (in_laneLen (init_value password salt type mg))
                        (zeros (256 * (in_p (init_value password salt type mg)
                                       * in_laneLen (init_value password salt type mg))),
                         u32 digest ++ [0; 0]))).
  { rewrite <- HmP. unfold init_value at 1. cbv zeta. cbn [in_B].
    rewrite initial_hash_message. fold digest. rewrite (H0_array digest Hd).
    replace (mP_of mg * 256) with (256 * in_mP (init_value password salt type mg))
      by (unfold init_value; cbv zeta; cbn [in_mP]; ring).
    reflexivity. }
  rewrite HB.
  apply (fill_first_blocks_seeds digest); [exact Hd|lia|lia].
Qed.

Lemma H0_preimage_fields password salt key personalization p dkLen m t version type :
  H0_preimage password salt (toBytesOptional key) (toBytesOptional personalization)
    p dkLen m t version type
  = LE32 p ++ LE32 dkLen ++ LE32 m ++ LE32 t ++ LE32 version ++ LE32 type
    ++ LE32 (len password) ++ password ++ LE32 (len salt) ++ salt
    ++ encoded_field key ++ encoded_field personalization.
Proof.
  destruct key as [b|], personalization as [b'|];
    unfold H0_preimage, toBytesOptional, toBytes, encoded_field;
    change (len (@nil byte)) with 0;
    rewrite <- ?app_assoc, ?app_nil_r; cbn [app]; rewrite ?app_nil_r; reflexivity.
Qed.

(** C10: for every password, salt, variant and options, an entry point
    (blocking or cooperative) called with the key undefined returns what it
    returns with the key set to the empty byte string, and likewise for the
    personalization; and a field that is not given is encoded into [H_0] as
    a zero-length field: the message hashed into [H_0], from which the
    matrix of an accepted call is seeded, holds [LE32(0)] and no bytes in
    the place of that field. *)
Theorem C10_absent_field_is_empty
    (host : Host) (type : Z) (password salt : list byte) (opts : ArgonOpts)
    (A2_BUF : list Z) (key personalization : option (list byte)) :
  (argon2 type password salt (with_key opts None personalization) A2_BUF
   = argon2 type password salt (with_key opts (Some []) personalization) A2_BUF /\
   argon2 type password salt (with_key opts key None) A2_BUF
   = argon2 type password salt (with_key opts key (Some [])) A2_BUF /\
   argon2Async host type password salt (with_key opts None personalization) A2_BUF
   = argon2Async host type password salt (with_key opts (Some []) personalization) A2_BUF /\
   argon2Async host type password salt (with_key opts key None) A2_BUF
   = argon2Async host type password salt (with_key opts key (Some [])) A2_BUF) /\
  (forall evs ini,
     argon2Init password salt type (with_key opts key personalization) = (evs, Ok ini) ->
     let H0 :=
       blake2b 64
         (LE32 (opt_p opts) ++ LE32 (or_default (opt_dkLen opts) 32)
          ++ LE32 (opt_m opts) ++ LE32 (opt_t opts)
          ++ LE32 (or_default (opt_version opts) 19) ++ LE32 type
          ++ LE32 (len password) ++ password ++ LE32 (len salt) ++ salt
          ++ encoded_field key ++ encoded_field personalization) in
     forall l c k, 0 <= l < in_p ini -> 0 <= c < in_laneLen ini -> 0 <= k < 256 ->
       load (in_B ini) (256 * (in_laneLen ini * l + c) + k)
       = if c <? 2 then load (seed_block H0 c l) k else 0).
Proof.
  split; [apply absent_field_same_call|].
  intros evs ini. rewrite argon2Init_result.
  destruct (init_error password salt type
              (merge_defaults (with_key opts key personalization))) as [e|] eqn:Herr;
    [discriminate|].
  intros H. injection H as _ <-. cbv zeta.
  pose proof (init_value_seeded password salt type
                (merge_defaults (with_key opts key personalization)) Herr) as Hs.
  cbv zeta in Hs. rewrite H0_preimage_fields in Hs.
  destruct opts. exact Hs.
Qed.

End SeedingFacts.

(** ** A sweep over a whole array *)

Lemma sweep (f : Z -> Z -> Z) (a : list Z) :
  forRange 0 (len a) (fun j buf => store buf j (f j (load buf j))) a
  = map (fun j => JS.toUint32 (f (Z.of_nat j) (nth j a 0))) (seq 0 (length a)).
Proof.
  set (Inv := fun i (buf : list Z) =>
                length buf = length a /\
                forall j, load buf j
                          = if (0 <=? j) && (j <? i) then JS.toUint32 (f j (load a j))
                            else load a j).
  assert (H : Inv (len a) (forRange 0 (len a)
                             (fun j buf => store buf j (f j (load buf j))) a)).
  { apply (forRange_invariant_ix Inv); [unfold len; lia| |]; unfold Inv.
    - split; [reflexivity|]. intros j.
      destruct (Z.leb_spec 0 j), (Z.ltb_spec j 0); cbn [andb]; try reflexivity; lia.
    - intros i buf Hi [Hlen Hload]. split; [rewrite store_length; exact Hlen|].
      intros j. rewrite load_store. unfold len. rewrite Hlen. fold (len a).
      destruct (Z.eqb_spec j i) as [->|Hne].
      + replace (0 <=? i) with true by (symmetry; apply Z.leb_le; lia).
        replace (i <? len a) with true by (symmetry; apply Z.ltb_lt; lia).
        replace (i <? i + 1) with true by (symmetry; apply Z.ltb_lt; lia).
        cbn [andb]. rewrite Hload.
        replace (i <? i) with false by (symmetry; apply Z.ltb_ge; lia).
        rewrite andb_false_r. reflexivity.
      + cbn [andb]. rewrite Hload.
        destruct (Z.leb_spec 0 j), (Z.ltb_spec j i), (Z.ltb_spec j (i + 1));
          cbn [andb]; try reflexivity; lia. }
  unfold Inv in H. destruct H as [Hlen Hload].
  assert (Hlen' : len (forRange 0 (len a)
                         (fun j buf => store buf j (f j (load buf j))) a) = len a)
    by (unfold len at 1 3; rewrite Hlen; reflexivity).
  apply list_eq_load.
  - rewrite length_map, length_seq. exact Hlen.
  - intros j Hj. rewrite Hlen' in Hj. unfold len in Hj.
    rewrite Hload. rewrite load_map_seq by lia.
    replace (0 <=? j) with true by (symmetry; apply Z.leb_le; lia).
    replace (j <? len a) with true by (symmetry; apply Z.ltb_lt; unfold len; lia).
    cbn [andb]. rewrite Z2Nat.id by lia. unfold load.
    destruct (Z.ltb_spec j 0); [lia|]. reflexivity.
Qed.

Lemma nth_map_seq (g : nat -> Z) n j :
  (j < n)%nat -> nth j (map g (seq 0 n)) 0 = g j.
Proof.
  intros Hj. rewrite nth_indep with (d' := g 0%nat)
    by (rewrite length_map, length_seq; exact Hj).
  rewrite map_nth. rewrite seq_nth by exact Hj. reflexivity.
Qed.

Lemma fold_lxor_range (g : nat -> Z) ls :
  (forall l, 0 <= g l < 4294967296) ->
  0 <= fold_left (fun acc l => Z.lxor acc (g l)) ls 0 < 4294967296.
Proof.
  intros Hg. assert (H : forall acc, 0 <= acc < 4294967296 ->
                     0 <= fold_left (fun acc l => Z.lxor acc (g l)) ls acc < 4294967296).
  { induction ls as [|l ls IH]; intros acc Hacc; cbn [fold_left]; [exact Hacc|].
    apply IH. change 4294967296 with (2 ^ 32). apply lxor_range; [lia| |].
    - change (2 ^ 32) with 4294967296. exact Hacc.
    - change (2 ^ 32) with 4294967296. apply Hg. }
  apply H. lia.
Qed.

Section Finalisation.

Context {Hasher : Blake2b}.

Lemma B_final_value (B : list Z) (p laneLen : Z) :
  0 <= p ->
  forRange 0 p (fun l B_final =>
    forRange 0 256 (fun j B_final =>
      store B_final j
        (JS.xor (load B_final j) (load B (256 * (laneLen * l + laneLen - 1) + j))))
      B_final) (zeros 256)
  = last_column_xor B p laneLen.
Proof.
  intros Hp. unfold last_column_xor.
  set (word := fun (l j : nat) =>
         JS.toUint32 (load B (256 * (laneLen * Z.of_nat l + laneLen - 1) + Z.of_nat j))).
  set (Inv := fun l (Bf : list Z) =>
         Bf = map (fun j => fold_left (fun acc l => Z.lxor acc (word l j))
                               (seq 0 (Z.to_nat l)) 0) (seq 0 256)).
  apply (forRange_invariant_ix Inv); [lia| |]; unfold Inv.
  - reflexivity.
  - intros l Bf Hl ->.
    set (cur := map _ (seq 0 256)).
    assert (Hcur : length cur = 256%nat) by (unfold cur; rewrite length_map, length_seq; reflexivity).
    replace 256 with (len cur) at 1 by (unfold len; rewrite Hcur; reflexivity).
    rewrite (sweep (fun j v => JS.xor v (load B (256 * (laneLen * l + laneLen - 1) + j))) cur).
    rewrite Hcur. apply map_ext_in. intros j Hj. apply in_seq in Hj.
    replace (Z.to_nat (l + 1)) with (S (Z.to_nat l)) by lia.
    rewrite seq_S, fold_left_app. cbn [fold_left Nat.add].
    unfold cur. rewrite nth_map_seq by lia.
    rewrite toUint32_xor.
    rewrite toUint32_small
      by (apply fold_lxor_range; intros l0; unfold word; apply toUint32_range).
    unfold word. rewrite Z2Nat.id by lia. reflexivity.
Qed.

(** X13: the tag is the variable-length hash of the xor of the last blocks
    of the lanes: [argon2Output] hands the words of
    [C = B[q - 1] xor B[2q - 1] xor ... xor B[p q - 1]] to [Hp], and the
    accumulator is zeroed afterwards. *)
Theorem output_hashes_last_column (B : list Z) (p laneLen dkLen : Z) :
  0 <= p -> 1 <= dkLen ->
  let C := u8 (Uint32Array (last_column_xor B p laneLen)) in
  argon2Output B p laneLen dkLen
  = (if dkLen <=? 64 then H_prime C dkLen
     else firstn (Z.to_nat (4 * (dkLen / 4))) (H_prime C dkLen),
     repeat 0 256).
Proof.
  intros Hp Hd. cbv zeta. unfold argon2Output. cbv zeta.
  rewrite (B_final_value B p laneLen Hp).
  rewrite (Hp_bytes (last_column_xor B p laneLen) dkLen Hd).
  rewrite fill0_repeat. unfold last_column_xor. rewrite length_map, length_seq.
  reflexivity.
Qed.

End Finalisation.

(** X14: the scratch of [block] is private to one call: what it held before
    has no influence on the result, and it holds zeros afterwards. *)
Theorem block_scratch_is_private
    (x : list Z) (xPos yPos outPos : Z) (needXor : bool) (A2_BUF A2_BUF' : list Z) :
  length A2_BUF = 256%nat -> length A2_BUF' = 256%nat ->
  fst (block x xPos yPos outPos needXor A2_BUF)
  = fst (block x xPos yPos outPos needXor A2_BUF') /\
  snd (block x xPos yPos outPos needXor A2_BUF) = repeat 0 256.
Proof.
  intros H1 H2. split.
  - rewrite (block_indep x xPos yPos outPos needXor A2_BUF A2_BUF' H1 H2). reflexivity.
  - rewrite block_scratch, H1. reflexivity.
Qed.

(** X15: one step of the fill writes one block of the matrix and nothing
    else of it: the block at [offset] becomes the compression of the
    previous block of the lane and of the reference block (xored with its
    old contents when [needXor] is set). In the data-dependent mode the
    pseudo-random pair is the first 64-bit word of the previous block, and
    the address triple is left alone. *)
Theorem processBlock_writes_one_block
    (mem : Mem) (l r s index laneLen segmentLen lanes offset prev : Z)
    (dataIndependent needXor : bool) :
  length (mem_A2_BUF mem) = 256%nat ->
  0 <= offset -> 256 * offset + 256 <= len (mem_B mem) ->
  let B := mem_B mem in
  let mem' :=
    processBlock mem l r s index laneLen segmentLen lanes offset prev
      dataIndependent needXor in
  let prev' := prevOf offset laneLen prev in
  exists randL randH,
    let refBlock := refBlockOf l r s index laneLen segmentLen lanes randL randH in
    length (mem_B mem') = length B /\
    (forall j, load (mem_B mem') j
               = if (256 * offset <=? j) && (j <? 256 * offset + 256)
                 then block_word B (256 * prev') (256 * refBlock) (256 * offset)
                        needXor (j - 256 * offset)
                 else load B j) /\
    (dataIndependent = false ->
     randL = load B (256 * prev') /\ randH = load B (256 * prev' + 1) /\
     mem_address mem' = mem_address mem).
Proof.
  intros HA Hoff Hfit. cbv zeta. destruct mem as [B address A2].
  cbn [mem_B mem_address mem_A2_BUF] in *.
  unfold processBlock. cbv zeta.
  set (prev' := prevOf offset laneLen prev).
  assert (Hstep : forall (A2' : list Z) randL randH,
            length A2' = 256%nat ->
            let refBlock := refBlockOf l r s index laneLen segmentLen lanes randL randH in
            let res := block B (256 * prev') (256 * refBlock) (offset * 256) needXor A2' in
            length (fst res) = length B /\
            forall j, load (fst res) j
                      = if (256 * offset <=? j) && (j <? 256 * offset + 256)
                        then block_word B (256 * prev') (256 * refBlock) (256 * offset)
                               needXor (j - 256 * offset)
                        else load B j).
  { intros A2' randL randH HA'. cbv zeta.
    replace (offset * 256) with (256 * offset) by ring.
    apply block_writes_one_block; try assumption; lia. }
  destruct dataIndependent.
  - destruct (JS.rem index 128 =? 0).
    + pose proof (next_addresses_scratch address A2) as Hs.
      destruct (next_addresses address A2) as [address' A2']. cbn [snd] in Hs.
      assert (HA' : length A2' = 256%nat) by (rewrite Hs, repeat_length; exact HA).
      exists (load address' (2 * JS.rem index 128)),
             (load address' (2 * JS.rem index 128 + 1)).
      cbv zeta.
      pose proof (Hstep A2' (load address' (2 * JS.rem index 128))
                    (load address' (2 * JS.rem index 128 + 1)) HA') as Hb.
      cbv zeta in Hb.
      destruct (block B _ _ _ needXor A2') as [B' A2'']. cbn [fst mem_B] in *.
      split; [apply Hb|]. split; [apply Hb|]. discriminate.
    + exists (load address (2 * JS.rem index 128)),
             (load address (2 * JS.rem index 128 + 1)).
      cbv zeta.
      pose proof (Hstep A2 (load address (2 * JS.rem index 128))
                    (load address (2 * JS.rem index 128 + 1)) HA) as Hb.
      cbv zeta in Hb.
      destruct (block B _ _ _ needXor A2) as [B' A2'']. cbn [fst mem_B] in *.
      split; [apply Hb|]. split; [apply Hb|]. discriminate.
  - exists (load B (256 * prev')), (load B (256 * prev' + 1)).
    cbv zeta.
    pose proof (Hstep A2 (load B (256 * prev')) (load B (256 * prev' + 1)) HA)
      as Hb.
    cbv zeta in Hb.
    destruct (block B _ _ _ needXor A2) as [B' A2'']. cbn [fst mem_B mem_address] in *.
    split; [apply Hb|]. split; [apply Hb|]. intros _. repeat split; reflexivity.
Qed.

(** ** The fill produces its blocks one by one *)

Lemma iter_succ {A : Type} (f : A -> A) (x : A) k :
  0 <= k -> Nat.iter (Z.to_nat (k + 1)) f x = f (Nat.iter (Z.to_nat k) f x).
Proof.
  intros Hk. rewrite Z2Nat.inj_add by lia. rewrite Nat.add_1_r. reflexivity.
Qed.

Lemma produced_before_nonneg p seg r s l j :
  1 <= p -> 2 <= seg -> 0 <= r -> 0 <= s -> 0 <= l < p ->
  (if (r =? 0) && (s =? 0) then 2 else 0) <= j ->
  0 <= produced_before p seg r s l + (j - (if (r =? 0) && (s =? 0) then 2 else 0)).
Proof.
  intros Hp Hseg Hr Hs Hl Hj. unfold produced_before, ARGON2_SYNC_POINTS.
  destruct (Z.eqb_spec r 0) as [Hr0|Hr0], (Z.eqb_spec s 0) as [Hs0|Hs0];
    cbn [andb] in *.
  - subst r s. nia.
  - assert (1 * p <= (r * 4 + s) * p) by nia. nia.
  - assert (1 * p <= (r * 4 + s) * p) by nia. nia.
  - assert (1 * p <= (r * 4 + s) * p) by nia. nia.
Qed.

Lemma produced_before_lane p seg r s l :
  produced_before p seg r s l + (seg - (if (r =? 0) && (s =? 0) then 2 else 0))
  = produced_before p seg r s (l + 1).
Proof. unfold produced_before. destruct ((r =? 0) && (s =? 0)); ring. Qed.

Lemma produced_before_segment p seg r s :
  0 <= r -> 0 <= s ->
  produced_before p seg r s p = produced_before p seg r (s + 1) 0.
Proof.
  intros Hr Hs. unfold produced_before, ARGON2_SYNC_POINTS.
  destruct (Z.eqb_spec r 0), (Z.eqb_spec s 0), (Z.eqb_spec (s + 1) 0);
    cbn [andb]; try lia; ring.
Qed.

Lemma produced_before_pass p seg r :
  0 <= r ->
  produced_before p seg r ARGON2_SYNC_POINTS 0 = produced_before p seg (r + 1) 0 0.
Proof.
  intros Hr. unfold produced_before, ARGON2_SYNC_POINTS.
  destruct (Z.eqb_spec r 0), (Z.eqb_spec (r + 1) 0); cbn [andb Z.eqb]; try lia; ring.
Qed.

Section Traversal.

Context {Hasher : Blake2b}.

Variable ini : Init.
Hypothesis Ht : 0 <= in_t ini.
Hypothesis Hp : 1 <= in_p ini.
Hypothesis Hseg : 2 <= in_segmentLen ini.

Variable pg0 : Progress.

Let p := in_p ini.
Let seg := in_segmentLen ini.

(** After [k] produced blocks the closure was called [k] times. *)
Let called (k : Z) (st : Fill) : Prop :=
  fill_progress st = Nat.iter (Z.to_nat k) (perBlock (in_perBlock ini)) pg0.

Lemma argon2_lane_called r s l st :
  0 <= r -> 0 <= s -> 0 <= l < p ->
  called (produced_before p seg r s l) st ->
  called (produced_before p seg r s (l + 1)) (argon2_lane ini r s l st).
Proof.
  intros Hr Hs Hl H0. unfold argon2_lane. cbv zeta.
  pose proof (lane_start_startPos (fill_mem st) r s l
                (dataIndependentAt (in_type ini) r s)) as Hsp.
  destruct (lane_start (fill_mem st) r s l _) as [mem startPos]. cbn [snd] in Hsp.
  match goal with
  | |- context [forRange ?lo ?hi ?body ?init] =>
      pose proof (forRange_invariant_ix
                    (fun j (tr : Fill * Z * Z) =>
                       called (produced_before p seg r s l + (j - startPos))
                         (fst (fst tr)))
                    lo hi body init) as Hinv
  end.
  destruct (forRange _ _ _ _) as [[st' o] pv]. cbn [fst] in Hinv.
  rewrite <- produced_before_lane. rewrite <- Hsp. apply Hinv.
  - subst startPos. fold seg. destruct ((r =? 0) && (s =? 0)); lia.
  - unfold called. cbn [fst fill_progress]. replace (startPos - startPos) with 0 by ring.
    rewrite Z.add_0_r. exact H0.
  - intros j [[st1 o1] p1] Hj H1. unfold called in *. cbn [fst fill_progress] in *.
    replace (produced_before p seg r s l + (j + 1 - startPos))
      with (produced_before p seg r s l + (j - startPos) + 1) by ring.
    rewrite iter_succ.
    + rewrite H1. reflexivity.
    + subst startPos. apply produced_before_nonneg; try assumption; lia.
Qed.

Lemma argon2_segment_called r s st :
  0 <= r -> 0 <= s ->
  called (produced_before p seg r s 0) st ->
  called (produced_before p seg r (s + 1) 0) (argon2_segment ini r s st).
Proof.
  intros Hr Hs H0. unfold argon2_segment. cbv zeta.
  rewrite <- produced_before_segment by assumption.
  apply (forRange_invariant_ix (fun l st' => called (produced_before p seg r s l) st')).
  - subst p. lia.
  - unfold called. rewrite set_address_progress. exact H0.
  - intros l st' Hl H1. apply argon2_lane_called; assumption.
Qed.

Lemma argon2_pass_called r st :
  0 <= r ->
  called (produced_before p seg r 0 0) st ->
  called (produced_before p seg (r + 1) 0 0) (argon2_pass ini r st).
Proof.
  intros Hr H0. unfold argon2_pass. cbv zeta.
  rewrite <- produced_before_pass by assumption.
  apply (forRange_invariant_ix (fun s st' => called (produced_before p seg r s 0) st')).
  - unfold ARGON2_SYNC_POINTS. lia.
  - unfold called. rewrite set_address_progress. exact H0.
  - intros s st' Hs H1. apply argon2_segment_called; [assumption|lia|assumption].
Qed.

Lemma fill_called st :
  1 <= in_t ini ->
  fill_progress st = pg0 ->
  fill_progress (forRange 0 (in_t ini) (argon2_pass ini) st)
  = Nat.iter (Z.to_nat (produced_blocks ini)) (perBlock (in_perBlock ini)) pg0.
Proof.
  intros Ht1 H0.
  replace (produced_blocks ini) with (produced_before p seg (in_t ini) 0 0).
  2:{ unfold produced_blocks, produced_before, ARGON2_SYNC_POINTS. fold p seg.
      destruct (Z.eqb_spec (in_t ini) 0); cbn [andb Z.eqb]; try lia; ring. }
  apply (forRange_invariant_ix (fun r st' => called (produced_before p seg r 0 0) st')).
  - lia.
  - unfold called, produced_before. cbn [Z.eqb andb]. rewrite H0. reflexivity.
  - intros r st' Hr H1. apply argon2_pass_called; [lia|assumption].
Qed.

(** The cooperative driver: the closure and the clock after [k] produced
    blocks. *)
Variable host : Host.
Variable c0 : Z * nat * nat.

Let ticked (k : Z) (st : FillAsync) : Prop :=
  fill_progress (async_fill st)
  = Nat.iter (Z.to_nat k) (perBlock (in_perBlock ini)) pg0 /\
  async_clock st = Nat.iter (Z.to_nat k) (tick_clock host (in_asyncTick ini)) c0.

Lemma tick_progress asyncTick st :
  fill_progress (async_fill (tick host asyncTick st)) = fill_progress (async_fill st).
Proof.
  unfold tick. destruct st as [[[B a A] pg] ts reads yields].
  destruct (negb _); reflexivity.
Qed.

Lemma tick_async_clock asyncTick st :
  async_clock (tick host asyncTick st) = tick_clock host asyncTick (async_clock st).
Proof.
  unfold tick, tick_clock, async_clock. destruct st as [[[B a A] pg] ts reads yields].
  cbn [async_ts async_reads async_yields]. cbv zeta.
  destruct (negb _); reflexivity.
Qed.

Lemma argon2Async_lane_ticked r s l st :
  0 <= r -> 0 <= s -> 0 <= l < p ->
  ticked (produced_before p seg r s l) st ->
  ticked (produced_before p seg r s (l + 1)) (argon2Async_lane host ini r s l st).
Proof.
  intros Hr Hs Hl H0. unfold argon2Async_lane. cbv zeta.
  destruct st as [fl ts reads yields].
  pose proof (lane_start_startPos (fill_mem fl) r s l
                (dataIndependentAt (in_type ini) r s)) as Hsp.
  destruct (lane_start (fill_mem fl) r s l _) as [mem startPos]. cbn [snd] in Hsp.
  match goal with
  | |- context [forRange ?lo ?hi ?body ?init] =>
      pose proof (forRange_invariant_ix
                    (fun j (tr : FillAsync * Z * Z) =>
                       ticked (produced_before p seg r s l + (j - startPos))
                         (fst (fst tr)))
                    lo hi body init) as Hinv
  end.
  destruct (forRange _ _ _ _) as [[st' o] pv]. cbn [fst] in Hinv.
  rewrite <- produced_before_lane. rewrite <- Hsp. apply Hinv.
  - subst startPos. fold seg. destruct ((r =? 0) && (s =? 0)); lia.
  - unfold ticked in *. cbn [fst async_fill fill_progress] in *.
    replace (startPos - startPos) with 0 by ring.
    rewrite Z.add_0_r. exact H0.
  - intros j [[st1 o1] p1] Hj H1. unfold ticked in *. cbn [fst] in *.
    destruct st1 as [fl1 ts1 reads1 yields1]. cbn [async_fill] in H1.
    destruct H1 as [Hpg Hck].
    replace (produced_before p seg r s l + (j + 1 - startPos))
      with (produced_before p seg r s l + (j - startPos) + 1) by ring.
    assert (Hnn : 0 <= produced_before p seg r s l + (j - startPos)).
    { subst startPos. apply produced_before_nonneg; try assumption; lia. }
    rewrite !iter_succ by exact Hnn. cbn [fst].
    rewrite tick_progress, tick_async_clock. cbn [async_fill fill_progress].
    rewrite Hpg. split; [reflexivity|].
    rewrite <- Hck. reflexivity.
Qed.

Lemma set_address_async_ticked k st i v :
  ticked k st -> ticked k (set_address_async st i v).
Proof.
  unfold ticked, set_address_async. destruct st as [fl ts reads yields].
  cbn [async_fill]. rewrite set_address_progress. intros H. exact H.
Qed.

Lemma argon2Async_segment_ticked r s st :
  0 <= r -> 0 <= s ->
  ticked (produced_before p seg r s 0) st ->
  ticked (produced_before p seg r (s + 1) 0) (argon2Async_segment host ini r s st).
Proof.
  intros Hr Hs H0. unfold argon2Async_segment. cbv zeta.
  rewrite <- produced_before_segment by assumption.
  apply (forRange_invariant_ix (fun l st' => ticked (produced_before p seg r s l) st')).
  - subst p. lia.
  - apply set_address_async_ticked. exact H0.
  - intros l st' Hl H1. apply argon2Async_lane_ticked; assumption.
Qed.

Lemma argon2Async_pass_ticked r st :
  0 <= r ->
  ticked (produced_before p seg r 0 0) st ->
  ticked (produced_before p seg (r + 1) 0 0) (argon2Async_pass host ini r st).
Proof.
  intros Hr H0. unfold argon2Async_pass. cbv zeta.
  rewrite <- produced_before_pass by assumption.
  apply (forRange_invariant_ix (fun s st' => ticked (produced_before p seg r s 0) st')).
  - unfold ARGON2_SYNC_POINTS. lia.
  - apply set_address_async_ticked. exact H0.
  - intros s st' Hs H1. apply argon2Async_segment_ticked; [assumption|lia|assumption].
Qed.

Lemma fill_ticked st :
  1 <= in_t ini ->
  fill_progress (async_fill st) = pg0 -> async_clock st = c0 ->
  fill_progress (async_fill (forRange 0 (in_t ini) (argon2Async_pass host ini) st))
  = Nat.iter (Z.to_nat (produced_blocks ini)) (perBlock (in_perBlock ini)) pg0 /\
  async_clock (forRange 0 (in_t ini) (argon2Async_pass host ini) st)
  = Nat.iter (Z.to_nat (produced_blocks ini)) (tick_clock host (in_asyncTick ini)) c0.
Proof.
  intros Ht1 H0 H1.
  replace (produced_blocks ini) with (produced_before p seg (in_t ini) 0 0).
  2:{ unfold produced_blocks, produced_before, ARGON2_SYNC_POINTS. fold p seg.
      destruct (Z.eqb_spec (in_t ini) 0); cbn [andb Z.eqb]; try lia; ring. }
  apply (forRange_invariant_ix (fun r st' => ticked (produced_before p seg r 0 0) st')).
  - lia.
  - unfold ticked, produced_before. cbn [Z.eqb andb]. rewrite H0, H1. split; reflexivity.
  - intros r st' Hr Hst. apply argon2Async_pass_ticked; [lia|assumption].
Qed.

End Traversal.

(** ** What the closure has reported after [n] calls *)

Lemma iter_perBlock_none n pg : Nat.iter n (perBlock None) pg = pg.
Proof. induction n as [|n IH]; [reflexivity|]. cbn [Nat.iter nat_rect]. exact IH. Qed.

Lemma iter_perBlock_some c n :
  1 <= callbackPer c -> totalBlock c <= 2 ^ 53 -> Z.of_nat n < totalBlock c ->
  Nat.iter n (perBlock (Some c)) (mkProgress 0 [])
  = mkProgress (Z.of_nat n)
      (map (report c) (seq 1 (Z.to_nat (Z.of_nat n / callbackPer c)))).
Proof.
  intros Hper Hexact. induction n as [|n IH]; intros Hlt.
  - cbn [Nat.iter nat_rect]. rewrite Z.div_0_l by lia. reflexivity.
  - change (Nat.iter (S n) (perBlock (Some c)) (mkProgress 0 []))
      with (perBlock (Some c) (Nat.iter n (perBlock (Some c)) (mkProgress 0 []))).
    rewrite IH by lia. unfold perBlock. cbv zeta. cbn [blockCnt calls].
    unfold JS.inc. rewrite toNumber_exact by lia.
    replace (Z.of_nat n + 1) with (Z.of_nat (S n)) by lia.
    destruct (Z.eqb_spec (Z.of_nat (S n)) (totalBlock c)) as [E|_]; [lia|].
    rewrite orb_false_r. unfold JS.rem.
    rewrite Z.rem_mod_nonneg by lia.
    set (cp := callbackPer c) in *.
    assert (Hdiv : Z.of_nat (S n) = cp * (Z.of_nat (S n) / cp) + Z.of_nat (S n) mod cp)
      by (apply Z.div_mod; lia).
    assert (Hdiv' : Z.of_nat n = cp * (Z.of_nat n / cp) + Z.of_nat n mod cp)
      by (apply Z.div_mod; lia).
    assert (Hm : 0 <= Z.of_nat (S n) mod cp < cp) by (apply Z.mod_pos_bound; lia).
    assert (Hm' : 0 <= Z.of_nat n mod cp < cp) by (apply Z.mod_pos_bound; lia).
    assert (Hq : 0 <= Z.of_nat n / cp) by (apply Z.div_pos; lia).
    destruct (Z.eqb_spec (Z.of_nat (S n) mod cp) 0) as [E0|E0].
    + assert (Eq : Z.of_nat (S n) / cp = Z.of_nat n / cp + 1) by nia.
      rewrite Eq. rewrite Z2Nat.inj_add by lia.
      change (Z.to_nat 1) with 1%nat. rewrite Nat.add_1_r.
      rewrite seq_S, map_app. cbn [map]. f_equal. f_equal. f_equal.
      unfold report. fold cp.
      replace (Z.of_nat (1 + Z.to_nat (Z.of_nat n / cp)) * cp) with (Z.of_nat (S n));
        [reflexivity|].
      rewrite Nat2Z.inj_add. rewrite Z2Nat.id by lia. change (Z.of_nat 1) with 1. nia.
    + assert (Eq : Z.of_nat (S n) / cp = Z.of_nat n / cp) by nia.
      rewrite Eq. reflexivity.
Qed.

(** ** What the clock has seen after [n] ticks *)

Lemma iter_tick_clock_reads host asyncTick n c :
  snd (fst (Nat.iter n (tick_clock host asyncTick) c)) = (n + snd (fst c))%nat /\
  (snd c <= snd (Nat.iter n (tick_clock host asyncTick) c) <= n + snd c)%nat.
Proof.
  induction n as [|n IH]; [cbn; lia|].
  change (Nat.iter (S n) (tick_clock host asyncTick) c)
    with (tick_clock host asyncTick (Nat.iter n (tick_clock host asyncTick) c)).
  destruct (Nat.iter n (tick_clock host asyncTick) c) as [[ts reads] yields].
  cbn [fst snd] in IH. unfold tick_clock. cbv zeta.
  destruct (negb _); cbn [fst snd]; lia.
Qed.

Lemma iter_tick_clock_eager host asyncTick n c :
  asyncTick <= 0 ->
  snd (Nat.iter n (tick_clock host asyncTick) c) = (n + snd c)%nat.
Proof.
  intros Hle. induction n as [|n IH]; [reflexivity|].
  change (Nat.iter (S n) (tick_clock host asyncTick) c)
    with (tick_clock host asyncTick (Nat.iter n (tick_clock host asyncTick) c)).
  destruct (Nat.iter n (tick_clock host asyncTick) c) as [[ts reads] yields].
  cbn [snd] in IH. unfold tick_clock. cbv zeta.
  destruct (Z.leb_spec 0 (host_now host reads - ts)) as [H0|H0]; cbn [andb negb snd];
    [|lia].
  destruct (Z.ltb_spec (host_now host reads - ts) asyncTick) as [H1|H1]; cbn [negb snd];
    lia.
Qed.

Lemma iter_tick_clock_frozen host asyncTick n v reads yields :
  0 < asyncTick -> (forall k, host_now host k = v) ->
  Nat.iter n (tick_clock host asyncTick) (v, reads, yields) = (v, (n + reads)%nat, yields).
Proof.
  intros Hpos Hclock. induction n as [|n IH]; [reflexivity|].
  change (Nat.iter (S n) (tick_clock host asyncTick) (v, reads, yields))
    with (tick_clock host asyncTick (Nat.iter n (tick_clock host asyncTick) (v, reads, yields))).
  rewrite IH. unfold tick_clock. cbv zeta. rewrite Hclock.
  replace (v - v) with 0 by ring.
  replace (0 <? asyncTick) with true by (symmetry; apply Z.ltb_lt; lia).
  reflexivity.
Qed.

Section DriverFacts.

Context {Hasher : Blake2b}.

Lemma init_value_progress password salt type mg :
  init_error password salt type mg = None ->
  let ini := init_value password salt type mg in
  let q := mg_m mg / (4 * mg_p mg) in
  in_t ini = mg_t mg /\ in_p ini = mg_p mg /\ in_segmentLen ini = q /\
  in_asyncTick ini = mg_asyncTick mg /\
  in_perBlock ini = progress_closure (mg_onProgress mg) (mg_t mg) (mg_p mg) q /\
  1 <= mg_t mg /\ 1 <= mg_p mg /\ 2 <= q.
Proof.
  intros Herr. cbv zeta.
  apply init_error_none in Herr. destruct Herr as [_ [_ [_ [Hopt _]]]].
  apply option_error_none in Hopt. destruct Hopt as [_ [Hp [Hm [Ht [Hmp _]]]]].
  pose proof (geometry (mg_p mg) (mg_m mg) ltac:(lia) Hmp) as Hg. cbv zeta in Hg.
  unfold ARGON2_SYNC_POINTS in Hg. destruct Hg as [Hq [_ [_ Hseg]]].
  assert (Eseg : in_segmentLen (init_value password salt type mg)
                 = mg_m mg / (4 * mg_p mg)).
  { unfold init_value. cbv zeta. cbn [in_segmentLen]. unfold mP_of, ARGON2_SYNC_POINTS.
    exact Hseg. }
  repeat split; try lia; try exact Eseg.
  unfold init_value. cbv zeta. cbn [in_perBlock]. fold (mP_of mg).
  change (JS.floordiv (JS.floordiv (mP_of mg) (mg_p mg)) ARGON2_SYNC_POINTS)
    with (in_segmentLen (init_value password salt type mg)).
  rewrite Eseg. reflexivity.
Qed.

(** X16: while the total [T = 4 t p q] of the closure, with
    [q = floor(m / 4p)], is at most [2^53], the progress callback of a call
    that returns is called [floor((T - 2 p) / c)] times, where
    [c = max(floor(T / 10000), 1)], and the [j]-th call receives the double
    [j * c / T]. Without a callback nothing is reported. *)
Theorem progress_reports
    (type : Z) (password salt : list byte) (opts : ArgonOpts) (A2_BUF : list Z)
    (evs : list Event) (ret : Returned) :
  argon2 type password salt opts A2_BUF = (evs, Ok ret) ->
  let T := opt_t opts * 4 * opt_p opts * (opt_m opts / (4 * opt_p opts)) in
  let c := Z.max (T / 10000) 1 in
  T <= 2 ^ 53 ->
  reported ret =
  match opt_onProgress opts with
  | Callback =>
      map (fun j => JS.fdiv (Z.of_nat j * c) T)
        (seq 1 (Z.to_nat ((T - 2 * opt_p opts) / c)))
  | _ => []
  end.
Proof.
  intros Hrun. apply argon2_success in Hrun. destruct Hrun as [Herr ->].
  pose proof (init_value_progress password salt type (merge_defaults opts) Herr) as Hi.
  cbv zeta in Hi. cbn [merge_defaults mg_t mg_p mg_m mg_onProgress mg_asyncTick] in Hi.
  destruct Hi as [Et [Ep [Eseg [_ [Epb [Ht [Hp Hq]]]]]]].
  assert (Hbounds : opt_t opts < 2 ^ 32 /\
                    4 * opt_p opts * (opt_m opts / (4 * opt_p opts)) < 2 ^ 24).
  { pose proof Herr as Herr'. apply init_error_none in Herr'.
    destruct Herr' as [_ [_ [_ [Hopt [Hmax Hmem]]]]].
    apply option_error_none in Hopt.
    cbn [merge_defaults mg_t mg_p mg_m mg_maxmem] in Hopt, Hmax.
    unfold memUsed_of, mP_of, JS.floordiv, ARGON2_SYNC_POINTS in Hmem.
    cbn [merge_defaults mg_t mg_p mg_m mg_maxmem] in Hmem.
    change (2 ^ 32) with 4294967296. change (2 ^ 24) with 16777216. lia. }
  destruct Hbounds as [Ht32 Hm24].
  cbv zeta. intros HT53. unfold argon2_value, fill_result. cbv zeta. cbn [reported].
  set (ini := init_value password salt type (merge_defaults opts)) in *.
  clearbody ini.
  assert (Ht0 : 0 <= in_t ini) by lia.
  assert (Hp1 : 1 <= in_p ini) by lia.
  assert (Hs2 : 2 <= in_segmentLen ini) by (rewrite Eseg; exact Hq).
  rewrite (fill_called ini Ht0 Hp1 Hs2 (mkProgress 0 [])) by (try reflexivity; lia).
  rewrite Epb. unfold produced_blocks. rewrite Et, Ep, Eseg.
  unfold progress_closure, ARGON2_SYNC_POINTS.
  set (q := opt_m opts / (4 * opt_p opts)) in *.
  pose proof (accepted_closure (opt_t opts) (opt_p opts) q ltac:(lia) Hp Hq Hm24) as Hc.
  cbv zeta in Hc. destruct Hc as [_ [Hexact _]]. specialize (Hexact HT53).
  destruct (opt_onProgress opts); cbn [is_function];
    [rewrite iter_perBlock_none; reflexivity| |rewrite iter_perBlock_none; reflexivity].
  rewrite Hexact.
  set (T := opt_t opts * 4 * opt_p opts * q) in *.
  assert (Htq : 2 <= opt_t opts * q) by nia.
  assert (HT : 8 * opt_p opts <= T).
  { unfold T. replace (opt_t opts * 4 * opt_p opts * q)
      with (4 * opt_p opts * (opt_t opts * q)) by ring. nia. }
  clearbody T.
  rewrite floor_fdiv_10000 by lia.
  rewrite iter_perBlock_some.
  - cbn [calls callbackPer]. rewrite Z2Nat.id by lia. reflexivity.
  - cbn [callbackPer]. lia.
  - cbn [totalBlock]. exact HT53.
  - cbn [totalBlock]. rewrite Z2Nat.id by lia. lia.
Qed.

Lemma argon2Init_success password salt type opts evs ini :
  argon2Init password salt type opts = (evs, Ok ini) ->
  init_error password salt type (merge_defaults opts) = None /\
  ini = init_value password salt type (merge_defaults opts).
Proof.
  rewrite argon2Init_result.
  destruct (init_error password salt type (merge_defaults opts)) as [e|]; intros H;
    [discriminate|].
  split; [reflexivity|].
  apply (f_equal snd) in H. cbn [snd] in H. injection H as H. symmetry. exact H.
Qed.

Lemma cooperative_clock (host : Host) password salt type opts A2_BUF :
  init_error password salt type (merge_defaults opts) = None ->
  let ini := init_value password salt type (merge_defaults opts) in
  let n := opt_t opts * 4 * opt_p opts * (opt_m opts / (4 * opt_p opts)) - 2 * opt_p opts in
  0 <= n /\
  async_clock (fill_result_async host ini A2_BUF)
  = Nat.iter (Z.to_nat n) (tick_clock host (or_default (opt_asyncTick opts) 10))
      (host_now host 0%nat, 1%nat, 0%nat).
Proof.
  intros Herr.
  pose proof (init_value_progress password salt type (merge_defaults opts) Herr) as Hi.
  cbv zeta in Hi. cbn [merge_defaults mg_t mg_p mg_m mg_onProgress mg_asyncTick] in Hi.
  destruct Hi as [Et [Ep [Eseg [Etick [_ [Ht [Hp Hq]]]]]]].
  cbv zeta. unfold fill_result_async.
  set (ini := init_value password salt type (merge_defaults opts)) in *.
  clearbody ini.
  assert (Ht0 : 0 <= in_t ini) by lia.
  assert (Hp1 : 1 <= in_p ini) by lia.
  assert (Hs2 : 2 <= in_segmentLen ini) by (rewrite Eseg; exact Hq).
  split.
  - set (q := opt_m opts / (4 * opt_p opts)) in *.
    assert (Htq : 2 <= opt_t opts * q) by nia.
    replace (opt_t opts * 4 * opt_p opts * q)
      with (4 * opt_p opts * (opt_t opts * q)) by ring. nia.
  - match goal with
    | |- async_clock (forRange _ _ _ ?st) = _ =>
        pose proof (fill_ticked ini Ht0 Hp1 Hs2 (mkProgress 0 []) host
                      (host_now host 0%nat, 1%nat, 0%nat) st
                      ltac:(lia) eq_refl eq_refl) as [_ Hck]
    end.
    rewrite Hck. unfold produced_blocks, ARGON2_SYNC_POINTS.
    rewrite Et, Ep, Eseg, Etick. reflexivity.
Qed.

(** X17: in a cooperative call the clock is read once before the fill and
    once after every produced block, and control is given up at most once
    per produced block; [4 t p q - 2 p] blocks are produced, with
    [q = floor(m / 4p)]. *)
Theorem cooperative_reads_and_yields
    (host : Host) (type : Z) (password salt : list byte) (opts : ArgonOpts)
    (A2_BUF : list Z) (evs : list Event) (ini : Init) :
  argon2Init password salt type opts = (evs, Ok ini) ->
  let n := opt_t opts * 4 * opt_p opts * (opt_m opts / (4 * opt_p opts)) - 2 * opt_p opts in
  Z.of_nat (async_reads (fill_result_async host ini A2_BUF)) = n + 1 /\
  Z.of_nat (async_yields (fill_result_async host ini A2_BUF)) <= n.
Proof.
  intros Hinit. apply argon2Init_success in Hinit. destruct Hinit as [Herr ->].
  pose proof (cooperative_clock host password salt type opts A2_BUF Herr) as Hc.
  cbv zeta in Hc. destruct Hc as [Hn Hck]. cbv zeta.
  set (n := opt_t opts * 4 * opt_p opts * (opt_m opts / (4 * opt_p opts))
            - 2 * opt_p opts) in *.
  pose proof (iter_tick_clock_reads host (or_default (opt_asyncTick opts) 10)
                (Z.to_nat n) (host_now host 0%nat, 1%nat, 0%nat)) as [Hr Hy].
  rewrite <- Hck in Hr, Hy. unfold async_clock in Hr, Hy. cbn [fst snd] in Hr, Hy.
  clearbody n. split; lia.
Qed.

(** X18: with [asyncTick <= 0] (for instance [asyncTick: 0]) a cooperative
    call gives up control after every produced block. *)
Theorem cooperative_yields_every_block
    (host : Host) (type : Z) (password salt : list byte) (opts : ArgonOpts)
    (A2_BUF : list Z) (evs : list Event) (ini : Init) :
  argon2Init password salt type opts = (evs, Ok ini) ->
  or_default (opt_asyncTick opts) 10 <= 0 ->
  Z.of_nat (async_yields (fill_result_async host ini A2_BUF))
  = opt_t opts * 4 * opt_p opts * (opt_m opts / (4 * opt_p opts)) - 2 * opt_p opts.
Proof.
  intros Hinit Htick. apply argon2Init_success in Hinit. destruct Hinit as [Herr ->].
  pose proof (cooperative_clock host password salt type opts A2_BUF Herr) as Hc.
  cbv zeta in Hc. destruct Hc as [Hn Hck].
  set (n := opt_t opts * 4 * opt_p opts * (opt_m opts / (4 * opt_p opts))
            - 2 * opt_p opts) in *.
  pose proof (iter_tick_clock_eager host (or_default (opt_asyncTick opts) 10)
                (Z.to_nat n) (host_now host 0%nat, 1%nat, 0%nat) Htick) as Hy.
  rewrite <- Hck in Hy. unfold async_clock in Hy. cbn [fst snd] in Hy.
  clearbody n. lia.
Qed.

(** X19: while the clock does not advance, a cooperative call with a
    positive [asyncTick] never gives up control. *)
Theorem frozen_clock_never_yields
    (host : Host) (type : Z) (password salt : list byte) (opts : ArgonOpts)
    (A2_BUF : list Z) (evs : list Event) (ini : Init) (now : Z) :
  argon2Init password salt type opts = (evs, Ok ini) ->
  0 < or_default (opt_asyncTick opts) 10 ->
  (forall k, host_now host k = now) ->
  async_yields (fill_result_async host ini A2_BUF) = 0%nat.
Proof.
  intros Hinit Htick Hclock. apply argon2Init_success in Hinit.
  destruct Hinit as [Herr ->].
  pose proof (cooperative_clock host password salt type opts A2_BUF Herr) as Hc.
  cbv zeta in Hc. destruct Hc as [Hn Hck].
  rewrite Hclock in Hck.
  rewrite (iter_tick_clock_frozen host _ _ now 1%nat 0%nat Htick Hclock) in Hck.
  unfold async_clock in Hck. injection Hck as _ _ Hy. exact Hy.
Qed.

(** X20: a cooperative call returns what the blocking call returns for the
    same inputs, and more than the tag agrees: the progress callback
    receives the same fractions, and the matrix and every auxiliary buffer
    but the shared scratch end with the same contents, whatever the clock
    reads and whatever other tasks leave in the scratch. *)
Theorem cooperative_same_record
    (host : Host) (type : Z) (password salt : list byte) (opts : ArgonOpts)
    (A2_BUF A2_BUF' : list Z) (evs : list Event) (ret : Returned) :
  (forall k, length (host_scratch host k) = 256%nat) ->
  length A2_BUF = 256%nat -> length A2_BUF' = 256%nat ->
  argon2 type password salt opts A2_BUF' = (evs, Ok ret) ->
  exists ret',
    argon2Async host type password salt opts A2_BUF = (evs, Ok ret') /\
    output ret' = output ret /\ reported ret' = reported ret /\
    final_B ret' = final_B ret /\ final_address ret' = final_address ret /\
    final_B_final ret' = final_B_final ret /\
    final_BUF ret' = final_BUF ret /\ final_H0 ret' = final_H0 ret.
Proof.
  intros Hhost HA HA' Hrun.
  assert (Hevs : evs = [AllocMatrix (memUsed_of (merge_defaults opts))]).
  { rewrite argon2_result in Hrun.
    destruct (init_error password salt type (merge_defaults opts)); [discriminate|].
    apply (f_equal fst) in Hrun. cbn [fst] in Hrun. symmetry. exact Hrun. }
  apply argon2_success in Hrun. destruct Hrun as [Herr ->].
  pose proof (init_value_progress password salt type (merge_defaults opts) Herr) as Hi.
  cbv zeta in Hi. destruct Hi as [Et [Ep [Eseg [_ [_ [Ht [Hp Hq]]]]]]].
  unfold argon2Async. rewrite argon2Init_result, Herr. cbn [bind]. cbv zeta.
  set (ini := init_value password salt type (merge_defaults opts)) in *.
  assert (Ht0 : 0 <= in_t ini) by (rewrite Et; lia).
  assert (Hp1 : 1 <= in_p ini) by (rewrite Ep; lia).
  assert (Hs2 : 2 <= in_segmentLen ini) by (rewrite Eseg; exact Hq).
  assert (Ht1 : 1 <= in_t ini) by (rewrite Et; lia).
  fold (fill_result_async host ini A2_BUF).
  assert (Hsim : sim (fill_result_async host ini A2_BUF) (fill_result ini A2_BUF')).
  { unfold fill_result_async, fill_result.
    apply (fill_sim host ini ini Hhost (same_engine_refl ini)).
    unfold sim, same_data. cbn [async_fill fill_mem mem_B mem_address mem_A2_BUF].
    repeat split; try reflexivity; assumption. }
  assert (Hpg : fill_progress (async_fill (fill_result_async host ini A2_BUF))
                = fill_progress (fill_result ini A2_BUF')).
  { unfold fill_result_async, fill_result.
    match goal with
    | |- fill_progress (async_fill (forRange _ _ _ ?sa))
         = fill_progress (forRange _ _ _ ?sb) =>
        pose proof (fill_ticked ini Ht0 Hp1 Hs2 (mkProgress 0 []) host
                      (host_now host 0%nat, 1%nat, 0%nat) sa Ht1 eq_refl eq_refl)
          as [Hpr _];
        pose proof (fill_called ini Ht0 Hp1 Hs2 (mkProgress 0 []) sb Ht1 eq_refl) as Hpb
    end.
    rewrite Hpr, Hpb. reflexivity. }
  unfold sim, same_data in Hsim. destruct Hsim as [HB [Haddr _]].
  unfold argon2_value. cbv zeta.
  destruct (fill_result_async host ini A2_BUF) as [[[B address A2f] pg] ts reads yields].
  cbn [async_fill fill_mem fill_progress mem_B mem_address] in *.
  subst B address pg.
  destruct (argon2Output (mem_B (fill_mem (fill_result ini A2_BUF'))) (in_p ini)
              (in_laneLen ini) (in_dkLen ini)) as [res B_final].
  eexists. split; [rewrite Hevs; reflexivity|].
  cbn [output reported final_B final_address final_B_final final_BUF final_H0 fst snd].
  repeat split; reflexivity.
Qed.

End DriverFacts.

(** ** The quarter round as a map on words *)

Lemma word64_at_frame buf buf' j :
  load buf' (2 * j) = load buf (2 * j) -> load buf' (2 * j + 1) = load buf (2 * j + 1) ->
  word64_at buf' j = word64_at buf j.
Proof. intros H0 H1. unfold word64_at. rewrite H0, H1. reflexivity. Qed.

Lemma G_words (a b c d : Z) (buf : list Z) :
  0 <= a -> 0 <= b -> 0 <= c -> 0 <= d ->
  2 * a + 1 < len buf -> 2 * b + 1 < len buf ->
  2 * c + 1 < len buf -> 2 * d + 1 < len buf ->
  a <> b -> a <> c -> a <> d -> b <> c -> b <> d -> c <> d ->
  forall j, word64_at (G a b c d buf) j = G64 a b c d (word64_at buf) j.
Proof.
  intros Ha Hb Hc Hd La Lb Lc Ld Nab Nac Nad Nbc Nbd Ncd.
  assert (Hw : (word64_at (G a b c d buf) a, word64_at (G a b c d buf) b,
                word64_at (G a b c d buf) c, word64_at (G a b c d buf) d)
               = Ga (word64_at buf a) (word64_at buf b)
                   (word64_at buf c) (word64_at buf d)).
  { unfold word64_at, G. cbv zeta.
    repeat match goal with
           | |- context [match blamka ?x ?y ?z ?w with _ => _ end] =>
               let h := fresh "h" in
               let l := fresh "l" in
               let E := fresh "E" in
               pose proof (word64_blamka x y z w) as E;
               destruct (blamka x y z w) as [h l];
               cbn [hi lo] in E; cbv beta iota zeta
           end.
    read_back. rewrite !word64_toUint32.
    repeat first [ rewrite word64_rotr32 | rewrite word64_rotrS by lia
                 | rewrite word64_rotrB by lia | rewrite word64_xor ].
    repeat first [ rewrite word64_rotr32 in E0 | rewrite word64_xor in E0 ].
    repeat first [ rewrite word64_rotr32 in E1 | rewrite word64_rotrS in E1 by lia
                 | rewrite word64_xor in E1 ].
    repeat first [ rewrite word64_rotr32 in E2 | rewrite word64_rotrS in E2 by lia
                 | rewrite word64_xor in E2 ].
    rewrite E in E0. rewrite E, E0 in E1. rewrite E, E0, E1 in E2.
    rewrite E2, E1, E0, E.
    unfold Ga. cbv zeta. reflexivity. }
  assert (Hf : forall j, j <> a -> j <> b -> j <> c -> j <> d ->
                         word64_at (G a b c d buf) j = word64_at buf j).
  { intros j Ja Jb Jc Jd.
    apply word64_at_frame; unfold G; cbv zeta;
      repeat match goal with
             | |- context [match blamka ?x ?y ?z ?w with _ => _ end] =>
                 destruct (blamka x y z w); cbv beta iota zeta
             end;
      repeat rewrite load_store_neq by lia; reflexivity. }
  intros j. unfold G64.
  destruct (Ga (word64_at buf a) (word64_at buf b) (word64_at buf c) (word64_at buf d))
    as [[[x y] z] w].
  injection Hw as Hx Hy Hz Hw.
  destruct (Z.eqb_spec j a) as [->|Ja]; [exact Hx|].
  destruct (Z.eqb_spec j b) as [->|Jb]; [exact Hy|].
  destruct (Z.eqb_spec j c) as [->|Jc]; [exact Hz|].
  destruct (Z.eqb_spec j d) as [->|Jd]; [exact Hw|].
  apply Hf; assumption.
Qed.

(** ** Renaming the words of a quarter round *)

Section Renaming.

Variable sigma : Z -> Z.
Hypothesis sigma_inj :
  forall x y, 0 <= x < 16 -> 0 <= y < 16 -> sigma x = sigma y -> x = y.

Lemma G64_renamed a b c d F F' :
  0 <= a < 16 -> 0 <= b < 16 -> 0 <= c < 16 -> 0 <= d < 16 ->
  renamed sigma F F' ->
  renamed sigma (G64 (sigma a) (sigma b) (sigma c) (sigma d) F) (G64 a b c d F').
Proof.
  intros Ha Hb Hc Hd HF k Hk. unfold G64.
  rewrite (HF a Ha), (HF b Hb), (HF c Hc), (HF d Hd).
  destruct (Ga (F' a) (F' b) (F' c) (F' d)) as [[[x y] z] w].
  assert (E : forall e, 0 <= e < 16 -> (sigma k =? sigma e) = (k =? e)).
  { intros e He. destruct (Z.eqb_spec k e) as [->|Hne]; [apply Z.eqb_refl|].
    apply Z.eqb_neq. intros H. apply Hne. apply sigma_inj; assumption. }
  rewrite (E a Ha), (E b Hb), (E c Hc), (E d Hd), (HF k Hk). reflexivity.
Qed.

Lemma G64_elsewhere a b c d F j :
  0 <= a < 16 -> 0 <= b < 16 -> 0 <= c < 16 -> 0 <= d < 16 ->
  (forall k, 0 <= k < 16 -> j <> sigma k) ->
  G64 (sigma a) (sigma b) (sigma c) (sigma d) F j = F j.
Proof.
  intros Ha Hb Hc Hd Hj. unfold G64.
  destruct (Ga (F (sigma a)) (F (sigma b)) (F (sigma c)) (F (sigma d))) as [[[x y] z] w].
  pose proof (Hj a Ha). pose proof (Hj b Hb). pose proof (Hj c Hc). pose proof (Hj d Hd).
  destruct (Z.eqb_spec j (sigma a)); [contradiction|].
  destruct (Z.eqb_spec j (sigma b)); [contradiction|].
  destruct (Z.eqb_spec j (sigma c)); [contradiction|].
  destruct (Z.eqb_spec j (sigma d)); [contradiction|].
  reflexivity.
Qed.

End Renaming.

Lemma G64_same a b c d F F' :
  0 <= a < 16 -> 0 <= b < 16 -> 0 <= c < 16 -> 0 <= d < 16 ->
  renamed (fun k => k) F F' -> renamed (fun k => k) (G64 a b c d F) (G64 a b c d F').
Proof.
  intros Ha Hb Hc Hd HF.
  apply (G64_renamed (fun k => k)); try assumption. intros x y _ _ H. exact H.
Qed.

Lemma round64_same F F' k :
  (forall n, 0 <= n < 16 -> F n = F' n) -> 0 <= k < 16 -> round64 F k = round64 F' k.
Proof.
  intros HF Hk. unfold round64.
  apply (fun H => H k Hk).
  change (renamed (fun k => k)
            (G64 3 4 9 14 (G64 2 7 8 13 (G64 1 6 11 12 (G64 0 5 10 15
              (G64 3 7 11 15 (G64 2 6 10 14 (G64 1 5 9 13 (G64 0 4 8 12 F))))))))
            (G64 3 4 9 14 (G64 2 7 8 13 (G64 1 6 11 12 (G64 0 5 10 15
              (G64 3 7 11 15 (G64 2 6 10 14 (G64 1 5 9 13 (G64 0 4 8 12 F'))))))))).
  repeat (apply G64_same; [lia|lia|lia|lia|]).
  exact HF.
Qed.

Lemma G64_ext a b c d F F' :
  (forall k, F k = F' k) -> forall j, G64 a b c d F j = G64 a b c d F' j.
Proof.
  intros HF j. unfold G64. rewrite (HF a), (HF b), (HF c), (HF d).
  destruct (Ga (F' a) (F' b) (F' c) (F' d)) as [[[x y] z] w].
  rewrite (HF j). reflexivity.
Qed.

(** ** One call of [P] *)

Lemma not_in_cons_Z (x a : Z) l : ~ In x (a :: l) -> x <> a /\ ~ In x l.
Proof. cbn [In]. intros H. split; [intros ->; apply H; left; reflexivity|tauto]. Qed.

Lemma G_words_next a b c d (buf buf0 : list Z) F :
  holds_words buf0 F buf ->
  0 <= a -> 0 <= b -> 0 <= c -> 0 <= d ->
  2 * a + 1 < len buf0 -> 2 * b + 1 < len buf0 ->
  2 * c + 1 < len buf0 -> 2 * d + 1 < len buf0 ->
  a <> b -> a <> c -> a <> d -> b <> c -> b <> d -> c <> d ->
  holds_words buf0 (G64 a b c d F) (G a b c d buf).
Proof.
  intros [Hlen HF] Ha Hb Hc Hd La Lb Lc Ld Nab Nac Nad Nbc Nbd Ncd.
  split; [rewrite G_length; exact Hlen|].
  intros j. unfold len in *. rewrite <- Hlen in La, Lb, Lc, Ld.
  rewrite G_words by assumption. apply G64_ext. exact HF.
Qed.

Lemma P_words v00 v01 v02 v03 v04 v05 v06 v07 v08 v09 v10 v11 v12 v13 v14 v15 buf :
  NoDup [v00; v01; v02; v03; v04; v05; v06; v07; v08; v09; v10; v11; v12; v13; v14; v15] ->
  (forall v,
     In v [v00; v01; v02; v03; v04; v05; v06; v07; v08; v09; v10; v11; v12; v13; v14; v15] ->
     0 <= v /\ 2 * v + 1 < len buf) ->
  holds_words buf
    (G64 v03 v04 v09 v14 (G64 v02 v07 v08 v13 (G64 v01 v06 v11 v12 (G64 v00 v05 v10 v15
      (G64 v03 v07 v11 v15 (G64 v02 v06 v10 v14 (G64 v01 v05 v09 v13
        (G64 v00 v04 v08 v12 (word64_at buf)))))))))
    (P v00 v01 v02 v03 v04 v05 v06 v07 v08 v09 v10 v11 v12 v13 v14 v15 buf).
Proof.
  intros Hnd Hin.
  assert (R : forall k, (k < 16)%nat ->
            0 <= nth k [v00; v01; v02; v03; v04; v05; v06; v07;
                        v08; v09; v10; v11; v12; v13; v14; v15] 0
            /\ 2 * nth k [v00; v01; v02; v03; v04; v05; v06; v07;
                          v08; v09; v10; v11; v12; v13; v14; v15] 0 + 1 < len buf).
  { intros k Hk. apply Hin. apply nth_In. exact Hk. }
  pose proof (R 0%nat ltac:(lia)) as [? ?]. pose proof (R 1%nat ltac:(lia)) as [? ?].
  pose proof (R 2%nat ltac:(lia)) as [? ?]. pose proof (R 3%nat ltac:(lia)) as [? ?].
  pose proof (R 4%nat ltac:(lia)) as [? ?]. pose proof (R 5%nat ltac:(lia)) as [? ?].
  pose proof (R 6%nat ltac:(lia)) as [? ?]. pose proof (R 7%nat ltac:(lia)) as [? ?].
  pose proof (R 8%nat ltac:(lia)) as [? ?]. pose proof (R 9%nat ltac:(lia)) as [? ?].
  pose proof (R 10%nat ltac:(lia)) as [? ?]. pose proof (R 11%nat ltac:(lia)) as [? ?].
  pose proof (R 12%nat ltac:(lia)) as [? ?]. pose proof (R 13%nat ltac:(lia)) as [? ?].
  pose proof (R 14%nat ltac:(lia)) as [? ?]. pose proof (R 15%nat ltac:(lia)) as [? ?].
  cbn [nth] in *. clear R Hin.
  repeat match goal with
         | H : NoDup (_ :: _) |- _ => inversion H; clear H; subst
         end.
  repeat match goal with
         | H : ~ In _ (_ :: _) |- _ => apply not_in_cons_Z in H; destruct H
         end.
  unfold P. cbv zeta.
  repeat (apply G_words_next; [|assumption || (apply not_eq_sym; assumption) ..]).
  split; reflexivity.
Qed.

Lemma nth_injective (vs : list Z) :
  NoDup vs -> length vs = 16%nat ->
  forall x y, 0 <= x < 16 -> 0 <= y < 16 ->
              nth (Z.to_nat x) vs 0 = nth (Z.to_nat y) vs 0 -> x = y.
Proof.
  intros Hnd Hlen x y Hx Hy H.
  pose proof (proj1 (NoDup_nth vs 0) Hnd (Z.to_nat x) (Z.to_nat y)) as Hn.
  rewrite Hlen in Hn. specialize (Hn ltac:(lia) ltac:(lia) H). lia.
Qed.

Lemma P_round v00 v01 v02 v03 v04 v05 v06 v07 v08 v09 v10 v11 v12 v13 v14 v15 buf :
  NoDup [v00; v01; v02; v03; v04; v05; v06; v07; v08; v09; v10; v11; v12; v13; v14; v15] ->
  (forall v,
     In v [v00; v01; v02; v03; v04; v05; v06; v07; v08; v09; v10; v11; v12; v13; v14; v15] ->
     0 <= v /\ 2 * v + 1 < len buf) ->
  let sigma := fun k =>
    nth (Z.to_nat k)
      [v00; v01; v02; v03; v04; v05; v06; v07; v08; v09; v10; v11; v12; v13; v14; v15] 0 in
  let buf' := P v00 v01 v02 v03 v04 v05 v06 v07 v08 v09 v10 v11 v12 v13 v14 v15 buf in
  length buf' = length buf /\
  (forall k, 0 <= k < 16 ->
     word64_at buf' (sigma k) = round64 (fun n => word64_at buf (sigma n)) k) /\
  (forall j,
     ~ In j [v00; v01; v02; v03; v04; v05; v06; v07; v08; v09; v10; v11; v12; v13; v14; v15] ->
     word64_at buf' j = word64_at buf j).
Proof.
  intros Hnd Hin sigma buf'.
  destruct (P_words v00 v01 v02 v03 v04 v05 v06 v07 v08 v09 v10 v11 v12 v13 v14 v15 buf
              Hnd Hin) as [Hlen Hw].
  fold buf' in Hlen, Hw.
  assert (Hinj : forall x y, 0 <= x < 16 -> 0 <= y < 16 -> sigma x = sigma y -> x = y).
  { apply nth_injective; [exact Hnd|reflexivity]. }
  split; [exact Hlen|]. split.
  - intros k Hk. rewrite Hw. revert k Hk. unfold round64.
    change (renamed sigma
      (G64 (sigma 3) (sigma 4) (sigma 9) (sigma 14)
        (G64 (sigma 2) (sigma 7) (sigma 8) (sigma 13)
          (G64 (sigma 1) (sigma 6) (sigma 11) (sigma 12)
            (G64 (sigma 0) (sigma 5) (sigma 10) (sigma 15)
              (G64 (sigma 3) (sigma 7) (sigma 11) (sigma 15)
                (G64 (sigma 2) (sigma 6) (sigma 10) (sigma 14)
                  (G64 (sigma 1) (sigma 5) (sigma 9) (sigma 13)
                    (G64 (sigma 0) (sigma 4) (sigma 8) (sigma 12) (word64_at buf)))))))))
      (G64 3 4 9 14 (G64 2 7 8 13 (G64 1 6 11 12 (G64 0 5 10 15
        (G64 3 7 11 15 (G64 2 6 10 14 (G64 1 5 9 13
          (G64 0 4 8 12 (fun n => word64_at buf (sigma n))))))))))).
    repeat (apply (G64_renamed sigma Hinj); [lia|lia|lia|lia|]).
    intros k Hk. reflexivity.
  - intros j Hj. rewrite Hw.
    assert (Hout : forall k, 0 <= k < 16 -> j <> sigma k).
    { intros k Hk E. apply Hj. rewrite E. apply nth_In. cbn [length]. lia. }
    change (G64 (sigma 3) (sigma 4) (sigma 9) (sigma 14)
        (G64 (sigma 2) (sigma 7) (sigma 8) (sigma 13)
          (G64 (sigma 1) (sigma 6) (sigma 11) (sigma 12)
            (G64 (sigma 0) (sigma 5) (sigma 10) (sigma 15)
              (G64 (sigma 3) (sigma 7) (sigma 11) (sigma 15)
                (G64 (sigma 2) (sigma 6) (sigma 10) (sigma 14)
                  (G64 (sigma 1) (sigma 5) (sigma 9) (sigma 13)
                    (G64 (sigma 0) (sigma 4) (sigma 8) (sigma 12) (word64_at buf))))))))
        j = word64_at buf j).
    repeat (rewrite (G64_elsewhere sigma) by (lia || exact Hout)).
    reflexivity.
Qed.

(** ** Loops with a step *)

Lemma forStepN_invariant_ix {St : Type} (Inv : nat -> St -> Prop) n i step
    (body : Z -> St -> St) st :
  Inv 0%nat st ->
  (forall k st', (k < n)%nat -> Inv k st' -> Inv (S k) (body (i + Z.of_nat k * step) st')) ->
  Inv n (forStepN n i step body st).
Proof.
  revert Inv i st. induction n as [|n IH]; intros Inv i st H0 Hstep; cbn [forStepN].
  - exact H0.
  - apply (IH (fun k s => Inv (S k) s)).
    + replace i with (i + Z.of_nat 0 * step) at 1 by (cbn; ring).
      apply Hstep; [lia|exact H0].
    + intros k st' Hk H.
      replace (i + step + Z.of_nat k * step) with (i + Z.of_nat (S k) * step)
        by (rewrite Nat2Z.inj_succ; ring).
      apply Hstep; [lia|exact H].
Qed.

(** ** The two loops of the permutation *)

Ltac sixteen k :=
  let H := fresh in
  assert (H : k = 0 \/ k = 1 \/ k = 2 \/ k = 3 \/ k = 4 \/ k = 5 \/ k = 6 \/ k = 7 \/
              k = 8 \/ k = 9 \/ k = 10 \/ k = 11 \/ k = 12 \/ k = 13 \/ k = 14 \/ k = 15)
    by lia;
  repeat (destruct H as [H|H]; [subst k|]); [..|subst k];
  match goal with
  | |- context [Z.to_nat ?c] =>
      let n := eval vm_compute in (Z.to_nat c) in change (Z.to_nat c) with n
  end.

Lemma nth_run i k :
  0 <= k < 16 ->
  nth (Z.to_nat k)
    [i; i + 1; i + 2; i + 3; i + 4; i + 5; i + 6; i + 7;
     i + 8; i + 9; i + 10; i + 11; i + 12; i + 13; i + 14; i + 15] 0 = i + k.
Proof.
  intros Hk. sixteen k; cbn [nth]; lia.
Qed.

Lemma nth_strided i k :
  0 <= k < 16 ->
  nth (Z.to_nat k)
    [i; i + 1; i + 16; i + 17; i + 32; i + 33; i + 48; i + 49;
     i + 64; i + 65; i + 80; i + 81; i + 96; i + 97; i + 112; i + 113] 0
  = i + 16 * (k / 2) + k mod 2.
Proof.
  intros Hk. sixteen k; cbn [nth]; Z.to_euclidean_division_equations; lia.
Qed.

Ltac distinct_places :=
  repeat constructor; cbn [In]; lia.

Lemma runs_pass (buf : list Z) :
  length buf = 256%nat ->
  let buf' :=
    forStep 0 128 16 (fun i buf =>
      P i (i + 1) (i + 2) (i + 3) (i + 4) (i + 5) (i + 6) (i + 7)
        (i + 8) (i + 9) (i + 10) (i + 11) (i + 12) (i + 13) (i + 14) (i + 15) buf) buf in
  length buf' = 256%nat /\
  forall j, word64_at buf' j
            = if (0 <=? j) && (j <? 128) then permute_runs (word64_at buf) j
              else word64_at buf j.
Proof.
  intros Hlen. cbv zeta. unfold forStep.
  change (Z.to_nat ((128 - 0 + 16 - 1) / 16)) with 8%nat.
  set (Inv := fun (k : nat) (s : list Z) =>
    length s = 256%nat /\
    forall j, word64_at s j
              = if (0 <=? j) && (j <? 16 * Z.of_nat k) then permute_runs (word64_at buf) j
                else word64_at buf j).
  apply (forStepN_invariant_ix Inv).
  - split; [exact Hlen|]. intros j.
    destruct (Z.leb_spec 0 j), (Z.ltb_spec j (16 * Z.of_nat 0)); cbn [andb];
      try reflexivity; lia.
  - intros k s Hk [Hs Hw]. unfold Inv.
    set (i := 0 + Z.of_nat k * 16).
    assert (Hi : i = 16 * Z.of_nat k) by (unfold i; ring).
    destruct (P_round i (i + 1) (i + 2) (i + 3) (i + 4) (i + 5) (i + 6) (i + 7)
                (i + 8) (i + 9) (i + 10) (i + 11) (i + 12) (i + 13) (i + 14) (i + 15) s)
      as [Hlen' [Hin Hout]].
    + distinct_places.
    + intros v Hv. unfold len. rewrite Hs. change (Z.of_nat 256) with 256.
      cbn [In] in Hv. lia.
    + split; [rewrite Hlen'; exact Hs|]. intros j.
      destruct (Z.leb_spec i j) as [Hij|Hij]; [destruct (Z.ltb_spec j (i + 16)) as [Hj|Hj]|].
      * replace ((0 <=? j) && (j <? 16 * Z.of_nat (S k))) with true
          by (symmetry; apply andb_true_iff; split; [apply Z.leb_le|apply Z.ltb_lt]; lia).
        specialize (Hin (j - i) ltac:(lia)). rewrite nth_run in Hin by lia.
        replace (i + (j - i)) with j in Hin by ring. rewrite Hin.
        unfold permute_runs.
        replace (j mod 16) with (j - i) by (Z.to_euclidean_division_equations; lia).
        apply round64_same; [|lia]. intros n Hn. rewrite nth_run by lia. rewrite Hw.
        replace ((0 <=? i + n) && (i + n <? 16 * Z.of_nat k)) with false
          by (symmetry; apply andb_false_iff; right; apply Z.ltb_ge; lia).
        f_equal. Z.to_euclidean_division_equations; lia.
      * rewrite Hout by (cbn [In]; lia). rewrite Hw.
        destruct (Z.leb_spec 0 j), (Z.ltb_spec j (16 * Z.of_nat k)),
          (Z.ltb_spec j (16 * Z.of_nat (S k))); cbn [andb]; try reflexivity; lia.
      * rewrite Hout by (cbn [In]; lia). rewrite Hw.
        destruct (Z.leb_spec 0 j), (Z.ltb_spec j (16 * Z.of_nat k)),
          (Z.ltb_spec j (16 * Z.of_nat (S k))); cbn [andb]; try reflexivity; lia.
Qed.

Lemma strided_pass (buf : list Z) :
  length buf = 256%nat ->
  let buf' :=
    forStep 0 16 2 (fun i buf =>
      P i (i + 1) (i + 16) (i + 17) (i + 32) (i + 33) (i + 48) (i + 49)
        (i + 64) (i + 65) (i + 80) (i + 81) (i + 96) (i + 97) (i + 112) (i + 113) buf) buf in
  length buf' = 256%nat /\
  forall j, word64_at buf' j
            = if (0 <=? j) && (j <? 128) then permute_strided (word64_at buf) j
              else word64_at buf j.
Proof.
  intros Hlen. cbv zeta. unfold forStep.
  change (Z.to_nat ((16 - 0 + 2 - 1) / 2)) with 8%nat.
  set (Inv := fun (k : nat) (s : list Z) =>
    length s = 256%nat /\
    forall j, word64_at s j
              = if (0 <=? j) && (j <? 128) && (j mod 16 / 2 <? Z.of_nat k)
                then permute_strided (word64_at buf) j
                else word64_at buf j).
  assert (H8 : Inv 8%nat
    (forStepN 8 0 2 (fun i buf =>
      P i (i + 1) (i + 16) (i + 17) (i + 32) (i + 33) (i + 48) (i + 49)
        (i + 64) (i + 65) (i + 80) (i + 81) (i + 96) (i + 97) (i + 112) (i + 113) buf) buf)).
  2:{ destruct H8 as [H8 Hw]. split; [exact H8|]. intros j. rewrite Hw.
      destruct (Z.leb_spec 0 j), (Z.ltb_spec j 128); cbn [andb]; try reflexivity.
      replace (j mod 16 / 2 <? Z.of_nat 8) with true; [reflexivity|].
      symmetry. apply Z.ltb_lt. change (Z.of_nat 8) with 8.
      Z.to_euclidean_division_equations; lia. }
  apply (forStepN_invariant_ix Inv).
  - split; [exact Hlen|]. intros j.
    replace (j mod 16 / 2 <? Z.of_nat 0) with false; [rewrite andb_false_r; reflexivity|].
    symmetry. apply Z.ltb_ge. change (Z.of_nat 0) with 0.
    Z.to_euclidean_division_equations; lia.
  - intros k s Hk [Hs Hw]. unfold Inv.
    set (i := 0 + Z.of_nat k * 2).
    assert (Hi : i = 2 * Z.of_nat k) by (unfold i; ring).
    destruct (P_round i (i + 1) (i + 16) (i + 17) (i + 32) (i + 33) (i + 48) (i + 49)
                (i + 64) (i + 65) (i + 80) (i + 81) (i + 96) (i + 97) (i + 112) (i + 113) s)
      as [Hlen' [Hin Hout]].
    + distinct_places.
    + intros v Hv. unfold len. rewrite Hs. change (Z.of_nat 256) with 256.
      cbn [In] in Hv. lia.
    + split; [rewrite Hlen'; exact Hs|]. intros j.
      destruct ((0 <=? j) && (j <? 128)) eqn:Hrange; cbn [andb].
      * apply andb_true_iff in Hrange. destruct Hrange as [H0 H128].
        apply Z.leb_le in H0. apply Z.ltb_lt in H128.
        destruct (Z.eq_dec (j mod 16 / 2) (Z.of_nat k)) as [Hg|Hg].
        -- replace (j mod 16 / 2 <? Z.of_nat (S k)) with true
             by (symmetry; apply Z.ltb_lt; lia).
           assert (Hn : 0 <= 2 * (j / 16) + j mod 2 < 16)
             by (Z.to_euclidean_division_equations; lia).
           specialize (Hin (2 * (j / 16) + j mod 2) Hn).
           rewrite nth_strided in Hin by exact Hn.
           replace (i + 16 * ((2 * (j / 16) + j mod 2) / 2) + (2 * (j / 16) + j mod 2) mod 2)
             with j in Hin by (Z.to_euclidean_division_equations; lia).
           rewrite Hin. unfold permute_strided.
           apply round64_same; [|exact Hn]. intros n Hn'.
           rewrite nth_strided by exact Hn'. rewrite Hw.
           replace ((i + 16 * (n / 2) + n mod 2) mod 16 / 2 <? Z.of_nat k) with false
             by (symmetry; apply Z.ltb_ge; Z.to_euclidean_division_equations; lia).
           rewrite andb_false_r. f_equal. rewrite Hg. lia.
        -- rewrite Hout by (cbn [In]; Z.to_euclidean_division_equations; lia).
           rewrite Hw.
           replace ((0 <=? j) && (j <? 128)) with true
             by (symmetry; apply andb_true_iff; split; [apply Z.leb_le|apply Z.ltb_lt]; lia).
           cbn [andb].
           destruct (Z.ltb_spec (j mod 16 / 2) (Z.of_nat k)),
             (Z.ltb_spec (j mod 16 / 2) (Z.of_nat (S k))); try reflexivity; lia.
      * rewrite Hout; [rewrite Hw, Hrange; reflexivity|].
        apply andb_false_iff in Hrange. cbn [In].
        destruct Hrange as [H|H]; [apply Z.leb_gt in H|apply Z.ltb_ge in H]; lia.
Qed.

Lemma permute_runs_same F F' j :
  (forall i, 0 <= i < 128 -> F i = F' i) -> 0 <= j < 128 ->
  permute_runs F j = permute_runs F' j.
Proof.
  intros HF Hj. unfold permute_runs.
  apply round64_same; [|Z.to_euclidean_division_equations; lia].
  intros n Hn. apply HF. Z.to_euclidean_division_equations; lia.
Qed.

Lemma permute_strided_same F F' j :
  (forall i, 0 <= i < 128 -> F i = F' i) -> 0 <= j < 128 ->
  permute_strided F j = permute_strided F' j.
Proof.
  intros HF Hj. unfold permute_strided.
  apply round64_same; [|Z.to_euclidean_division_equations; lia].
  intros n Hn. apply HF. Z.to_euclidean_division_equations; lia.
Qed.

Lemma block_permute_words (buf : list Z) (F : Z -> Z) :
  length buf = 256%nat ->
  (forall i, 0 <= i < 128 -> word64_at buf i = F i) ->
  forall j, 0 <= j < 128 ->
    word64_at (block_permute buf) j = permute_strided (permute_runs F) j.
Proof.
  intros Hlen HF. unfold block_permute. cbv zeta.
  destruct (runs_pass buf Hlen) as [H1 W1]. cbv zeta in H1, W1.
  destruct (strided_pass _ H1) as [H2 W2]. cbv zeta in H2, W2.
  intros j Hj. rewrite W2.
  replace ((0 <=? j) && (j <? 128)) with true
    by (symmetry; apply andb_true_iff; split; [apply Z.leb_le|apply Z.ltb_lt]; lia).
  apply permute_strided_same; [|exact Hj]. intros i Hi. rewrite W1.
  replace ((0 <=? i) && (i <? 128)) with true
    by (symmetry; apply andb_true_iff; split; [apply Z.leb_le|apply Z.ltb_lt]; lia).
  apply permute_runs_same; [exact HF|exact Hi].
Qed.

(** X21: on 64-bit words, the two loops of [block] over the scratch are the
    permutation of the specification: the round on each of the eight runs of
    sixteen consecutive words, then the round on each of the eight strided
    groups (the pairs of words [2g, 2g + 1] of every run). *)
Theorem block_permute_is_the_permutation (buf : list Z) :
  length buf = 256%nat ->
  length (block_permute buf) = 256%nat /\
  forall j, 0 <= j < 128 ->
    word64_at (block_permute buf) j = permute_strided (permute_runs (word64_at buf)) j.
Proof.
  intros Hlen. split.
  - rewrite block_permute_length. exact Hlen.
  - apply block_permute_words; [exact Hlen|]. intros i _. reflexivity.
Qed.

(** X22: on 64-bit words, [block] is the compression function of the
    specification: word [J] of the output block becomes
    [P(X xor Y) xor X xor Y] at [J], where [X] and [Y] are the two source
    blocks and [P] is the permutation; when [needXor] is set the old word of
    the output block is xored in. A source block may be the output block
    itself or lie apart from it. *)
Theorem block_is_the_compression
    (x : list Z) (xPos yPos outPos : Z) (needXor : bool) (A2_BUF : list Z) :
  length A2_BUF = 256%nat ->
  0 <= outPos -> outPos + 256 <= len x ->
  outPos <= xPos \/ xPos + 256 <= outPos ->
  outPos <= yPos \/ yPos + 256 <= outPos ->
  forall J, 0 <= J < 128 ->
    word64_of_block (fst (block x xPos yPos outPos needXor A2_BUF)) outPos J
    = if needXor
      then Z.lxor (word64_of_block x outPos J)
             (compress64 (word64_of_block x xPos) (word64_of_block x yPos) J)
      else compress64 (word64_of_block x xPos) (word64_of_block x yPos) J.
Proof.
  intros HA Hout Hfit Hx Hy J HJ. rewrite block_eq. cbv zeta. cbn [fst].
  rewrite (block_scratch_load_value x xPos yPos A2_BUF HA).
  set (L := map (fun k => JS.toUint32 (JS.xor (load x (xPos + Z.of_nat k))
                                          (load x (yPos + Z.of_nat k)))) (seq 0 256)).
  assert (HL : length L = 256%nat) by (unfold L; rewrite length_map, length_seq; reflexivity).
  assert (HR : forall i, 0 <= i < 128 ->
            word64_at L i
            = Z.lxor (word64_of_block x xPos i) (word64_of_block x yPos i)).
  { intros i Hi. unfold word64_at, word64_of_block, L.
    rewrite !load_map_seq by (change (Z.of_nat 256) with 256; lia).
    rewrite !Z2Nat.id by lia. rewrite word64_toUint32. apply word64_xor. }
  pose proof (block_permute_words L _ HL HR J HJ) as HS.
  destruct (block_output_value x xPos yPos outPos needXor (block_permute L)
              Hout Hfit Hx Hy) as [_ Hload].
  unfold word64_of_block at 1. rewrite !Hload.
  replace ((outPos <=? outPos + (2 * J + 1)) && (outPos + (2 * J + 1) <? outPos + 256))
    with true
    by (symmetry; apply andb_true_iff; split; [apply Z.leb_le|apply Z.ltb_lt]; lia).
  replace ((outPos <=? outPos + 2 * J) && (outPos + 2 * J <? outPos + 256)) with true
    by (symmetry; apply andb_true_iff; split; [apply Z.leb_le|apply Z.ltb_lt]; lia).
  replace (outPos + (2 * J + 1) - outPos) with (2 * J + 1) by ring.
  replace (outPos + 2 * J - outPos) with (2 * J) by ring.
  rewrite word64_toUint32. unfold compress64. rewrite <- HS. unfold word64_at.
  destruct needXor; rewrite !word64_xor; unfold word64_of_block;
    rewrite ?Z.lxor_assoc; reflexivity.
Qed.

(** * The further properties at concrete inputs *)

(** [{ t: 1, m: 8, p: 1, onProgress: 5 }] is refused: the callback is not
    a function. *)
Example callback_must_be_a_function :
  @argon2 ToyHasher AT_Argon2id [] salt8
    (mkOpts 1 8 1 None None None None None None NotAFunction) (zeros 256)
  = ([], Throw InvalidProgressCallback).
Proof. rewrite argon2_result. reflexivity. Qed.

Lemma oversized_password_rejected_witness :
  @argon2 ToyHasher AT_Argon2id (repeat x00 (Z.to_nat 4294967296)) salt8 opts_min
    (zeros 256) = ([], Throw InputTooLarge) /\
  @argon2Async ToyHasher host7 AT_Argon2id (repeat x00 (Z.to_nat 4294967296)) salt8
    opts_min (zeros 256) = ([], Throw InputTooLarge).
Proof.
  apply oversized_password_rejected.
  unfold len. rewrite repeat_length. rewrite Z2Nat.id; lia.
Defined.

Lemma short_salt_rejected_witness :
  @argon2 ToyHasher AT_Argon2id [] [x01; x02; x03] opts_min (zeros 256)
  = ([], Throw InvalidSalt) /\
  @argon2Async ToyHasher host7 AT_Argon2id [] [x01; x02; x03] opts_min (zeros 256)
  = ([], Throw InvalidSalt).
Proof. apply short_salt_rejected; vm_compute; reflexivity. Defined.

Lemma accepted_geometry_witness :
  in_mP (@init_value ToyHasher [] salt8 AT_Argon2id (merge_defaults opts_min)) = 8 /\
  in_laneLen (@init_value ToyHasher [] salt8 AT_Argon2id (merge_defaults opts_min)) = 8 /\
  in_segmentLen (@init_value ToyHasher [] salt8 AT_Argon2id (merge_defaults opts_min)) = 2 /\
  len (in_B (@init_value ToyHasher [] salt8 AT_Argon2id (merge_defaults opts_min))) = 2048.
Proof.
  assert (Hrun :
    @argon2Init ToyHasher [] salt8 AT_Argon2id opts_min
    = ([AllocMatrix 2048],
       Ok (@init_value ToyHasher [] salt8 AT_Argon2id (merge_defaults opts_min))))
    by (rewrite argon2Init_result; reflexivity).
  pose proof (@accepted_geometry ToyHasher _ _ _ _ _ _ Hrun) as H.
  cbn [opt_p opt_m opts_min] in H.
  repeat split; lia.
Defined.

Lemma block_writes_one_block_witness :
  length (fst (block (repeat 1 512) 0 256 256 true (zeros 256))) = length (repeat 1 512) /\
  forall j, load (fst (block (repeat 1 512) 0 256 256 true (zeros 256))) j
            = if (256 <=? j) && (j <? 256 + 256)
              then block_word (repeat 1 512) 0 256 256 true (j - 256)
              else load (repeat 1 512) j.
Proof.
  apply (block_writes_one_block (repeat 1 512) 0 256 256 true (zeros 256));
    [reflexivity|lia|vm_compute; discriminate|lia|lia].
Defined.

Lemma G_is_the_quarter_round_witness :
  (word64_at (G 0 1 2 3 [1; 0; 2; 0; 3; 0; 4; 0]) 0,
   word64_at (G 0 1 2 3 [1; 0; 2; 0; 3; 0; 4; 0]) 1,
   word64_at (G 0 1 2 3 [1; 0; 2; 0; 3; 0; 4; 0]) 2,
   word64_at (G 0 1 2 3 [1; 0; 2; 0; 3; 0; 4; 0]) 3)
  = Ga (word64_at [1; 0; 2; 0; 3; 0; 4; 0] 0) (word64_at [1; 0; 2; 0; 3; 0; 4; 0] 1)
       (word64_at [1; 0; 2; 0; 3; 0; 4; 0] 2) (word64_at [1; 0; 2; 0; 3; 0; 4; 0] 3).
Proof.
  apply (G_is_the_quarter_round 0 1 2 3 [1; 0; 2; 0; 3; 0; 4; 0]);
    first [lia | reflexivity].
Defined.

Lemma Hp_refines_H_prime_witness :
  len (@H_prime ToyHasher (u8 (Uint32Array [1; 2])) 65) = 65 /\
  @Hp ToyHasher [1; 2] 65
  = (if 65 <=? 64 then Uint8Array (@H_prime ToyHasher (u8 (Uint32Array [1; 2])) 65)
     else Uint32Array (u32 (@H_prime ToyHasher (u8 (Uint32Array [1; 2])) 65))) /\
  u8 (@Hp ToyHasher [1; 2] 65)
  = if 65 <=? 64 then @H_prime ToyHasher (u8 (Uint32Array [1; 2])) 65
    else firstn (Z.to_nat (4 * (65 / 4))) (@H_prime ToyHasher (u8 (Uint32Array [1; 2])) 65).
Proof. apply (@Hp_refines_H_prime ToyHasher [1; 2] 65). lia. Defined.

Lemma indexAlpha_is_exact_witness :
  indexAlpha 1 2 8 2 1 4000000000 false = reference_position 1 2 8 2 1 4000000000 false.
Proof.
  apply indexAlpha_is_exact; first [lia | reflexivity | (cbn; lia)].
Defined.

Lemma matrix_is_seeded_witness :
  load (in_B (@init_value ToyHasher [] salt8 AT_Argon2id (merge_defaults opts_min)))
    (256 * (in_laneLen (@init_value ToyHasher [] salt8 AT_Argon2id (merge_defaults opts_min))
            * 0 + 1) + 5)
  = if 1 <? 2
    then load (@seed_block ToyHasher
                 (@blake2b ToyHasher 64
                    (H0_preimage [] salt8 [] [] 1 32 8 1 19 AT_Argon2id)) 1 0) 5
    else 0.
Proof.
  assert (Hrun :
    @argon2Init ToyHasher [] salt8 AT_Argon2id opts_min
    = ([AllocMatrix 2048],
       Ok (@init_value ToyHasher [] salt8 AT_Argon2id (merge_defaults opts_min))))
    by (rewrite argon2Init_result; reflexivity).
  apply (@matrix_is_seeded ToyHasher _ _ _ _ _ _ Hrun 0 1 5);
    [split; [lia|reflexivity]|split; [lia|reflexivity]|lia].
Defined.

(** With neither key nor personalization, the message hashed into [H_0]
    ends with two zero lengths. *)
Lemma C10_absent_field_witness :
  load (in_B (@init_value ToyHasher [] salt8 AT_Argon2id
                (merge_defaults (with_key opts_min None None))))
    (256 * (in_laneLen (@init_value ToyHasher [] salt8 AT_Argon2id
                          (merge_defaults (with_key opts_min None None)))
            * 0 + 1) + 5)
  = if 1 <? 2
    then load (@seed_block ToyHasher
                 (@blake2b ToyHasher 64
                    (LE32 1 ++ LE32 32 ++ LE32 8 ++ LE32 1 ++ LE32 19 ++ LE32 AT_Argon2id
                     ++ LE32 (len (@nil byte)) ++ [] ++ LE32 (len salt8) ++ salt8
                     ++ LE32 0 ++ LE32 0)) 1 0) 5
    else 0.
Proof.
  assert (Hrun :
    @argon2Init ToyHasher [] salt8 AT_Argon2id (with_key opts_min None None)
    = ([AllocMatrix 2048],
       Ok (@init_value ToyHasher [] salt8 AT_Argon2id
             (merge_defaults (with_key opts_min None None)))))
    by (rewrite argon2Init_result; reflexivity).
  apply (proj2 (@C10_absent_field_is_empty ToyHasher host7 AT_Argon2id [] salt8 opts_min
                  (zeros 256) None None) _ _ Hrun 0 1 5);
    [split; [lia|reflexivity]|split; [lia|reflexivity]|lia].
Defined.

Lemma output_hashes_last_column_witness :
  @argon2Output ToyHasher (repeat 7 2048) 1 8 32
  = (if 32 <=? 64
     then @H_prime ToyHasher (u8 (Uint32Array (last_column_xor (repeat 7 2048) 1 8))) 32
     else firstn (Z.to_nat (4 * (32 / 4)))
            (@H_prime ToyHasher (u8 (Uint32Array (last_column_xor (repeat 7 2048) 1 8))) 32),
     repeat 0 256).
Proof. apply (@output_hashes_last_column ToyHasher (repeat 7 2048) 1 8 32); lia. Defined.

Lemma block_scratch_is_private_witness :
  fst (block (repeat 1 512) 0 256 256 false (repeat 9 256))
  = fst (block (repeat 1 512) 0 256 256 false (zeros 256)) /\
  snd (block (repeat 1 512) 0 256 256 false (repeat 9 256)) = repeat 0 256.
Proof. apply block_scratch_is_private; reflexivity. Defined.

Lemma processBlock_writes_one_block_witness :
  exists randL randH,
    length (mem_B (processBlock (mkMem (repeat 1 2048) (zeros 768) (zeros 256))
                     0 0 0 2 8 2 1 2 1 false false))
    = length (repeat 1 2048) /\
    (forall j,
        load (mem_B (processBlock (mkMem (repeat 1 2048) (zeros 768) (zeros 256))
                       0 0 0 2 8 2 1 2 1 false false)) j
        = if (256 * 2 <=? j) && (j <? 256 * 2 + 256)
          then block_word (repeat 1 2048) (256 * prevOf 2 8 1)
                 (256 * refBlockOf 0 0 0 2 8 2 1 randL randH) (256 * 2) false
                 (j - 256 * 2)
          else load (repeat 1 2048) j) /\
    (false = false ->
     randL = load (repeat 1 2048) (256 * prevOf 2 8 1) /\
     randH = load (repeat 1 2048) (256 * prevOf 2 8 1 + 1) /\
     mem_address (processBlock (mkMem (repeat 1 2048) (zeros 768) (zeros 256))
                    0 0 0 2 8 2 1 2 1 false false)
     = mem_address (mkMem (repeat 1 2048) (zeros 768) (zeros 256))).
Proof.
  apply (processBlock_writes_one_block (mkMem (repeat 1 2048) (zeros 768) (zeros 256))
           0 0 0 2 8 2 1 2 1 false false);
    [reflexivity|lia|vm_compute; discriminate].
Defined.

Lemma progress_reports_witness :
  reported
    (@argon2_value ToyHasher
       (@init_value ToyHasher [] salt8 AT_Argon2id (merge_defaults opts_twelve))
       (zeros 256))
  = map (fun j => JS.fdiv (Z.of_nat j * Z.max (1 * 4 * 1 * (12 / (4 * 1)) / 10000) 1)
                    (1 * 4 * 1 * (12 / (4 * 1))))
      (seq 1 (Z.to_nat ((1 * 4 * 1 * (12 / (4 * 1)) - 2 * 1)
                        / Z.max (1 * 4 * 1 * (12 / (4 * 1)) / 10000) 1))).
Proof.
  assert (Hrun :
    @argon2 ToyHasher AT_Argon2id [] salt8 opts_twelve (zeros 256)
    = ([AllocMatrix 3072],
       Ok (@argon2_value ToyHasher
             (@init_value ToyHasher [] salt8 AT_Argon2id (merge_defaults opts_twelve))
             (zeros 256))))
    by (rewrite argon2_result; reflexivity).
  apply (@progress_reports ToyHasher _ _ _ _ _ _ _ Hrun).
  vm_compute. discriminate.
Defined.

(** The first of these ten numbers is the double nearest to 1/12. *)
Example first_report_of_twelve :
  JS.fdiv (Z.of_nat 1 * Z.max (1 * 4 * 1 * (12 / (4 * 1)) / 10000) 1)
    (1 * 4 * 1 * (12 / (4 * 1)))
  = (6004799503160661 # 72057594037927936)%Q.
Proof. vm_compute. reflexivity. Qed.

Lemma cooperative_reads_and_yields_witness :
  Z.of_nat (async_reads
              (fill_result_async host7
                 (@init_value ToyHasher [] salt8 AT_Argon2id (merge_defaults opts_min))
                 (zeros 256))) = 1 * 4 * 1 * (8 / (4 * 1)) - 2 * 1 + 1 /\
  Z.of_nat (async_yields
              (fill_result_async host7
                 (@init_value ToyHasher [] salt8 AT_Argon2id (merge_defaults opts_min))
                 (zeros 256))) <= 1 * 4 * 1 * (8 / (4 * 1)) - 2 * 1.
Proof.
  assert (Hrun :
    @argon2Init ToyHasher [] salt8 AT_Argon2id opts_min
    = ([AllocMatrix 2048],
       Ok (@init_value ToyHasher [] salt8 AT_Argon2id (merge_defaults opts_min))))
    by (rewrite argon2Init_result; reflexivity).
  exact (@cooperative_reads_and_yields ToyHasher host7 _ _ _ _ (zeros 256) _ _ Hrun).
Defined.

Lemma cooperative_yields_every_block_witness :
  Z.of_nat (async_yields
              (fill_result_async host7
                 (@init_value ToyHasher [] salt8 AT_Argon2id (merge_defaults opts_eager))
                 (zeros 256))) = 1 * 4 * 1 * (8 / (4 * 1)) - 2 * 1.
Proof.
  assert (Hrun :
    @argon2Init ToyHasher [] salt8 AT_Argon2id opts_eager
    = ([AllocMatrix 2048],
       Ok (@init_value ToyHasher [] salt8 AT_Argon2id (merge_defaults opts_eager))))
    by (rewrite argon2Init_result; reflexivity).
  apply (@cooperative_yields_every_block ToyHasher host7 _ _ _ _ (zeros 256) _ _ Hrun).
  cbn. lia.
Defined.

Lemma frozen_clock_never_yields_witness :
  async_yields
    (fill_result_async host_frozen
       (@init_value ToyHasher [] salt8 AT_Argon2id (merge_defaults opts_min))
       (zeros 256)) = 0%nat.
Proof.
  assert (Hrun :
    @argon2Init ToyHasher [] salt8 AT_Argon2id opts_min
    = ([AllocMatrix 2048],
       Ok (@init_value ToyHasher [] salt8 AT_Argon2id (merge_defaults opts_min))))
    by (rewrite argon2Init_result; reflexivity).
  apply (@frozen_clock_never_yields ToyHasher host_frozen _ _ _ _ (zeros 256) _ _ 1000 Hrun).
  - cbn. lia.
  - intros k. reflexivity.
Defined.

Lemma cooperative_same_record_witness :
  exists ret',
    @argon2Async ToyHasher host7 AT_Argon2id [] salt8 opts_progress (repeat 9 256)
    = ([AllocMatrix 2048], Ok ret') /\
    output ret'
    = output (@argon2_value ToyHasher
                (@init_value ToyHasher [] salt8 AT_Argon2id (merge_defaults opts_progress))
                (zeros 256)) /\
    reported ret'
    = reported (@argon2_value ToyHasher
                  (@init_value ToyHasher [] salt8 AT_Argon2id (merge_defaults opts_progress))
                  (zeros 256)).
Proof.
  assert (Hrun :
    @argon2 ToyHasher AT_Argon2id [] salt8 opts_progress (zeros 256)
    = ([AllocMatrix 2048],
       Ok (@argon2_value ToyHasher
             (@init_value ToyHasher [] salt8 AT_Argon2id (merge_defaults opts_progress))
             (zeros 256))))
    by (rewrite argon2_result; reflexivity).
  destruct (@cooperative_same_record ToyHasher host7 AT_Argon2id [] salt8 opts_progress
              (repeat 9 256) (zeros 256) _ _
              (fun k => eq_refl) eq_refl eq_refl Hrun)
    as [ret' [Ha [Ho [Hr _]]]].
  exists ret'. split; [exact Ha|]. split; [exact Ho|exact Hr].
Defined.

Lemma block_permute_is_the_permutation_witness :
  length (block_permute (repeat 1 256)) = 256%nat /\
  forall j, 0 <= j < 128 ->
    word64_at (block_permute (repeat 1 256)) j
    = permute_strided (permute_runs (word64_at (repeat 1 256))) j.
Proof.
  apply (block_permute_is_the_permutation (repeat 1 256)). reflexivity.
Defined.

Lemma block_is_the_compression_witness :
  word64_of_block (fst (block (repeat 1 512) 0 256 256 true (zeros 256))) 256 5
  = Z.lxor (word64_of_block (repeat 1 512) 256 5)
      (compress64 (word64_of_block (repeat 1 512) 0) (word64_of_block (repeat 1 512) 256) 5).
Proof.
  apply (block_is_the_compression (repeat 1 512) 0 256 256 true (zeros 256));
    [reflexivity|lia|vm_compute; discriminate|lia|lia|lia].
Defined.
